(** * SurgeryGame: the tick engine of the lattice-surgery visualizer

    A shallow embedding of [src/lattice.tsx]: the geometry utilities, the
    runtime state with its patch objects, [cloneRuntimeState],
    [prepareTick], [advanceInterpolations], [commitActions], and the two
    drivers of the component, the frame callback and [stepOnce].

    - A JavaScript [number] is an IEEE 754 binary64 value: [float], with the
      kernel's primitive operations.  [deepCopy] is a JSON round trip, which
      turns [-0] into [0] and a non-finite number into [null].
    - Patch objects are shared by reference between the patch map and the
      measurement overlay, so they live in a store ([Heap]) and the runtime
      state holds locations.  A rectangle or an edge record is never shared:
      every assignment of [rect], [edges], [_animFrom] or [_animTo] stores
      an object made on the spot ([deepCopy], a spread, [lerpRect]), so
      these fields hold values, and the write [p.rect.x = ...] is a write
      to the patch.
    - [Map<PatchId, RuntimePatch>] iterates in insertion order: an
      association list from keys to locations.
    - The runtime state and its overlay record are owned by one holder at
      a time (every driver works on a clone), so they are passed as values.
    - A drawing function is the list of calls it makes on the 2D context;
      [exec] gives these calls their meaning on a model of the context.
      The loop of [useAnimationClock] is a function of the time stamp and
      of the ref that holds the previous one.
    - The order of interpolated numbers rests on the rounding of the
      binary64 operations, which is worked out on integers from the
      definitions of [SpecFloat]. *)

From Stdlib Require Import Floats ZArith.
From stdpp Require Import base option list gmap strings.

Set Default Proof Using "Type".

(* ------------------------------------------------------------------- *)
(** ** Numbers *)

(** A numeric field of a runtime object.  The program's types say [number];
    [deepCopy] goes through JSON, which turns a non-finite number into
    [null], so a field can hold [null] at run time. *)
Inductive jsnum :=
  | JNum (f : float)
  | JNull.

(** ToNumber, applied by the arithmetic operators: [null] counts as [+0]. *)
Definition ToNumber (v : jsnum) : float :=
  match v with
  | JNum f => f
  | JNull => 0%float
  end.

Definition is_nan (f : float) : bool := negb (f =? f)%float.

Definition is_negzero (f : float) : bool :=
  match classify f with
  | NZero => true
  | _ => false
  end.

(** [Math.max] and [Math.min] on two numbers: NaN is contagious and
    [+0] is larger than [-0]. *)
Definition Math_max (a b : float) : float :=
  if is_nan a || is_nan b then nan
  else if (a <? b)%float then b
  else if (b <? a)%float then a
  else if is_negzero a then b else a.

Definition Math_min (a b : float) : float :=
  if is_nan a || is_nan b then nan
  else if (a <? b)%float then a
  else if (b <? a)%float then b
  else if is_negzero a then a else b.

Definition clamp01 (x : float) : float := Math_min 1 (Math_max 0 x).

Definition lerp (a b t : float) : float := (a + (b - a) * t)%float.

(** [JSON.parse(JSON.stringify(v))] on a numeric field: a finite number
    prints to its shortest round-tripping decimal, except that [-0] prints
    as [0]; NaN and the infinities print as [null]. *)
Definition deepCopy_num (v : jsnum) : jsnum :=
  match v with
  | JNull => JNull
  | JNum f =>
      match classify f with
      | NaN | PInf | NInf => JNull
      | NZero => JNum 0%float
      | _ => JNum f
      end
  end.

(* ------------------------------------------------------------------- *)
(** ** Types *)

Inductive EdgeKind := KX | KZ.

(** [keyof Patch["edges"]] *)
Inductive EdgeName := Top | Right | Bottom | Left.

Inductive Outcome := Plus1 | Minus1.

Abbreviation PatchId := string.

Module Rect.
Record t := mk { x : jsnum; y : jsnum; w : jsnum; h : jsnum }.
End Rect.

Module Edges.
Record t := mk { top : EdgeKind; right : EdgeKind; bottom : EdgeKind; left : EdgeKind }.
End Edges.

(** A patch as the program text gives it. *)
Module Patch.
Record t := mk
  { id : PatchId; rect : Rect.t; edges : Edges.t; label : option string }.
End Patch.

(** [Patch & { _animFrom?: Rect; _animTo?: Rect }] *)
Module RuntimePatch.
Record t := mk
  { id : PatchId; rect : Rect.t; edges : Edges.t; label : option string;
    _animFrom : option Rect.t; _animTo : option Rect.t }.

Definition set_rect (r : Rect.t) (p : t) : t :=
  mk (id p) r (edges p) (label p) (_animFrom p) (_animTo p).
Definition set_edges (e : Edges.t) (p : t) : t :=
  mk (id p) (rect p) e (label p) (_animFrom p) (_animTo p).
Definition set_anim (from to : option Rect.t) (p : t) : t :=
  mk (id p) (rect p) (edges p) (label p) from to.
End RuntimePatch.

(** [tickCost] is never read by the engine and is left out. *)
Inductive Action :=
  | InitPatch (patch : Patch.t)
  | DeformTo (id : PatchId) (to : Rect.t)
  | MoveTo (id : PatchId) (to_x to_y : jsnum)
  | TwoPatchMeas (lhs_id : PatchId) (lhs_edge : EdgeName)
                 (rhs_id : PatchId) (rhs_edge : EdgeName)
                 (outcome : option Outcome)
  | SinglePatchMeas (id : PatchId) (basis : EdgeKind) (outcome : option Outcome)
  | RotateEdges (id : PatchId)
  | Discard (id : PatchId).

Module Step.
Record t := mk { actions : list Action; label : option string }.
End Step.

Module Program.
Record t := mk { tickMs : float; cols : float; rows : float; steps : list Step.t }.
End Program.

(* ------------------------------------------------------------------- *)
(** ** Utility *)

(** [deepCopy] at the three types it is used at. *)
Definition deepCopy_Rect (r : Rect.t) : Rect.t :=
  Rect.mk (deepCopy_num (Rect.x r)) (deepCopy_num (Rect.y r))
          (deepCopy_num (Rect.w r)) (deepCopy_num (Rect.h r)).

Definition deepCopy_Patch (p : Patch.t) : RuntimePatch.t :=
  RuntimePatch.mk (Patch.id p) (deepCopy_Rect (Patch.rect p)) (Patch.edges p)
                  (Patch.label p) None None.

Definition deepCopy_RuntimePatch (p : RuntimePatch.t) : RuntimePatch.t :=
  RuntimePatch.mk (RuntimePatch.id p) (deepCopy_Rect (RuntimePatch.rect p))
                  (RuntimePatch.edges p) (RuntimePatch.label p)
                  (deepCopy_Rect <$> RuntimePatch._animFrom p)
                  (deepCopy_Rect <$> RuntimePatch._animTo p).

Definition lerp_num (a b : jsnum) (t : float) : jsnum :=
  JNum (lerp (ToNumber a) (ToNumber b) t).

Definition lerpRect (a b : Rect.t) (t : float) : Rect.t :=
  Rect.mk (lerp_num (Rect.x a) (Rect.x b) t) (lerp_num (Rect.y a) (Rect.y b) t)
          (lerp_num (Rect.w a) (Rect.w b) t) (lerp_num (Rect.h a) (Rect.h b) t).

(* ------------------------------------------------------------------- *)
(** ** The store of patch objects and the runtime state *)

Abbreviation loc := nat.

(** The patch objects allocated so far; [next] is the next free location. *)
Module Heap.
Record t := mk { objs : gmap loc RuntimePatch.t; next : loc }.

Definition empty : t := mk ∅ 0.

Definition alloc (p : RuntimePatch.t) (hp : t) : loc * t :=
  (next hp, mk (<[next hp := p]> (objs hp)) (S (next hp))).

(** A field write through a reference.  A reference always points to an
    object, so the [None] branch is never taken from a closed state. *)
Definition update (l : loc) (f : RuntimePatch.t → RuntimePatch.t) (hp : t) : t :=
  match objs hp !! l with
  | Some p => mk (<[l := f p]> (objs hp)) (next hp)
  | None => hp
  end.
End Heap.

Arguments Heap.update : simpl never.

Module Overlay.
Record t := mk
  { a : loc; aEdge : EdgeName; b : loc; bEdge : EdgeName;
    outcome : option Outcome; progress : float }.

Definition set_progress (t01 : float) (o : t) : t :=
  mk (a o) (aEdge o) (b o) (bEdge o) (outcome o) t01.
End Overlay.

(** [Map<PatchId, RuntimePatch>], in insertion order. *)
Abbreviation PatchMap := (list (PatchId * loc)).

Fixpoint map_get (m : PatchMap) (k : PatchId) : option loc :=
  match m with
  | [] => None
  | (k', l) :: m' => if decide (k' = k) then Some l else map_get m' k
  end.

(** [Map.set]: an existing key keeps its position, a new key goes last. *)
Fixpoint map_set (m : PatchMap) (k : PatchId) (l : loc) : PatchMap :=
  match m with
  | [] => [(k, l)]
  | (k', l') :: m' =>
      if decide (k' = k) then (k', l) :: m' else (k', l') :: map_set m' k l
  end.

Definition map_delete (m : PatchMap) (k : PatchId) : PatchMap :=
  filter (λ e, e.1 ≠ k) m.

Module RuntimeState.
Record t := mk { patches : PatchMap; measurementOverlay : option Overlay.t }.

Definition empty : t := mk [] None.
Definition set_patches (m : PatchMap) (s : t) : t := mk m (measurementOverlay s).
Definition set_overlay (o : option Overlay.t) (s : t) : t := mk (patches s) o.
End RuntimeState.

(** The engine's functions mutate their argument; here they map a store and
    a state to the store and the state after the call. *)
Abbreviation World := (Heap.t * RuntimeState.t)%type.

(* ------------------------------------------------------------------- *)
(** ** Engine *)

(** One iteration of the [forEach] of [cloneRuntimeState]. *)
Definition cloneStep (acc : Heap.t * PatchMap) (e : PatchId * loc) : Heap.t * PatchMap :=
  match Heap.objs acc.1 !! e.2 with
  | Some p =>
      let '(l', hp') := Heap.alloc (deepCopy_RuntimePatch p) acc.1 in
      (hp', map_set acc.2 e.1 l')
  | None => acc
  end.

(** Every patch of the map is copied to a new object.  The overlay is
    copied by a spread: a new overlay record whose [a] and [b] are the
    references the old one held. *)
Definition cloneRuntimeState (hp : Heap.t) (s : RuntimeState.t) : World :=
  let r := fold_left cloneStep (RuntimeState.patches s) (hp, []) in
  (r.1, RuntimeState.mk r.2 (RuntimeState.measurementOverlay s)).

Definition rotate (e : Edges.t) : Edges.t :=
  Edges.mk (Edges.left e) (Edges.top e) (Edges.right e) (Edges.bottom e).

(** The body of the loop of [commitActions]. *)
Definition commitAction (act : Action) (w : World) : World :=
  let '(hp, s) := w in
  match act with
  | InitPatch patch =>
      let '(l, hp') := Heap.alloc (deepCopy_Patch patch) hp in
      (hp', RuntimeState.set_patches
              (map_set (RuntimeState.patches s) (Patch.id patch) l) s)
  | DeformTo id to =>
      match map_get (RuntimeState.patches s) id with
      | None => w
      | Some l =>
          (Heap.update l (λ p, RuntimePatch.set_anim None None
                                 (RuntimePatch.set_rect (deepCopy_Rect to) p)) hp, s)
      end
  | MoveTo id to_x to_y =>
      match map_get (RuntimeState.patches s) id with
      | None => w
      | Some l =>
          (Heap.update l
             (λ p, let r := RuntimePatch.rect p in
                   RuntimePatch.set_anim None None
                     (RuntimePatch.set_rect
                        (Rect.mk to_x to_y (Rect.w r) (Rect.h r)) p)) hp, s)
      end
  | RotateEdges id =>
      match map_get (RuntimeState.patches s) id with
      | None => w
      | Some l =>
          (Heap.update l
             (λ p, RuntimePatch.set_edges (rotate (RuntimePatch.edges p)) p) hp, s)
      end
  | Discard id =>
      (hp, RuntimeState.set_patches (map_delete (RuntimeState.patches s) id) s)
  | SinglePatchMeas _ _ _ => w
  | TwoPatchMeas _ _ _ _ _ => (hp, RuntimeState.set_overlay None s)
  end.

Definition commitActions (actions : list Action) (w : World) : World :=
  fold_left (λ w act, commitAction act w) actions w.

(** The body of the loop of [prepareTick]. *)
Definition prepareAction (act : Action) (w : World) : World :=
  let '(hp, s) := w in
  match act with
  | DeformTo id to =>
      match map_get (RuntimeState.patches s) id with
      | None => w
      | Some l =>
          (Heap.update l
             (λ p, RuntimePatch.set_anim
                     (Some (deepCopy_Rect (RuntimePatch.rect p)))
                     (Some (deepCopy_Rect to)) p) hp, s)
      end
  | MoveTo id to_x to_y =>
      match map_get (RuntimeState.patches s) id with
      | None => w
      | Some l =>
          (Heap.update l
             (λ p, let r := RuntimePatch.rect p in
                   RuntimePatch.set_anim
                     (Some (deepCopy_Rect r))
                     (Some (Rect.mk to_x to_y (Rect.w r) (Rect.h r))) p) hp, s)
      end
  | TwoPatchMeas lhs_id lhs_edge rhs_id rhs_edge outcome =>
      match map_get (RuntimeState.patches s) lhs_id,
            map_get (RuntimeState.patches s) rhs_id with
      | Some a, Some b =>
          (hp, RuntimeState.set_overlay
                 (Some (Overlay.mk a lhs_edge b rhs_edge outcome 0%float)) s)
      | _, _ => w
      end
  | SinglePatchMeas _ _ _ => w
  | InitPatch _ | RotateEdges _ | Discard _ => w
  end.

Definition prepareTick (actions : list Action) (w : World) : World :=
  fold_left (λ w act, prepareAction act w) actions
            (w.1, RuntimeState.set_overlay None w.2).

(** The body of the loop of [advanceInterpolations]. *)
Definition advancePatch (t01 : float) (p : RuntimePatch.t) : RuntimePatch.t :=
  match RuntimePatch._animFrom p, RuntimePatch._animTo p with
  | Some from, Some to => RuntimePatch.set_rect (lerpRect from to t01) p
  | _, _ => p
  end.

Definition advanceInterpolations (t01 : float) (w : World) : World :=
  let '(hp, s) := w in
  (fold_left (λ hp e, Heap.update e.2 (advancePatch t01) hp)
             (RuntimeState.patches s) hp,
   RuntimeState.set_overlay
     (Overlay.set_progress t01 <$> RuntimeState.measurementOverlay s) s).

(** What [drawRuntime] reads from a state: the patches in map order and
    the overlay with its two patches dereferenced. *)
Module View.
Record overlay := mk_overlay
  { a : option RuntimePatch.t; aEdge : EdgeName;
    b : option RuntimePatch.t; bEdge : EdgeName;
    outcome : option Outcome; progress : float }.
Record t := mk
  { patches : list (PatchId * option RuntimePatch.t);
    measurementOverlay : option overlay }.
End View.

Definition view (w : World) : View.t :=
  let '(hp, s) := w in
  View.mk
    ((λ e, (e.1, Heap.objs hp !! e.2)) <$> RuntimeState.patches s)
    ((λ o, View.mk_overlay
             (Heap.objs hp !! Overlay.a o) (Overlay.aEdge o)
             (Heap.objs hp !! Overlay.b o) (Overlay.bEdge o)
             (Overlay.outcome o) (Overlay.progress o))
       <$> RuntimeState.measurementOverlay s).

(* ------------------------------------------------------------------- *)
(** ** Component *)

(** The React state of [LatticeSurgeryVisualizer] that the engine uses. *)
Module Component.
Record t := mk
  { runtime : RuntimeState.t; stepIdx : Z; tInStep : float; playing : bool }.

Definition initial : t := mk RuntimeState.empty 0 0%float false.
End Component.

(** [program.steps[i]]: [undefined] outside the array. *)
Definition steps_at (steps : list Step.t) (i : Z) : option Step.t :=
  if (i <? 0)%Z then None else steps !! Z.to_nat i.

Definition steps_length (prog : Program.t) : Z :=
  Z.of_nat (length (Program.steps prog)).

(** The state update of the frame callback handed to [useAnimationClock],
    for a mounted canvas and a parsed program: the runtime, the step index
    and the time that the callback computes and, once [drawRuntime] has
    come back, hands to the setters.  [None] is the [TypeError] of reading
    [.actions] of [undefined].  The callback with its drawing is
    [frameCallback] below. *)
Definition onTick (prog : Program.t) (dt : float)
    (hp : Heap.t) (c : Component.t) : option (Heap.t * Component.t) :=
  let '(hp1, newRuntime) := cloneRuntimeState hp (Component.runtime c) in
  if Component.playing c && (0 <? steps_length prog)%Z then
    let step := steps_at (Program.steps prog) (Component.stepIdx c) in
    w1 ← (if (Component.tInStep c =? 0)%float then
            st ← step;
            Some (prepareTick (Step.actions st)
                    (cloneRuntimeState hp1 (Component.runtime c)))
          else Some (hp1, newRuntime));
    let newT := (Component.tInStep c + dt)%float in
    let t01 := clamp01 (newT / Program.tickMs prog)%float in
    let w2 := advanceInterpolations t01 w1 in
    if (Program.tickMs prog <=? newT)%float then
      st ← step;
      let w3 := commitActions (Step.actions st) w2 in
      Some (w3.1,
            Component.mk w3.2
              (Z.min (steps_length prog - 1) (Component.stepIdx c + 1))
              0%float (Component.playing c))
    else
      Some (w2.1,
            Component.mk w2.2 (Component.stepIdx c) newT (Component.playing c))
  else
    Some (hp1, Component.mk newRuntime (Component.stepIdx c)
                 (Component.tInStep c) (Component.playing c)).

(** The handler of the Step button, for a parsed program. *)
Definition stepOnce (prog : Program.t)
    (hp : Heap.t) (c : Component.t) : option (Heap.t * Component.t) :=
  let idx := Z.min (Component.stepIdx c) (steps_length prog - 1) in
  st ← steps_at (Program.steps prog) idx;
  let rt := cloneRuntimeState hp (Component.runtime c) in
  let w1 := prepareTick (Step.actions st) rt in
  let w2 := advanceInterpolations 1%float w1 in
  let w3 := commitActions (Step.actions st) w2 in
  Some (w3.1,
        Component.mk w3.2 (Z.min (idx + 1) (steps_length prog - 1))
          0%float (Component.playing c)).

Definition reset (c : Component.t) : Component.t := Component.initial.

(* ------------------------------------------------------------------- *)
(** ** Rendering *)

(** The calls that the drawing functions make on the 2D context, in the
    order they make them.  An assignment to a property of the context is
    the command of that name. *)
Module Ctx.
Inductive cmd :=
  | save
  | restore
  | strokeStyle (v : string)
  | fillStyle (v : string)
  | lineWidth (v : float)
  | setLineDash (segments : list float)
  | font (v : string)
  | textAlign (v : string)
  | textBaseline (v : string)
  | beginPath
  | moveTo (x y : float)
  | lineTo (x y : float)
  | rect (x y w h : float)
  | arc (x y radius startAngle endAngle : float)
  | fill
  | stroke
  | fillText (text : string) (x y : float)
  | clearRect (x y w h : float).
End Ctx.

Definition TILE : float := 40.

Definition Math_PI : float := 0x1.921fb54442d18p+1.

(** The coordinate that an edge keeps is passed on as it is stored; the
    other one is computed, so it is a number. *)
Definition edgeMidpoint (rect : Rect.t) (edge : EdgeName) : jsnum * jsnum :=
  let x := Rect.x rect in
  let y := Rect.y rect in
  let w := Rect.w rect in
  let h := Rect.h rect in
  match edge with
  | Top => (JNum (ToNumber x + ToNumber w / 2), y)
  | Bottom => (JNum (ToNumber x + ToNumber w / 2), JNum (ToNumber y + ToNumber h))
  | Left => (x, JNum (ToNumber y + ToNumber h / 2))
  | Right => (JNum (ToNumber x + ToNumber w), JNum (ToNumber y + ToNumber h / 2))
  end.

(** The first loop of [drawGrid], from the counter value [c] on.  The
    counter is a number, so the loop need not end: [None] when [fuel]
    iterations were not enough. *)
Fixpoint drawGrid_columns (fuel : nat) (c cols rows : float) : option (list Ctx.cmd) :=
  if (c <=? cols)%float then
    match fuel with
    | O => None
    | S fuel' =>
        rest ← drawGrid_columns fuel' (c + 1) cols rows;
        Some ([Ctx.beginPath;
               Ctx.moveTo (c * TILE + 0.5) 0;
               Ctx.lineTo (c * TILE + 0.5) (rows * TILE);
               Ctx.stroke] ++ rest)
    end
  else Some [].

(** The second loop of [drawGrid]. *)
Fixpoint drawGrid_rows (fuel : nat) (r cols rows : float) : option (list Ctx.cmd) :=
  if (r <=? rows)%float then
    match fuel with
    | O => None
    | S fuel' =>
        rest ← drawGrid_rows fuel' (r + 1) cols rows;
        Some ([Ctx.beginPath;
               Ctx.moveTo 0 (r * TILE + 0.5);
               Ctx.lineTo (cols * TILE) (r * TILE + 0.5);
               Ctx.stroke] ++ rest)
    end
  else Some [].

Definition drawGrid (fuel : nat) (cols rows : float) : option (list Ctx.cmd) :=
  columns ← drawGrid_columns fuel 0 cols rows;
  lines ← drawGrid_rows fuel 0 cols rows;
  Some ([Ctx.save; Ctx.strokeStyle "#e7e7e7"; Ctx.lineWidth 1]
          ++ columns ++ lines ++ [Ctx.restore]).

Definition drawDashedLine (x1 y1 x2 y2 : float) : list Ctx.cmd :=
  [Ctx.save; Ctx.setLineDash [6; 6]%float; Ctx.beginPath;
   Ctx.moveTo x1 y1; Ctx.lineTo x2 y2; Ctx.stroke; Ctx.restore].

(** The statement of [drawPatch] that draws one edge: dashed for X, a
    plain stroke for Z. *)
Definition drawEdge (kind : EdgeKind) (x1 y1 x2 y2 : float) : list Ctx.cmd :=
  match kind with
  | KX => drawDashedLine x1 y1 x2 y2
  | KZ => [Ctx.beginPath; Ctx.moveTo x1 y1; Ctx.lineTo x2 y2; Ctx.stroke]
  end.

Definition drawPatch (p : RuntimePatch.t) : list Ctx.cmd :=
  let r := RuntimePatch.rect p in
  let px := (ToNumber (Rect.x r) * TILE)%float in
  let py := (ToNumber (Rect.y r) * TILE)%float in
  let pw := (ToNumber (Rect.w r) * TILE)%float in
  let ph := (ToNumber (Rect.h r) * TILE)%float in
  let e := RuntimePatch.edges p in
  [Ctx.save; Ctx.fillStyle "#f4e5c3"; Ctx.strokeStyle "#222"; Ctx.lineWidth 2;
   Ctx.beginPath; Ctx.rect px py pw ph; Ctx.fill; Ctx.stroke;
   Ctx.lineWidth 4]
  ++ drawEdge (Edges.top e) px py (px + pw) py
  ++ drawEdge (Edges.right e) (px + pw) py (px + pw) (py + ph)
  ++ drawEdge (Edges.bottom e) px (py + ph) (px + pw) (py + ph)
  ++ drawEdge (Edges.left e) px py px (py + ph)
  ++ [Ctx.fillStyle "#222";
      Ctx.font "16px ui-monospace, SFMono-Regular, Menlo, Consolas, monospace";
      Ctx.textAlign "center"; Ctx.textBaseline "middle";
      Ctx.fillText (default (RuntimePatch.id p) (RuntimePatch.label p))
                   (px + pw / 2) (py + ph / 2);
      Ctx.restore].

Definition drawTwoPatchMeas (a : RuntimePatch.t) (aEdge : EdgeName)
    (b : RuntimePatch.t) (bEdge : EdgeName)
    (progress : float) (outcome : option Outcome) : list Ctx.cmd :=
  let A := edgeMidpoint (RuntimePatch.rect a) aEdge in
  let B := edgeMidpoint (RuntimePatch.rect b) bEdge in
  let ax := (ToNumber A.1 * TILE)%float in
  let ay := (ToNumber A.2 * TILE)%float in
  let bx := (ToNumber B.1 * TILE)%float in
  let by_ := (ToNumber B.2 * TILE)%float in
  let mx := ((ax + bx) / 2)%float in
  let my := ((ay + by_) / 2)%float in
  [Ctx.save;
   Ctx.lineWidth (lerp 2 10 progress);
   Ctx.strokeStyle match outcome with
                   | Some Minus1 => "#c62828"
                   | Some Plus1 => "#2e7d32"
                   | None => "#1976d2"
                   end;
   Ctx.beginPath; Ctx.moveTo ax ay; Ctx.lineTo bx by_; Ctx.stroke;
   Ctx.beginPath; Ctx.arc mx my (6 + 8 * progress) 0 (Math_PI * 2); Ctx.stroke;
   Ctx.restore].

(** The overlay of the state, drawn with the two patches it refers to. *)
Definition drawOverlay (hp : Heap.t) (o : Overlay.t) : list Ctx.cmd :=
  match Heap.objs hp !! Overlay.a o, Heap.objs hp !! Overlay.b o with
  | Some a, Some b =>
      drawTwoPatchMeas a (Overlay.aEdge o) b (Overlay.bEdge o)
                       (Overlay.progress o) (Overlay.outcome o)
  | _, _ => []
  end.

Definition drawRuntime (fuel : nat) (w : World) (cols rows : float)
    : option (list Ctx.cmd) :=
  let '(hp, runtime) := w in
  grid ← drawGrid fuel cols rows;
  Some ([Ctx.clearRect 0 0 (cols * TILE) (rows * TILE)]
          ++ grid
          ++ concat ((λ e : PatchId * loc,
                        from_option drawPatch [] (Heap.objs hp !! e.2))
                       <$> RuntimeState.patches runtime)
          ++ from_option (drawOverlay hp) [] (RuntimeState.measurementOverlay runtime)).

(* ------------------------------------------------------------------- *)
(** ** The animation clock *)

(** The body of [loop] in [useAnimationClock]: [last] is the ref that
    holds the time of the previous frame, [t] the time stamp that
    [requestAnimationFrame] passes.  When [onTick] throws, the ref is
    already written. *)
Definition clock_loop {S : Type} (running : bool)
    (onTick : float → S → option S) (t : float)
    (last : option float) (s : S) : option float * option S :=
  let last1 := default t last in
  let dt := (t - last1)%float in
  (Some t, if running then onTick dt s else Some s).

(** The frames of the component at the given time stamps, from a ref that
    holds [last]: the clock runs all the time and hands the elapsed time
    to the frame callback. *)
Fixpoint clock_frames (prog : Program.t) (ts : list float) (last : option float)
    (hc : Heap.t * Component.t) : option (Heap.t * Component.t) :=
  match ts with
  | [] => Some hc
  | t :: ts' =>
      let r := clock_loop true (λ dt hc, onTick prog dt hc.1 hc.2) t last hc in
      hc' ← r.2; clock_frames prog ts' r.1 hc'
  end.

(* ------------------------------------------------------------------- *)
(** ** Predicates of the statements *)

(** *** Numbers *)

(** The number is neither NaN nor an infinity. *)
Definition finite (f : float) : bool :=
  match classify f with
  | NaN | PInf | NInf => false
  | _ => true
  end.

(** A numeric field that survives [deepCopy] unchanged: a finite number
    other than [-0] (or [null], which stays [null]). *)
Definition json_exact_num (v : jsnum) : bool :=
  match v with
  | JNull => true
  | JNum f =>
      match classify f with
      | NaN | PInf | NInf | NZero => false
      | _ => true
      end
  end.

Definition json_exact (r : Rect.t) : bool :=
  json_exact_num (Rect.x r) && json_exact_num (Rect.y r) &&
  json_exact_num (Rect.w r) && json_exact_num (Rect.h r).

(** [===] on the numeric value of two fields (so [-0] equals [0]). *)
Definition num_eqb (u v : jsnum) : bool := (ToNumber u =? ToNumber v)%float.

Definition rect_eqb (r1 r2 : Rect.t) : bool :=
  num_eqb (Rect.x r1) (Rect.x r2) && num_eqb (Rect.y r1) (Rect.y r2) &&
  num_eqb (Rect.w r1) (Rect.w r2) && num_eqb (Rect.h r1) (Rect.h r2).

(** Every coordinate difference [to - from] is finite. *)
Definition finite_diff (a b : Rect.t) : bool :=
  finite (ToNumber (Rect.x b) - ToNumber (Rect.x a)) &&
  finite (ToNumber (Rect.y b) - ToNumber (Rect.y a)) &&
  finite (ToNumber (Rect.w b) - ToNumber (Rect.w a)) &&
  finite (ToNumber (Rect.h b) - ToNumber (Rect.h a)).

Definition num_leb (u v : jsnum) : bool := (ToNumber u <=? ToNumber v)%float.

(** [v] lies between [a] and [b]. *)
Definition coord_between (a b v : jsnum) : bool :=
  (num_leb a v && num_leb v b) || (num_leb b v && num_leb v a).

(** From [v] to [v'] the coordinate does not move against the direction
    from [a] to [b]. *)
Definition coord_toward (a b v v' : jsnum) : bool :=
  if num_leb a b then num_leb v v' else num_leb v' v.

(** From [r] to [r'] no coordinate moves against the direction from [A]
    to [B]. *)
Definition rect_toward (A B r r' : Rect.t) : bool :=
  coord_toward (Rect.x A) (Rect.x B) (Rect.x r) (Rect.x r') &&
  coord_toward (Rect.y A) (Rect.y B) (Rect.y r) (Rect.y r') &&
  coord_toward (Rect.w A) (Rect.w B) (Rect.w r) (Rect.w r') &&
  coord_toward (Rect.h A) (Rect.h B) (Rect.h r) (Rect.h r').

(** Every coordinate of [r] lies between those of [A] and [B]. *)
Definition rect_between (A B r : Rect.t) : bool :=
  coord_between (Rect.x A) (Rect.x B) (Rect.x r) &&
  coord_between (Rect.y A) (Rect.y B) (Rect.y r) &&
  coord_between (Rect.w A) (Rect.w B) (Rect.w r) &&
  coord_between (Rect.h A) (Rect.h B) (Rect.h r).

(** *** Integer tile coordinates *)

(** The double of an integer, as a numeric literal of the program gives it. *)
Definition tile (z : Z) : float :=
  if (z <? 0)%Z then (- of_uint63 (Uint63.of_Z (- z)))%float
  else of_uint63 (Uint63.of_Z z).

Definition tile_rect (x y w h : Z) : Rect.t :=
  Rect.mk (JNum (tile x)) (JNum (tile y)) (JNum (tile w)) (JNum (tile h)).

(** The integers from [start] on, [n] of them. *)
Fixpoint zrange (n : nat) (start : Z) : list Z :=
  match n with
  | O => []
  | S n' => start :: zrange n' (start + 1)
  end.

(** Integer coordinates of magnitude at most [tile_bound]. *)
Definition tile_bound : Z := 256.

Definition in_tiles (z : Z) : Prop := (- tile_bound ≤ z ≤ tile_bound)%Z.

Definition tile_range : list Z :=
  zrange (Z.to_nat (2 * tile_bound + 1)) (- tile_bound).

(** [lerp] gives exactly the end points on the pair [(i, j)]. *)
Definition lerp_ends_exact (i j : Z) : bool :=
  PrimFloat.Leibniz.eqb (lerp (tile i) (tile j) 1) (tile j) &&
  PrimFloat.Leibniz.eqb (lerp (tile i) (tile j) 0) (tile i).

(** The difference of the two tile coordinates is finite. *)
Definition tile_diff_finite (i j : Z) : bool := finite (tile j - tile i).

(** *** Rounding to binary64 *)

(** The operations of [SpecFloat] round to nearest, ties to even.  The
    definitions below say what they compute, on integers: a number is held
    as a whole number of units of [2 ^ c], for a [c] at or below the
    exponent [-1074] of the smallest denormal, so that every binary64
    value, and every exact sum, difference or product of two of them, is
    a whole number of units. *)
Section RoundingModel.
Local Open Scope Z_scope.

(** [X / 2 ^ G] rounded to the nearest integer, ties to even. *)
Definition round_half_even (X G : Z) : Z :=
  let q := X / 2 ^ G in
  let r := X mod 2 ^ G in
  if 2 ^ G <? 2 * r then q + 1
  else if (2 * r =? 2 ^ G) && Z.odd q then q + 1
  else q.

(** The exponent of the last bit that a magnitude of [X] units keeps: 53
    bits are kept, and none below [z0]. *)
Definition quantum (z0 X : Z) : Z := Z.max (Z.log2 X + 1 - 53) z0.

(** The magnitude [X] rounded to a multiple of its quantum. *)
Definition round_mag (z0 X : Z) : Z :=
  round_half_even X (quantum z0 X) * 2 ^ quantum z0 X.

(** What [shr] has made of the mantissa [M] after [k] shifts: the
    quotient, the round bit and the sticky bit. *)
Definition shifted (M k : Z) (mrs : shr_record) : Prop :=
  shr_m mrs = M / 2 ^ k ∧
  shr_r mrs = (0 <? k) && Z.odd (M / 2 ^ (k - 1)) ∧
  shr_s mrs = (0 <? k) && negb (M mod 2 ^ (k - 1) =? 0).

(** The first magnitude, in units of [2 ^ c], that no finite binary64
    value has: [2 ^ 1024]. *)
Definition overflow (c : Z) : Z := 2 ^ (1024 - c).

(** The float [f] has the sign [s] and stands for the magnitude [Y], an
    infinity for any magnitude from [overflow] on. *)
Definition rounds_to (c : Z) (s : bool) (Y : Z) (f : spec_float) : Prop :=
  match f with
  | S754_zero s' => s' = s ∧ Y = 0
  | S754_finite s' m e =>
      s' = s ∧ Z.pos m * 2 ^ (e - c) = Y ∧ Y < overflow c ∧ -1074 ≤ e
  | S754_infinity s' => s' = s ∧ overflow c ≤ Y
  | S754_nan => False
  end.

Definition signed (s : bool) (z : Z) : Z := if s then - z else z.

(** The value of a float in units of [2 ^ c]; an infinity counts as
    [2 ^ 1024], NaN as 0. *)
Definition scaled (c : Z) (f : spec_float) : Z :=
  match f with
  | S754_zero _ | S754_nan => 0
  | S754_finite s m e => signed s (Z.pos m * 2 ^ (e - c))
  | S754_infinity s => signed s (overflow c)
  end.

(** A signed number of units rounded to binary64, an overflow giving the
    value of the infinity. *)
Definition round_scaled (c z : Z) : Z :=
  if z <? 0 then - Z.min (round_mag (-1074 - c) (- z)) (overflow c)
  else Z.min (round_mag (-1074 - c) z) (overflow c).

Definition is_nanSF (f : spec_float) : bool :=
  match f with S754_nan => true | _ => false end.

Definition finiteSF (f : spec_float) : bool :=
  match f with S754_zero _ | S754_finite _ _ _ => true | _ => false end.

End RoundingModel.

(** *** Actions and the patch map *)

Definition absent (m : PatchMap) (k : PatchId) : bool :=
  match map_get m k with
  | None => true
  | Some _ => false
  end.

(** The action refers to a patch identifier that the map does not hold.
    [InitPatch] names the patch it creates and refers to none. *)
Definition dangling (m : PatchMap) (act : Action) : bool :=
  match act with
  | InitPatch _ => false
  | DeformTo id _ | MoveTo id _ _ | SinglePatchMeas id _ _
  | RotateEdges id | Discard id => absent m id
  | TwoPatchMeas lhs_id _ rhs_id _ _ => absent m lhs_id || absent m rhs_id
  end.

Definition is_TwoPatchMeas (act : Action) : bool :=
  match act with
  | TwoPatchMeas _ _ _ _ _ => true
  | _ => false
  end.

(** The overlay that prepare installs for an action: a joint measurement
    whose two patches are both in the map. *)
Definition overlay_of (m : PatchMap) (act : Action) : option Overlay.t :=
  match act with
  | TwoPatchMeas lhs_id lhs_edge rhs_id rhs_edge outcome =>
      a ← map_get m lhs_id; b ← map_get m rhs_id;
      Some (Overlay.mk a lhs_edge b rhs_edge outcome 0%float)
  | _ => None
  end.

(** Prepare of the action writes the animation fields of object [l]. *)
Definition writes (m : PatchMap) (act : Action) (l : loc) : bool :=
  match act with
  | DeformTo id _ | MoveTo id _ _ => bool_decide (map_get m id = Some l)
  | _ => false
  end.

(** What prepare of the action writes into the patch it finds. *)
Definition anim_of (act : Action) (p : RuntimePatch.t) : RuntimePatch.t :=
  match act with
  | DeformTo _ to =>
      RuntimePatch.set_anim (Some (deepCopy_Rect (RuntimePatch.rect p)))
        (Some (deepCopy_Rect to)) p
  | MoveTo _ to_x to_y =>
      let r := RuntimePatch.rect p in
      RuntimePatch.set_anim (Some (deepCopy_Rect r))
        (Some (Rect.mk to_x to_y (Rect.w r) (Rect.h r))) p
  | _ => p
  end.

(** A patch without its animation fields. *)
Definition strip (p : RuntimePatch.t) : RuntimePatch.t :=
  RuntimePatch.set_anim None None p.

(** Two worlds that differ at most in animation fields and overlay. *)
Definition same_frame (w w' : World) : Prop :=
  RuntimeState.patches w.2 = RuntimeState.patches w'.2 ∧
  Heap.next w.1 = Heap.next w'.1 ∧
  ∀ l : loc, strip <$> Heap.objs w.1 !! l = strip <$> Heap.objs w'.1 !! l.

(** *** Closed states and renaming of locations *)

(** Every object sits below [next], and the state refers only to
    allocated locations: what holds of any state the program can build,
    since a reference always points to an object. *)
Definition heap_closed (hp : Heap.t) : Prop :=
  map_Forall (λ (l : loc) (_ : RuntimePatch.t), l < Heap.next hp) (Heap.objs hp).

Definition state_closed (hp : Heap.t) (s : RuntimeState.t) : Prop :=
  Forall (λ e : PatchId * loc, e.2 < Heap.next hp) (RuntimeState.patches s) ∧
  from_option (λ o, Overlay.a o < Heap.next hp ∧ Overlay.b o < Heap.next hp)
              True (RuntimeState.measurementOverlay s).

(** The frame callback clones the state twice at the start of a tick and
    drops the first clone, so its objects sit [k] locations further than
    those of [stepOnce].  [shift n k] renames the objects allocated from
    [n] on. *)
Definition shift (n k : nat) (l : loc) : loc :=
  if decide (l < n) then l else l + k.

Definition shift_map (n k : nat) (m : PatchMap) : PatchMap :=
  (λ e, (e.1, shift n k e.2)) <$> m.

Definition shift_overlay (n k : nat) (o : Overlay.t) : Overlay.t :=
  Overlay.mk (shift n k (Overlay.a o)) (Overlay.aEdge o)
             (shift n k (Overlay.b o)) (Overlay.bEdge o)
             (Overlay.outcome o) (Overlay.progress o).

Definition shift_state (n k : nat) (s : RuntimeState.t) : RuntimeState.t :=
  RuntimeState.mk (shift_map n k (RuntimeState.patches s))
                  (shift_overlay n k <$> RuntimeState.measurementOverlay s).

Definition hsim (n k : nat) (h1 h2 : Heap.t) : Prop :=
  n ≤ Heap.next h1 ∧ Heap.next h2 = Heap.next h1 + k ∧
  ∀ l : loc, Heap.objs h2 !! shift n k l = Heap.objs h1 !! l.

Definition sim (n k : nat) (w1 w2 : World) : Prop :=
  hsim n k w1.1 w2.1 ∧ w2.2 = shift_state n k w1.2.

(** *** What is seen of the component *)

(** The drawn state and the cursor. *)
Definition observe (hc : Heap.t * Component.t) : View.t * Z * float * bool :=
  (view (hc.1, Component.runtime hc.2), Component.stepIdx hc.2,
   Component.tInStep hc.2, Component.playing hc.2).

(** The edges of the first patch of the map, and the step index. *)
Definition edges_and_index (hc : Heap.t * Component.t) : option Edges.t * Z :=
  (RuntimePatch.edges <$>
     (View.patches (view (hc.1, Component.runtime hc.2)) !! 0 ≫= snd),
   Component.stepIdx hc.2).

(** The width of the first patch of the map is NaN. *)
Definition first_width_nan (o : View.t * Z * float * bool) : bool :=
  from_option
    (λ p : RuntimePatch.t, is_nan (ToNumber (Rect.w (RuntimePatch.rect p)))) false
    (View.patches o.1.1.1 !! 0 ≫= snd).

(** A run of frames with the given elapsed times. *)
Definition frames (prog : Program.t) (dts : list float)
    (hc : Heap.t * Component.t) : option (Heap.t * Component.t) :=
  fold_left (λ r dt, hc ← r; onTick prog dt hc.1 hc.2) dts (Some hc).

(** *** The component as a state machine *)

(** What can happen to a mounted component with a parsed program. *)
Inductive Event :=
  | Frame (dt : float)
  | PressStep
  | PressPlay
  | PressReset.

Definition handle (prog : Program.t) (ev : Event)
    (hc : Heap.t * Component.t) : option (Heap.t * Component.t) :=
  match ev with
  | Frame dt => onTick prog dt hc.1 hc.2
  | PressStep => stepOnce prog hc.1 hc.2
  | PressPlay =>
      Some (hc.1, Component.mk (Component.runtime hc.2) (Component.stepIdx hc.2)
                    (Component.tInStep hc.2) (negb (Component.playing hc.2)))
  | PressReset => Some (hc.1, reset hc.2)
  end.

(** The states the component can be in.  A handler that throws leaves the
    React state as it was, so it makes no transition. *)
Inductive reachable (prog : Program.t) : Heap.t * Component.t → Prop :=
  | reachable_initial : reachable prog (Heap.empty, Component.initial)
  | reachable_next hc ev hc' :
      reachable prog hc → handle prog ev hc = Some hc' → reachable prog hc'.

Definition closed (w : World) : Prop := heap_closed w.1 ∧ state_closed w.1 w.2.

(** *** Well-formed states *)

(** The patch carries an animation field. *)
Definition animated (p : RuntimePatch.t) : bool :=
  match RuntimePatch._animFrom p, RuntimePatch._animTo p with
  | None, None => false
  | _, _ => true
  end.

(** The action animates the patch [k]: a [DeformTo] or a [MoveTo] of [k]. *)
Definition animates (k : PatchId) (act : Action) : bool :=
  match act with
  | DeformTo id _ | MoveTo id _ _ => bool_decide (id = k)
  | _ => false
  end.

(** Keys are unique, as in any [Map]; no object sits under two keys; and
    every entry holds an object whose [id] is its key. *)
Definition well_formed (w : World) : Prop :=
  NoDup (RuntimeState.patches w.2).*1 ∧
  NoDup (RuntimeState.patches w.2).*2 ∧
  Forall (λ e : PatchId * loc,
            RuntimePatch.id <$> Heap.objs w.1 !! e.2 = Some e.1)
         (RuntimeState.patches w.2).

(** The step under the cursor. *)
Definition current_step (prog : Program.t) (c : Component.t) : option Step.t :=
  steps_at (Program.steps prog) (Component.stepIdx c).

(** The key [k] holds a patch that carries an animation field. *)
Definition animated_in (w : World) (k : PatchId) : bool :=
  from_option animated false
    (map_get (RuntimeState.patches w.2) k ≫= λ l, Heap.objs w.1 !! l).

(** What the engine keeps true of a state while the cursor is on the step
    [ost]: an overlay is present only if the step has a joint measurement,
    and a patch carries animation fields only if the step deforms or moves
    it. *)
Definition step_ok (ost : option Step.t) (w : World) : Prop :=
  closed w ∧ well_formed w ∧
  (is_Some (RuntimeState.measurementOverlay w.2) →
   ∃ st, ost = Some st ∧ existsb is_TwoPatchMeas (Step.actions st) = true) ∧
  (∀ k, animated_in w k = true →
   ∃ st, ost = Some st ∧ existsb (animates k) (Step.actions st) = true).

(** The cursor stays inside the program and the time inside the step
    stays below the tick duration. *)
Definition cursor_ok (prog : Program.t) (c : Component.t) : Prop :=
  (0 ≤ Component.stepIdx c ≤ Z.max 0 (steps_length prog - 1))%Z ∧
  (Component.tInStep c = 0%float ∨
   (Program.tickMs prog <=? Component.tInStep c)%float = false).

Definition inv (prog : Program.t) (hc : Heap.t * Component.t) : Prop :=
  step_ok (current_step prog hc.2) (hc.1, Component.runtime hc.2) ∧
  cursor_ok prog hc.2.

(** A run of events from the given state. *)
Definition run (prog : Program.t) (evs : list Event)
    (hc : Heap.t * Component.t) : option (Heap.t * Component.t) :=
  fold_left (λ r ev, hc ← r; handle prog ev hc) evs (Some hc).

(** The state after a run from the initial state (the initial state, if a
    handler throws on the way). *)
Definition state_after (prog : Program.t) (evs : list Event) : Heap.t * Component.t :=
  default (Heap.empty, Component.initial)
          (run prog evs (Heap.empty, Component.initial)).

(** The map of [w] holds only objects allocated from [n] on. *)
Definition fresh_from (n : loc) (w : World) : Prop :=
  n ≤ Heap.next w.1 ∧
  Forall (λ e : PatchId * loc, n ≤ e.2) (RuntimeState.patches w.2).

(** *** Two states that a commit makes equal *)

(** The action deforms the patch [k]. *)
Definition deforms (k : PatchId) (act : Action) : bool :=
  match act with
  | DeformTo id _ => bool_decide (id = k)
  | _ => false
  end.

(** Commit of the action gives the patch under [k] a whole new rectangle,
    or takes the object out of the map. *)
Definition settles_rect (k : PatchId) (act : Action) : bool :=
  match act with
  | DeformTo id _ | Discard id => bool_decide (id = k)
  | InitPatch patch => bool_decide (Patch.id patch = k)
  | _ => false
  end.

(** The same, or commit gives the patch under [k] a new position. *)
Definition settles_place (k : PatchId) (act : Action) : bool :=
  settles_rect k act ||
  match act with
  | MoveTo id _ _ => bool_decide (id = k)
  | _ => false
  end.

(** Two patches that differ at most in rectangle and animation fields. *)
Definition same_shell (p q : RuntimePatch.t) : Prop :=
  RuntimePatch.id p = RuntimePatch.id q ∧
  RuntimePatch.edges p = RuntimePatch.edges q ∧
  RuntimePatch.label p = RuntimePatch.label q.

(** Two patches that differ at most in position and animation fields. *)
Definition same_size (p q : RuntimePatch.t) : Prop :=
  same_shell p q ∧
  Rect.w (RuntimePatch.rect p) = Rect.w (RuntimePatch.rect q) ∧
  Rect.h (RuntimePatch.rect p) = Rect.h (RuntimePatch.rect q).

(** What the two patches under [k] differ in is overwritten when [acts]
    commit. *)
Definition settled (acts : list Action) (k : PatchId) (p q : RuntimePatch.t) : Prop :=
  p = q ∨
  (same_size p q ∧ existsb (settles_place k) acts = true) ∨
  (same_shell p q ∧ existsb (settles_rect k) acts = true).

(** Two worlds with the same map whose differences are overwritten when
    [acts] commit. *)
Definition agree_upto (acts : list Action) (w1 w2 : World) : Prop :=
  closed w1 ∧ well_formed w1 ∧
  RuntimeState.patches w1.2 = RuntimeState.patches w2.2 ∧
  Heap.next w1.1 = Heap.next w2.1 ∧
  ((RuntimeState.measurementOverlay w1.2 = None ∧
    RuntimeState.measurementOverlay w2.2 = None) ∨
   existsb is_TwoPatchMeas acts = true) ∧
  ∀ k l, map_get (RuntimeState.patches w1.2) k = Some l →
    ∃ p q, Heap.objs w1.1 !! l = Some p ∧ Heap.objs w2.1 !! l = Some q ∧
           settled acts k p q.

(** *** What frames keep true inside a step *)

(** The three numbers are one number, a finite one other than [-0]. *)
Definition steady_num (a b c : jsnum) : Prop :=
  ToNumber a = ToNumber b ∧ ToNumber c = ToNumber a ∧
  json_exact_num (JNum (ToNumber a)) = true.

(** Animation from [F] to [G] of a patch at [r] leaves width and height
    alone. *)
Definition steady (F G r : Rect.t) : Prop :=
  steady_num (Rect.w F) (Rect.w G) (Rect.w r) ∧
  steady_num (Rect.h F) (Rect.h G) (Rect.h r).

(** The patches that [acts] move and never deform are animated at their
    own size. *)
Definition sized (acts : list Action) (w : World) : Prop :=
  ∀ k l p F G,
    map_get (RuntimeState.patches w.2) k = Some l → Heap.objs w.1 !! l = Some p →
    RuntimePatch._animFrom p = Some F → RuntimePatch._animTo p = Some G →
    existsb (deforms k) acts = false → steady F G (RuntimePatch.rect p).

(** The patches that [acts] animate carry both animation fields. *)
Definition primed (acts : list Action) (w : World) : Prop :=
  ∀ k l p,
    map_get (RuntimeState.patches w.2) k = Some l → Heap.objs w.1 !! l = Some p →
    existsb (animates k) acts = true →
    is_Some (RuntimePatch._animFrom p) ∧ is_Some (RuntimePatch._animTo p).

(** Only patches that [acts] animate carry animation fields. *)
Definition named_only (acts : list Action) (w : World) : Prop :=
  ∀ k, animated_in w k = true → existsb (animates k) acts = true.

(** Every rectangle of the map is as a JSON copy leaves it. *)
Definition exact_rects (w : World) : Prop :=
  ∀ k l p,
    map_get (RuntimeState.patches w.2) k = Some l → Heap.objs w.1 !! l = Some p →
    json_exact (RuntimePatch.rect p) = true.

(** The actions of the step under the cursor. *)
Definition current_actions (prog : Program.t) (c : Component.t) : list Action :=
  from_option Step.actions [] (current_step prog c).

(** What frames keep true of the animation inside a step, as long as the
    time inside the step is a number: the patches that the step only
    moves are animated at their own size, and once time has passed every
    patch that the step animates carries its animation fields. *)
Definition timed (prog : Program.t) (hc : Heap.t * Component.t) : Prop :=
  is_nan (Component.tInStep hc.2) = true ∨
  (sized (current_actions prog hc.2) (hc.1, Component.runtime hc.2) ∧
   ((Component.tInStep hc.2 =? 0)%float = false →
    primed (current_actions prog hc.2) (hc.1, Component.runtime hc.2))).

(** *** The canvas *)

(** The part of the drawing state of a 2D context that the program sets,
    the stack of saved states, the current path, and what has been painted
    so far.  A path is kept as the calls that built it. *)
Module Canvas.
Record style := mk_style
  { strokeStyle : string; fillStyle : string; lineWidth : float;
    lineDash : list float; font : string; textAlign : string;
    textBaseline : string }.

Inductive paint :=
  | Stroked (path : list Ctx.cmd) (st : style)
  | Filled (path : list Ctx.cmd) (st : style)
  | Text (text : string) (x y : float) (st : style)
  | Cleared (x y w h : float).

Record t := mk
  { current : style; saved : list style; path : list Ctx.cmd;
    painted : list paint }.

Definition set_current (st : style) (cv : t) : t :=
  mk st (saved cv) (path cv) (painted cv).
Definition add_path (c : Ctx.cmd) (cv : t) : t :=
  mk (current cv) (saved cv) (path cv ++ [c]) (painted cv).
Definition add_paint (p : paint) (cv : t) : t :=
  mk (current cv) (saved cv) (path cv) (painted cv ++ [p]).
End Canvas.

(** One call on the context; [None] when the call throws.  A line width
    that is not finite and positive is ignored, and so is a dash list with
    a negative or non-finite entry; a dash list of odd length is taken
    twice; [restore] on an empty stack does nothing; [arc] throws an
    [IndexSizeError] on a negative radius when all its arguments are
    finite. *)
Definition exec (c : Ctx.cmd) (cv : Canvas.t) : option Canvas.t :=
  let st := Canvas.current cv in
  match c with
  | Ctx.save =>
      Some (Canvas.mk st (st :: Canvas.saved cv) (Canvas.path cv) (Canvas.painted cv))
  | Ctx.restore =>
      match Canvas.saved cv with
      | [] => Some cv
      | st' :: rest =>
          Some (Canvas.mk st' rest (Canvas.path cv) (Canvas.painted cv))
      end
  | Ctx.strokeStyle v =>
      Some (Canvas.set_current
              (Canvas.mk_style v (Canvas.fillStyle st) (Canvas.lineWidth st)
                 (Canvas.lineDash st) (Canvas.font st) (Canvas.textAlign st)
                 (Canvas.textBaseline st)) cv)
  | Ctx.fillStyle v =>
      Some (Canvas.set_current
              (Canvas.mk_style (Canvas.strokeStyle st) v (Canvas.lineWidth st)
                 (Canvas.lineDash st) (Canvas.font st) (Canvas.textAlign st)
                 (Canvas.textBaseline st)) cv)
  | Ctx.lineWidth v =>
      if finite v && (0 <? v)%float then
        Some (Canvas.set_current
                (Canvas.mk_style (Canvas.strokeStyle st) (Canvas.fillStyle st) v
                   (Canvas.lineDash st) (Canvas.font st) (Canvas.textAlign st)
                   (Canvas.textBaseline st)) cv)
      else Some cv
  | Ctx.setLineDash segments =>
      if forallb (λ v, finite v && (0 <=? v)%float) segments then
        Some (Canvas.set_current
                (Canvas.mk_style (Canvas.strokeStyle st) (Canvas.fillStyle st)
                   (Canvas.lineWidth st)
                   (if Nat.odd (length segments) then segments ++ segments
                    else segments)
                   (Canvas.font st) (Canvas.textAlign st)
                   (Canvas.textBaseline st)) cv)
      else Some cv
  | Ctx.font v =>
      Some (Canvas.set_current
              (Canvas.mk_style (Canvas.strokeStyle st) (Canvas.fillStyle st)
                 (Canvas.lineWidth st) (Canvas.lineDash st) v (Canvas.textAlign st)
                 (Canvas.textBaseline st)) cv)
  | Ctx.textAlign v =>
      Some (Canvas.set_current
              (Canvas.mk_style (Canvas.strokeStyle st) (Canvas.fillStyle st)
                 (Canvas.lineWidth st) (Canvas.lineDash st) (Canvas.font st) v
                 (Canvas.textBaseline st)) cv)
  | Ctx.textBaseline v =>
      Some (Canvas.set_current
              (Canvas.mk_style (Canvas.strokeStyle st) (Canvas.fillStyle st)
                 (Canvas.lineWidth st) (Canvas.lineDash st) (Canvas.font st)
                 (Canvas.textAlign st) v) cv)
  | Ctx.beginPath =>
      Some (Canvas.mk st (Canvas.saved cv) [] (Canvas.painted cv))
  | Ctx.moveTo _ _ | Ctx.lineTo _ _ | Ctx.rect _ _ _ _ =>
      Some (Canvas.add_path c cv)
  | Ctx.arc x y radius startAngle endAngle =>
      if finite x && finite y && finite radius && finite startAngle
         && finite endAngle && (radius <? 0)%float
      then None
      else Some (Canvas.add_path c cv)
  | Ctx.fill => Some (Canvas.add_paint (Canvas.Filled (Canvas.path cv) st) cv)
  | Ctx.stroke => Some (Canvas.add_paint (Canvas.Stroked (Canvas.path cv) st) cv)
  | Ctx.fillText text x y => Some (Canvas.add_paint (Canvas.Text text x y st) cv)
  | Ctx.clearRect x y w h => Some (Canvas.add_paint (Canvas.Cleared x y w h) cv)
  end.

(** The calls in order, up to the first one that throws. *)
Fixpoint render (cmds : list Ctx.cmd) (cv : Canvas.t) : option Canvas.t :=
  match cmds with
  | [] => Some cv
  | c :: cmds' => cv' ← exec c cv; render cmds' cv'
  end.

(** How a call ends: it returns, it throws, or its loops have not ended
    after the rounds of fuel it was given. *)
Inductive ending (A : Type) :=
  | Returns (a : A)
  | Throws
  | Unfinished.
Arguments Returns {A} a.
Arguments Throws {A}.
Arguments Unfinished {A}.

(** The frame callback as a whole, for a mounted canvas and a parsed
    program: the state update [onTick], then [drawRuntime] of the new
    state on the context, then the setters.  The drawing comes before the
    setters, so a call that does not come back from it sets nothing. *)
Definition frameCallback (prog : Program.t) (fuel : nat) (dt : float)
    (hc : Heap.t * Component.t) (cv : Canvas.t)
    : ending ((Heap.t * Component.t) * Canvas.t) :=
  match onTick prog dt hc.1 hc.2 with
  | None => Throws
  | Some hc' =>
      match drawRuntime fuel (hc'.1, Component.runtime hc'.2)
              (Program.cols prog) (Program.rows prog) with
      | None => Unfinished
      | Some cmds =>
          match render cmds cv with
          | None => Throws
          | Some cv' => Returns (hc', cv')
          end
      end
  end.

(** The texts painted, the strokes with their dash pattern and width. *)
Definition texts (ps : list Canvas.paint) : list string :=
  omap (λ p, match p with Canvas.Text s _ _ _ => Some s | _ => None end) ps.

Definition strokes (ps : list Canvas.paint) : list (list Ctx.cmd * Canvas.style) :=
  omap (λ p, match p with Canvas.Stroked path st => Some (path, st) | _ => None end) ps.

(** The commands do not throw, leave the drawing state and the stack of
    saved states as they found them, and write the texts [ts]. *)
Definition neutral (cmds : list Ctx.cmd) (ts : list string) : Prop :=
  ∀ cv : Canvas.t, ∃ cv' : Canvas.t,
    render cmds cv = Some cv' ∧
    Canvas.current cv' = Canvas.current cv ∧
    Canvas.saved cv' = Canvas.saved cv ∧
    texts (Canvas.painted cv') = texts (Canvas.painted cv) ++ ts.

(** The number is not below zero: NaN, a zero of either sign, or positive. *)
Definition SFnonneg (x : spec_float) : Prop :=
  match x with
  | S754_infinity true | S754_finite true _ _ => False
  | _ => True
  end.

(** The progress of the overlay, if there is one, is not negative (it may
    be NaN). *)
Definition progress_ok (s : RuntimeState.t) : bool :=
  from_option (λ o, negb (Overlay.progress o <? 0)%float) true
              (RuntimeState.measurementOverlay s).

(** The dash pattern of an edge drawn on a context whose pattern is [d]. *)
Definition edge_dash (d : list float) (kind : EdgeKind) : list float :=
  match kind with
  | KX => [6; 6]%float
  | KZ => d
  end.

(** The style that [drawPatch] strokes with, on a context in style [st]. *)
Definition patch_stroke_style (st : Canvas.style) (width : float)
    (dash : list float) : Canvas.style :=
  Canvas.mk_style "#222" "#f4e5c3" width dash (Canvas.font st)
    (Canvas.textAlign st) (Canvas.textBaseline st).

(** The label that [drawPatch] writes for each patch of the map, in map
    order. *)
Definition labels (w : World) : list string :=
  omap (λ e : PatchId * loc,
          (λ p, default (RuntimePatch.id p) (RuntimePatch.label p))
            <$> Heap.objs w.1 !! e.2)
       (RuntimeState.patches w.2).

(** The colour of the overlay for an outcome. *)
Definition outcome_colour (outcome : option Outcome) : string :=
  match outcome with
  | Some Minus1 => "#c62828"
  | Some Plus1 => "#2e7d32"
  | None => "#1976d2"
  end.

(** The commands of one grid line: vertical at column [c], horizontal at
    row [r]. *)
Definition column_line (rows : float) (c : Z) : list Ctx.cmd :=
  [Ctx.beginPath;
   Ctx.moveTo (tile c * TILE + 0.5) 0;
   Ctx.lineTo (tile c * TILE + 0.5) (rows * TILE);
   Ctx.stroke].

Definition row_line (cols : float) (r : Z) : list Ctx.cmd :=
  [Ctx.beginPath;
   Ctx.moveTo 0 (tile r * TILE + 0.5);
   Ctx.lineTo (cols * TILE) (tile r * TILE + 0.5);
   Ctx.stroke].

(** Grid sizes on which the loop counters are checked to count exactly. *)
Definition grid_bound : Z := 256.

Definition grid_range : list Z := zrange (Z.to_nat (grid_bound + 2)) 0.

Definition counter_ok (c n : Z) : bool :=
  eqb (tile c <=? tile n)%float (c <=? n)%Z &&
  PrimFloat.Leibniz.eqb (tile c + 1) (tile (c + 1)).

(* ------------------------------------------------------------------- *)
(** ** Scenarios *)

Definition edges_zx : Edges.t := Edges.mk KZ KX KZ KX.

Definition patch_q0 : Patch.t :=
  Patch.mk "q0" (Rect.mk (JNum 6) (JNum 7) (JNum 3) (JNum 3)) edges_zx (Some "q0").

Definition patch_q1 : Patch.t :=
  Patch.mk "q1" (Rect.mk (JNum 16) (JNum 7) (JNum 3) (JNum 3)) edges_zx (Some "q1").

(** The state after the first step of the demo program has committed:
    [q0] is object 0 and [q1] is object 1. *)
Definition w_init : World :=
  commitActions [InitPatch patch_q0; InitPatch patch_q1]
                (Heap.empty, RuntimeState.empty).

(** [q0] prepared for the "approach" deformation of the demo program. *)
Definition w_approach : World :=
  prepareTick [DeformTo "q0" (tile_rect 8 7 4 3)] w_init.

(** A deformation of [q0] whose target x is the double nearest to 0.1,
    prepared on [w_init] and advanced to progress 1. *)
Definition rect_tenth : Rect.t :=
  Rect.mk (JNum 0x1.999999999999ap-4) (JNum 7) (JNum 3) (JNum 3).

Definition w_tenth : World :=
  advanceInterpolations 1 (prepareTick [DeformTo "q0" rect_tenth] w_init).

(** A target rectangle whose x is the number that the JSON text [1e999]
    parses to. *)
Definition rect_inf : Rect.t :=
  Rect.mk (JNum infinity) (JNum 7) (JNum 4) (JNum 3).

(** Two joint measurements in one batch, the first naming a patch that
    does not exist. *)
Definition meas_ghost : Action := TwoPatchMeas "ghost" Right "q1" Left None.
Definition meas_q0_q1 : Action := TwoPatchMeas "q0" Right "q1" Left (Some Plus1).

Definition w_meas : World := prepareTick [meas_ghost; meas_q0_q1] w_init.

(** The snapshot that the next frame takes of [w_meas]. *)
Definition w_clone : World := cloneRuntimeState w_meas.1 w_meas.2.

(** A step that deforms [q0] and measures [q0] against [q1]: prepared on
    [w_init], advanced to one half, and then prepared a second time. *)
Definition deform_and_measure : list Action :=
  [DeformTo "q0" (tile_rect 8 7 4 3); meas_q0_q1].

Definition w_half : World :=
  advanceInterpolations 0.5 (prepareTick deform_and_measure w_init).

Definition w_half_again : World := prepareTick deform_and_measure w_half.

(** A program whose second step deforms and measures at once, and the
    component after three frames of play: one of 700 ms and two of 175 ms. *)
Definition prog_deform_and_measure : Program.t :=
  Program.mk 700 26 16
    [Step.mk [InitPatch patch_q0; InitPatch patch_q1] (Some "init");
     Step.mk deform_and_measure (Some "approach and measure")].

Definition playing_initial : Component.t :=
  Component.mk RuntimeState.empty 0 0 true.

Definition after_three_frames : option (Heap.t * Component.t) :=
  frames prog_deform_and_measure [700; 175; 175]%float (Heap.empty, playing_initial).

(** [demoProgram] of the source. *)
Definition demoProgram : Program.t :=
  Program.mk 700 26 16
    [Step.mk [InitPatch patch_q0; InitPatch patch_q1] (Some "init");
     Step.mk [DeformTo "q0" (tile_rect 8 7 4 3);
              DeformTo "q1" (tile_rect 14 7 4 3)] (Some "approach");
     Step.mk [TwoPatchMeas "q0" Right "q1" Left (Some Plus1)]
             (Some "Z Z measurement");
     Step.mk [DeformTo "q0" (tile_rect 6 7 3 3);
              DeformTo "q1" (tile_rect 16 7 3 3)] (Some "separate");
     Step.mk [RotateEdges "q0"; RotateEdges "q1"] (Some "rotate edges");
     Step.mk [TwoPatchMeas "q0" Bottom "q1" Bottom (Some Minus1)]
             (Some "X X measurement")].

(** The Step button pressed [n] times. *)
Fixpoint press_step (prog : Program.t) (n : nat)
    (hc : Heap.t * Component.t) : option (Heap.t * Component.t) :=
  match n with
  | O => Some hc
  | S n' => hc' ← stepOnce prog hc.1 hc.2; press_step prog n' hc'
  end.

(** Rectangle and edges of each patch, whether an overlay is drawn, and
    the step index. *)
Definition summary (hc : Heap.t * Component.t)
    : list (string * option (Rect.t * Edges.t)) * bool * Z :=
  let v := view (hc.1, Component.runtime hc.2) in
  ((λ e : string * option RuntimePatch.t,
      (e.1, (λ p, (RuntimePatch.rect p, RuntimePatch.edges p)) <$> e.2))
     <$> View.patches v,
   bool_decide (is_Some (View.measurementOverlay v)),
   Component.stepIdx hc.2).

(** A program that ends in a rotation, and the component when the cursor
    has reached that last step. *)
Definition patch_r : Patch.t :=
  Patch.mk "r" (tile_rect 2 2 3 3) (Edges.mk KZ KZ KX KX) None.

Definition step_init_r : Step.t := Step.mk [InitPatch patch_r] (Some "init").
Definition step_rotate_r : Step.t := Step.mk [RotateEdges "r"] (Some "rotate edges").

Definition prog_rotate : Program.t :=
  Program.mk 700 26 16 [step_init_r; step_rotate_r].

Definition w_r : World :=
  commitActions [InitPatch patch_r] (Heap.empty, RuntimeState.empty).

Definition at_last_step : Component.t := Component.mk w_r.2 1 0 false.

(** A program without steps. *)
Definition prog_empty : Program.t := Program.mk 700 26 16 [].

(** A program whose second step moves [q0], rotates its edges and
    measures it against [q1], and the playing component in the middle of
    that step, after frames of 0, 200 and 150 ms. *)
Definition prog_move : Program.t :=
  Program.mk 700 26 16
    [Step.mk [InitPatch patch_q0; InitPatch patch_q1] (Some "init");
     Step.mk [MoveTo "q0" (JNum 8) (JNum 9); RotateEdges "q0"; meas_q0_q1]
             (Some "move")].

Definition mid_move : Heap.t * Component.t :=
  state_after prog_move [PressStep; PressPlay; Frame 0; Frame 200; Frame 150].

(** The same program with a tick duration of 0, and the playing component
    at the start of its second step. *)
Definition prog_no_time : Program.t :=
  Program.mk 0 26 16 (Program.steps prog_move).

Definition before_move : Heap.t * Component.t :=
  state_after prog_no_time [PressStep; PressPlay].

(** The same program with a tick duration of [Infinity] ([1e999] in the
    JSON text), at the same place. *)
Definition prog_infinite_tick : Program.t :=
  Program.mk infinity 26 16 (Program.steps prog_move).

Definition before_long_move : Heap.t * Component.t :=
  state_after prog_infinite_tick [PressStep; PressPlay].

(** A program whose grid has no last column ([1e999] in the JSON text). *)
Definition prog_endless_grid : Program.t :=
  Program.mk 700 infinity 16 (Program.steps demoProgram).

(** A patch whose x is the largest double below zero in magnitude,
    [-Number.MAX_VALUE], prepared for a deformation to [Number.MAX_VALUE]
    and advanced to progress 0: the difference of the two overflows. *)
Definition patch_far : Patch.t :=
  Patch.mk "f" (Rect.mk (JNum (-0x1.fffffffffffffp+1023)) (JNum 7) (JNum 3) (JNum 3))
    edges_zx None.

Definition rect_far : Rect.t :=
  Rect.mk (JNum 0x1.fffffffffffffp+1023) (JNum 7) (JNum 3) (JNum 3).

Definition w_far_prepared : World :=
  prepareTick [DeformTo "f" rect_far]
    (commitActions [InitPatch patch_far] (Heap.empty, RuntimeState.empty)).

Definition w_far : World := advanceInterpolations 0 w_far_prepared.

(** A context in the state it is created in. *)
Definition canvas0 : Canvas.t :=
  Canvas.mk
    (Canvas.mk_style "#000000" "#000000" 1 [] "10px sans-serif" "start" "alphabetic")
    [] [] [].

(* ------------------------------------------------------------------- *)
(** * Properties *)

(* ------------------------------------------------------------------- *)
(** ** Basic facts about the store and the map *)

Lemma update_lookup (l l' : loc) f (hp : Heap.t) :
  Heap.objs (Heap.update l f hp) !! l' =
  if decide (l = l') then f <$> Heap.objs hp !! l else Heap.objs hp !! l'.
Proof.
  unfold Heap.update. destruct (Heap.objs hp !! l) eqn:E; simpl.
  - case_decide; subst; [by rewrite lookup_insert_eq | by rewrite lookup_insert_ne].
  - case_decide; subst; [by rewrite E | done].
Qed.

Lemma update_lookup_eq (l : loc) f (hp : Heap.t) p :
  Heap.objs hp !! l = Some p → Heap.objs (Heap.update l f hp) !! l = Some (f p).
Proof. intros E. rewrite update_lookup, decide_True by done. by rewrite E. Qed.

Lemma update_lookup_ne (l l' : loc) f (hp : Heap.t) :
  l ≠ l' → Heap.objs (Heap.update l f hp) !! l' = Heap.objs hp !! l'.
Proof. intros N. by rewrite update_lookup, decide_False. Qed.

Lemma update_next (l : loc) f (hp : Heap.t) :
  Heap.next (Heap.update l f hp) = Heap.next hp.
Proof. unfold Heap.update. by destruct (Heap.objs hp !! l). Qed.

Lemma heap_eq (h1 h2 : Heap.t) :
  Heap.next h1 = Heap.next h2 →
  (∀ l, Heap.objs h1 !! l = Heap.objs h2 !! l) → h1 = h2.
Proof.
  destruct h1 as [o1 n1], h2 as [o2 n2]; simpl. intros -> E.
  f_equal. by apply map_eq.
Qed.

Lemma update_update (l : loc) f g (hp : Heap.t) :
  Heap.update l f (Heap.update l g hp) = Heap.update l (f ∘ g) hp.
Proof.
  apply heap_eq; [by rewrite !update_next|]. intros l'.
  rewrite !update_lookup. destruct (decide (l = l')) as [->|N].
  - rewrite decide_True by done. by destruct (Heap.objs hp !! l').
  - done.
Qed.

Lemma update_id (l : loc) f (hp : Heap.t) :
  (∀ p, Heap.objs hp !! l = Some p → f p = p) → Heap.update l f hp = hp.
Proof.
  intros Hf. apply heap_eq; [by rewrite update_next|]. intros l'.
  rewrite update_lookup. case_decide; [subst|done].
  destruct (Heap.objs hp !! l') eqn:E; simpl; [|done]. by rewrite Hf.
Qed.

Lemma map_get_delete (m : PatchMap) (k : PatchId) :
  map_get (map_delete m k) k = None.
Proof.
  unfold map_delete. induction m as [|[k' l] m IH]; [done|].
  rewrite filter_cons. simpl. case_decide; simpl; [|done].
  by rewrite decide_False.
Qed.

Lemma map_delete_absent (m : PatchMap) (k : PatchId) :
  map_get m k = None → map_delete m k = m.
Proof.
  unfold map_delete. induction m as [|[k' l] m IH]; [done|]. simpl.
  case_decide; [done|]. intros E.
  rewrite filter_cons, decide_True by done. by rewrite IH.
Qed.

Lemma rotate4 (e : Edges.t) : rotate (rotate (rotate (rotate e))) = e.
Proof. by destruct e. Qed.

(* ------------------------------------------------------------------- *)
(** ** RotateEdges *)

Lemma commit_rotate_found (hp : Heap.t) (s : RuntimeState.t) (id : PatchId) (l : loc) :
  map_get (RuntimeState.patches s) id = Some l →
  commitAction (RotateEdges id) (hp, s) =
  (Heap.update l (λ p, RuntimePatch.set_edges (rotate (RuntimePatch.edges p)) p) hp, s).
Proof. intros E. simpl. by rewrite E. Qed.

(** C6: commit of [RotateEdges] on a patch leaves the object with the
    edges top = old left, right = old top, bottom = old right,
    left = old bottom and with every other field as it was, touches no
    other object and not the state, and four commits in a row give back
    the state they started from. *)
Theorem rotate_edges_commit (hp : Heap.t) (s : RuntimeState.t)
    (id : PatchId) (l : loc) (p : RuntimePatch.t) :
  map_get (RuntimeState.patches s) id = Some l →
  Heap.objs hp !! l = Some p →
  let e := RuntimePatch.edges p in
  let w1 := commitAction (RotateEdges id) (hp, s) in
  w1.2 = s ∧
  Heap.objs w1.1 !! l =
    Some (RuntimePatch.mk (RuntimePatch.id p) (RuntimePatch.rect p)
            (Edges.mk (Edges.left e) (Edges.top e) (Edges.right e) (Edges.bottom e))
            (RuntimePatch.label p) (RuntimePatch._animFrom p)
            (RuntimePatch._animTo p)) ∧
  (∀ l', l' ≠ l → Heap.objs w1.1 !! l' = Heap.objs hp !! l') ∧
  commitAction (RotateEdges id)
    (commitAction (RotateEdges id) (commitAction (RotateEdges id) w1)) = (hp, s).
Proof.
  intros Hget Hp e w1. subst w1.
  rewrite !(commit_rotate_found _ _ _ _ Hget). simpl. repeat split.
  - by rewrite (update_lookup_eq _ _ _ _ Hp).
  - intros l' N. by apply update_lookup_ne.
  - f_equal. rewrite !update_update. apply update_id.
    intros [i r e0 lb f t] _. unfold RuntimePatch.set_edges. simpl.
    by rewrite rotate4.
Qed.

Lemma rotate_edges_commit_witness :
  let w1 := commitAction (RotateEdges "q0") w_init in
  w1.2 = w_init.2 ∧
  Heap.objs w1.1 !! 0 =
    Some (RuntimePatch.mk "q0" (Rect.mk (JNum 6) (JNum 7) (JNum 3) (JNum 3))
            (Edges.mk KX KZ KX KZ) (Some "q0") None None) ∧
  (∀ l', l' ≠ 0 → Heap.objs w1.1 !! l' = Heap.objs w_init.1 !! l') ∧
  commitAction (RotateEdges "q0")
    (commitAction (RotateEdges "q0") (commitAction (RotateEdges "q0") w1)) = w_init.
Proof.
  exact (rotate_edges_commit w_init.1 w_init.2 "q0" 0 (deepCopy_Patch patch_q0)
           eq_refl eq_refl).
Defined.

(* ------------------------------------------------------------------- *)
(** ** The action handlers on a patch that exists *)

Lemma commit_deform_found (hp : Heap.t) (s : RuntimeState.t) (id : PatchId) (R : Rect.t) (l : loc) :
  map_get (RuntimeState.patches s) id = Some l →
  commitAction (DeformTo id R) (hp, s) =
  (Heap.update l (λ p, RuntimePatch.set_anim None None
                         (RuntimePatch.set_rect (deepCopy_Rect R) p)) hp, s).
Proof. intros E. simpl. by rewrite E. Qed.

Lemma commit_move_found (hp : Heap.t) (s : RuntimeState.t) (id : PatchId) (tx ty : jsnum) (l : loc) :
  map_get (RuntimeState.patches s) id = Some l →
  commitAction (MoveTo id tx ty) (hp, s) =
  (Heap.update l
     (λ p, RuntimePatch.set_anim None None
             (RuntimePatch.set_rect
                (Rect.mk tx ty (Rect.w (RuntimePatch.rect p))
                   (Rect.h (RuntimePatch.rect p))) p)) hp, s).
Proof. intros E. simpl. by rewrite E. Qed.

Lemma prepare_deform_found (hp : Heap.t) (s : RuntimeState.t) (id : PatchId) (R : Rect.t) (l : loc) :
  map_get (RuntimeState.patches s) id = Some l →
  prepareAction (DeformTo id R) (hp, s) =
  (Heap.update l
     (λ p, RuntimePatch.set_anim (Some (deepCopy_Rect (RuntimePatch.rect p)))
             (Some (deepCopy_Rect R)) p) hp, s).
Proof. intros E. simpl. by rewrite E. Qed.

Lemma prepare_move_found (hp : Heap.t) (s : RuntimeState.t) (id : PatchId) (tx ty : jsnum) (l : loc) :
  map_get (RuntimeState.patches s) id = Some l →
  prepareAction (MoveTo id tx ty) (hp, s) =
  (Heap.update l
     (λ p, RuntimePatch.set_anim
             (Some (deepCopy_Rect (RuntimePatch.rect p)))
             (Some (Rect.mk tx ty (Rect.w (RuntimePatch.rect p))
                      (Rect.h (RuntimePatch.rect p)))) p) hp, s).
Proof. intros E. simpl. by rewrite E. Qed.

(* ------------------------------------------------------------------- *)
(** ** MoveTo *)

(** C9: [MoveTo] leaves the size alone.  Prepare records the current
    rectangle with only x and y replaced as animate-to and does not touch
    the rectangle; commit writes x and y, keeps w, h, the edges and the
    label, and clears animate-from and animate-to. *)
Theorem move_to_keeps_size (hp : Heap.t) (s : RuntimeState.t)
    (id : PatchId) (tx ty : jsnum) (l : loc) (p : RuntimePatch.t) :
  map_get (RuntimeState.patches s) id = Some l →
  Heap.objs hp !! l = Some p →
  let r := RuntimePatch.rect p in
  let wp := prepareAction (MoveTo id tx ty) (hp, s) in
  let wc := commitAction (MoveTo id tx ty) (hp, s) in
  wp.2 = s ∧
  Heap.objs wp.1 !! l =
    Some (RuntimePatch.mk (RuntimePatch.id p) r (RuntimePatch.edges p)
            (RuntimePatch.label p) (Some (deepCopy_Rect r))
            (Some (Rect.mk tx ty (Rect.w r) (Rect.h r)))) ∧
  wc.2 = s ∧
  Heap.objs wc.1 !! l =
    Some (RuntimePatch.mk (RuntimePatch.id p)
            (Rect.mk tx ty (Rect.w r) (Rect.h r)) (RuntimePatch.edges p)
            (RuntimePatch.label p) None None).
Proof.
  intros Hget Hp r wp wc. subst wp wc.
  rewrite (prepare_move_found _ _ _ _ _ _ Hget), (commit_move_found _ _ _ _ _ _ Hget).
  simpl. by rewrite !(update_lookup_eq _ _ _ _ Hp).
Qed.

Lemma move_to_keeps_size_witness :
  let wp := prepareAction (MoveTo "q0" (JNum 10) (JNum 2)) w_init in
  let wc := commitAction (MoveTo "q0" (JNum 10) (JNum 2)) w_init in
  wp.2 = w_init.2 ∧
  Heap.objs wp.1 !! 0 =
    Some (RuntimePatch.mk "q0" (Rect.mk (JNum 6) (JNum 7) (JNum 3) (JNum 3))
            edges_zx (Some "q0")
            (Some (Rect.mk (JNum 6) (JNum 7) (JNum 3) (JNum 3)))
            (Some (Rect.mk (JNum 10) (JNum 2) (JNum 3) (JNum 3)))) ∧
  wc.2 = w_init.2 ∧
  Heap.objs wc.1 !! 0 =
    Some (RuntimePatch.mk "q0" (Rect.mk (JNum 10) (JNum 2) (JNum 3) (JNum 3))
            edges_zx (Some "q0") None None).
Proof.
  exact (move_to_keeps_size w_init.1 w_init.2 "q0" (JNum 10) (JNum 2) 0
           (deepCopy_Patch patch_q0) eq_refl eq_refl).
Defined.

(* ------------------------------------------------------------------- *)
(** ** Dangling references *)

Lemma set_patches_same (s : RuntimeState.t) :
  RuntimeState.set_patches (RuntimeState.patches s) s = s.
Proof. by destruct s. Qed.

Lemma absent_get (m : PatchMap) (k : PatchId) :
  absent m k = true → map_get m k = None.
Proof. unfold absent. by destruct (map_get m k). Qed.

(** C5 (as amended): an action that names a patch the map does not hold
    changes nothing in prepare; in commit it changes nothing either, except
    that [TwoPatchMeas] clears the overlay whether or not its patches
    exist.  After a [Discard] the identifier is absent. *)
Theorem dangling_reference_noop (w : World) (act : Action) :
  dangling (RuntimeState.patches w.2) act = true →
  prepareAction act w = w ∧
  commitAction act w =
    (if is_TwoPatchMeas act then (w.1, RuntimeState.set_overlay None w.2) else w) ∧
  ∀ q, absent (RuntimeState.patches (commitAction (Discard q) w).2) q = true.
Proof.
  destruct w as [hp s]. intros D. split; [|split].
  - destruct act; simpl in *; try done;
      try (by rewrite (absent_get _ _ D)).
    apply orb_true_iff in D as [D|D]; rewrite (absent_get _ _ D); [done|].
    by destruct (map_get _ lhs_id).
  - destruct act; simpl in *; try done;
      try (by rewrite (absent_get _ _ D)).
    by rewrite (map_delete_absent _ _ (absent_get _ _ D)), set_patches_same.
  - intros q. simpl. unfold absent. by rewrite map_get_delete.
Qed.

Lemma dangling_reference_noop_witness :
  prepareAction (DeformTo "ghost" (Rect.mk (JNum 1) (JNum 1) (JNum 1) (JNum 1))) w_init = w_init ∧
  commitAction (DeformTo "ghost" (Rect.mk (JNum 1) (JNum 1) (JNum 1) (JNum 1))) w_init = w_init ∧
  ∀ q, absent (RuntimeState.patches (commitAction (Discard q) w_init).2) q = true.
Proof.
  exact (dangling_reference_noop w_init
           (DeformTo "ghost" (Rect.mk (JNum 1) (JNum 1) (JNum 1) (JNum 1))) eq_refl).
Defined.

(** C5 (as stated) fails: in the batch [meas_ghost; meas_q0_q1] prepare
    installs the overlay of the second action; the commit of the first,
    whose patch "ghost" does not exist, then clears it. *)
Lemma dangling_two_patch_meas_clears_overlay :
  dangling (RuntimeState.patches w_meas.2) meas_ghost = true ∧
  RuntimeState.measurementOverlay w_meas.2 =
    Some (Overlay.mk 0 Right 1 Left (Some Plus1) 0) ∧
  RuntimeState.measurementOverlay (commitAction meas_ghost w_meas).2 = None ∧
  commitAction meas_ghost w_meas ≠ w_meas.
Proof.
  split; [reflexivity|]. split; [reflexivity|]. split; [reflexivity|].
  intros H. apply (f_equal (λ w : World, RuntimeState.measurementOverlay w.2)) in H.
  vm_compute in H. discriminate.
Qed.

(* ------------------------------------------------------------------- *)
(** ** Binary64 facts used by the interpolation *)

Lemma SFcompare_refl (x : spec_float) :
  x ≠ S754_nan → SFcompare x x = Some Eq.
Proof.
  destruct x as [s|s| |s m e]; try done; intros _; simpl.
  - by destruct s.
  - destruct s; rewrite Z.compare_refl, Pos.compare_refl; done.
Qed.

Lemma SFeqb_refl (x : spec_float) : x ≠ S754_nan → SFeqb x x = true.
Proof. intros N. unfold SFeqb. by rewrite SFcompare_refl. Qed.

(** With [t = 0] the product is a zero, and adding a zero gives back the
    first operand, up to the sign of a zero. *)
Lemma lerp_zero (a b : float) :
  finite (b - a) = true → (lerp a b 0 =? a)%float = true.
Proof.
  unfold finite, lerp. rewrite FloatAxioms.classify_spec, FloatAxioms.eqb_spec, FloatAxioms.add_spec, FloatAxioms.mul_spec, FloatAxioms.sub_spec.
  change (Prim2SF 0) with (S754_zero false).
  unfold SF64classify, SF64add, SF64mul, SF64sub.
  destruct (Prim2SF a) as [sa|sa| |sa ma ea], (Prim2SF b) as [sb|sb| |sb mb eb];
    simpl; try done; try (by destruct sa); try (by destruct sb);
    try (by destruct sa, sb).
  - intros _. by apply SFeqb_refl.
  - destruct (binary_normalize _ _ _ _ _) as [s|s| |s m e]; simpl;
      try done; try (by destruct s); intros _; by apply SFeqb_refl.
Qed.

Lemma In_zrange (n : nat) (start z : Z) :
  (start ≤ z < start + Z.of_nat n)%Z → In z (zrange n start).
Proof.
  revert start. induction n as [|n IH]; intros start Hz; [lia|].
  simpl. destruct (decide (z = start)) as [->|N]; [by left|].
  right. apply IH. lia.
Qed.

Lemma In_zrange_Z (len start z : Z) :
  (start ≤ z < start + len)%Z → In z (zrange (Z.to_nat len) start).
Proof. intros Hz. apply In_zrange. rewrite Z2Nat.id; lia. Qed.

Lemma lerp_ends_on_tiles (i j : Z) :
  in_tiles i → in_tiles j →
  lerp (tile i) (tile j) 1 = tile j ∧ lerp (tile i) (tile j) 0 = tile i.
Proof.
  intros Hi Hj.
  assert (All : forallb (λ i, forallb (lerp_ends_exact i) tile_range) tile_range = true)
    by (vm_compute; reflexivity).
  assert (In_range : ∀ z, in_tiles z → In z tile_range).
  { intros z [Hlo Hhi]. apply In_zrange_Z. lia. }
  rewrite forallb_forall in All. specialize (All i (In_range i Hi)).
  rewrite forallb_forall in All. specialize (All j (In_range j Hj)).
  unfold lerp_ends_exact in All. apply andb_true_iff in All as [E1 E0].
  by apply FloatAxioms.Leibniz.eqb_spec in E1, E0.
Qed.

(* ------------------------------------------------------------------- *)
(** ** Rounding to binary64 keeps the order *)

Section RoundingFacts.
Local Open Scope Z_scope.

Lemma pow2_pos (k : Z) : 0 ≤ k → 0 < 2 ^ k.
Proof. intros. by apply Z.pow_pos_nonneg. Qed.

Lemma round_half_even_bounds (X G : Z) : X / 2 ^ G ≤ round_half_even X G ≤ X / 2 ^ G + 1.
Proof.
  unfold round_half_even. destruct (2 ^ G <? 2 * (X mod 2 ^ G)); [lia|].
  destruct ((2 * (X mod 2 ^ G) =? 2 ^ G) && Z.odd (X / 2 ^ G)); lia.
Qed.

Lemma round_half_even_mono (X1 X2 G : Z) : 0 ≤ G → X1 ≤ X2 → round_half_even X1 G ≤ round_half_even X2 G.
Proof.
  intros HG HX. pose proof (pow2_pos G HG) as HP.
  pose proof (Z.div_le_mono X1 X2 (2 ^ G) HP HX) as Hq.
  pose proof (round_half_even_bounds X1 G) as B1. pose proof (round_half_even_bounds X2 G) as B2.
  destruct (Z.eq_dec (X1 / 2 ^ G) (X2 / 2 ^ G)) as [E|N]; [|lia].
  pose proof (Z.div_mod X1 (2 ^ G) ltac:(lia)) as D1.
  pose proof (Z.div_mod X2 (2 ^ G) ltac:(lia)) as D2.
  assert (X1 mod 2 ^ G ≤ X2 mod 2 ^ G) as Hr by (rewrite E in D1; lia).
  unfold round_half_even. rewrite E.
  destruct (Z.ltb_spec (2 ^ G) (2 * (X1 mod 2 ^ G))),
           (Z.ltb_spec (2 ^ G) (2 * (X2 mod 2 ^ G))); try lia.
  - destruct ((2 * (X1 mod 2 ^ G) =? 2 ^ G) && Z.odd (X2 / 2 ^ G)); lia.
  - destruct (Z.eqb_spec (2 * (X1 mod 2 ^ G)) (2 ^ G)),
             (Z.eqb_spec (2 * (X2 mod 2 ^ G)) (2 ^ G)); simpl;
      destruct (Z.odd (X2 / 2 ^ G)); lia.
Qed.

Lemma round_half_even_mult (k G : Z) : 0 ≤ G → round_half_even (k * 2 ^ G) G = k.
Proof.
  intros HG. pose proof (pow2_pos G HG) as HP. unfold round_half_even.
  rewrite Z.div_mul, Z.mod_mul by lia.
  destruct (Z.ltb_spec (2 ^ G) (2 * 0)); [lia|].
  destruct (Z.eqb_spec (2 * 0) (2 ^ G)); [lia|done].
Qed.

Lemma round_half_even_scale (m n k : Z) : 0 ≤ n → 0 ≤ k → round_half_even (m * 2 ^ k) (n + k) = round_half_even m n.
Proof.
  intros Hn Hk. pose proof (pow2_pos n Hn) as HP. pose proof (pow2_pos k Hk) as HK.
  unfold round_half_even. rewrite Z.pow_add_r by done.
  rewrite Z.div_mul_cancel_r by lia.
  rewrite Z.mul_mod_distr_r by lia.
  replace (2 ^ n * 2 ^ k <? 2 * (m mod 2 ^ n * 2 ^ k))
    with (2 ^ n <? 2 * (m mod 2 ^ n)).
  2:{ destruct (Z.ltb_spec (2 ^ n) (2 * (m mod 2 ^ n))),
               (Z.ltb_spec (2 ^ n * 2 ^ k) (2 * (m mod 2 ^ n * 2 ^ k))); try done; nia. }
  replace (2 * (m mod 2 ^ n * 2 ^ k) =? 2 ^ n * 2 ^ k)
    with (2 * (m mod 2 ^ n) =? 2 ^ n).
  2:{ destruct (Z.eqb_spec (2 * (m mod 2 ^ n)) (2 ^ n)),
               (Z.eqb_spec (2 * (m mod 2 ^ n * 2 ^ k)) (2 ^ n * 2 ^ k)); try done; nia. }
  done.
Qed.

Lemma round_half_even_zero_shift (X : Z) : round_half_even X 0 = X.
Proof.
  unfold round_half_even. rewrite Z.pow_0_r, Z.div_1_r, Z.mod_1_r. done.
Qed.

Lemma quantum_nonneg (z0 X : Z) : 0 ≤ z0 → 0 ≤ quantum z0 X.
Proof. unfold quantum. lia. Qed.

Lemma quantum_mono (z0 X1 X2 : Z) : X1 ≤ X2 → quantum z0 X1 ≤ quantum z0 X2.
Proof. intros H. unfold quantum. pose proof (Z.log2_le_mono X1 X2 H). lia. Qed.

Lemma round_mag_zero (z0 : Z) : 0 ≤ z0 → round_mag z0 0 = 0.
Proof.
  intros H. unfold round_mag. pose proof (round_half_even_mult 0 (quantum z0 0) (quantum_nonneg _ _ H)) as E.
  rewrite Z.mul_0_l in E. by rewrite E.
Qed.

Lemma round_mag_nonneg (z0 X : Z) : 0 ≤ z0 → 0 ≤ X → 0 ≤ round_mag z0 X.
Proof.
  intros H HX. unfold round_mag. pose proof (quantum_nonneg z0 X H) as HG.
  pose proof (pow2_pos _ HG). pose proof (round_half_even_bounds X (quantum z0 X)).
  pose proof (Z.div_pos X (2 ^ quantum z0 X) HX ltac:(lia)). nia.
Qed.

Lemma round_mag_mono (z0 X1 X2 : Z) : 0 ≤ z0 → 0 < X1 → X1 ≤ X2 → round_mag z0 X1 ≤ round_mag z0 X2.
Proof.
  intros Hz H1 H12. unfold round_mag.
  pose proof (quantum_mono z0 X1 X2 H12) as HG.
  pose proof (quantum_nonneg z0 X1 Hz) as HG1.
  destruct (Z.eq_dec (quantum z0 X1) (quantum z0 X2)) as [E|N].
  - rewrite <- E. apply Z.mul_le_mono_nonneg_r; [pose proof (pow2_pos _ HG1); lia|].
    by apply round_half_even_mono.
  - (* the binade boundary [2 ^ log2 X2] lies on both grids *)
    set (G1 := quantum z0 X1) in *. set (G2 := quantum z0 X2) in *.
    assert (G2 = Z.log2 X2 + 1 - 53) as EG2 by (unfold G1, G2, quantum in *; lia).
    assert (Z.log2 X1 < Z.log2 X2) as Hlog.
    { pose proof (Z.log2_le_mono X1 X2 H12). unfold G1, G2, quantum in *. lia. }
    set (B := 2 ^ Z.log2 X2).
    assert (X1 < B ∧ B ≤ X2) as [HB1 HB2].
    { pose proof (Z.log2_spec X1 H1) as [_ S1].
      pose proof (Z.log2_spec X2 ltac:(lia)) as [S2 _].
      split; [|done]. eapply Z.lt_le_trans; [exact S1|].
      apply Z.pow_le_mono_r; lia. }
    assert (B = 2 ^ (Z.log2 X2 - G1) * 2 ^ G1) as EB1.
    { unfold B. rewrite <- Z.pow_add_r by lia. f_equal. lia. }
    assert (B = 2 ^ (Z.log2 X2 - G2) * 2 ^ G2) as EB2.
    { unfold B. rewrite <- Z.pow_add_r by lia. f_equal. lia. }
    transitivity B.
    + rewrite EB1. apply Z.mul_le_mono_nonneg_r; [pose proof (pow2_pos _ HG1); lia|].
      rewrite <- (round_half_even_mult (2 ^ (Z.log2 X2 - G1)) G1) by done.
      apply round_half_even_mono; [done|]. rewrite <- EB1. lia.
    + rewrite EB2. apply Z.mul_le_mono_nonneg_r; [pose proof (pow2_pos G2 ltac:(lia)); lia|].
      rewrite <- (round_half_even_mult (2 ^ (Z.log2 X2 - G2)) G2) at 1 by lia.
      apply round_half_even_mono; [lia|]. rewrite <- EB2. done.
Qed.

Lemma round_mag_mono0 (z0 X1 X2 : Z) : 0 ≤ z0 → 0 ≤ X1 → X1 ≤ X2 → round_mag z0 X1 ≤ round_mag z0 X2.
Proof.
  intros Hz H1 H12. destruct (Z.eq_dec X1 0) as [->|N].
  - rewrite round_mag_zero by done. apply round_mag_nonneg; lia.
  - apply round_mag_mono; lia.
Qed.

Lemma digits2_size (m : positive) : digits2_pos m = Pos.size m.
Proof. induction m; simpl; congruence. Qed.

Lemma digits2_log2 (m : positive) : Z.pos (digits2_pos m) = Z.log2 (Z.pos m) + 1.
Proof.
  rewrite digits2_size. destruct m; simpl; rewrite ?Pos2Z.inj_succ; lia.
Qed.

Lemma shr_1_spec (m : Z) (r s : bool) :
  0 ≤ m →
  shr_1 (Build_shr_record m r s) = Build_shr_record (m / 2) (Z.odd m) (r || s).
Proof.
  intros Hm. rewrite <- Z.div2_div.
  destruct m as [|p|p]; [done| |lia]. by destruct p.
Qed.

Lemma low_bits (M k : Z) :
  0 < k →
  M mod 2 ^ k = M mod 2 ^ (k - 1) + 2 ^ (k - 1) * (if Z.odd (M / 2 ^ (k - 1)) then 1 else 0).
Proof.
  intros Hk. replace (2 ^ k) with (2 ^ (k - 1) * 2).
  2:{ replace k with (Z.succ (k - 1)) at 2 by lia.
      rewrite Z.pow_succ_r by lia. lia. }
  pose proof (pow2_pos (k - 1) ltac:(lia)).
  rewrite Z.rem_mul_r by lia. by rewrite Zmod_odd.
Qed.

Lemma shifted_step (M k : Z) (mrs : shr_record) :
  0 ≤ M → 0 ≤ k → shifted M k mrs → shifted M (k + 1) (shr_1 mrs).
Proof.
  intros HM Hk (Em & Er & Es). destruct mrs as [m r s]. simpl in Em, Er, Es.
  pose proof (pow2_pos k Hk) as HP.
  rewrite shr_1_spec by (subst m; apply Z.div_pos; lia).
  unfold shifted. simpl. replace (k + 1 - 1) with k by lia.
  assert ((0 <? k + 1) = true) as -> by lia. simpl. subst m. repeat split.
  - rewrite Z.pow_add_r, Z.pow_1_r by lia. rewrite Z.div_div by lia. done.
  - subst r s. destruct (Z.ltb_spec 0 k) as [Hpos|Hz]; simpl.
    + rewrite (low_bits M k Hpos).
      pose proof (pow2_pos (k - 1) ltac:(lia)) as HQ.
      pose proof (Z.mod_pos_bound M (2 ^ (k - 1)) HQ) as HB.
      destruct (Z.odd (M / 2 ^ (k - 1))); simpl.
      * symmetry. apply negb_true_iff, Z.eqb_neq. lia.
      * rewrite Z.mul_0_r, Z.add_0_r. done.
    + assert (k = 0) as -> by lia. simpl. by rewrite Z.mod_1_r.
Qed.

Lemma iter_shifted (p : positive) :
  ∀ (mrs : shr_record) (M k : Z),
    0 ≤ M → 0 ≤ k → shifted M k mrs → shifted M (k + Z.pos p) (SpecFloat.iter_pos shr_1 p mrs).
Proof.
  induction p as [p IH|p IH|]; intros mrs M k HM Hk R; simpl.
  - replace (k + Z.pos p~1) with (k + 1 + Z.pos p + Z.pos p) by lia.
    apply IH; [done|lia|]. apply IH; [done|lia|]. by apply shifted_step.
  - replace (k + Z.pos p~0) with (k + Z.pos p + Z.pos p) by lia.
    apply IH; [done|lia|]. by apply IH.
  - by apply shifted_step.
Qed.

Lemma shifted_zero (M : Z) : shifted M 0 (Build_shr_record M false false).
Proof. unfold shifted. simpl. by rewrite Z.div_1_r. Qed.

(** [shr_fexp] on a mantissa that is not negative. *)
Lemma shr_fexp_shifted (M e : Z) :
  0 ≤ M →
  let n := Z.max 0 (fexp prec emax (Zdigits2 M + e) - e) in
  ∃ mrs, shr_fexp prec emax M e loc_Exact = (mrs, e + n) ∧ shifted M n mrs.
Proof.
  intros HM n. unfold shr_fexp, shr. subst n. simpl shr_record_of_loc.
  destruct (fexp prec emax (Zdigits2 M + e) - e) as [|p|p] eqn:E.
  - eexists. split; [by rewrite Z.add_0_r|]. apply shifted_zero.
  - eexists. split; [done|].
    replace (Z.max 0 (Z.pos p)) with (0 + Z.pos p) by lia.
    apply iter_shifted; [done..|]. apply shifted_zero.
  - eexists. split; [|apply shifted_zero].
    replace (Z.max 0 (Z.neg p)) with 0 by lia. by rewrite Z.add_0_r.
Qed.

Lemma round_shifted (M n : Z) (mrs : shr_record) :
  0 ≤ M → 0 ≤ n → shifted M n mrs →
  round_nearest_even (shr_m mrs) (loc_of_shr_record mrs) = round_half_even M n.
Proof.
  intros HM Hn (Em & Er & Es). destruct mrs as [m r s]. simpl in *.
  destruct (Z.ltb_spec 0 n) as [Hpos|Hz]; simpl in *.
  - unfold round_half_even. rewrite (low_bits M n Hpos).
    pose proof (pow2_pos (n - 1) ltac:(lia)) as HQ.
    pose proof (Z.mod_pos_bound M (2 ^ (n - 1)) HQ) as HB.
    assert (2 ^ n = 2 * 2 ^ (n - 1)) as EP.
    { replace n with (Z.succ (n - 1)) at 1 by lia.
      by rewrite Z.pow_succ_r by lia. }
    rewrite <- Em. subst r s.
    destruct (Z.odd (M / 2 ^ (n - 1))); simpl.
    + destruct (Z.eqb_spec (M mod 2 ^ (n - 1)) 0) as [E0|N0]; simpl.
      * rewrite E0.
        destruct (Z.ltb_spec (2 ^ n) (2 * (0 + 2 ^ (n - 1) * 1))); [lia|].
        destruct (Z.eqb_spec (2 * (0 + 2 ^ (n - 1) * 1)) (2 ^ n)); [|lia].
        simpl. rewrite <- Z.negb_odd. by destruct (Z.odd m).
      * destruct (Z.ltb_spec (2 ^ n) (2 * (M mod 2 ^ (n - 1) + 2 ^ (n - 1) * 1)));
          [done|lia].
    + destruct (Z.ltb_spec (2 ^ n) (2 * (M mod 2 ^ (n - 1) + 2 ^ (n - 1) * 0))); [lia|].
      destruct (Z.eqb_spec (2 * (M mod 2 ^ (n - 1) + 2 ^ (n - 1) * 0)) (2 ^ n)); [lia|].
      simpl. by destruct (negb (M mod 2 ^ (n - 1) =? 0)).
  - assert (n = 0) as -> by lia. rewrite round_half_even_zero_shift. subst r s m.
    simpl. by rewrite Z.div_1_r.
Qed.

Lemma pow_mul_lt (a x y z : Z) :
  a < 2 ^ x → 0 ≤ x → 0 ≤ y → x + y ≤ z → a * 2 ^ y < 2 ^ z.
Proof.
  intros Ha Hx Hy Hz. pose proof (pow2_pos y Hy) as HP.
  eapply Z.lt_le_trans; [|apply (Z.pow_le_mono_r 2 (x + y) z); lia].
  rewrite Z.pow_add_r by done. nia.
Qed.

Lemma pow_mul_le (a x y z : Z) :
  2 ^ x ≤ a → 0 ≤ x → 0 ≤ y → z ≤ x + y → 2 ^ z ≤ a * 2 ^ y.
Proof.
  intros Ha Hx Hy Hz. pose proof (pow2_pos y Hy) as HP.
  eapply Z.le_trans; [apply (Z.pow_le_mono_r 2 z (x + y)); lia|].
  rewrite Z.pow_add_r by done. nia.
Qed.

Lemma round_half_even_nonneg (m n : Z) : 0 ≤ m → 0 ≤ n → 0 ≤ round_half_even m n.
Proof.
  intros Hm Hn. pose proof (round_half_even_bounds m n).
  pose proof (Z.div_pos m (2 ^ n) Hm (pow2_pos n Hn)). lia.
Qed.

Lemma round_half_even_upper (m n d : Z) :
  0 ≤ m → 0 ≤ n → 0 ≤ d → m < 2 ^ d → round_half_even m n ≤ 2 ^ Z.max (d - n) 0.
Proof.
  intros Hm Hn Hd Hlt. pose proof (round_half_even_bounds m n) as [_ HB].
  pose proof (pow2_pos n Hn) as HP.
  destruct (Z.le_gt_cases n d) as [Hnd|Hnd].
  - replace (Z.max (d - n) 0) with (d - n) by lia.
    assert (m / 2 ^ n < 2 ^ (d - n)); [|lia].
    apply Z.div_lt_upper_bound; [done|].
    rewrite <- Z.pow_add_r by lia. by replace (n + (d - n)) with d by lia.
  - replace (Z.max (d - n) 0) with 0 by lia.
    rewrite Z.div_small in HB; [simpl; lia|]. split; [done|].
    eapply Z.lt_le_trans; [exact Hlt|]. apply Z.pow_le_mono_r; lia.
Qed.

Lemma round_half_even_lower (m n d : Z) :
  0 ≤ n → n ≤ d → 2 ^ d ≤ m → 2 ^ (d - n) ≤ round_half_even m n.
Proof.
  intros Hn Hnd Hle. pose proof (round_half_even_bounds m n) as [HB _].
  pose proof (pow2_pos n Hn) as HP.
  assert (2 ^ (d - n) ≤ m / 2 ^ n); [|lia].
  apply Z.div_le_lower_bound; [done|].
  rewrite <- Z.pow_add_r by lia. by replace (n + (d - n)) with d by lia.
Qed.

Lemma fexp_eq (x : Z) : fexp prec emax x = Z.max (x - 53) (-1074).
Proof. done. Qed.

Lemma round_aux_value (s : bool) (m : positive) (e c : Z) :
  c ≤ -1074 → c ≤ e → e ≤ fexp prec emax (Z.pos (digits2_pos m) + e) →
  rounds_to c s (round_mag (-1074 - c) (Z.pos m * 2 ^ (e - c)))
    (binary_round_aux prec emax s (Z.pos m) e loc_Exact).
Proof.
  intros Hc Hce Hal. rewrite fexp_eq, digits2_log2 in Hal.
  set (dm := Z.log2 (Z.pos m) + 1) in *.
  set (E := Z.max (dm + e - 53) (-1074)) in *.
  set (n := E - e).
  pose proof (Z.log2_spec (Z.pos m) ltac:(lia)) as [Hlo Hhi].
  pose proof (Z.log2_nonneg (Z.pos m)) as Hlog.
  replace (Z.succ (Z.log2 (Z.pos m))) with dm in Hhi by (unfold dm; lia).
  (* the first shift *)
  destruct (shr_fexp_shifted (Z.pos m) e ltac:(lia)) as (mrs1 & S1 & R1).
  simpl Zdigits2 in S1, R1. rewrite fexp_eq, digits2_log2 in S1, R1.
  fold dm in S1, R1. fold E in S1, R1.
  replace (Z.max 0 (E - e)) with n in S1, R1 by (unfold n; lia).
  unfold binary_round_aux. rewrite S1.
  rewrite (round_shifted (Z.pos m) n mrs1) by (done || unfold n; lia).
  set (q := round_half_even (Z.pos m) n).
  assert (0 ≤ q) as Hq by (apply round_half_even_nonneg; unfold n; lia).
  replace (e + n) with E by (unfold n; lia).
  (* the value *)
  assert (round_mag (-1074 - c) (Z.pos m * 2 ^ (e - c)) = q * 2 ^ (E - c)) as ->.
  { unfold round_mag.
    assert (quantum (-1074 - c) (Z.pos m * 2 ^ (e - c)) = E - c) as ->.
    { unfold quantum. rewrite Z.log2_mul_pow2 by lia. unfold E, dm. lia. }
    replace (E - c) with (n + (e - c)) at 1 by (unfold n; lia).
    rewrite round_half_even_scale by (unfold n; lia). done. }
  (* the second shift *)
  destruct (shr_fexp_shifted q E Hq) as (mrs2 & S2 & (Em2 & _ & _)).
  rewrite S2, Em2. clear S2 Em2 S1 R1.
  rewrite fexp_eq.
  assert (q ≤ 2 ^ Z.max (dm - n) 0) as HU.
  { apply round_half_even_upper; unfold n, dm in *; lia. }
  assert (dm - n ≤ 53) as Hj by (unfold n, E; lia).
  destruct q as [|pq|pq] eqn:Eq; [| |lia].
  - (* rounded to zero *)
    simpl Zdigits2. replace (Z.max 0 (Z.max (0 + E - 53) (-1074) - E)) with 0 by (unfold E; lia).
    simpl. done.
  - simpl Zdigits2. rewrite digits2_log2.
    pose proof (Z.log2_spec (Z.pos pq) ltac:(lia)) as [Hqlo Hqhi].
    pose proof (Z.log2_nonneg (Z.pos pq)) as Hqlog.
    assert (Z.log2 (Z.pos pq) ≤ Z.max (dm - n) 0) as Hlq.
    { rewrite <- (Z.log2_pow2 (Z.max (dm - n) 0)) by lia. by apply Z.log2_le_mono. }
    destruct (Z.le_gt_cases (Z.log2 (Z.pos pq) + 1) 53) as [Hd|Hd].
    + (* no carry into a further digit *)
      replace (Z.max 0 (Z.max (Z.log2 (Z.pos pq) + 1 + E - 53) (-1074) - E)) with 0
        by (unfold E; lia).
      rewrite Z.add_0_r, Z.pow_0_r, Z.div_1_r.
      change (emax - prec) with 971.
      destruct (Z.leb_spec E 971) as [Hfin|Hinf]; simpl.
      * repeat split; [|unfold E; lia]. unfold overflow.
        apply (pow_mul_lt _ 53); [|lia|lia|lia].
        eapply Z.lt_le_trans; [exact Hqhi|]. apply Z.pow_le_mono_r; lia.
      * split; [done|]. unfold overflow.
        assert (2 ^ 52 ≤ Z.pos pq) as H52.
        { rewrite <- Eq. unfold q.
          replace 52 with (Z.log2 (Z.pos m) - n) by (unfold n, E, dm in *; lia).
          apply round_half_even_lower; [unfold n, E, dm in *; lia..|done]. }
        apply (pow_mul_le _ 52); lia.
    + (* the carry: the mantissa is [2 ^ 53] *)
      assert (Z.log2 (Z.pos pq) = 53) as E53 by lia.
      assert (Z.pos pq = 2 ^ 53) as Epq.
      { rewrite E53 in Hqlo. replace (Z.max (dm - n) 0) with 53 in HU by lia. lia. }
      rewrite E53.
      replace (Z.max 0 (Z.max (53 + 1 + E - 53) (-1074) - E)) with 1 by (unfold E; lia).
      rewrite Epq. change (2 ^ 53 / 2 ^ 1) with (Z.pos 4503599627370496).
      cbv iota beta.
      change (emax - prec) with 971.
      destruct (Z.leb_spec (E + 1) 971) as [Hfin|Hinf]; simpl.
      * repeat split; [| |unfold E; lia].
        -- change (Z.pos 4503599627370496) with (2 ^ 52).
           rewrite <- !Z.pow_add_r by lia. f_equal. lia.
        -- unfold overflow. rewrite <- Z.pow_add_r by lia. apply Z.pow_lt_mono_r; lia.
      * split; [done|]. unfold overflow. rewrite <- Z.pow_add_r by lia.
        apply Z.pow_le_mono_r; lia.
Qed.

Lemma overflow_pos (c : Z) : c ≤ -1074 → 0 < overflow c.
Proof. intros. apply pow2_pos. lia. Qed.

Lemma iter_xO (m d : positive) : Z.pos (Pos.iter xO m d) = Z.pos m * 2 ^ Z.pos d.
Proof.
  induction d as [|d IH] using Pos.peano_ind.
  - simpl. lia.
  - rewrite Pos.iter_succ, Pos2Z.inj_succ, Z.pow_succ_r by lia.
    rewrite Pos2Z.inj_xO, IH. lia.
Qed.

Lemma shl_align_spec (mx : positive) (ex ex' : Z) :
  (shl_align mx ex ex').2 = Z.min ex ex' ∧
  Z.pos (shl_align mx ex ex').1 = Z.pos mx * 2 ^ (ex - Z.min ex ex').
Proof.
  unfold shl_align. destruct (ex' - ex) as [|d|d] eqn:E; simpl.
  - replace (Z.min ex ex') with ex by lia. rewrite Z.sub_diag. simpl. lia.
  - replace (Z.min ex ex') with ex by lia. rewrite Z.sub_diag. simpl. lia.
  - replace (Z.min ex ex') with ex' by lia. split; [done|].
    rewrite iter_xO. f_equal. f_equal. lia.
Qed.

Lemma round_value (s : bool) (m : positive) (e c : Z) :
  c ≤ -1074 → c ≤ e →
  rounds_to c s (round_mag (-1074 - c) (Z.pos m * 2 ^ (e - c)))
    (binary_round prec emax s m e).
Proof.
  intros Hc Hce. unfold binary_round.
  pose proof (shl_align_spec m e (fexp prec emax (Z.pos (digits2_pos m) + e))) as [E2 E1].
  destruct (shl_align m e (fexp prec emax (Z.pos (digits2_pos m) + e))) as [mz ez].
  simpl in E1, E2. rewrite fexp_eq, digits2_log2 in E1, E2.
  pose proof (Z.log2_nonneg (Z.pos m)) as Hlog.
  assert (Z.pos mz * 2 ^ (ez - c) = Z.pos m * 2 ^ (e - c)) as EV.
  { rewrite E1, <- Z.mul_assoc, <- Z.pow_add_r by lia. f_equal. f_equal. lia. }
  rewrite <- EV. apply round_aux_value; [done|lia|].
  rewrite fexp_eq, digits2_log2, E1, Z.log2_mul_pow2 by lia. lia.
Qed.

Lemma rounds_to_scaled (c : Z) (s : bool) (Y : Z) (f : spec_float) :
  c ≤ -1074 → rounds_to c s Y f →
  scaled c f = signed s (Z.min Y (overflow c)) ∧ is_nanSF f = false.
Proof.
  intros Hc. pose proof (overflow_pos c Hc).
  destruct f as [s'|s'| |s' m e]; simpl; [| |done|].
  - intros [-> ->]. split; [|done]. rewrite Z.min_l by lia. by destruct s.
  - intros [-> ?]. split; [|done]. by rewrite Z.min_r by lia.
  - intros (-> & <- & ? & ?). split; [|done]. by rewrite Z.min_l by lia.
Qed.

Lemma round_scaled_pos (c z : Z) : 0 ≤ z → round_scaled c z = Z.min (round_mag (-1074 - c) z) (overflow c).
Proof. intros. unfold round_scaled. by destruct (Z.ltb_spec z 0); [lia|]. Qed.

Lemma round_scaled_neg (c z : Z) : 0 < z → round_scaled c (- z) = - Z.min (round_mag (-1074 - c) z) (overflow c).
Proof.
  intros. unfold round_scaled. destruct (Z.ltb_spec (- z) 0); [|lia].
  by rewrite Z.opp_involutive.
Qed.

Lemma round_scaled_zero (c : Z) : c ≤ -1074 → round_scaled c 0 = 0.
Proof.
  intros Hc. rewrite round_scaled_pos, round_mag_zero by lia. pose proof (overflow_pos c Hc). lia.
Qed.

Lemma round_scaled_nonneg (c z : Z) : c ≤ -1074 → 0 ≤ z → 0 ≤ round_scaled c z.
Proof.
  intros Hc Hz. rewrite round_scaled_pos by done. pose proof (overflow_pos c Hc).
  pose proof (round_mag_nonneg (-1074 - c) z ltac:(lia) Hz). lia.
Qed.

Lemma round_scaled_nonpos (c z : Z) : c ≤ -1074 → z ≤ 0 → round_scaled c z ≤ 0.
Proof.
  intros Hc Hz. destruct (Z.eq_dec z 0) as [->|N]; [by rewrite round_scaled_zero|].
  replace z with (- - z) by lia. rewrite round_scaled_neg by lia. pose proof (overflow_pos c Hc).
  pose proof (round_mag_nonneg (-1074 - c) (- z) ltac:(lia) ltac:(lia)). lia.
Qed.

Lemma round_scaled_mono (c z1 z2 : Z) : c ≤ -1074 → z1 ≤ z2 → round_scaled c z1 ≤ round_scaled c z2.
Proof.
  intros Hc H12. destruct (Z.le_gt_cases 0 z1) as [H1|H1].
  - rewrite !round_scaled_pos by lia.
    pose proof (round_mag_mono0 (-1074 - c) z1 z2 ltac:(lia) H1 H12). lia.
  - destruct (Z.le_gt_cases 0 z2) as [H2|H2].
    + pose proof (round_scaled_nonpos c z1 Hc ltac:(lia)).
      pose proof (round_scaled_nonneg c z2 Hc H2). lia.
    + replace z1 with (- - z1) by lia. replace z2 with (- - z2) by lia.
      rewrite !round_scaled_neg by lia.
      pose proof (round_mag_mono0 (-1074 - c) (- z2) (- z1) ltac:(lia) ltac:(lia) ltac:(lia)).
      lia.
Qed.

Lemma normalize_scaled (z e c : Z) :
  c ≤ -1074 → c ≤ e →
  scaled c (binary_normalize prec emax z e false) = round_scaled c (z * 2 ^ (e - c)) ∧
  is_nanSF (binary_normalize prec emax z e false) = false.
Proof.
  intros Hc Hce. pose proof (pow2_pos (e - c) ltac:(lia)) as HP.
  destruct z as [|p|p]; simpl binary_normalize.
  - split; [|done]. rewrite Z.mul_0_l, round_scaled_zero by done. done.
  - destruct (rounds_to_scaled c false _ _ Hc (round_value false p e c Hc Hce)) as [-> ->].
    split; [|done]. rewrite round_scaled_pos by lia. done.
  - destruct (rounds_to_scaled c true _ _ Hc (round_value true p e c Hc Hce)) as [-> ->].
    split; [|done].
    replace (Z.neg p * 2 ^ (e - c)) with (- (Z.pos p * 2 ^ (e - c))) by lia.
    rewrite round_scaled_neg by lia. done.
Qed.

(** *** Valid floats *)

Lemma valid_finite (s : bool) (m : positive) (e : Z) :
  valid_binary (S754_finite s m e) = true →
  e = Z.max (Z.log2 (Z.pos m) + 1 + e - 53) (-1074) ∧ e ≤ 971.
Proof.
  intros V. unfold SpecFloat.valid_binary, bounded, canonical_mantissa in V.
  rewrite fexp_eq, digits2_log2 in V.
  apply andb_true_iff in V as [H1 H2]. apply Z.eqb_eq in H1. apply Z.leb_le in H2.
  change (emax - prec) with 971 in H2. lia.
Qed.

Lemma valid_bounds (m : positive) (e c : Z) :
  c ≤ -1074 →
  e = Z.max (Z.log2 (Z.pos m) + 1 + e - 53) (-1074) → e ≤ 971 →
  0 < Z.pos m * 2 ^ (e - c) < overflow c.
Proof.
  intros Hc He Hle. pose proof (pow2_pos (e - c) ltac:(lia)).
  pose proof (Z.log2_spec (Z.pos m) ltac:(lia)) as [_ Hhi].
  split; [lia|]. unfold overflow. apply (pow_mul_lt _ 53); [|lia..].
  eapply Z.lt_le_trans; [exact Hhi|]. apply Z.pow_le_mono_r; lia.
Qed.

Lemma round_scaled_valid (s : bool) (m : positive) (e c : Z) :
  c ≤ -1074 →
  valid_binary (S754_finite s m e) = true →
  round_scaled c (signed s (Z.pos m * 2 ^ (e - c))) = signed s (Z.pos m * 2 ^ (e - c)).
Proof.
  intros Hc [He Hle]%valid_finite.
  pose proof (valid_bounds m e c Hc He Hle) as [Hpos Hcap].
  assert (round_mag (-1074 - c) (Z.pos m * 2 ^ (e - c)) = Z.pos m * 2 ^ (e - c)) as ER.
  { unfold round_mag.
    assert (quantum (-1074 - c) (Z.pos m * 2 ^ (e - c)) = e - c) as ->.
    { unfold quantum. rewrite Z.log2_mul_pow2 by lia. lia. }
    by rewrite round_half_even_mult by lia. }
  destruct s; simpl.
  - rewrite round_scaled_neg, ER by lia. lia.
  - rewrite round_scaled_pos, ER by lia. lia.
Qed.

Lemma magnitude_compare (m1 m2 : positive) (e1 e2 c : Z) :
  c ≤ -1074 →
  e1 = Z.max (Z.log2 (Z.pos m1) + 1 + e1 - 53) (-1074) →
  e2 = Z.max (Z.log2 (Z.pos m2) + 1 + e2 - 53) (-1074) →
  (Z.pos m1 * 2 ^ (e1 - c) ?= Z.pos m2 * 2 ^ (e2 - c)) =
  match e1 ?= e2 with
  | Lt => Lt
  | Gt => Gt
  | Eq => Pos.compare_cont Eq m1 m2
  end.
Proof.
  intros Hc H1 H2.
  pose proof (Z.log2_spec (Z.pos m1) ltac:(lia)) as [Hlo1 Hhi1].
  pose proof (Z.log2_spec (Z.pos m2) ltac:(lia)) as [Hlo2 Hhi2].
  assert (∀ (ma mb : positive) (ea eb : Z),
            ea = Z.max (Z.log2 (Z.pos ma) + 1 + ea - 53) (-1074) →
            eb = Z.max (Z.log2 (Z.pos mb) + 1 + eb - 53) (-1074) →
            ea < eb → Z.pos ma * 2 ^ (ea - c) < Z.pos mb * 2 ^ (eb - c)) as Hlt.
  { intros ma mb ea eb Ha Hb Hab.
    pose proof (Z.log2_spec (Z.pos ma) ltac:(lia)) as [_ Hhia].
    pose proof (Z.log2_spec (Z.pos mb) ltac:(lia)) as [Hlob _].
    eapply Z.lt_le_trans.
    - apply (pow_mul_lt _ 53 _ (53 + ea - c)); [|lia..].
      eapply Z.lt_le_trans; [exact Hhia|]. apply Z.pow_le_mono_r; lia.
    - apply (pow_mul_le _ 52); [|lia..].
      eapply Z.le_trans; [|exact Hlob]. apply Z.pow_le_mono_r; lia. }
  destruct (Z.compare_spec e1 e2) as [->|Hl|Hg].
  - rewrite <- Zmult_compare_compat_r by (apply Z.lt_gt, pow2_pos; lia). done.
  - apply Z.compare_lt_iff. by apply Hlt.
  - apply Z.compare_gt_iff. by apply Hlt.
Qed.

Lemma compare_scaled (c : Z) (x y : spec_float) :
  c ≤ -1074 →
  valid_binary x = true → valid_binary y = true →
  is_nanSF x = false → is_nanSF y = false →
  SFcompare x y = Some (scaled c x ?= scaled c y).
Proof.
  intros Hc Vx Vy Nx Ny. pose proof (overflow_pos c Hc) as Hcap.
  destruct x as [sx|sx| |sx mx ex], y as [sy|sy| |sy my ey]; try done; cbn -[Z.compare Z.mul Z.pow Z.opp overflow].
  - (* zero, infinity *) f_equal. destruct sy; cbn -[Z.compare Z.mul Z.pow Z.opp overflow]; [symmetry|symmetry].
    + apply Z.compare_gt_iff. lia.
    + apply Z.compare_lt_iff. lia.
  - (* zero, finite *)
    apply valid_finite in Vy as [Hy Hy'].
    pose proof (valid_bounds my ey c Hc Hy Hy'). f_equal.
    destruct sy; cbn -[Z.compare Z.mul Z.pow Z.opp overflow]; symmetry.
    + apply Z.compare_gt_iff. lia.
    + apply Z.compare_lt_iff. lia.
  - (* infinity, zero *) f_equal. destruct sx; cbn -[Z.compare Z.mul Z.pow Z.opp overflow]; symmetry.
    + apply Z.compare_lt_iff. lia.
    + apply Z.compare_gt_iff. lia.
  - (* infinity, infinity *) f_equal. destruct sx, sy; cbn -[Z.compare Z.mul Z.pow Z.opp overflow]; symmetry.
    + apply Z.compare_eq_iff. done.
    + apply Z.compare_lt_iff. lia.
    + apply Z.compare_gt_iff. lia.
    + apply Z.compare_eq_iff. done.
  - (* infinity, finite *)
    apply valid_finite in Vy as [Hy Hy'].
    pose proof (valid_bounds my ey c Hc Hy Hy'). f_equal.
    destruct sx, sy; cbn -[Z.compare Z.mul Z.pow Z.opp overflow]; symmetry;
      (apply Z.compare_lt_iff; lia) || (apply Z.compare_gt_iff; lia).
  - (* finite, zero *)
    apply valid_finite in Vx as [Hx Hx'].
    pose proof (valid_bounds mx ex c Hc Hx Hx'). f_equal.
    destruct sx; cbn -[Z.compare Z.mul Z.pow Z.opp overflow]; symmetry.
    + apply Z.compare_lt_iff. lia.
    + apply Z.compare_gt_iff. lia.
  - (* finite, infinity *)
    apply valid_finite in Vx as [Hx Hx'].
    pose proof (valid_bounds mx ex c Hc Hx Hx'). f_equal.
    destruct sx, sy; cbn -[Z.compare Z.mul Z.pow Z.opp overflow]; symmetry;
      (apply Z.compare_lt_iff; lia) || (apply Z.compare_gt_iff; lia).
  - (* finite, finite *)
    apply valid_finite in Vx as [Hx Hx']. apply valid_finite in Vy as [Hy Hy'].
    pose proof (valid_bounds mx ex c Hc Hx Hx').
    pose proof (valid_bounds my ey c Hc Hy Hy').
    pose proof (magnitude_compare mx my ex ey c Hc Hx Hy) as M.
    f_equal. destruct sx, sy; cbn -[Z.compare Z.mul Z.pow Z.opp overflow].
    + rewrite Z.compare_opp,
        (Z.compare_antisym (Z.pos mx * 2 ^ (ex - c)) (Z.pos my * 2 ^ (ey - c))), M.
      by destruct (ex ?= ey).
    + symmetry. apply Z.compare_lt_iff. lia.
    + symmetry. apply Z.compare_gt_iff. lia.
    + by rewrite M.
Qed.

Lemma SFleb_scaled (c : Z) (x y : spec_float) :
  c ≤ -1074 →
  valid_binary x = true → valid_binary y = true →
  is_nanSF x = false → is_nanSF y = false →
  SFleb x y = (scaled c x <=? scaled c y).
Proof.
  intros Hc Vx Vy Nx Ny. unfold SFleb. rewrite (compare_scaled c) by done.
  unfold Z.leb. by destruct (scaled c x ?= scaled c y).
Qed.

Lemma signed_mul_l (s : bool) (a b : Z) : signed s a * b = signed s (a * b).
Proof. destruct s; simpl; lia. Qed.

Lemma signed_mul_r (s : bool) (a b : Z) : a * signed s b = signed s (a * b).
Proof. destruct s; simpl; lia. Qed.

Lemma signed_signed (s t : bool) (a : Z) : signed s (signed t a) = signed (xorb s t) a.
Proof. destruct s, t; simpl; lia. Qed.

Lemma round_scaled_signed (c : Z) (s : bool) (z : Z) :
  c ≤ -1074 → 0 ≤ z → round_scaled c (signed s z) = signed s (Z.min (round_mag (-1074 - c) z) (overflow c)).
Proof.
  intros Hc Hz. destruct s; simpl; [|by apply round_scaled_pos].
  destruct (Z.eq_dec z 0) as [->|N].
  - simpl. rewrite round_scaled_zero, round_mag_zero by lia. pose proof (overflow_pos c Hc). lia.
  - apply round_scaled_neg. lia.
Qed.

Lemma scaled_valid_exponent (s : bool) (m : positive) (e : Z) :
  valid_binary (S754_finite s m e) = true → -1074 ≤ e.
Proof. intros [H _]%valid_finite. lia. Qed.

Lemma scaled_mul (x y : spec_float) :
  valid_binary x = true → valid_binary y = true →
  finiteSF x = true → finiteSF y = true →
  scaled (-2148) (SFmul prec emax x y) = round_scaled (-2148) (scaled (-1074) x * scaled (-1074) y) ∧
  is_nanSF (SFmul prec emax x y) = false.
Proof.
  intros Vx Vy Fx Fy.
  destruct x as [sx|sx| |sx mx ex], y as [sy|sy| |sy my ey];
    try discriminate; cbn -[Z.mul Z.pow Z.opp round_scaled binary_round_aux];
    try (by rewrite ?Z.mul_0_l, ?Z.mul_0_r, round_scaled_zero).
  pose proof (valid_finite _ _ _ Vx) as [Hx Hx'].
  pose proof (valid_finite _ _ _ Vy) as [Hy Hy'].
  pose proof (Z.log2_mul_below (Z.pos mx) (Z.pos my) ltac:(lia) ltac:(lia)) as Hlog.
  pose proof (Z.log2_nonneg (Z.pos mx)). pose proof (Z.log2_nonneg (Z.pos my)).
  assert (ex + ey ≤ fexp prec emax (Z.pos (digits2_pos (mx * my)) + (ex + ey))) as Hal.
  { rewrite fexp_eq, digits2_log2, Pos2Z.inj_mul. lia. }
  pose proof (round_aux_value (xorb sx sy) (mx * my) (ex + ey) (-2148)
                ltac:(lia) ltac:(lia) Hal) as R.
  apply rounds_to_scaled in R as [-> ->]; [|lia]. split; [|done].
  rewrite signed_mul_l, signed_mul_r, signed_signed.
  replace (xorb sy sx) with (xorb sx sy) by by destruct sx, sy.
  assert (Z.pos mx * 2 ^ (ex - -1074) * (Z.pos my * 2 ^ (ey - -1074)) =
          Z.pos (mx * my) * 2 ^ (ex + ey - -2148)) as ->.
  { rewrite Pos2Z.inj_mul.
    replace (ex + ey - -2148) with ((ex - -1074) + (ey - -1074)) by lia.
    rewrite Z.pow_add_r by lia. lia. }
  rewrite round_scaled_signed; [done|lia|].
  pose proof (pow2_pos (ex + ey - -2148) ltac:(lia)). lia.
Qed.

Lemma aligned_value (s : bool) (m : positive) (e ez c : Z) :
  c ≤ ez → ez ≤ e →
  cond_Zopp s (Z.pos (shl_align m e ez).1) * 2 ^ (ez - c) =
  signed s (Z.pos m * 2 ^ (e - c)).
Proof.
  intros Hc He. pose proof (shl_align_spec m e ez) as [_ ->].
  replace (Z.min e ez) with ez by lia.
  replace (e - c) with ((e - ez) + (ez - c)) by lia.
  rewrite Z.pow_add_r by lia. destruct s; simpl; lia.
Qed.

Lemma scaled_add (x y : spec_float) :
  valid_binary x = true → valid_binary y = true →
  finiteSF x = true → finiteSF y = true →
  scaled (-1074) (SFadd prec emax x y) = round_scaled (-1074) (scaled (-1074) x + scaled (-1074) y) ∧
  is_nanSF (SFadd prec emax x y) = false.
Proof.
  intros Vx Vy Fx Fy.
  destruct x as [sx|sx| |sx mx ex], y as [sy|sy| |sy my ey]; try done.
  - split; [|by destruct sx, sy]. rewrite round_scaled_zero by done. by destruct sx, sy.
  - cbn -[Z.mul Z.pow Z.opp round_scaled signed]. by rewrite Z.add_0_l, round_scaled_valid by (done || lia).
  - cbn -[Z.mul Z.pow Z.opp round_scaled signed]. by rewrite Z.add_0_r, round_scaled_valid by (done || lia).
  - pose proof (scaled_valid_exponent _ _ _ Vx). pose proof (scaled_valid_exponent _ _ _ Vy).
    unfold SFadd.
    pose proof (normalize_scaled
      (cond_Zopp sx (Z.pos (shl_align mx ex (Z.min ex ey)).1) +
       cond_Zopp sy (Z.pos (shl_align my ey (Z.min ex ey)).1))
      (Z.min ex ey) (-1074) ltac:(lia) ltac:(lia)) as [E N].
    cbv zeta. unfold fst in *. split; [|exact N]. rewrite E. f_equal.
    rewrite Z.mul_add_distr_r.
    pose proof (aligned_value sx mx ex (Z.min ex ey) (-1074) ltac:(lia) ltac:(lia)) as A1.
    pose proof (aligned_value sy my ey (Z.min ex ey) (-1074) ltac:(lia) ltac:(lia)) as A2.
    unfold fst in A1, A2. by rewrite A1, A2.
Qed.

Lemma scaled_sub (x y : spec_float) :
  valid_binary x = true → valid_binary y = true →
  finiteSF x = true → finiteSF y = true →
  scaled (-1074) (SFsub prec emax x y) = round_scaled (-1074) (scaled (-1074) x - scaled (-1074) y) ∧
  is_nanSF (SFsub prec emax x y) = false.
Proof.
  intros Vx Vy Fx Fy.
  destruct x as [sx|sx| |sx mx ex], y as [sy|sy| |sy my ey]; try done.
  - split; [|by destruct sx, sy]. rewrite round_scaled_zero by done. by destruct sx, sy.
  - cbn -[Z.mul Z.pow Z.opp round_scaled signed Z.sub]. split; [|done].
    pose proof (round_scaled_valid (negb sy) my ey (-1074) ltac:(lia) Vy) as E.
    replace (0 - signed sy (Z.pos my * 2 ^ (ey - -1074)))
      with (signed (negb sy) (Z.pos my * 2 ^ (ey - -1074))) by (destruct sy; simpl; lia).
    by rewrite E.
  - cbn -[Z.mul Z.pow Z.opp round_scaled signed]. by rewrite Z.sub_0_r, round_scaled_valid by (done || lia).
  - pose proof (scaled_valid_exponent _ _ _ Vx). pose proof (scaled_valid_exponent _ _ _ Vy).
    unfold SFsub.
    pose proof (normalize_scaled
      (cond_Zopp sx (Z.pos (shl_align mx ex (Z.min ex ey)).1) -
       cond_Zopp sy (Z.pos (shl_align my ey (Z.min ex ey)).1))
      (Z.min ex ey) (-1074) ltac:(lia) ltac:(lia)) as [E N].
    cbv zeta. unfold fst in *. split; [|exact N]. rewrite E. f_equal.
    rewrite Z.mul_sub_distr_r.
    pose proof (aligned_value sx mx ex (Z.min ex ey) (-1074) ltac:(lia) ltac:(lia)) as A1.
    pose proof (aligned_value sy my ey (Z.min ex ey) (-1074) ltac:(lia) ltac:(lia)) as A2.
    unfold fst in A1, A2. by rewrite A1, A2.
Qed.

Lemma finite_SF (f : float) : finite f = finiteSF (Prim2SF f).
Proof.
  unfold finite. rewrite FloatAxioms.classify_spec. unfold SF64classify.
  destruct (Prim2SF f) as [[]|[]| |[] m e]; try done;
    unfold SFclassify, finiteSF; by destruct (Z.pos (digits2_pos m) =? prec).
Qed.

Lemma finiteSF_not_nan (x : spec_float) : finiteSF x = true → is_nanSF x = false.
Proof. by destruct x. Qed.

Lemma leb_not_nan (x y : float) :
  (x <=? y)%float = true →
  is_nanSF (Prim2SF x) = false ∧ is_nanSF (Prim2SF y) = false.
Proof.
  rewrite FloatAxioms.leb_spec. unfold SFleb.
  destruct (Prim2SF x) as [?|?| |? ? ?], (Prim2SF y) as [?|?| |? ? ?]; done.
Qed.

Lemma leb_scaled (c : Z) (x y : float) :
  c ≤ -1074 →
  is_nanSF (Prim2SF x) = false → is_nanSF (Prim2SF y) = false →
  (x <=? y)%float = (scaled c (Prim2SF x) <=? scaled c (Prim2SF y)).
Proof.
  intros Hc Nx Ny. rewrite FloatAxioms.leb_spec.
  apply SFleb_scaled; [done|apply Prim2SF_valid..|done|done].
Qed.

Lemma leb_le (c : Z) (x y : float) :
  c ≤ -1074 → (x <=? y)%float = true → scaled c (Prim2SF x) ≤ scaled c (Prim2SF y).
Proof.
  intros Hc H. destruct (leb_not_nan x y H) as [Nx Ny].
  rewrite (leb_scaled c) in H by done. by apply Z.leb_le.
Qed.

Lemma le_leb (c : Z) (x y : float) :
  c ≤ -1074 →
  is_nanSF (Prim2SF x) = false → is_nanSF (Prim2SF y) = false →
  scaled c (Prim2SF x) ≤ scaled c (Prim2SF y) → (x <=? y)%float = true.
Proof. intros Hc Nx Ny H. rewrite (leb_scaled c) by done. by apply Z.leb_le. Qed.

(** On numbers [<=] is total. *)
Lemma leb_total (x y : float) :
  is_nanSF (Prim2SF x) = false → is_nanSF (Prim2SF y) = false →
  (x <=? y)%float = false → (y <=? x)%float = true.
Proof.
  intros Nx Ny H. rewrite (leb_scaled (-1074)) in H by done.
  apply (le_leb (-1074)); [done..|]. apply Z.leb_gt in H. lia.
Qed.

Lemma mul_scaled (d t : float) :
  finite d = true → finite t = true →
  scaled (-2148) (Prim2SF (d * t)) =
    round_scaled (-2148) (scaled (-1074) (Prim2SF d) * scaled (-1074) (Prim2SF t)) ∧
  is_nanSF (Prim2SF (d * t)) = false.
Proof.
  rewrite !finite_SF, FloatAxioms.mul_spec. intros Fd Ft.
  apply scaled_mul; [apply Prim2SF_valid..|done|done].
Qed.

Lemma add_scaled (a u : float) :
  finite a = true → finite u = true →
  scaled (-1074) (Prim2SF (a + u)) =
    round_scaled (-1074) (scaled (-1074) (Prim2SF a) + scaled (-1074) (Prim2SF u)) ∧
  is_nanSF (Prim2SF (a + u)) = false.
Proof.
  rewrite !finite_SF, FloatAxioms.add_spec. intros Fa Fu.
  apply scaled_add; [apply Prim2SF_valid..|done|done].
Qed.

Lemma sub_scaled (a u : float) :
  finite a = true → finite u = true →
  scaled (-1074) (Prim2SF (a - u)) =
    round_scaled (-1074) (scaled (-1074) (Prim2SF a) - scaled (-1074) (Prim2SF u)) ∧
  is_nanSF (Prim2SF (a - u)) = false.
Proof.
  rewrite !finite_SF, FloatAxioms.sub_spec. intros Fa Fu.
  apply scaled_sub; [apply Prim2SF_valid..|done|done].
Qed.

Lemma scaled_zero (c : Z) : scaled c (Prim2SF 0) = 0.
Proof. done. Qed.

(** A number rounds to itself. *)
Lemma round_scaled_scaled (c : Z) (x : float) :
  c ≤ -1074 → finite x = true →
  round_scaled c (scaled c (Prim2SF x)) = scaled c (Prim2SF x).
Proof.
  rewrite finite_SF. intros Hc F. pose proof (Prim2SF_valid x) as V.
  destruct (Prim2SF x) as [s|s| |s m e]; try done; simpl.
  - by apply round_scaled_zero.
  - by apply round_scaled_valid.
Qed.

Lemma mul_mono (d t t' : float) :
  finite d = true → finite t = true → finite t' = true →
  (0 <=? d)%float = true → (t <=? t')%float = true →
  (d * t <=? d * t')%float = true.
Proof.
  intros Fd Ft Ft' Hd Ht.
  destruct (mul_scaled d t Fd Ft) as [E1 N1]. destruct (mul_scaled d t' Fd Ft') as [E2 N2].
  apply (le_leb (-2148)); [lia|done|done|]. rewrite E1, E2.
  apply round_scaled_mono; [lia|].
  apply (leb_le (-1074)) in Hd, Ht; [|lia..]. rewrite scaled_zero in Hd.
  by apply Z.mul_le_mono_nonneg_l.
Qed.

Lemma mul_anti (d t t' : float) :
  finite d = true → finite t = true → finite t' = true →
  (d <=? 0)%float = true → (t <=? t')%float = true →
  (d * t' <=? d * t)%float = true.
Proof.
  intros Fd Ft Ft' Hd Ht.
  destruct (mul_scaled d t Fd Ft) as [E1 N1]. destruct (mul_scaled d t' Fd Ft') as [E2 N2].
  apply (le_leb (-2148)); [lia|done|done|]. rewrite E1, E2.
  apply round_scaled_mono; [lia|].
  apply (leb_le (-1074)) in Hd, Ht; [|lia..]. rewrite scaled_zero in Hd.
  by apply Z.mul_le_mono_nonpos_l.
Qed.

Lemma SFleb_pinf (x : spec_float) :
  is_nanSF x = false → SFleb x (S754_infinity false) = true.
Proof. by destruct x as [s|[]| |s m e]. Qed.

Lemma SFleb_ninf (x : spec_float) :
  is_nanSF x = false → SFleb (S754_infinity true) x = true.
Proof. by destruct x as [s|[]| |s m e]. Qed.

Lemma SFadd_inf (x : spec_float) (s : bool) :
  finiteSF x = true → SFadd prec emax x (S754_infinity s) = S754_infinity s.
Proof. by destruct x. Qed.

Lemma add_mono (a u v : float) :
  finite a = true → (u <=? v)%float = true → (a + u <=? a + v)%float = true.
Proof.
  intros Fa H. destruct (leb_not_nan u v H) as [Nu Nv].
  destruct (finite u) eqn:Fu, (finite v) eqn:Fv.
  - destruct (add_scaled a u Fa Fu) as [E1 N1]. destruct (add_scaled a v Fa Fv) as [E2 N2].
    apply (le_leb (-1074)); [lia|done|done|]. rewrite E1, E2.
    apply round_scaled_mono; [lia|]. apply (leb_le (-1074)) in H; lia.
  - destruct (add_scaled a u Fa Fu) as [_ N1].
    rewrite finite_SF in Fa, Fv. rewrite FloatAxioms.leb_spec in H |- *.
    rewrite (FloatAxioms.add_spec a v). unfold SF64add.
    destruct (Prim2SF v) as [sv|sv| |sv mv ev]; try done.
    rewrite SFadd_inf by done. destruct sv.
    + rewrite finite_SF in Fu. by destruct (Prim2SF u) as [?|[]| |[] ? ?].
    + by apply SFleb_pinf.
  - destruct (add_scaled a v Fa Fv) as [_ N2].
    rewrite finite_SF in Fa, Fu. rewrite FloatAxioms.leb_spec in H |- *.
    rewrite (FloatAxioms.add_spec a u). unfold SF64add.
    destruct (Prim2SF u) as [su|su| |su mu eu]; try done.
    rewrite SFadd_inf by done. destruct su.
    + by apply SFleb_ninf.
    + rewrite finite_SF in Fv. by destruct (Prim2SF v) as [?|[]| |[] ? ?].
  - rewrite finite_SF in Fa, Fu, Fv. rewrite FloatAxioms.leb_spec in H |- *.
    rewrite !FloatAxioms.add_spec. unfold SF64add.
    destruct (Prim2SF u) as [su|su| |su mu eu]; try done.
    destruct (Prim2SF v) as [sv|sv| |sv mv ev]; try done.
    rewrite !SFadd_inf by done. done.
Qed.

Lemma add_nonneg (a u : float) :
  finite a = true → (0 <=? u)%float = true → (a <=? a + u)%float = true.
Proof.
  intros Fa H. destruct (leb_not_nan 0 u H) as [_ Nu].
  assert (is_nanSF (Prim2SF a) = false) as Na.
  { apply finiteSF_not_nan. by rewrite <- finite_SF. }
  destruct (finite u) eqn:Fu.
  - destruct (add_scaled a u Fa Fu) as [E1 N1].
    apply (le_leb (-1074)); [lia|done|done|]. rewrite E1.
    rewrite <- (round_scaled_scaled (-1074) a) at 1 by (done || lia).
    apply round_scaled_mono; [lia|]. apply (leb_le (-1074)) in H; [|lia].
    rewrite scaled_zero in H. lia.
  - rewrite finite_SF in Fa, Fu. rewrite FloatAxioms.leb_spec in H |- *.
    rewrite FloatAxioms.add_spec. unfold SF64add.
    destruct (Prim2SF u) as [su|su| |su mu eu]; try done.
    rewrite SFadd_inf by done. destruct su; [done|]. by apply SFleb_pinf.
Qed.

Lemma add_nonpos (a u : float) :
  finite a = true → (u <=? 0)%float = true → (a + u <=? a)%float = true.
Proof.
  intros Fa H. destruct (leb_not_nan u 0 H) as [Nu _].
  assert (is_nanSF (Prim2SF a) = false) as Na.
  { apply finiteSF_not_nan. by rewrite <- finite_SF. }
  destruct (finite u) eqn:Fu.
  - destruct (add_scaled a u Fa Fu) as [E1 N1].
    apply (le_leb (-1074)); [lia|done|done|]. rewrite E1.
    rewrite <- (round_scaled_scaled (-1074) a) at 2 by (done || lia).
    apply round_scaled_mono; [lia|]. apply (leb_le (-1074)) in H; [|lia].
    rewrite scaled_zero in H. lia.
  - rewrite finite_SF in Fa, Fu. rewrite FloatAxioms.leb_spec in H |- *.
    rewrite FloatAxioms.add_spec. unfold SF64add.
    destruct (Prim2SF u) as [su|su| |su mu eu]; try done.
    rewrite SFadd_inf by done. destruct su; [|done]. by apply SFleb_ninf.
Qed.

Lemma mul_nonneg (d t : float) :
  finite d = true → finite t = true →
  (0 <=? d)%float = true → (0 <=? t)%float = true → (0 <=? d * t)%float = true.
Proof.
  intros Fd Ft Hd Ht. destruct (mul_scaled d t Fd Ft) as [E N].
  apply (le_leb (-2148)); [lia|done|done|]. rewrite E, scaled_zero.
  apply round_scaled_nonneg; [lia|].
  apply (leb_le (-1074)) in Hd, Ht; [|lia..]. rewrite scaled_zero in Hd, Ht. nia.
Qed.

Lemma mul_nonpos (d t : float) :
  finite d = true → finite t = true →
  (d <=? 0)%float = true → (0 <=? t)%float = true → (d * t <=? 0)%float = true.
Proof.
  intros Fd Ft Hd Ht. destruct (mul_scaled d t Fd Ft) as [E N].
  apply (le_leb (-2148)); [lia|done|done|]. rewrite E, scaled_zero.
  apply round_scaled_nonpos; [lia|].
  apply (leb_le (-1074)) in Hd, Ht; [|lia..]. rewrite scaled_zero in Hd, Ht. nia.
Qed.

Lemma sub_nonneg (a b : float) :
  finite a = true → finite b = true →
  (a <=? b)%float = true → (0 <=? b - a)%float = true.
Proof.
  intros Fa Fb H. destruct (sub_scaled b a Fb Fa) as [E N].
  apply (le_leb (-1074)); [lia|done|done|]. rewrite E, scaled_zero.
  apply round_scaled_nonneg; [lia|]. apply (leb_le (-1074)) in H; lia.
Qed.

Lemma sub_nonpos (a b : float) :
  finite a = true → finite b = true →
  (b <=? a)%float = true → (b - a <=? 0)%float = true.
Proof.
  intros Fa Fb H. destruct (sub_scaled b a Fb Fa) as [E N].
  apply (le_leb (-1074)); [lia|done|done|]. rewrite E, scaled_zero.
  apply round_scaled_nonpos; [lia|]. apply (leb_le (-1074)) in H; lia.
Qed.

Lemma finite_sub_inv (a b : float) :
  finite (b - a) = true → finite a = true ∧ finite b = true.
Proof.
  rewrite !finite_SF, FloatAxioms.sub_spec. unfold SF64sub.
  destruct (Prim2SF a) as [sa|sa| |sa ma ea], (Prim2SF b) as [sb|sb| |sb mb eb];
    simpl; try done; by destruct sa, sb.
Qed.

Lemma finite_unit (t : float) :
  (0 <=? t)%float = true → (t <=? 1)%float = true → finite t = true.
Proof.
  rewrite finite_SF, !FloatAxioms.leb_spec.
  change (Prim2SF 0) with (S754_zero false).
  change (Prim2SF 1) with (S754_finite false 4503599627370496 (-52)).
  by destruct (Prim2SF t) as [s|[]| |s m e].
Qed.

(** *** The interpolation moves one way *)

Lemma lerp_mono_up (a b t t' : float) :
  finite (b - a) = true → finite t = true → finite t' = true →
  (a <=? b)%float = true → (t <=? t')%float = true →
  (lerp a b t <=? lerp a b t')%float = true.
Proof.
  intros Fd Ft Ft' Hab Ht. destruct (finite_sub_inv a b Fd) as [Fa Fb].
  unfold lerp. apply add_mono; [done|]. apply mul_mono; [done..| |done].
  by apply sub_nonneg.
Qed.

Lemma lerp_mono_down (a b t t' : float) :
  finite (b - a) = true → finite t = true → finite t' = true →
  (b <=? a)%float = true → (t <=? t')%float = true →
  (lerp a b t' <=? lerp a b t)%float = true.
Proof.
  intros Fd Ft Ft' Hab Ht. destruct (finite_sub_inv a b Fd) as [Fa Fb].
  unfold lerp. apply add_mono; [done|]. apply mul_anti; [done..| |done].
  by apply sub_nonpos.
Qed.

Lemma lerp_above (a b t : float) :
  finite (b - a) = true → finite t = true →
  (a <=? b)%float = true → (0 <=? t)%float = true →
  (a <=? lerp a b t)%float = true.
Proof.
  intros Fd Ft Hab Ht. destruct (finite_sub_inv a b Fd) as [Fa Fb].
  unfold lerp. apply add_nonneg; [done|]. apply mul_nonneg; [done..| |done].
  by apply sub_nonneg.
Qed.

Lemma lerp_below (a b t : float) :
  finite (b - a) = true → finite t = true →
  (b <=? a)%float = true → (0 <=? t)%float = true →
  (lerp a b t <=? a)%float = true.
Proof.
  intros Fd Ft Hab Ht. destruct (finite_sub_inv a b Fd) as [Fa Fb].
  unfold lerp. apply add_nonpos; [done|]. apply mul_nonpos; [done..| |done].
  by apply sub_nonpos.
Qed.

End RoundingFacts.

(* ------------------------------------------------------------------- *)
(** ** advanceInterpolations *)

Lemma advancePatch_idem (t : float) (p : RuntimePatch.t) :
  advancePatch t (advancePatch t p) = advancePatch t p.
Proof. unfold advancePatch. by destruct p as [i r e lb [f|] [g|]]. Qed.

Lemma advance_fold_lookup (t : float) (m : list (string * nat)) (hp : Heap.t) (l : nat) :
  Heap.objs (fold_left (λ hp e, Heap.update e.2 (advancePatch t) hp) m hp) !! l =
  if decide (l ∈ m.*2) then advancePatch t <$> Heap.objs hp !! l
  else Heap.objs hp !! l.
Proof.
  revert hp. induction m as [|[k l0] m IH]; intros hp; cbn [fold_left].
  - case_decide as I; [by apply elem_of_nil in I | done].
  - rewrite IH, update_lookup, fmap_cons. cbn [snd].
    destruct (decide (l0 = l)) as [->|N].
    + rewrite (decide_True (P := l ∈ l :: m.*2)) by apply list_elem_of_here.
      case_decide; [|done].
      destruct (Heap.objs hp !! l); simpl; [|done]. by rewrite advancePatch_idem.
    + destruct (decide (l ∈ m.*2)) as [I|I].
      * rewrite decide_True; [done|]. by apply list_elem_of_further.
      * rewrite decide_False; [done|]. intros [?|?]%elem_of_cons; done.
Qed.

Lemma advance_lookup (t : float) (hp : Heap.t) (s : RuntimeState.t) (l : nat) :
  Heap.objs (advanceInterpolations t (hp, s)).1 !! l =
  if decide (l ∈ (RuntimeState.patches s).*2)
  then advancePatch t <$> Heap.objs hp !! l
  else Heap.objs hp !! l.
Proof. simpl. apply advance_fold_lookup. Qed.

Lemma advance_patches (t : float) (w : Heap.t * RuntimeState.t) :
  RuntimeState.patches (advanceInterpolations t w).2 = RuntimeState.patches w.2.
Proof. by destruct w. Qed.

Lemma advance_lookup_mapped (t : float) (hp : Heap.t) (s : RuntimeState.t)
    (k : string) (l : nat) (p : RuntimePatch.t) :
  (k, l) ∈ RuntimeState.patches s → Heap.objs hp !! l = Some p →
  Heap.objs (advanceInterpolations t (hp, s)).1 !! l = Some (advancePatch t p).
Proof.
  intros I Hp. rewrite advance_lookup, decide_True, Hp; [done|].
  apply list_elem_of_fmap. by exists (k, l).
Qed.

Lemma map_get_elem (m : list (string * nat)) (k : string) (l : nat) :
  map_get m k = Some l → (k, l) ∈ m.
Proof.
  induction m as [|[k' l'] m IH]; [done|]. simpl. case_decide.
  - intros [= <-]. subst. apply list_elem_of_here.
  - intros E. apply list_elem_of_further. by apply IH.
Qed.

Lemma lerpRect_zero (A B : Rect.t) :
  finite_diff A B = true → rect_eqb (lerpRect A B 0) A = true.
Proof.
  unfold finite_diff, rect_eqb, lerpRect, lerp_num, num_eqb. simpl.
  rewrite !andb_true_iff. intros [[[Hx Hy] Hw] Hh].
  by rewrite !lerp_zero.
Qed.

Lemma float_leb_trans (x y z : float) :
  (x <=? y)%float = true → (y <=? z)%float = true → (x <=? z)%float = true.
Proof.
  intros H1 H2. destruct (leb_not_nan x y H1) as [Nx Ny].
  destruct (leb_not_nan y z H2) as [_ Nz].
  apply (le_leb (-1074)); [lia|done|done|].
  apply (leb_le (-1074)) in H1, H2; lia.
Qed.

(** One coordinate of the interpolation: it moves from [a] towards [b]
    and stays between [a] and the value it has at progress 1. *)
Lemma lerp_coord (a b : jsnum) (q q' : float) :
  finite (ToNumber b - ToNumber a) = true →
  (0 <=? q)%float = true → (q <=? q')%float = true → (q' <=? 1)%float = true →
  coord_toward a b (lerp_num a b q) (lerp_num a b q') = true ∧
  coord_between a (lerp_num a b 1) (lerp_num a b q) = true ∧
  coord_between a (lerp_num a b 1) (lerp_num a b q') = true.
Proof.
  intros Fd H0 Hq H1.
  pose proof (float_leb_trans _ _ _ Hq H1) as Hq1.
  pose proof (float_leb_trans _ _ _ H0 Hq) as H0q'.
  pose proof (finite_unit q H0 Hq1) as Fq.
  pose proof (finite_unit q' H0q' H1) as Fq'.
  assert (finite 1 = true) as F1 by done.
  destruct (finite_sub_inv _ _ Fd) as [Fa Fb].
  unfold coord_toward, coord_between, num_leb, lerp_num. cbn [ToNumber].
  destruct (ToNumber a <=? ToNumber b)%float eqn:Eab.
  - rewrite (lerp_mono_up _ _ q q'), (lerp_mono_up _ _ q 1), (lerp_mono_up _ _ q' 1),
      !lerp_above by done. done.
  - assert ((ToNumber b <=? ToNumber a)%float = true) as Eba.
    { apply leb_total; [| |done]; apply finiteSF_not_nan; by rewrite <- finite_SF. }
    rewrite (lerp_mono_down _ _ q q'), (lerp_mono_down _ _ q 1),
      (lerp_mono_down _ _ q' 1), !lerp_below by done.
    by rewrite !orb_true_r.
Qed.

Lemma lerpRect_monotone (A B : Rect.t) (q q' : float) :
  finite_diff A B = true →
  (0 <=? q)%float = true → (q <=? q')%float = true → (q' <=? 1)%float = true →
  rect_toward A B (lerpRect A B q) (lerpRect A B q') = true ∧
  rect_between A (lerpRect A B 1) (lerpRect A B q) = true ∧
  rect_between A (lerpRect A B 1) (lerpRect A B q') = true.
Proof.
  unfold finite_diff. rewrite !andb_true_iff. intros [[[Fx Fy] Fw] Fh] H0 Hq H1.
  destruct (lerp_coord (Rect.x A) (Rect.x B) q q' Fx H0 Hq H1) as (X1 & X2 & X3).
  destruct (lerp_coord (Rect.y A) (Rect.y B) q q' Fy H0 Hq H1) as (Y1 & Y2 & Y3).
  destruct (lerp_coord (Rect.w A) (Rect.w B) q q' Fw H0 Hq H1) as (W1 & W2 & W3).
  destruct (lerp_coord (Rect.h A) (Rect.h B) q q' Fh H0 Hq H1) as (H1' & H2 & H3).
  unfold rect_toward, rect_between, lerpRect. cbn [Rect.x Rect.y Rect.w Rect.h].
  by rewrite X1, X2, X3, Y1, Y2, Y3, W1, W2, W3, H1', H2, H3.
Qed.

Lemma tiles_finite_diff (i j : Z) :
  in_tiles i → in_tiles j → finite (tile j - tile i) = true.
Proof.
  intros Hi Hj.
  assert (All : forallb (λ i, forallb (tile_diff_finite i) tile_range) tile_range = true)
    by (vm_compute; reflexivity).
  assert (In_range : ∀ z, in_tiles z → In z tile_range).
  { intros z [Hlo Hhi]. apply In_zrange_Z. unfold tile_bound in *. lia. }
  rewrite forallb_forall in All. specialize (All i (In_range i Hi)).
  rewrite forallb_forall in All. exact (All j (In_range j Hj)).
Qed.

(** C1 (as amended): [advance] sets the rectangle of a patch with both
    animation rectangles to [from + (to - from) * p], coordinate by
    coordinate, in binary64 arithmetic.  Whenever the coordinate
    differences are finite, that is numerically animate-from at [p = 0],
    and for progress values [0 <= q <= q' <= 1] no coordinate moves
    against the direction from animate-from to animate-to and every
    coordinate lies between its value in animate-from and the value it
    takes at [p = 1].  On integer tile coordinates up to [tile_bound] the
    differences are finite, the rectangle is exactly animate-from at
    [p = 0] and exactly animate-to at [p = 1], and so every coordinate
    lies between its values in animate-from and animate-to for every
    progress from 0 to 1. *)
Theorem advance_interpolates (hp : Heap.t) (s : RuntimeState.t)
    (k : string) (l : nat) (p : RuntimePatch.t) (A B : Rect.t) (t : float) :
  (k, l) ∈ RuntimeState.patches s →
  Heap.objs hp !! l = Some p →
  RuntimePatch._animFrom p = Some A →
  RuntimePatch._animTo p = Some B →
  let rect_at t' :=
    RuntimePatch.rect <$> Heap.objs (advanceInterpolations t' (hp, s)).1 !! l in
  let co (f : Rect.t → jsnum) :=
    JNum (ToNumber (f A) + (ToNumber (f B) - ToNumber (f A)) * t)%float in
  Heap.objs (advanceInterpolations t (hp, s)).1 !! l =
    Some (RuntimePatch.set_rect
            (Rect.mk (co Rect.x) (co Rect.y) (co Rect.w) (co Rect.h)) p) ∧
  (finite_diff A B = true →
   ∃ r0, rect_at 0%float = Some r0 ∧ rect_eqb r0 A = true) ∧
  (∀ ax ay aw ah bx by_ bw bh,
     in_tiles ax → in_tiles ay → in_tiles aw → in_tiles ah →
     in_tiles bx → in_tiles by_ → in_tiles bw → in_tiles bh →
     A = tile_rect ax ay aw ah → B = tile_rect bx by_ bw bh →
     finite_diff A B = true ∧
     rect_at 0%float = Some A ∧ rect_at 1%float = Some B ∧
     ∀ q : float,
       (0 <=? q)%float = true → (q <=? 1)%float = true →
       ∃ r, rect_at q = Some r ∧ rect_between A B r = true) ∧
  (finite_diff A B = true →
   ∀ q q' : float,
     (0 <=? q)%float = true → (q <=? q')%float = true → (q' <=? 1)%float = true →
     ∃ r r' r1,
       rect_at q = Some r ∧ rect_at q' = Some r' ∧ rect_at 1%float = Some r1 ∧
       rect_toward A B r r' = true ∧
       rect_between A r1 r = true ∧ rect_between A r1 r' = true).
Proof.
  intros I Hp HA HB rect_at co.
  assert (Adv : ∀ t', Heap.objs (advanceInterpolations t' (hp, s)).1 !! l =
                      Some (RuntimePatch.set_rect (lerpRect A B t') p)).
  { intros t'. rewrite (advance_lookup_mapped _ _ _ _ _ _ I Hp).
    unfold advancePatch. by rewrite HA, HB. }
  split; [apply Adv|]. split; [|split].
  - intros F. exists (lerpRect A B 0). unfold rect_at. rewrite Adv. simpl.
    split; [done|]. by apply lerpRect_zero.
  - intros ax ay aw ah bx by_ bw bh ? ? ? ? ? ? ? ? -> ->.
    set (A := tile_rect ax ay aw ah) in *. set (B := tile_rect bx by_ bw bh) in *.
    assert (F : finite_diff A B = true).
    { unfold finite_diff, A, B, tile_rect. cbn [Rect.x Rect.y Rect.w Rect.h ToNumber].
      by rewrite !tiles_finite_diff. }
    assert (E : lerpRect A B 0 = A ∧ lerpRect A B 1 = B).
    { unfold lerpRect, lerp_num, A, B, tile_rect. simpl.
      destruct (lerp_ends_on_tiles ax bx) as [-> ->]; [done..|].
      destruct (lerp_ends_on_tiles ay by_) as [-> ->]; [done..|].
      destruct (lerp_ends_on_tiles aw bw) as [-> ->]; [done..|].
      destruct (lerp_ends_on_tiles ah bh) as [-> ->]; [done..|].
      done. }
    destruct E as [E0 E1].
    split; [done|]. unfold rect_at. rewrite !Adv.
    cbn [fmap option_fmap option_map RuntimePatch.rect RuntimePatch.set_rect].
    rewrite E0, E1. split; [done|]. split; [done|].
    intros q Hq0 Hq1. exists (lerpRect A B q). rewrite Adv.
    cbn [fmap option_fmap option_map RuntimePatch.rect RuntimePatch.set_rect].
    split; [done|].
    destruct (lerpRect_monotone A B q 1 F Hq0 Hq1 eq_refl) as (_ & Hb & _).
    by rewrite E1 in Hb.
  - intros F q q' H0 Hq H1.
    exists (lerpRect A B q), (lerpRect A B q'), (lerpRect A B 1).
    unfold rect_at. rewrite !Adv. cbn [fmap option_fmap option_map].
    split; [done|]. split; [done|]. split; [done|].
    by apply lerpRect_monotone.
Qed.

Lemma advance_interpolates_witness :
  Heap.objs (advanceInterpolations 0.5 w_approach).1 !! 0 =
    Some (RuntimePatch.mk "q0" (Rect.mk (JNum 7) (JNum 7) (JNum 3.5) (JNum 3))
            edges_zx (Some "q0")
            (Some (tile_rect 6 7 3 3)) (Some (tile_rect 8 7 4 3))) ∧
  (finite_diff (tile_rect 6 7 3 3) (tile_rect 8 7 4 3) = true ∧
   RuntimePatch.rect <$> Heap.objs (advanceInterpolations 0 w_approach).1 !! 0 =
     Some (tile_rect 6 7 3 3) ∧
   RuntimePatch.rect <$> Heap.objs (advanceInterpolations 1 w_approach).1 !! 0 =
     Some (tile_rect 8 7 4 3) ∧
   ∃ r, RuntimePatch.rect <$>
          Heap.objs (advanceInterpolations 0x1.2492492492492p-3 w_approach).1 !! 0 =
          Some r ∧
        rect_between (tile_rect 6 7 3 3) (tile_rect 8 7 4 3) r = true) ∧
  ∃ r r' r1,
    RuntimePatch.rect <$> Heap.objs (advanceInterpolations 0x1.2492492492492p-3 w_approach).1 !! 0 =
      Some r ∧
    RuntimePatch.rect <$> Heap.objs (advanceInterpolations 0.5 w_approach).1 !! 0 =
      Some r' ∧
    RuntimePatch.rect <$> Heap.objs (advanceInterpolations 1 w_approach).1 !! 0 =
      Some r1 ∧
    rect_toward (tile_rect 6 7 3 3) (tile_rect 8 7 4 3) r r' = true ∧
    rect_between (tile_rect 6 7 3 3) r1 r = true ∧
    rect_between (tile_rect 6 7 3 3) r1 r' = true.
Proof.
  destruct (advance_interpolates w_approach.1 w_approach.2 "q0" 0
              (RuntimePatch.mk "q0" (tile_rect 6 7 3 3) edges_zx (Some "q0")
                 (Some (tile_rect 6 7 3 3)) (Some (tile_rect 8 7 4 3)))
              (tile_rect 6 7 3 3) (tile_rect 8 7 4 3) 0.5
              (list_elem_of_here _ _) eq_refl eq_refl eq_refl) as (H1 & _ & H3 & H4).
  split; [exact H1|]. split.
  - destruct (H3 6 7 3 3 8 7 4 3)%Z as (F & E0 & E1 & Hb);
      [unfold in_tiles, tile_bound; lia..|reflexivity|reflexivity|].
    split; [exact F|]. split; [exact E0|]. split; [exact E1|].
    apply (Hb 0x1.2492492492492p-3%float); reflexivity.
  - apply (H4 eq_refl 0x1.2492492492492p-3%float 0.5%float); reflexivity.
Defined.

(** C1 (as stated) fails at [p = 1]: interpolating x from 6 to the double
    nearest 0.1 gives [6 + (0.1 - 6) * 1], which rounds to a double that is
    not the target and lies below both end points.  It fails at [p = 0]
    when a coordinate difference overflows: from [-Number.MAX_VALUE] to
    [Number.MAX_VALUE] the difference is [Infinity], and
    [from + Infinity * 0] is NaN. *)
Lemma advance_misses_target_by_rounding :
  (∃ p v,
    Heap.objs (prepareTick [DeformTo "q0" rect_tenth] w_init).1 !! 0 = Some p ∧
    RuntimePatch._animFrom p = Some (tile_rect 6 7 3 3) ∧
    RuntimePatch._animTo p = Some rect_tenth ∧
    Rect.x ∘ RuntimePatch.rect <$> Heap.objs w_tenth.1 !! 0 = Some (JNum v) ∧
    v ≠ 0x1.999999999999ap-4%float ∧
    (v <? 0x1.999999999999ap-4)%float = true ∧ (v <? 6)%float = true) ∧
  (∃ p v,
    Heap.objs w_far_prepared.1 !! 0 = Some p ∧
    RuntimePatch._animFrom p = Some (Patch.rect patch_far) ∧
    RuntimePatch._animTo p = Some rect_far ∧
    finite_diff (Patch.rect patch_far) rect_far = false ∧
    Rect.x ∘ RuntimePatch.rect <$> Heap.objs w_far.1 !! 0 = Some (JNum v) ∧
    is_nan v = true).
Proof.
  split.
  - eexists _, _. split; [vm_compute; reflexivity|].
    split; [reflexivity|]. split; [reflexivity|].
    split; [vm_compute; reflexivity|].
    split; [|split; vm_compute; reflexivity].
    intros H. apply (f_equal Prim2SF) in H. vm_compute in H. discriminate.
  - eexists _, _. split; [vm_compute; reflexivity|].
    split; [reflexivity|]. split; [reflexivity|].
    split; [vm_compute; reflexivity|].
    split; vm_compute; reflexivity.
Qed.

(* ------------------------------------------------------------------- *)
(** ** DeformTo *)

Lemma deepCopy_num_exact (v : jsnum) :
  json_exact_num v = true → deepCopy_num v = v.
Proof. destruct v as [f|]; simpl; [|done]. by destruct (classify f). Qed.

Lemma deepCopy_Rect_exact (R : Rect.t) :
  json_exact R = true → deepCopy_Rect R = R.
Proof.
  destruct R as [x y w h]. unfold json_exact, deepCopy_Rect. simpl.
  rewrite !andb_true_iff. intros [[[Hx Hy] Hw] Hh].
  by rewrite !deepCopy_num_exact.
Qed.

(** Interpolation changes the rectangle of a patch and nothing else. *)
Lemma advances_keep (ts : list float) (hp : Heap.t) (s : RuntimeState.t)
    (l : nat) (p : RuntimePatch.t) :
  Heap.objs hp !! l = Some p →
  let w0 := fold_left (λ w t, advanceInterpolations t w) ts (hp, s) in
  RuntimeState.patches w0.2 = RuntimeState.patches s ∧
  ∃ p', Heap.objs w0.1 !! l = Some p' ∧
        RuntimePatch.id p' = RuntimePatch.id p ∧
        RuntimePatch.edges p' = RuntimePatch.edges p ∧
        RuntimePatch.label p' = RuntimePatch.label p.
Proof.
  revert hp s p. induction ts as [|t ts IH]; intros hp s p Hp; cbn [fold_left]; cbv zeta in *.
  - split; [done|]. by exists p.
  - set (w1 := advanceInterpolations t (hp, s)).
    assert (∃ p1, Heap.objs w1.1 !! l = Some p1 ∧
                  RuntimePatch.id p1 = RuntimePatch.id p ∧
                  RuntimePatch.edges p1 = RuntimePatch.edges p ∧
                  RuntimePatch.label p1 = RuntimePatch.label p)
      as (p1 & Hp1 & Ei & Ee & El).
    { unfold w1. rewrite advance_lookup, Hp. case_decide; [|eauto].
      eexists; split; [done|]. unfold advancePatch.
      by destruct (RuntimePatch._animFrom p), (RuntimePatch._animTo p). }
    destruct w1 as [hp1 s1] eqn:E1.
    assert (RuntimeState.patches s1 = RuntimeState.patches s) as Es.
    { change s1 with (hp1, s1).2. rewrite <- E1. apply advance_patches. }
    destruct (IH hp1 s1 p1 Hp1) as (Epat & p' & Hp' & Ei' & Ee' & El').
    split; [congruence|]. exists p'. split; [done|]. repeat split; congruence.
Qed.

(** C2 (as amended): commit of [DeformTo] with a rectangle [R] whose
    coordinates are finite numbers other than [-0] leaves the patch with
    exactly [R] and without animate-from and animate-to, whatever calls of
    [advance] came before. *)
Theorem deform_to_commit_exact (hp : Heap.t) (s : RuntimeState.t)
    (id : string) (R : Rect.t) (l : nat) (p : RuntimePatch.t) (ts : list float) :
  map_get (RuntimeState.patches s) id = Some l →
  Heap.objs hp !! l = Some p →
  json_exact R = true →
  let w0 := fold_left (λ w t, advanceInterpolations t w) ts (hp, s) in
  let wc := commitAction (DeformTo id R) w0 in
  wc.2 = w0.2 ∧
  Heap.objs wc.1 !! l =
    Some (RuntimePatch.mk (RuntimePatch.id p) R (RuntimePatch.edges p)
            (RuntimePatch.label p) None None).
Proof.
  intros Hget Hp HR w0 wc.
  destruct (advances_keep ts hp s l p Hp) as (Epat & p' & Hp' & Ei & Ee & El).
  fold w0 in Epat, Hp'. subst wc. destruct w0 as [hp0 s0]. simpl in *.
  rewrite Epat, Hget. simpl. split; [done|].
  rewrite (update_lookup_eq _ _ _ _ Hp'), (deepCopy_Rect_exact _ HR).
  unfold RuntimePatch.set_anim, RuntimePatch.set_rect. simpl. by rewrite Ei, Ee, El.
Qed.

Lemma deform_to_commit_exact_witness :
  Heap.objs
    (commitAction (DeformTo "q0" (tile_rect 8 7 4 3))
       (fold_left (λ w t, advanceInterpolations t w) [0.25; 0.5; 1]%float w_approach)).1
    !! 0 =
  Some (RuntimePatch.mk "q0" (tile_rect 8 7 4 3) edges_zx (Some "q0") None None).
Proof.
  exact (proj2 (deform_to_commit_exact w_approach.1 w_approach.2 "q0"
                  (tile_rect 8 7 4 3) 0
                  (RuntimePatch.mk "q0" (tile_rect 6 7 3 3) edges_zx (Some "q0")
                     (Some (tile_rect 6 7 3 3)) (Some (tile_rect 8 7 4 3)))
                  [0.25; 0.5; 1]%float eq_refl eq_refl eq_refl)).
Defined.

(** C2 (as stated) fails for a rectangle that JSON does not carry: the
    deep copy of an infinite coordinate is [null]. *)
Lemma deform_to_infinite_commits_null :
  RuntimePatch.rect <$> Heap.objs (commitAction (DeformTo "q0" rect_inf) w_init).1 !! 0 =
    Some (Rect.mk JNull (JNum 7) (JNum 4) (JNum 3)) ∧
  RuntimePatch.rect <$> Heap.objs (commitAction (DeformTo "q0" rect_inf) w_init).1 !! 0
    ≠ Some rect_inf.
Proof.
  split; [vm_compute; reflexivity|]. intros H. vm_compute in H. discriminate.
Qed.

(* ------------------------------------------------------------------- *)
(** ** prepareTick *)

Lemma prepareAction_state (act : Action) (hp : Heap.t) (s : RuntimeState.t) :
  RuntimeState.patches (prepareAction act (hp, s)).2 = RuntimeState.patches s ∧
  RuntimeState.measurementOverlay (prepareAction act (hp, s)).2 =
    match overlay_of (RuntimeState.patches s) act with
    | Some o => Some o
    | None => RuntimeState.measurementOverlay s
    end.
Proof.
  destruct act; simpl; try done.
  - by destruct (map_get _ id).
  - by destruct (map_get _ id).
  - destruct (map_get _ lhs_id); simpl; [|done].
    by destruct (map_get _ rhs_id).
Qed.

Lemma prepare_fold_patches (acts : list Action) (w : Heap.t * RuntimeState.t) :
  RuntimeState.patches (fold_left (λ w act, prepareAction act w) acts w).2 =
  RuntimeState.patches w.2.
Proof.
  revert w. induction acts as [|act acts IH]; intros [hp s]; [done|].
  cbn [fold_left]. rewrite IH. apply prepareAction_state.
Qed.

Lemma prepare_fold_no_overlay (acts : list Action) (w : Heap.t * RuntimeState.t) :
  Forall (λ act, overlay_of (RuntimeState.patches w.2) act = None) acts →
  RuntimeState.measurementOverlay (fold_left (λ w act, prepareAction act w) acts w).2 =
  RuntimeState.measurementOverlay w.2.
Proof.
  revert w. induction acts as [|act acts IH]; intros [hp s] F; [done|].
  cbn [fold_left]. apply Forall_cons in F as [Fa F].
  destruct (prepareAction_state act hp s) as [Ep Eo].
  rewrite IH; [|by rewrite Ep]. rewrite Eo. simpl in Fa. by rewrite Fa.
Qed.

Lemma prepareTick_patches (acts : list Action) (w : Heap.t * RuntimeState.t) :
  RuntimeState.patches (prepareTick acts w).2 = RuntimeState.patches w.2.
Proof. unfold prepareTick. by rewrite prepare_fold_patches. Qed.

(** C3: the overlay is a single optional field, so a state holds at most
    one.  Prepare starts from no overlay and never changes the patch map;
    a [TwoPatchMeas] whose two patches exist, followed by no other such
    action, leaves its overlay (the two patch objects, the two edges, the
    outcome, progress 0); a batch without any such action leaves none. *)
Theorem prepare_overlay_last_wins (w : Heap.t * RuntimeState.t) (acts : list Action) :
  let m := RuntimeState.patches w.2 in
  let w' := prepareTick acts w in
  RuntimeState.patches w'.2 = m ∧
  (∀ pre post lhs_id lhs_edge rhs_id rhs_edge outcome a b,
     acts = pre ++ TwoPatchMeas lhs_id lhs_edge rhs_id rhs_edge outcome :: post →
     map_get m lhs_id = Some a → map_get m rhs_id = Some b →
     Forall (λ act, overlay_of m act = None) post →
     RuntimeState.measurementOverlay w'.2 =
       Some (Overlay.mk a lhs_edge b rhs_edge outcome 0)) ∧
  (Forall (λ act, overlay_of m act = None) acts →
   RuntimeState.measurementOverlay w'.2 = None).
Proof.
  intros m w'. split; [apply prepareTick_patches|]. split.
  - intros pre post lid le rid re o a b -> Ha Hb F. subst w'. unfold prepareTick.
    rewrite fold_left_app. cbn [fold_left].
    set (w1 := fold_left _ pre _).
    assert (RuntimeState.patches w1.2 = m) as E1.
    { unfold w1. by rewrite prepare_fold_patches. }
    destruct w1 as [hp1 s1]. simpl in E1.
    destruct (prepareAction_state (TwoPatchMeas lid le rid re o) hp1 s1) as [Ep Eo].
    rewrite prepare_fold_no_overlay; [|by rewrite Ep, E1].
    rewrite Eo, E1. simpl. by rewrite Ha, Hb.
  - intros F. subst w'. unfold prepareTick.
    by rewrite prepare_fold_no_overlay.
Qed.

Lemma prepare_overlay_last_wins_witness :
  RuntimeState.measurementOverlay
    (prepareTick [TwoPatchMeas "q1" Top "q0" Bottom None; meas_ghost; meas_q0_q1;
                  RotateEdges "q0"; meas_ghost] w_init).2 =
  Some (Overlay.mk 0 Right 1 Left (Some Plus1) 0).
Proof.
  refine (proj1 (proj2 (prepare_overlay_last_wins w_init _))
            [TwoPatchMeas "q1" Top "q0" Bottom None; meas_ghost]
            [RotateEdges "q0"; meas_ghost]
            "q0" Right "q1" Left (Some Plus1) 0 1 eq_refl eq_refl eq_refl _).
  repeat constructor.
Defined.

(** *** A second prepare *)

Lemma prepareAction_lookup (act : Action) (hp : Heap.t) (s : RuntimeState.t) (l : nat) :
  Heap.objs (prepareAction act (hp, s)).1 !! l =
  if writes (RuntimeState.patches s) act l then anim_of act <$> Heap.objs hp !! l
  else Heap.objs hp !! l.
Proof.
  destruct act; simpl; try done.
  - destruct (map_get _ id) as [l'|] eqn:E; simpl.
    + rewrite update_lookup. case_bool_decide as B; [injection B as ->|].
      * by rewrite decide_True.
      * rewrite decide_False; [done|]. congruence.
    + first [done | by rewrite bool_decide_eq_false_2].
  - destruct (map_get _ id) as [l'|] eqn:E; simpl.
    + rewrite update_lookup. case_bool_decide as B; [injection B as ->|].
      * by rewrite decide_True.
      * rewrite decide_False; [done|]. congruence.
    + first [done | by rewrite bool_decide_eq_false_2].
  - destruct (map_get _ lhs_id); [|done]. by destruct (map_get _ rhs_id).
Qed.

Lemma prepareAction_next (act : Action) (w : Heap.t * RuntimeState.t) :
  Heap.next (prepareAction act w).1 = Heap.next w.1.
Proof.
  destruct w as [hp s].
  destruct act; simpl; try done;
    try (destruct (map_get _ id); simpl; [apply update_next|done]).
  destruct (map_get _ lhs_id); [|done]. by destruct (map_get _ rhs_id).
Qed.

Lemma strip_anim_of (act : Action) (p : RuntimePatch.t) :
  strip (anim_of act p) = strip p.
Proof. by destruct act. Qed.

Lemma fmap_strip_anim_of (act : Action) (o : option RuntimePatch.t) :
  strip <$> (anim_of act <$> o) = strip <$> o.
Proof. destruct o as [p|]; [|done]. cbn. f_equal. apply strip_anim_of. Qed.

Lemma anim_of_frame (m : list (string * nat)) (act : Action) (l : nat)
    (p p' : RuntimePatch.t) :
  writes m act l = true → strip p = strip p' → anim_of act p = anim_of act p'.
Proof.
  destruct p, p'. unfold strip, RuntimePatch.set_anim. simpl.
  intros W [= -> -> -> ->]. by destruct act.
Qed.

Lemma prepareAction_same_frame (act : Action) (w w' : Heap.t * RuntimeState.t) :
  same_frame w w' → same_frame (prepareAction act w) (prepareAction act w').
Proof.
  destruct w as [hp s], w' as [hp' s']. intros (Ep & En & El). cbn [fst snd] in *.
  split; [|split].
  - by rewrite (proj1 (prepareAction_state act hp s)),
               (proj1 (prepareAction_state act hp' s')).
  - by rewrite !prepareAction_next.
  - intros l. rewrite !prepareAction_lookup, <- Ep.
    destruct (writes _ act l); [|done]. by rewrite !fmap_strip_anim_of.
Qed.

(** Whatever the two worlds hold at [l]: once an action of the batch
    writes [l], both hold the same patch there. *)
Lemma prepare_fold_agree (acts : list Action) (w w' : Heap.t * RuntimeState.t) (l : nat) :
  same_frame w w' →
  (Forall (λ act, writes (RuntimeState.patches w.2) act l = false) acts →
   Heap.objs w.1 !! l = Heap.objs w'.1 !! l) →
  Heap.objs (fold_left (λ w act, prepareAction act w) acts w).1 !! l =
  Heap.objs (fold_left (λ w act, prepareAction act w) acts w').1 !! l.
Proof.
  revert w w'. induction acts as [|act acts IH]; intros w w' SF H.
  - apply H. constructor.
  - cbn [fold_left]. apply IH; [by apply prepareAction_same_frame|].
    destruct w as [hp s], w' as [hp' s']. destruct SF as (Ep & En & El).
    cbn [fst snd] in *. rewrite (proj1 (prepareAction_state act hp s)).
    intros F. rewrite !prepareAction_lookup, <- Ep.
    destruct (writes _ act l) eqn:W.
    + specialize (El l).
      destruct (Heap.objs hp !! l) as [p1|], (Heap.objs hp' !! l) as [p2|];
        try done.
      change (Some (anim_of act p1) = Some (anim_of act p2)).
      change (Some (strip p1) = Some (strip p2)) in El.
      rewrite (anim_of_frame _ act l p1 p2 W); [done|]. congruence.
    + apply H. by constructor.
Qed.

Lemma prepare_fold_unwritten (acts : list Action) (w : Heap.t * RuntimeState.t) (l : nat) :
  Forall (λ act, writes (RuntimeState.patches w.2) act l = false) acts →
  Heap.objs (fold_left (λ w act, prepareAction act w) acts w).1 !! l =
  Heap.objs w.1 !! l.
Proof.
  revert w. induction acts as [|act acts IH]; intros [hp s] F; [done|].
  cbn [fold_left]. apply Forall_cons in F as [Fa F]. cbn [fst snd] in *.
  rewrite IH; [|by rewrite (proj1 (prepareAction_state act hp s))].
  by rewrite prepareAction_lookup, Fa.
Qed.

Lemma prepare_fold_same_frame (acts : list Action) (w w' : Heap.t * RuntimeState.t) :
  same_frame w w' →
  same_frame (fold_left (λ w act, prepareAction act w) acts w)
             (fold_left (λ w act, prepareAction act w) acts w').
Proof.
  revert w w'. induction acts as [|act acts IH]; intros w w' SF; [done|].
  cbn [fold_left]. by apply IH, prepareAction_same_frame.
Qed.

Lemma prepareAction_keeps_frame (act : Action) (w : Heap.t * RuntimeState.t) :
  same_frame (prepareAction act w) w.
Proof.
  destruct w as [hp s]. split; [|split].
  - apply prepareAction_state.
  - apply prepareAction_next.
  - intros l. rewrite prepareAction_lookup. simpl.
    destruct (writes _ act l); [|done]. by rewrite fmap_strip_anim_of.
Qed.

Lemma same_frame_trans (w1 w2 w3 : Heap.t * RuntimeState.t) :
  same_frame w1 w2 → same_frame w2 w3 → same_frame w1 w3.
Proof.
  intros (Ep & En & El) (Ep' & En' & El'). split; [|split]; [congruence..|].
  intros l. by rewrite El.
Qed.

Lemma prepare_fold_keeps_frame (acts : list Action) (w : Heap.t * RuntimeState.t) :
  same_frame (fold_left (λ w act, prepareAction act w) acts w) w.
Proof.
  revert w. induction acts as [|act acts IH]; intros w; [done|].
  cbn [fold_left]. eapply same_frame_trans; [apply IH|].
  apply prepareAction_keeps_frame.
Qed.

Lemma prepare_fold_overlay_eq (acts : list Action) (w w' : Heap.t * RuntimeState.t) :
  RuntimeState.patches w.2 = RuntimeState.patches w'.2 →
  RuntimeState.measurementOverlay w.2 = RuntimeState.measurementOverlay w'.2 →
  RuntimeState.measurementOverlay (fold_left (λ w act, prepareAction act w) acts w).2 =
  RuntimeState.measurementOverlay (fold_left (λ w act, prepareAction act w) acts w').2.
Proof.
  revert w w'. induction acts as [|act acts IH]; intros [hp s] [hp' s'] Ep Eo; [done|].
  cbn [fold_left]. cbn [fst snd] in *.
  destruct (prepareAction_state act hp s) as [Ep1 Eo1].
  destruct (prepareAction_state act hp' s') as [Ep2 Eo2].
  apply IH; [congruence|]. rewrite Eo1, Eo2, Ep, Eo. done.
Qed.

Lemma world_eq (w w' : Heap.t * RuntimeState.t) :
  Heap.next w.1 = Heap.next w'.1 →
  (∀ l, Heap.objs w.1 !! l = Heap.objs w'.1 !! l) →
  RuntimeState.patches w.2 = RuntimeState.patches w'.2 →
  RuntimeState.measurementOverlay w.2 = RuntimeState.measurementOverlay w'.2 →
  w = w'.
Proof.
  destruct w as [hp [m o]], w' as [hp' [m' o']]. simpl.
  intros En El -> ->. f_equal. by apply heap_eq.
Qed.

(** Prepare is idempotent: the second call finds the rectangles and the
    patch map that the first call found, and writes the same fields. *)
Lemma prepareTick_idempotent (acts : list Action) (w : Heap.t * RuntimeState.t) :
  prepareTick acts (prepareTick acts w) = prepareTick acts w.
Proof.
  set (w0 := (w.1, RuntimeState.set_overlay None w.2)).
  assert (P : prepareTick acts w = fold_left (λ w act, prepareAction act w) acts w0) by done.
  set (w1 := ((prepareTick acts w).1,
              RuntimeState.set_overlay None (prepareTick acts w).2)).
  assert (P1 : prepareTick acts (prepareTick acts w) =
               fold_left (λ w act, prepareAction act w) acts w1) by done.
  assert (SF : same_frame w1 w0).
  { destruct (prepare_fold_keeps_frame acts w0) as (Ep & En & El).
    rewrite <- P in Ep, En, El. split; [|split]; done. }
  rewrite P1, P. apply world_eq.
  - apply (prepare_fold_same_frame acts _ _ SF).
  - intros l. apply prepare_fold_agree; [done|]. intros F.
    unfold w1. cbn [fst]. rewrite P. apply prepare_fold_unwritten.
    by rewrite <- (proj1 SF).
  - apply (prepare_fold_same_frame acts _ _ SF).
  - apply prepare_fold_overlay_eq; [apply SF|done].
Qed.

(** C8 (as stated) fails: with no advance in between, the second prepare
    returns exactly the world that the first one returned. *)
Lemma second_prepare_changes_nothing :
  ¬ ∃ (w : Heap.t * RuntimeState.t) (acts : list Action),
      prepareTick acts (prepareTick acts w) ≠ prepareTick acts w.
Proof. intros (w & acts & N). apply N, prepareTick_idempotent. Qed.

(** C8 (as amended): a second prepare changes nothing when no advance came
    in between; after an advance it differs, because it records the
    interpolated rectangle as animate-from and installs the overlay anew
    with progress 0. *)
Theorem second_prepare_after_advance :
  (∀ (w : Heap.t * RuntimeState.t) (acts : list Action),
     prepareTick acts (prepareTick acts w) = prepareTick acts w) ∧
  RuntimePatch._animFrom <$> Heap.objs w_half.1 !! 0 = Some (Some (tile_rect 6 7 3 3)) ∧
  RuntimePatch._animFrom <$> Heap.objs w_half_again.1 !! 0 =
    Some (Some (Rect.mk (JNum 7) (JNum 7) (JNum 3.5) (JNum 3))) ∧
  Overlay.progress <$> RuntimeState.measurementOverlay w_half.2 = Some 0.5%float ∧
  Overlay.progress <$> RuntimeState.measurementOverlay w_half_again.2 = Some 0%float ∧
  view w_half_again ≠ view w_half.
Proof.
  split; [intros; apply prepareTick_idempotent|].
  repeat (split; [vm_compute; reflexivity|]).
  intros H.
  apply (f_equal (λ v, Prim2SF (from_option View.progress 0%float
                                  (View.measurementOverlay v)))) in H.
  vm_compute in H. discriminate.
Qed.

(* ------------------------------------------------------------------- *)
(** ** cloneRuntimeState *)

(** C4: the clone of a state with an active overlay.  The patches of the
    map are new objects, but the overlay of the clone still refers to the
    patch objects of the state it was cloned from, so a write to the
    original's [q0] shows in what the clone draws. *)
Theorem clone_shares_overlay_patches :
  RuntimeState.patches w_meas.2 = [("q0", 0); ("q1", 1)] ∧
  RuntimeState.patches w_clone.2 = [("q0", 2); ("q1", 3)] ∧
  RuntimeState.measurementOverlay w_clone.2 =
    Some (Overlay.mk 0 Right 1 Left (Some Plus1) 0) ∧
  view ((commitAction (DeformTo "q0" (tile_rect 8 7 4 3)) (w_clone.1, w_meas.2)).1,
        w_clone.2) ≠ view w_clone.
Proof.
  repeat (split; [vm_compute; reflexivity|]).
  intros H.
  apply (f_equal (λ v, Prim2SF (ToNumber (from_option
           (λ o, from_option (Rect.x ∘ RuntimePatch.rect) JNull (View.a o))
           JNull (View.measurementOverlay v))))) in H.
  vm_compute in H. discriminate.
Qed.

(** The same in play: on the frame after the one that prepared the step,
    the overlay refers to the previous frame's [q0], which stays at
    progress 1/4 while the [q0] of the map moves on to 1/2. *)
Lemma overlay_stale_between_frames :
  (λ hc, let v := view (hc.1, Component.runtime hc.2) in
         (RuntimePatch.rect <$> (View.patches v !! 0 ≫= snd),
          RuntimePatch.rect <$> (View.measurementOverlay v ≫= View.a)))
    <$> after_three_frames =
  Some (Some (Rect.mk (JNum 7) (JNum 7) (JNum 3.5) (JNum 3)),
        Some (Rect.mk (JNum 6.5) (JNum 7) (JNum 3.25) (JNum 3))).
Proof. vm_compute. reflexivity. Qed.

(* ------------------------------------------------------------------- *)
(** ** The engine does not depend on where its objects sit *)

Section Renaming.
Context (n k : nat).

Lemma shift_inj (l l' : nat) : shift n k l = shift n k l' → l = l'.
Proof. unfold shift. repeat case_decide; lia. Qed.

Lemma shift_old (l : nat) : l < n → shift n k l = l.
Proof. intros L. unfold shift. by rewrite decide_True. Qed.

Lemma shift_new (l : nat) : n ≤ l → shift n k l = l + k.
Proof. intros L. unfold shift. rewrite decide_False; [done|lia]. Qed.

Lemma map_get_shift (m : list (string * nat)) (id : string) :
  map_get (shift_map n k m) id = shift n k <$> map_get m id.
Proof.
  induction m as [|[k' l] m IH]; [done|]. simpl. by case_decide.
Qed.

Lemma map_set_shift (m : list (string * nat)) (id : string) (l : nat) :
  map_set (shift_map n k m) id (shift n k l) = shift_map n k (map_set m id l).
Proof.
  induction m as [|[k' l'] m IH]; [done|]. simpl. case_decide; [done|].
  unfold shift_map in *. simpl. by rewrite IH.
Qed.

Lemma map_delete_shift (m : list (string * nat)) (id : string) :
  map_delete (shift_map n k m) id = shift_map n k (map_delete m id).
Proof.
  unfold map_delete, shift_map. induction m as [|[k' l'] m IH]; [done|].
  rewrite fmap_cons, !filter_cons. simpl. case_decide; [|done].
  by rewrite fmap_cons, IH.
Qed.

Lemma update_hsim (h1 h2 : Heap.t) (l : nat) f :
  hsim n k h1 h2 → hsim n k (Heap.update l f h1) (Heap.update (shift n k l) f h2).
Proof.
  intros (Hn & Hk & Hl). split; [|split].
  - by rewrite update_next.
  - by rewrite !update_next.
  - intros l'. rewrite !update_lookup, !Hl.
    destruct (decide (l = l')) as [->|N].
    + by rewrite decide_True.
    + rewrite decide_False; [done|]. intros E. by apply shift_inj in E.
Qed.

Lemma alloc_hsim (h1 h2 : Heap.t) (p : RuntimePatch.t) :
  hsim n k h1 h2 →
  (Heap.alloc p h2).1 = shift n k (Heap.alloc p h1).1 ∧
  hsim n k (Heap.alloc p h1).2 (Heap.alloc p h2).2.
Proof.
  intros (Hn & Hk & Hl). unfold Heap.alloc. simpl.
  assert (shift n k (Heap.next h1) = Heap.next h2) as Es
    by (rewrite shift_new; lia).
  split; [done|]. split; [simpl; lia|]. split; [simpl; lia|]. simpl.
  intros l. destruct (decide (l = Heap.next h1)) as [->|N].
  - by rewrite Es, !lookup_insert_eq.
  - rewrite !lookup_insert_ne; [done|done|].
    rewrite <- Es. intros E. by apply shift_inj in E.
Qed.

Lemma commitAction_sim (act : Action) (w1 w2 : Heap.t * RuntimeState.t) :
  sim n k w1 w2 → sim n k (commitAction act w1) (commitAction act w2).
Proof.
  destruct w1 as [h1 s1], w2 as [h2 s2]. intros [H E]. cbn [fst snd] in H, E. subst s2.
  destruct act; simpl; rewrite ?map_get_shift.
  - destruct (alloc_hsim h1 h2 (deepCopy_Patch patch) H) as [El H'].
    unfold Heap.alloc in *. simpl in *. split; [done|]. simpl.
    unfold shift_state, RuntimeState.set_patches. simpl.
    by rewrite El, map_set_shift.
  - destruct (map_get _ id); simpl; [|done]. split; [|done]. by apply update_hsim.
  - destruct (map_get _ id); simpl; [|done]. split; [|done]. by apply update_hsim.
  - done.
  - done.
  - destruct (map_get _ id); simpl; [|done]. split; [|done]. by apply update_hsim.
  - split; [done|]. simpl. unfold shift_state, RuntimeState.set_patches. simpl.
    by rewrite map_delete_shift.
Qed.

Lemma commitActions_sim (acts : list Action) (w1 w2 : Heap.t * RuntimeState.t) :
  sim n k w1 w2 → sim n k (commitActions acts w1) (commitActions acts w2).
Proof.
  revert w1 w2. induction acts as [|act acts IH]; intros w1 w2 S; [done|].
  unfold commitActions in *. cbn [fold_left]. by apply IH, commitAction_sim.
Qed.

Lemma prepareAction_sim (act : Action) (w1 w2 : Heap.t * RuntimeState.t) :
  sim n k w1 w2 → sim n k (prepareAction act w1) (prepareAction act w2).
Proof.
  destruct w1 as [h1 s1], w2 as [h2 s2]. intros [H E]. cbn [fst snd] in H, E. subst s2.
  destruct act; simpl; rewrite ?map_get_shift; try done.
  - destruct (map_get _ id); simpl; [|done]. split; [|done]. by apply update_hsim.
  - destruct (map_get _ id); simpl; [|done]. split; [|done]. by apply update_hsim.
  - destruct (map_get _ lhs_id); simpl; [|done].
    destruct (map_get _ rhs_id); simpl; done.
Qed.

Lemma prepareTick_sim (acts : list Action) (w1 w2 : Heap.t * RuntimeState.t) :
  sim n k w1 w2 → sim n k (prepareTick acts w1) (prepareTick acts w2).
Proof.
  intros S. unfold prepareTick.
  assert (sim n k (w1.1, RuntimeState.set_overlay None w1.2)
                  (w2.1, RuntimeState.set_overlay None w2.2)) as S0.
  { destruct S as [H E]. split; [done|]. simpl. by rewrite E. }
  revert S0. generalize (w1.1, RuntimeState.set_overlay None w1.2).
  generalize (w2.1, RuntimeState.set_overlay None w2.2). clear.
  induction acts as [|act acts IH]; intros u2 u1 S; [done|].
  cbn [fold_left]. by apply IH, prepareAction_sim.
Qed.

Lemma advance_sim (t : float) (w1 w2 : Heap.t * RuntimeState.t) :
  sim n k w1 w2 → sim n k (advanceInterpolations t w1) (advanceInterpolations t w2).
Proof.
  destruct w1 as [h1 s1], w2 as [h2 s2]. intros [H E]. cbn [fst snd] in H, E. subst s2.
  unfold advanceInterpolations. split.
  - cbn [fst snd]. unfold shift_state. cbn [RuntimeState.patches].
    revert h1 h2 H. induction (RuntimeState.patches s1) as [|[k' l] m IH];
      intros h1 h2 H; [done|].
    unfold shift_map. rewrite fmap_cons. cbn [fold_left snd fst].
    by apply IH, update_hsim.
  - cbn [snd]. unfold shift_state, RuntimeState.set_overlay. simpl. f_equal.
    by destruct (RuntimeState.measurementOverlay s1).
Qed.

Lemma view_sim (w1 w2 : Heap.t * RuntimeState.t) :
  sim n k w1 w2 → view w2 = view w1.
Proof.
  destruct w1 as [h1 s1], w2 as [h2 s2]. intros [(Hn & Hk & Hl) E].
  cbn [fst snd] in *. subst s2. unfold view, shift_state. simpl. f_equal.
  - unfold shift_map. rewrite <- list_fmap_compose. apply list_fmap_ext.
    intros i [k' l] _. simpl. by rewrite Hl.
  - destruct (RuntimeState.measurementOverlay s1) as [o|]; simpl; [|done].
    by rewrite !Hl.
Qed.

End Renaming.

(* ------------------------------------------------------------------- *)
(** ** Two clones of one state *)

Lemma heap_closed_lookup (hp : Heap.t) (l : nat) :
  heap_closed hp → Heap.next hp ≤ l → Heap.objs hp !! l = None.
Proof.
  intros C L. destruct (Heap.objs hp !! l) as [p|] eqn:E; [|done].
  apply (map_Forall_lookup_1 _ _ _ _ C) in E. lia.
Qed.

Lemma cloneStep_facts (acc : Heap.t * list (string * nat)) (e : string * nat) :
  Heap.next acc.1 ≤ Heap.next (cloneStep acc e).1 ∧
  (∀ l, l < Heap.next acc.1 →
        Heap.objs (cloneStep acc e).1 !! l = Heap.objs acc.1 !! l) ∧
  (heap_closed acc.1 → heap_closed (cloneStep acc e).1).
Proof.
  unfold cloneStep. destruct (Heap.objs acc.1 !! e.2) as [p|]; [|done].
  unfold Heap.alloc. simpl. split; [lia|]. split.
  - intros l L. rewrite lookup_insert_ne; [done|lia].
  - unfold heap_closed. simpl. intros C. apply map_Forall_insert_2; [lia|].
    eapply map_Forall_impl; [exact C|]. simpl. lia.
Qed.

Lemma clone_fold_facts (m : list (string * nat)) (acc : Heap.t * list (string * nat)) :
  Heap.next acc.1 ≤ Heap.next (fold_left cloneStep m acc).1 ∧
  (∀ l, l < Heap.next acc.1 →
        Heap.objs (fold_left cloneStep m acc).1 !! l = Heap.objs acc.1 !! l) ∧
  (heap_closed acc.1 → heap_closed (fold_left cloneStep m acc).1).
Proof.
  revert acc. induction m as [|e m IH]; intros acc; [done|].
  cbn [fold_left].
  destruct (cloneStep_facts acc e) as (N1 & O1 & C1).
  destruct (IH (cloneStep acc e)) as (N2 & O2 & C2).
  split; [lia|]. split; [|auto].
  intros l L. rewrite O2, O1; [done|lia..].
Qed.

Lemma map_set_Forall (P : string * nat → Prop) (m : list (string * nat))
    (k : string) (l : nat) :
  Forall P m → P (k, l) → Forall P (map_set m k l).
Proof.
  induction m as [|[k' l'] m IH]; intros F Pk; simpl.
  - by constructor.
  - apply Forall_cons in F as [Pe F]. case_decide; subst; constructor; auto.
Qed.

(** What the clone does in general: the patches of its map are objects
    allocated by the call, the objects that existed before are not
    written, and the overlay is handed over with the two references it
    held. *)
Lemma clone_map_new_overlay_shared (hp : Heap.t) (s : RuntimeState.t) :
  let w := cloneRuntimeState hp s in
  Forall (λ e : string * nat, Heap.next hp ≤ e.2) (RuntimeState.patches w.2) ∧
  (∀ l, l < Heap.next hp → Heap.objs w.1 !! l = Heap.objs hp !! l) ∧
  RuntimeState.measurementOverlay w.2 = RuntimeState.measurementOverlay s.
Proof.
  simpl. split; [|split; [|done]].
  - assert (G : ∀ m (acc : Heap.t * list (string * nat)),
               Heap.next hp ≤ Heap.next acc.1 →
               Forall (λ e : string * nat, Heap.next hp ≤ e.2) acc.2 →
               Forall (λ e : string * nat, Heap.next hp ≤ e.2)
                      (fold_left cloneStep m acc).2).
    { induction m as [|e m IH]; intros acc N F; [done|]. cbn [fold_left].
      apply IH.
      - pose proof (proj1 (cloneStep_facts acc e)). lia.
      - unfold cloneStep. destruct (Heap.objs acc.1 !! e.2); [|done].
        simpl. by apply map_set_Forall. }
    apply G; [done|constructor].
  - intros l L.
    by apply (proj1 (proj2 (clone_fold_facts (RuntimeState.patches s) (hp, [])))).
Qed.

Lemma clone_fold_sim (n k : nat) (m : list (string * nat))
    (accA accB : Heap.t * list (string * nat)) :
  Forall (λ e : string * nat, e.2 < n) m →
  hsim n k accA.1 accB.1 → accB.2 = shift_map n k accA.2 →
  hsim n k (fold_left cloneStep m accA).1 (fold_left cloneStep m accB).1 ∧
  (fold_left cloneStep m accB).2 = shift_map n k (fold_left cloneStep m accA).2.
Proof.
  revert accA accB. induction m as [|[key l] m IH]; intros accA accB F H E; [done|].
  apply Forall_cons in F as [L F]. cbn [fold_left]. apply IH; [done|..].
  - unfold cloneStep. cbn [snd fst] in *.
    replace (Heap.objs accB.1 !! l) with (Heap.objs accA.1 !! l)
      by (destruct H as (_ & _ & Hl); by rewrite <- Hl, shift_old).
    destruct (Heap.objs accA.1 !! l) as [p|]; [|done].
    by destruct (alloc_hsim n k _ _ (deepCopy_RuntimePatch p) H).
  - unfold cloneStep. cbn [snd fst] in *.
    replace (Heap.objs accB.1 !! l) with (Heap.objs accA.1 !! l)
      by (destruct H as (_ & _ & Hl); by rewrite <- Hl, shift_old).
    destruct (Heap.objs accA.1 !! l) as [p|]; [|done].
    destruct (alloc_hsim n k _ _ (deepCopy_RuntimePatch p) H) as [El _].
    unfold Heap.alloc in *. simpl in *. by rewrite El, E, map_set_shift.
Qed.

(** The clone of a state taken after another clone of the same state is
    that other clone, with its objects [k] locations further. *)
Lemma clone_twice_sim (hp : Heap.t) (s : RuntimeState.t) :
  heap_closed hp → state_closed hp s →
  let w1 := cloneRuntimeState hp s in
  sim (Heap.next hp) (Heap.next w1.1 - Heap.next hp)
      w1 (cloneRuntimeState w1.1 s).
Proof.
  intros C [Cp Co] w1. set (n := Heap.next hp).
  set (k := Heap.next w1.1 - n).
  destruct (clone_fold_facts (RuntimeState.patches s) (hp, [])) as (N1 & O1 & C1).
  cbn [fst] in N1, O1, C1. specialize (C1 C).
  assert (H0 : hsim n k hp w1.1).
  { split; [done|]. split; [unfold k, w1, cloneRuntimeState; simpl; lia|].
    intros l. unfold w1, cloneRuntimeState. cbn [fst].
    destruct (decide (l < n)) as [L|L].
    - rewrite shift_old by done. by apply O1.
    - rewrite shift_new by lia.
      rewrite (heap_closed_lookup hp l C) by (unfold n in L; lia).
      apply heap_closed_lookup; [done|].
      unfold k, w1, cloneRuntimeState. simpl. fold n. lia. }
  destruct (clone_fold_sim n k (RuntimeState.patches s) (hp, []) (w1.1, []))
    as [H1 E1]; [done|done|done|].
  split; [exact H1|].
  unfold cloneRuntimeState at 1. cbn [snd]. rewrite E1.
  unfold w1, cloneRuntimeState, shift_state. cbn [snd RuntimeState.patches
    RuntimeState.measurementOverlay]. f_equal.
  destruct (RuntimeState.measurementOverlay s) as [o|]; [|done].
  simpl in Co. destruct Co as [La Lb]. simpl. f_equal.
  unfold shift_overlay. fold n in La, Lb. rewrite !shift_old by done.
  by destruct o.
Qed.

(* ------------------------------------------------------------------- *)
(** ** Every reachable state is closed *)

Lemma state_closed_mono (h1 h2 : Heap.t) (s : RuntimeState.t) :
  Heap.next h1 ≤ Heap.next h2 → state_closed h1 s → state_closed h2 s.
Proof.
  intros L [F O]. split.
  - eapply Forall_impl; [exact F|]. simpl. lia.
  - destruct (RuntimeState.measurementOverlay s); simpl in *; [lia|done].
Qed.

Lemma update_closed (l : nat) f (hp : Heap.t) (s : RuntimeState.t) :
  closed (hp, s) → closed (Heap.update l f hp, s).
Proof.
  intros [H S]. split; cbn [fst snd] in *.
  - unfold Heap.update. destruct (Heap.objs hp !! l) as [p|] eqn:E; [|done].
    unfold heap_closed. simpl. apply map_Forall_insert_2; [|done].
    by apply (map_Forall_lookup_1 _ _ _ _ H) in E.
  - eapply state_closed_mono; [|done]. by rewrite update_next.
Qed.

Lemma alloc_heap_closed (p : RuntimePatch.t) (hp : Heap.t) :
  heap_closed hp → heap_closed (Heap.alloc p hp).2.
Proof.
  intros H. unfold heap_closed, Heap.alloc. simpl.
  apply map_Forall_insert_2; [lia|].
  eapply map_Forall_impl; [exact H|]. simpl. lia.
Qed.

Lemma map_get_closed (hp : Heap.t) (s : RuntimeState.t) (id : string) (l : nat) :
  state_closed hp s → map_get (RuntimeState.patches s) id = Some l →
  l < Heap.next hp.
Proof.
  intros [F _] E. apply map_get_elem in E.
  by apply (proj1 (Forall_forall _ _) F) in E.
Qed.

Lemma commitAction_closed (act : Action) (w : Heap.t * RuntimeState.t) :
  closed w → closed (commitAction act w).
Proof.
  destruct w as [hp s]. intros C. destruct act; simpl; try done;
    try (destruct (map_get _ id); [by apply update_closed|done]).
  - destruct C as [H [F O]]. cbn [fst snd] in *. split; cbn [fst snd].
    + by apply (alloc_heap_closed (deepCopy_Patch patch)).
    + split; simpl.
      * apply map_set_Forall; [|simpl; lia].
        eapply Forall_impl; [exact F|]. simpl. lia.
      * destruct (RuntimeState.measurementOverlay s); simpl in *; [lia|done].
  - destruct C as [H [F O]]. split; [done|]. by split.
  - destruct C as [H [F O]]. split; [done|]. split; [|done]. simpl.
    unfold map_delete. apply Forall_forall. intros e [_ I]%list_elem_of_filter.
    by apply (proj1 (Forall_forall _ _) F).
Qed.

Lemma commitActions_closed (acts : list Action) (w : Heap.t * RuntimeState.t) :
  closed w → closed (commitActions acts w).
Proof.
  revert w. induction acts as [|act acts IH]; intros w C; [done|].
  unfold commitActions in *. cbn [fold_left]. by apply IH, commitAction_closed.
Qed.

Lemma prepareAction_closed (act : Action) (w : Heap.t * RuntimeState.t) :
  closed w → closed (prepareAction act w).
Proof.
  destruct w as [hp s]. intros C. destruct act; simpl; try done;
    try (destruct (map_get _ id); [by apply update_closed|done]).
  destruct (map_get _ lhs_id) as [a|] eqn:Ea; [|done].
  destruct (map_get _ rhs_id) as [b|] eqn:Eb; [|done].
  destruct C as [H S]. split; [done|]. cbn [fst snd] in *.
  split; [apply S|]. simpl.
  split; eapply map_get_closed; eauto.
Qed.

Lemma prepareTick_closed (acts : list Action) (w : Heap.t * RuntimeState.t) :
  closed w → closed (prepareTick acts w).
Proof.
  intros [H [F _]]. unfold prepareTick.
  assert (closed (w.1, RuntimeState.set_overlay None w.2)) as C0 by (by split).
  revert C0. generalize (w.1, RuntimeState.set_overlay None w.2). clear.
  induction acts as [|act acts IH]; intros u C; [done|].
  cbn [fold_left]. by apply IH, prepareAction_closed.
Qed.

Lemma advance_closed (t : float) (w : Heap.t * RuntimeState.t) :
  closed w → closed (advanceInterpolations t w).
Proof.
  destruct w as [hp s]. intros C. unfold advanceInterpolations.
  assert (G : ∀ (m : list (string * nat)) hp' o,
            closed (hp', RuntimeState.mk (RuntimeState.patches s) o) →
            closed (fold_left (λ hp e, Heap.update e.2 (advancePatch t) hp) m hp',
                    RuntimeState.mk (RuntimeState.patches s) o)).
  { induction m as [|e m IH]; intros hp' o C'; [done|]. cbn [fold_left].
    by apply IH, update_closed. }
  unfold RuntimeState.set_overlay. apply G.
  destruct C as [H [F O]]. split; [done|]. split; [done|]. cbn [fst snd] in *.
  destruct (RuntimeState.measurementOverlay s) as [o|]; simpl in *; [|done].
  by destruct o.
Qed.

Lemma clone_closed (hp : Heap.t) (s : RuntimeState.t) :
  closed (hp, s) → closed (cloneRuntimeState hp s).
Proof.
  intros [H [F O]]. cbn [fst snd] in *.
  destruct (clone_fold_facts (RuntimeState.patches s) (hp, [])) as (N & _ & C).
  cbn [fst] in N, C. unfold cloneRuntimeState. split; cbn [fst snd]; [auto|].
  split; simpl.
  - assert (G : ∀ m (acc : Heap.t * list (string * nat)),
              Forall (λ e : string * nat, e.2 < Heap.next acc.1) acc.2 →
              Forall (λ e : string * nat,
                        e.2 < Heap.next (fold_left cloneStep m acc).1)
                     (fold_left cloneStep m acc).2).
    { clear. induction m as [|e m IH]; intros acc Fa; [done|]. cbn [fold_left].
      apply IH. unfold cloneStep. destruct (Heap.objs acc.1 !! e.2); [|done].
      simpl. apply map_set_Forall; [|simpl; lia].
      eapply Forall_impl; [exact Fa|]. simpl. lia. }
    apply G. constructor.
  - destruct (RuntimeState.measurementOverlay s); simpl in *; [lia|done].
Qed.

Lemma stepOnce_closed (prog : Program.t) (hp : Heap.t) (c : Component.t)
    (hc' : Heap.t * Component.t) :
  closed (hp, Component.runtime c) → stepOnce prog hp c = Some hc' →
  closed (hc'.1, Component.runtime hc'.2).
Proof.
  intros C. unfold stepOnce.
  destruct (steps_at _ _) as [st|]; [|done]. simpl. intros [= <-]. simpl.
  rewrite <- surjective_pairing.
  by apply commitActions_closed, advance_closed, prepareTick_closed, clone_closed.
Qed.

Lemma onTick_closed (prog : Program.t) (dt : float) (hp : Heap.t) (c : Component.t)
    (hc' : Heap.t * Component.t) :
  closed (hp, Component.runtime c) → onTick prog dt hp c = Some hc' →
  closed (hc'.1, Component.runtime hc'.2).
Proof.
  intros C. unfold onTick.
  pose proof (clone_closed _ _ C) as C1.
  destruct (cloneRuntimeState hp (Component.runtime c)) as [hp1 rt1] eqn:E1.
  assert (C2 : closed (cloneRuntimeState hp1 (Component.runtime c))).
  { apply clone_closed. split; [apply C1|].
    eapply state_closed_mono; [|apply C].
    pose proof (proj1 (clone_fold_facts (RuntimeState.patches (Component.runtime c))
                         (hp, []))) as N.
    unfold cloneRuntimeState in E1. injection E1 as <- _. exact N. }
  destruct (Component.playing c && _); [|by intros [= <-]].
  destruct (steps_at _ _) as [st|]; cbn [mbind option_bind].
  - destruct (Component.tInStep c =? 0)%float; cbn [mbind option_bind];
      destruct (Program.tickMs prog <=? _)%float; intros [= <-];
      cbn [fst snd Component.runtime]; rewrite <- ?surjective_pairing;
      repeat first [apply commitActions_closed | apply advance_closed
                   | apply (advance_closed _ (hp1, rt1))
                   | apply prepareTick_closed]; done.
  - destruct (Component.tInStep c =? 0)%float; cbn [mbind option_bind]; [done|].
    destruct (Program.tickMs prog <=? _)%float; [done|]. intros [= <-].
    cbn [fst snd Component.runtime]. by apply (advance_closed _ (hp1, rt1)).
Qed.

(** The hypotheses [heap_closed] and [state_closed] hold of every state the
    component reaches. *)
Lemma reachable_closed (prog : Program.t) (hc : Heap.t * Component.t) :
  reachable prog hc → closed (hc.1, Component.runtime hc.2).
Proof.
  induction 1 as [|hc ev hc' R IH Hev].
  - split; [apply map_Forall_empty|]. split; [constructor|exact I].
  - destruct ev; simpl in Hev.
    + by eapply onTick_closed.
    + by eapply stepOnce_closed.
    + by injection Hev as <-.
    + injection Hev as <-. destruct IH as [H _]. split; [done|].
      split; [constructor|exact I].
Qed.

(* ------------------------------------------------------------------- *)
(** ** The frame callback and the Step button *)

Lemma steps_at_Some (steps : list Step.t) (i : Z) (st : Step.t) :
  steps_at steps i = Some st → (0 ≤ i < Z.of_nat (length steps))%Z.
Proof.
  unfold steps_at. destruct (Z.ltb_spec i 0); [done|].
  intros E. apply lookup_lt_Some in E. lia.
Qed.

Lemma steps_at_last (pre : list Step.t) (st : Step.t) :
  steps_at (pre ++ [st]) (Z.of_nat (length pre)) = Some st.
Proof.
  unfold steps_at. destruct (Z.ltb_spec (Z.of_nat (length pre)) 0); [lia|].
  rewrite Nat2Z.id. by rewrite list_lookup_middle.
Qed.

(** C10: with the cursor on the last step, the Step button and the frame
    callback still find that step: the button prepares, advances to 1 and
    commits its batch once more, the callback prepares it at the start of
    every tick and commits it whenever the tick is crossed, and the step
    index stays where it is. *)
Theorem last_step_is_reapplied (prog : Program.t) (hp : Heap.t) (c : Component.t)
    (pre : list Step.t) (st : Step.t) :
  Program.steps prog = pre ++ [st] →
  Component.stepIdx c = Z.of_nat (length pre) →
  let acts := Step.actions st in
  let last := Z.of_nat (length pre) in
  let rt := Component.runtime c in
  stepOnce prog hp c =
    Some (let w := commitActions acts
                     (advanceInterpolations 1
                        (prepareTick acts (cloneRuntimeState hp rt))) in
          (w.1, Component.mk w.2 last 0 (Component.playing c))) ∧
  ∀ dt, Component.playing c = true →
    onTick prog dt hp c =
      Some (let w1 := if (Component.tInStep c =? 0)%float
                      then prepareTick acts
                             (cloneRuntimeState (cloneRuntimeState hp rt).1 rt)
                      else cloneRuntimeState hp rt in
            let newT := (Component.tInStep c + dt)%float in
            let w2 := advanceInterpolations
                        (clamp01 (newT / Program.tickMs prog)) w1 in
            if (Program.tickMs prog <=? newT)%float
            then let w3 := commitActions acts w2 in
                 (w3.1, Component.mk w3.2 last 0 true)
            else (w2.1, Component.mk w2.2 last newT true)).
Proof.
  intros Hsteps Hidx acts last rt.
  assert (Hlen : steps_length prog = (last + 1)%Z).
  { unfold steps_length. rewrite Hsteps, length_app. simpl. lia. }
  split.
  - unfold stepOnce. rewrite Hlen, Hidx.
    replace (Z.min (Z.of_nat (length pre)) (last + 1 - 1)) with last by lia.
    rewrite Hsteps. unfold last. rewrite steps_at_last. simpl.
    do 3 f_equal. lia.
  - intros dt Hplay. unfold onTick. subst rt. cbv zeta.
    destruct (cloneRuntimeState hp (Component.runtime c)) as [hp1 rt1] eqn:Ec.
    rewrite Hplay, Hlen, Hidx, Hsteps, steps_at_last.
    replace (0 <? last + 1)%Z with true by (symmetry; apply Z.ltb_lt; lia).
    replace (Z.min (last + 1 - 1) (Z.of_nat (length pre) + 1)) with last by lia.
    fold acts. cbn [fst snd].
    destruct (Component.tInStep c =? 0)%float; simpl;
      by destruct (Program.tickMs prog <=? Component.tInStep c + dt)%float.
Qed.

Lemma last_step_is_reapplied_witness :
  edges_and_index (w_r.1, at_last_step) = (Some (Edges.mk KZ KZ KX KX), 1%Z) ∧
  edges_and_index <$> stepOnce prog_rotate w_r.1 at_last_step =
    Some (Some (Edges.mk KX KZ KZ KX), 1%Z) ∧
  edges_and_index <$> (hc ← stepOnce prog_rotate w_r.1 at_last_step;
                       stepOnce prog_rotate hc.1 hc.2) =
    Some (Some (Edges.mk KX KX KZ KZ), 1%Z) ∧
  edges_and_index <$> onTick prog_rotate 700 w_r.1
                        (Component.mk w_r.2 1 0 true) =
    Some (Some (Edges.mk KX KZ KZ KX), 1%Z).
Proof.
  split; [reflexivity|].
  destruct (last_step_is_reapplied prog_rotate w_r.1 at_last_step
              [step_init_r] step_rotate_r eq_refl eq_refl) as [Hstep _].
  destruct (last_step_is_reapplied prog_rotate w_r.1 (Component.mk w_r.2 1 0 true)
              [step_init_r] step_rotate_r eq_refl eq_refl) as [_ Htick].
  split; [rewrite Hstep; vm_compute; reflexivity|].
  split; [rewrite Hstep; vm_compute; reflexivity|].
  rewrite (Htick 700%float eq_refl). vm_compute. reflexivity.
Defined.

Lemma w_init_closed : heap_closed w_init.1 ∧ state_closed w_init.1 w_init.2.
Proof.
  split.
  - apply map_Forall_insert_2; [simpl; lia|].
    apply map_Forall_insert_2; [simpl; lia|]. apply map_Forall_empty.
  - split; [|exact I]. repeat constructor.
Defined.

(** On a program without steps the Step button reads [.actions] of
    [undefined] and throws; the frame callback tests the length first and
    leaves the component as it is. *)
Lemma step_once_throws_on_empty_program :
  stepOnce prog_empty Heap.empty playing_initial = None ∧
  onTick prog_empty 700 Heap.empty playing_initial =
    Some (Heap.empty, playing_initial).
Proof. split; reflexivity. Qed.

(** The demo program, stepped from the initial state: after "approach" the
    rectangles are exactly the targets, after "Z Z measurement" no overlay
    is left and nothing else has changed, after "rotate edges" the edges
    are X Z X Z, and at the end the index holds at the last step. *)
Lemma demo_program_steps :
  summary <$> press_step demoProgram 2 (Heap.empty, Component.initial) =
    Some ([("q0", Some (tile_rect 8 7 4 3, edges_zx));
           ("q1", Some (tile_rect 14 7 4 3, edges_zx))], false, 2%Z) ∧
  summary <$> press_step demoProgram 3 (Heap.empty, Component.initial) =
    Some ([("q0", Some (tile_rect 8 7 4 3, edges_zx));
           ("q1", Some (tile_rect 14 7 4 3, edges_zx))], false, 3%Z) ∧
  summary <$> press_step demoProgram 5 (Heap.empty, Component.initial) =
    Some ([("q0", Some (tile_rect 6 7 3 3, Edges.mk KX KZ KX KZ));
           ("q1", Some (tile_rect 16 7 3 3, Edges.mk KX KZ KX KZ))], false, 5%Z) ∧
  summary <$> press_step demoProgram 6 (Heap.empty, Component.initial) =
    Some ([("q0", Some (tile_rect 6 7 3 3, Edges.mk KX KZ KX KZ));
           ("q1", Some (tile_rect 16 7 3 3, Edges.mk KX KZ KX KZ))], false, 5%Z).
Proof. repeat split; vm_compute; reflexivity. Qed.

(** A tick played in frames of 200, 200 and 300 ms ends where one press of
    Step ends. *)
Lemma split_tick_matches_step :
  observe <$> frames prog_deform_and_measure [200; 200; 300]%float
                (w_init.1, Component.mk w_init.2 1 0 true) =
  observe <$> stepOnce prog_deform_and_measure w_init.1
                (Component.mk w_init.2 1 0 true).
Proof. vm_compute. reflexivity. Qed.

(* ------------------------------------------------------------------- *)
(** * Further properties *)

(* ------------------------------------------------------------------- *)
(** ** Progress, maps and clones *)

Lemma advancePatch_last (t1 t2 : float) (p : RuntimePatch.t) :
  advancePatch t2 (advancePatch t1 p) = advancePatch t2 p.
Proof. unfold advancePatch. by destruct p as [i r e lb [f|] [g|]]. Qed.

Lemma advance_next (t : float) (w : World) :
  Heap.next (advanceInterpolations t w).1 = Heap.next w.1.
Proof.
  destruct w as [hp s]. simpl. generalize (RuntimeState.patches s). intros m.
  revert hp. induction m as [|e m IH]; intros hp; [done|].
  cbn [fold_left]. by rewrite IH, update_next.
Qed.

(** X1: advancing to progress [t2] after advancing to [t1] gives the
    state that advancing to [t2] alone gives: the interpolated rectangles
    and the overlay progress depend on the last progress value only. *)
Theorem advance_last_progress_wins (t1 t2 : float) (w : World) :
  advanceInterpolations t2 (advanceInterpolations t1 w) = advanceInterpolations t2 w.
Proof.
  apply world_eq.
  - by rewrite !advance_next.
  - intros l. destruct w as [hp s].
    rewrite (surjective_pairing (advanceInterpolations t1 (hp, s))).
    rewrite advance_lookup, advance_patches. cbn [snd].
    rewrite !advance_lookup. case_decide; [|done].
    destruct (Heap.objs hp !! l); simpl; [|done]. by rewrite advancePatch_last.
  - by rewrite !advance_patches.
  - destruct w as [hp s]. simpl.
    by destruct (RuntimeState.measurementOverlay s).
Qed.
Lemma map_get_set (m : PatchMap) (k0 k : PatchId) (l : loc) :
  map_get (map_set m k0 l) k = if decide (k0 = k) then Some l else map_get m k.
Proof.
  induction m as [|[k' l'] m IH]; simpl.
  - by case_decide.
  - destruct (decide (k' = k0)) as [->|N]; simpl.
    + by destruct (decide (k0 = k)).
    + rewrite IH. destruct (decide (k' = k)) as [->|N']; [|done].
      by rewrite decide_False by done.
Qed.

Lemma map_get_delete_ne (m : PatchMap) (k0 k : PatchId) :
  map_get (map_delete m k0) k = if decide (k0 = k) then None else map_get m k.
Proof.
  destruct (decide (k0 = k)) as [->|N]; [apply map_get_delete|].
  unfold map_delete. induction m as [|[k' l'] m IH]; [done|].
  rewrite filter_cons. simpl. destruct (decide (k' ≠ k0)) as [D|D]; simpl.
  - by rewrite IH.
  - rewrite IH. apply dec_stable in D. subst k'. by rewrite decide_False.
Qed.

Lemma map_set_keys (m : PatchMap) (k : PatchId) (l : loc) :
  (map_set m k l).*1 = if absent m k then m.*1 ++ [k] else m.*1.
Proof.
  unfold absent. induction m as [|[k' l'] m IH]; [done|]. simpl.
  destruct (decide (k' = k)) as [->|N]; [done|]. rewrite !fmap_cons, IH.
  by destruct (map_get m k).
Qed.

Lemma map_get_None (m : PatchMap) (k : PatchId) :
  map_get m k = None ↔ k ∉ m.*1.
Proof.
  induction m as [|[k' l'] m IH]; simpl.
  - split; [intros _; apply not_elem_of_nil|done].
  - rewrite not_elem_of_cons. case_decide as D.
    + split; [done|]. intros [? _]. congruence.
    + rewrite IH. split; [by split; [congruence|]|by intros [_ ?]].
Qed.

Lemma map_set_absent (m : PatchMap) (k : PatchId) (l : loc) :
  k ∉ m.*1 → map_set m k l = m ++ [(k, l)].
Proof.
  induction m as [|[k' l'] m IH]; [done|]. simpl.
  intros [N1 N2]%not_elem_of_cons. rewrite decide_False by done. by rewrite IH.
Qed.

Lemma map_get_In (m : PatchMap) (k : PatchId) (l : loc) :
  NoDup m.*1 → (k, l) ∈ m → map_get m k = Some l.
Proof.
  induction m as [|[k' l'] m IH]; [by intros _ ?%elem_of_nil|].
  simpl. intros [N1 N2]%NoDup_cons [E|I]%elem_of_cons.
  - injection E as -> ->. by rewrite decide_True.
  - case_decide as D; [|auto]. subst k'. destruct N1.
    apply list_elem_of_fmap. by exists (k, l).
Qed.

Lemma map_get_inj (m : PatchMap) (k k' : PatchId) (l : loc) :
  NoDup m.*2 → map_get m k = Some l → map_get m k' = Some l → k = k'.
Proof.
  intros N G G'. apply map_get_elem in G, G'.
  apply list_elem_of_lookup in G as [i Hi], G' as [j Hj].
  assert (i = j) as ->.
  { eapply NoDup_lookup; [exact N| |]; rewrite list_lookup_fmap.
    - by rewrite Hi. - by rewrite Hj. }
  congruence.
Qed.
Lemma deepCopy_animated (p : RuntimePatch.t) :
  animated (deepCopy_RuntimePatch p) = animated p.
Proof. by destruct p as [i r e lb [f|] [g|]]. Qed.

(** The map and the store that the loop of [cloneRuntimeState] builds from
    a map with unique keys whose objects exist. *)
Lemma clone_fold_spec (m : PatchMap) (hp : Heap.t) (acc : PatchMap) :
  NoDup (acc.*1 ++ m.*1) →
  Forall (λ e : PatchId * loc,
            e.2 < Heap.next hp ∧ is_Some (Heap.objs hp !! e.2)) m →
  let r := fold_left cloneStep m (hp, acc) in
  r.2 = acc ++ zip m.*1 (seq (Heap.next hp) (length m)) ∧
  Heap.next r.1 = Heap.next hp + length m ∧
  (∀ l, l < Heap.next hp → Heap.objs r.1 !! l = Heap.objs hp !! l) ∧
  (∀ i e, m !! i = Some e →
     Heap.objs r.1 !! (Heap.next hp + i) =
     deepCopy_RuntimePatch <$> Heap.objs hp !! e.2).
Proof.
  revert hp acc. induction m as [|[k l] m IH]; intros hp acc N F; cbn zeta.
  - simpl. rewrite app_nil_r. repeat split; [lia|done].
  - apply Forall_cons in F as [[Hl [p Hp]] F]. cbn [fst snd] in Hl, Hp.
    cbn [fold_left].
    set (hp' := Heap.mk (<[Heap.next hp := deepCopy_RuntimePatch p]> (Heap.objs hp))
                        (S (Heap.next hp))).
    assert (Hold : ∀ l', l' < Heap.next hp →
              Heap.objs hp' !! l' = Heap.objs hp !! l').
    { intros l' Hl'. simpl. apply lookup_insert_ne. lia. }
    rewrite fmap_cons in N. cbn [fst] in N.
    assert (Hk : k ∉ acc.*1).
    { apply NoDup_app in N as (_ & D & _). intros I. apply (D _ I), list_elem_of_here. }
    assert (cloneStep (hp, acc) (k, l) = (hp', acc ++ [(k, Heap.next hp)])) as ->.
    { unfold cloneStep. cbn [fst snd]. rewrite Hp. cbn [Heap.alloc].
      by rewrite (map_set_absent _ _ _ Hk). }
    destruct (IH hp' (acc ++ [(k, Heap.next hp)])) as (E & Nx & Old & New).
    { rewrite fmap_app. simpl. rewrite <- app_assoc. exact N. }
    { eapply Forall_impl; [exact F|]. intros e [He1 [q Hq]]. split; [simpl; lia|].
      exists q. by rewrite Hold. }
    repeat split.
    + rewrite E, <- app_assoc. done.
    + rewrite Nx. simpl. lia.
    + intros l' Hl'. rewrite Old by (simpl; lia). by apply Hold.
    + intros [|i] e He.
      * injection He as <-. cbn [snd]. rewrite Nat.add_0_r, Old by (simpl; lia).
        simpl. by rewrite lookup_insert_eq, Hp.
      * simpl in He. specialize (New i e He).
        replace (Heap.next hp + S i) with (Heap.next hp' + i) by (simpl; lia).
        rewrite New. f_equal. apply Hold.
        by apply (proj1 (Forall_lookup _ _) F i e) in He as [? _].
Qed.
Lemma wf_allocated (w : World) :
  closed w → well_formed w →
  Forall (λ e : PatchId * loc,
            e.2 < Heap.next w.1 ∧ is_Some (Heap.objs w.1 !! e.2))
         (RuntimeState.patches w.2).
Proof.
  intros (_ & F & _) (_ & _ & I). apply Forall_forall. intros e He.
  split; [by apply (proj1 (Forall_forall _ _) F)|].
  apply (proj1 (Forall_forall _ _) I) in He.
  destruct (Heap.objs w.1 !! e.2); [by eexists|done].
Qed.

Lemma clone_spec (hp : Heap.t) (s : RuntimeState.t) :
  closed (hp, s) → well_formed (hp, s) →
  let m := RuntimeState.patches s in
  let w := cloneRuntimeState hp s in
  RuntimeState.patches w.2 = zip m.*1 (seq (Heap.next hp) (length m)) ∧
  Heap.next w.1 = Heap.next hp + length m ∧
  (∀ l, l < Heap.next hp → Heap.objs w.1 !! l = Heap.objs hp !! l) ∧
  (∀ i e, m !! i = Some e →
     Heap.objs w.1 !! (Heap.next hp + i) =
     deepCopy_RuntimePatch <$> Heap.objs hp !! e.2).
Proof.
  intros C W. pose proof (wf_allocated _ C W) as A. destruct W as (N & _).
  cbn [fst snd] in *.
  by apply (clone_fold_spec (RuntimeState.patches s) hp []).
Qed.

Lemma clone_lookup (hp : Heap.t) (s : RuntimeState.t) (i : nat) (e : PatchId * loc) :
  closed (hp, s) → well_formed (hp, s) →
  RuntimeState.patches (cloneRuntimeState hp s).2 !! i = Some e ↔
  ∃ l, RuntimeState.patches s !! i = Some (e.1, l) ∧ e.2 = Heap.next hp + i.
Proof.
  intros C W. destruct (clone_spec hp s C W) as (E & _). rewrite E.
  destruct e as [k l']. cbn [fst snd]. rewrite lookup_zip_with_Some.
  split.
  - intros (k0 & l0 & [= <- <-] & Hk & Hl).
    apply list_lookup_fmap_Some in Hk as ([k1 l1] & -> & Hk).
    apply lookup_seq in Hl as [-> _]. eauto.
  - intros (l & Hl & ->). exists k, (Heap.next hp + i). split; [done|]. split.
    + by rewrite list_lookup_fmap, Hl.
    + apply lookup_seq. split; [done|]. by apply lookup_lt_Some in Hl.
Qed.

Lemma clone_view_patches (hp : Heap.t) (s : RuntimeState.t) :
  closed (hp, s) → well_formed (hp, s) →
  View.patches (view (cloneRuntimeState hp s)) =
  (λ e : PatchId * option RuntimePatch.t, (e.1, deepCopy_RuntimePatch <$> e.2))
    <$> View.patches (view (hp, s)).
Proof.
  intros C W. destruct (clone_spec hp s C W) as (E & _ & _ & New).
  rewrite (surjective_pairing (cloneRuntimeState hp s)). cbn [view View.patches].
  rewrite E. apply list_eq. intros i. rewrite !list_lookup_fmap.
  rewrite lookup_zip_with, list_lookup_fmap.
  destruct (RuntimeState.patches s !! i) as [[k l]|] eqn:Hi; [|done].
  cbn [fmap option_fmap option_map mbind option_bind].
  rewrite lookup_seq_lt by by apply lookup_lt_Some in Hi.
  cbn [fmap option_fmap option_map mbind option_bind fst snd].
  by rewrite (New i (k, l) Hi).
Qed.

Lemma clone_map_get (hp : Heap.t) (s : RuntimeState.t) (k : PatchId) (l' : loc) :
  closed (hp, s) → well_formed (hp, s) →
  map_get (RuntimeState.patches (cloneRuntimeState hp s).2) k = Some l' →
  ∃ l p, map_get (RuntimeState.patches s) k = Some l ∧
         Heap.objs hp !! l = Some p ∧
         Heap.objs (cloneRuntimeState hp s).1 !! l' = Some (deepCopy_RuntimePatch p).
Proof.
  intros C W G. apply map_get_elem, list_elem_of_lookup in G as [i Hi].
  apply (clone_lookup _ _ _ _ C W) in Hi as (l & Hl & E). cbn [fst snd] in Hl, E.
  destruct (clone_spec hp s C W) as (_ & _ & _ & New).
  pose proof (wf_allocated _ C W) as A.
  destruct (proj1 (Forall_lookup _ _) A i _ Hl) as [_ [p Hp]]. cbn [fst snd] in Hp.
  exists l, p. split; [|split; [done|]].
  - apply map_get_In; [apply W|]. by eapply list_elem_of_lookup_2.
  - subst l'. rewrite (New i _ Hl). cbn [snd]. by rewrite Hp.
Qed.

Lemma clone_well_formed (hp : Heap.t) (s : RuntimeState.t) :
  closed (hp, s) → well_formed (hp, s) → well_formed (cloneRuntimeState hp s).
Proof.
  intros C W. destruct (clone_spec hp s C W) as (E & _ & _ & New).
  pose proof W as (N & _ & I). cbn [fst snd] in N, I.
  unfold well_formed. rewrite E. split; [|split].
  - rewrite fst_zip; [done|]. rewrite length_fmap, length_seq. lia.
  - rewrite snd_zip; [apply NoDup_seq|]. rewrite length_fmap, length_seq. lia.
  - rewrite <- E. apply Forall_lookup. intros i [k l'] Hi.
    apply (clone_lookup _ _ _ _ C W) in Hi as (l & Hl & ->). cbn [fst snd] in *.
    rewrite (New i _ Hl). cbn [snd].
    pose proof (proj1 (Forall_lookup _ _) I i _ Hl) as Hid. cbn [fst snd] in Hid.
    by destruct (Heap.objs hp !! l).
Qed.
(* ------------------------------------------------------------------- *)
(** ** Well-formed states *)

Lemma map_set_elem (m : PatchMap) (k : PatchId) (l : loc) (e : PatchId * loc) :
  e ∈ map_set m k l → e = (k, l) ∨ e ∈ m.
Proof.
  induction m as [|[k' l'] m IH]; simpl.
  - intros ->%list_elem_of_singleton. by left.
  - case_decide as D.
    + intros [->|I]%elem_of_cons; [left; by subst|right; by apply list_elem_of_further].
    + intros [->|I]%elem_of_cons; [right; apply list_elem_of_here|].
      destruct (IH I) as [->|I']; [by left|right; by apply list_elem_of_further].
Qed.

Lemma map_set_NoDup_locs (m : PatchMap) (k : PatchId) (l : loc) :
  NoDup m.*2 → l ∉ m.*2 → NoDup (map_set m k l).*2.
Proof.
  induction m as [|[k' l'] m IH]; simpl.
  - intros _ _. apply NoDup_singleton.
  - intros [N1 N2]%NoDup_cons [N3 N4]%not_elem_of_cons. case_decide as D.
    + rewrite fmap_cons. by apply NoDup_cons.
    + rewrite fmap_cons. apply NoDup_cons. split; [|by apply IH].
      intros ([k1 l1] & E & [[= -> ->]|I]%map_set_elem)%list_elem_of_fmap;
        cbn [snd] in E; subst; [done|].
      apply N1, list_elem_of_fmap. by exists (k1, l1).
Qed.

Lemma map_delete_NoDup (m : PatchMap) (k : PatchId) :
  (NoDup m.*1 → NoDup (map_delete m k).*1) ∧
  (NoDup m.*2 → NoDup (map_delete m k).*2).
Proof.
  split; intros N; (eapply sublist_NoDup; [exact N|]);
    apply fmap_sublist, sublist_filter.
Qed.

Lemma update_well_formed (l : loc) f (hp : Heap.t) (s : RuntimeState.t) :
  (∀ p, RuntimePatch.id (f p) = RuntimePatch.id p) →
  well_formed (hp, s) → well_formed (Heap.update l f hp, s).
Proof.
  intros Hf (N1 & N2 & I). split; [done|]. split; [done|]. cbn [fst snd] in *.
  eapply Forall_impl; [exact I|]. intros e He. cbn [fst snd] in He. rewrite update_lookup.
  case_decide as D; [|done]. subst l.
  destruct (Heap.objs hp !! e.2); cbn [fmap option_fmap option_map] in *; [|done].
  by rewrite Hf.
Qed.

Lemma commitAction_well_formed (act : Action) (w : World) :
  closed w → well_formed w → well_formed (commitAction act w).
Proof.
  destruct w as [hp s]. intros C W.
  destruct act as [patch|id R|id tx ty| | |id|id]; simpl; try done.
  - destruct C as (Hc & F & _), W as (N1 & N2 & I). cbn [fst snd] in *.
    split; [|split]; cbn [fst snd RuntimeState.patches RuntimeState.set_patches].
    + rewrite map_set_keys. unfold absent.
      destruct (map_get _ _) eqn:G; [done|].
      apply NoDup_app. split; [done|]. split; [|apply NoDup_singleton].
      intros x Hx ->%list_elem_of_singleton. by apply map_get_None in G.
    + apply map_set_NoDup_locs; [done|].
      intros ([k l] & E & Hl)%list_elem_of_fmap. cbn [snd] in E. subst l.
      apply (proj1 (Forall_forall _ _) F) in Hl. simpl in Hl. lia.
    + apply Forall_forall. intros e [->|He]%map_set_elem; cbn [fst snd Heap.objs].
      * by rewrite lookup_insert_eq.
      * rewrite lookup_insert_ne.
        { by apply (proj1 (Forall_forall _ _) I). }
        apply (proj1 (Forall_forall _ _) F) in He. lia.
  - destruct (map_get _ _); [|done]. by apply update_well_formed.
  - destruct (map_get _ _); [|done]. by apply update_well_formed.
  - destruct (map_get _ _); [|done]. by apply update_well_formed.
  - destruct W as (N1 & N2 & I). cbn [fst snd] in *.
    split; [|split]; cbn [fst snd RuntimeState.patches RuntimeState.set_patches].
    + by apply map_delete_NoDup.
    + by apply map_delete_NoDup.
    + apply Forall_forall. intros e [_ He]%list_elem_of_filter.
      by apply (proj1 (Forall_forall _ _) I).
Qed.

Lemma commitActions_closed_wf (acts : list Action) (w : World) :
  closed w → well_formed w →
  closed (commitActions acts w) ∧ well_formed (commitActions acts w).
Proof.
  revert w. induction acts as [|act acts IH]; intros w C W; [done|].
  unfold commitActions. cbn [fold_left].
  apply IH; [by apply commitAction_closed|by apply commitAction_well_formed].
Qed.

Lemma prepareAction_well_formed (act : Action) (w : World) :
  well_formed w → well_formed (prepareAction act w).
Proof.
  destruct w as [hp s]. intros W.
  destruct act as [patch|id R|id tx ty|i1 e1 i2 e2 o| |id|id]; simpl; try done.
  - destruct (map_get _ _); [|done]. by apply update_well_formed.
  - destruct (map_get _ _); [|done]. by apply update_well_formed.
  - by destruct (map_get (RuntimeState.patches s) i1),
      (map_get (RuntimeState.patches s) i2).
Qed.

Lemma prepareTick_well_formed (acts : list Action) (w : World) :
  well_formed w → well_formed (prepareTick acts w).
Proof.
  intros W. unfold prepareTick.
  assert (well_formed (w.1, RuntimeState.set_overlay None w.2)) as W0 by done.
  revert W0. generalize (w.1, RuntimeState.set_overlay None w.2). clear.
  induction acts as [|act acts IH]; intros u W; [done|].
  cbn [fold_left]. by apply IH, prepareAction_well_formed.
Qed.

Lemma advancePatch_id (t : float) (p : RuntimePatch.t) :
  RuntimePatch.id (advancePatch t p) = RuntimePatch.id p.
Proof. unfold advancePatch. by destruct p as [i r e lb [f|] [g|]]. Qed.

Lemma advance_well_formed (t : float) (w : World) :
  well_formed w → well_formed (advanceInterpolations t w).
Proof.
  destruct w as [hp s]. intros (N1 & N2 & I). split; [done|]. split; [done|].
  cbn [fst snd] in *. rewrite advance_patches. cbn [snd].
  eapply Forall_impl; [exact I|]. intros e He. cbn [fst snd] in He. rewrite advance_lookup.
  case_decide; [|done].
  destruct (Heap.objs hp !! e.2); cbn [fmap option_fmap option_map] in *; [|done].
  by rewrite advancePatch_id.
Qed.
(* ------------------------------------------------------------------- *)
(** ** Animation fields and the overlay across a step *)

Lemma animated_in_Some (w : World) (k : PatchId) :
  animated_in w k = true ↔
  ∃ l p, map_get (RuntimeState.patches w.2) k = Some l ∧
         Heap.objs w.1 !! l = Some p ∧ animated p = true.
Proof.
  unfold animated_in. split.
  - destruct (map_get _ k) as [l|]; [|done]. simpl.
    destruct (Heap.objs w.1 !! l) as [p|] eqn:E; [|done]. simpl. eauto.
  - intros (l & p & -> & Hp & A). simpl. by rewrite Hp.
Qed.

Lemma commitAction_animated (act : Action) (w : World) (k : PatchId) :
  animated_in (commitAction act w) k = true →
  animated_in w k = true ∧ animates k act = false.
Proof.
  destruct w as [hp s]. rewrite !animated_in_Some.
  destruct act as [patch|id R|id tx ty|i1 e1 i2 e2 o|id b o|id|id];
    cbn [commitAction animates].
  - cbn [Heap.alloc fst snd RuntimeState.patches RuntimeState.set_patches Heap.objs].
    intros (l & p & G & Hp & A). split; [|done]. rewrite map_get_set in G.
    case_decide as D.
    + injection G as <-. rewrite lookup_insert_eq in Hp. by injection Hp as <-.
    + destruct (decide (l = Heap.next hp)) as [->|N].
      * rewrite lookup_insert_eq in Hp. by injection Hp as <-.
      * rewrite lookup_insert_ne in Hp by done. eauto.
  - destruct (map_get (RuntimeState.patches s) id) as [l0|] eqn:G0; cbn [fst snd].
    + intros (l & p & G & Hp & A). rewrite update_lookup in Hp.
      destruct (decide (l0 = l)) as [->|N].
      { destruct (Heap.objs hp !! l); simpl in Hp; [|done]. by injection Hp as <-. }
      split; [eauto|]. apply bool_decide_eq_false. intros ->. congruence.
    + intros (l & p & G & Hp & A). split; [eauto|].
      apply bool_decide_eq_false. intros ->. congruence.
  - destruct (map_get (RuntimeState.patches s) id) as [l0|] eqn:G0; cbn [fst snd].
    + intros (l & p & G & Hp & A). rewrite update_lookup in Hp.
      destruct (decide (l0 = l)) as [->|N].
      { destruct (Heap.objs hp !! l); simpl in Hp; [|done]. by injection Hp as <-. }
      split; [eauto|]. apply bool_decide_eq_false. intros ->. congruence.
    + intros (l & p & G & Hp & A). split; [eauto|].
      apply bool_decide_eq_false. intros ->. congruence.
  - cbn [fst snd RuntimeState.patches RuntimeState.set_overlay]. by intros H.
  - by intros H.
  - destruct (map_get (RuntimeState.patches s) id) as [l0|] eqn:G0; cbn [fst snd];
      [|by intros H].
    intros (l & p & G & Hp & A). split; [|done]. rewrite update_lookup in Hp.
    destruct (decide (l0 = l)) as [->|N]; [|eauto].
    destruct (Heap.objs hp !! l) as [q|] eqn:Hq; simpl in Hp; [|done].
    injection Hp as <-. exists l, q. by destruct q as [? ? ? ? [?|] [?|]].
  - cbn [fst snd RuntimeState.patches RuntimeState.set_patches].
    intros (l & p & G & Hp & A). split; [|done]. rewrite map_get_delete_ne in G.
    case_decide; [done|eauto].
Qed.

Lemma commitActions_animated (acts : list Action) (w : World) (k : PatchId) :
  animated_in (commitActions acts w) k = true →
  animated_in w k = true ∧ existsb (animates k) acts = false.
Proof.
  revert w. induction acts as [|act acts IH]; intros w; [done|].
  unfold commitActions. cbn [fold_left existsb].
  intros [[A N]%commitAction_animated ->]%IH. by rewrite N.
Qed.

Lemma commitActions_overlay (acts : list Action) (w : World) :
  RuntimeState.measurementOverlay (commitActions acts w).2 =
  if existsb is_TwoPatchMeas acts then None
  else RuntimeState.measurementOverlay w.2.
Proof.
  revert w. induction acts as [|act acts IH]; intros [hp s]; [done|].
  unfold commitActions. cbn [fold_left existsb]. fold (commitActions acts).
  rewrite IH.
  destruct act as [patch|id R|id tx ty|i1 e1 i2 e2 o|id b o|id|id];
    cbn [commitAction is_TwoPatchMeas orb]; try done;
    try (by destruct (map_get (RuntimeState.patches s) id)).
  by destruct (existsb _ _).
Qed.

Lemma prepare_fold_overlay_Some (acts : list Action) (w : World) :
  is_Some (RuntimeState.measurementOverlay
             (fold_left (λ w act, prepareAction act w) acts w).2) →
  is_Some (RuntimeState.measurementOverlay w.2) ∨
  existsb is_TwoPatchMeas acts = true.
Proof.
  revert w. induction acts as [|act acts IH]; intros [hp s]; [by left|].
  cbn [fold_left existsb]. intros [H|H]%IH; [|right; by rewrite H, orb_true_r].
  destruct (prepareAction_state act hp s) as [_ E]. rewrite E in H.
  destruct act; simpl in *; auto.
Qed.

Lemma prepareTick_overlay_Some (acts : list Action) (w : World) :
  is_Some (RuntimeState.measurementOverlay (prepareTick acts w).2) →
  existsb is_TwoPatchMeas acts = true.
Proof.
  unfold prepareTick. intros [H|H]%prepare_fold_overlay_Some; [|done].
  simpl in H. by destruct H.
Qed.

Lemma prepareAction_animated (act : Action) (w : World) (k : PatchId) :
  well_formed w →
  animated_in (prepareAction act w) k = true →
  animated_in w k = true ∨ animates k act = true.
Proof.
  destruct w as [hp s]. intros (_ & N2 & _). rewrite !animated_in_Some.
  intros (l & p & G & Hp & A).
  rewrite (proj1 (prepareAction_state act hp s)) in G.
  rewrite prepareAction_lookup in Hp. cbn [fst snd] in *.
  destruct (writes (RuntimeState.patches s) act l) eqn:Wr; [|left; eauto].
  right. destruct act; simpl in Wr; try done;
    apply bool_decide_eq_true in Wr; apply bool_decide_eq_true; simpl;
    by eapply map_get_inj.
Qed.

Lemma prepare_fold_animated (acts : list Action) (w : World) (k : PatchId) :
  well_formed w →
  animated_in (fold_left (λ w act, prepareAction act w) acts w) k = true →
  animated_in w k = true ∨ existsb (animates k) acts = true.
Proof.
  revert w. induction acts as [|act acts IH]; intros w W; [by left|].
  cbn [fold_left existsb].
  intros [H|H]%IH; [|right; by rewrite H, orb_true_r|by apply prepareAction_well_formed].
  apply prepareAction_animated in H as [H|H]; [by left|right; by rewrite H|done].
Qed.

Lemma advancePatch_animated (t : float) (p : RuntimePatch.t) :
  animated (advancePatch t p) = animated p.
Proof. unfold advancePatch. by destruct p as [i r e lb [f|] [g|]]. Qed.

Lemma advance_animated (t : float) (w : World) (k : PatchId) :
  animated_in (advanceInterpolations t w) k = animated_in w k.
Proof.
  destruct w as [hp s]. unfold animated_in. rewrite advance_patches. cbn [fst snd].
  destruct (map_get (RuntimeState.patches s) k) as [l|]; [|done]. simpl.
  rewrite advance_fold_lookup. case_decide; [|done].
  destruct (Heap.objs hp !! l); simpl; [|done]. apply advancePatch_animated.
Qed.

Lemma clone_animated (hp : Heap.t) (s : RuntimeState.t) (k : PatchId) :
  closed (hp, s) → well_formed (hp, s) →
  animated_in (cloneRuntimeState hp s) k = true → animated_in (hp, s) k = true.
Proof.
  intros C W. rewrite !animated_in_Some. intros (l' & p' & G & Hp & A).
  destruct (clone_map_get _ _ _ _ C W G) as (l & p & G0 & Hp0 & E).
  rewrite E in Hp. injection Hp as <-. rewrite deepCopy_animated in A.
  exists l, p. eauto.
Qed.
(* ------------------------------------------------------------------- *)
(** ** What the component keeps true *)

Lemma extend_step_ok (ost : option Step.t) (hp hp1 : Heap.t) (s : RuntimeState.t) :
  step_ok ost (hp, s) → heap_closed hp1 → Heap.next hp ≤ Heap.next hp1 →
  (∀ l, l < Heap.next hp → Heap.objs hp1 !! l = Heap.objs hp !! l) →
  step_ok ost (hp1, s).
Proof.
  intros (C & W & O & A) H1 Le Old. pose proof C as (_ & Sc). cbn [fst snd] in Sc.
  split; [|split; [|split; [done|]]].
  - split; [done|]. by eapply state_closed_mono.
  - destruct W as (N1 & N2 & I). split; [done|]. split; [done|]. cbn [fst snd] in *.
    apply Forall_forall. intros e He. rewrite Old.
    + by apply (proj1 (Forall_forall _ _) I).
    + by apply (proj1 (Forall_forall _ _) (proj1 Sc)).
  - intros k Hk. apply A. revert Hk. unfold animated_in. cbn [fst snd].
    destruct (map_get (RuntimeState.patches s) k) as [l|] eqn:G; [|done]. simpl.
    rewrite Old; [done|]. by eapply map_get_closed.
Qed.

Lemma clone_step_ok (ost : option Step.t) (hp : Heap.t) (s : RuntimeState.t) :
  step_ok ost (hp, s) → step_ok ost (cloneRuntimeState hp s).
Proof.
  intros (C & W & O & A). split; [by apply clone_closed|].
  split; [by apply clone_well_formed|]. split.
  - by rewrite (proj2 (proj2 (clone_map_new_overlay_shared hp s))).
  - intros k Hk. by apply A, clone_animated.
Qed.

Lemma clone_again_step_ok (ost : option Step.t) (hp : Heap.t) (s : RuntimeState.t) :
  step_ok ost (hp, s) →
  step_ok ost (cloneRuntimeState (cloneRuntimeState hp s).1 s).
Proof.
  intros S. apply clone_step_ok.
  destruct (clone_map_new_overlay_shared hp s) as (_ & Old & _).
  destruct (clone_fold_facts (RuntimeState.patches s) (hp, [])) as (Le & _ & Hc).
  apply (extend_step_ok ost hp); [done| |exact Le|exact Old].
  apply Hc, S.
Qed.

Lemma prepareTick_step_ok (st : Step.t) (w : World) :
  step_ok (Some st) w → step_ok (Some st) (prepareTick (Step.actions st) w).
Proof.
  intros (C & W & O & A). split; [by apply prepareTick_closed|].
  split; [by apply prepareTick_well_formed|]. split.
  - intros H%prepareTick_overlay_Some. eauto.
  - intros k [H|H]%prepare_fold_animated; [by apply A|eauto|done].
Qed.

Lemma advance_step_ok (ost : option Step.t) (t : float) (w : World) :
  step_ok ost w → step_ok ost (advanceInterpolations t w).
Proof.
  intros (C & W & O & A). split; [by apply advance_closed|].
  split; [by apply advance_well_formed|]. split.
  - intros H. apply O. destruct w as [hp s]. simpl in *.
    by destruct (RuntimeState.measurementOverlay s).
  - intros k H. apply A. by rewrite advance_animated in H.
Qed.

(** After a commit the state is at rest, whatever step comes next. *)
Lemma commit_step_ok (st : Step.t) (ost : option Step.t) (w : World) :
  step_ok (Some st) w →
  let w' := commitActions (Step.actions st) w in
  step_ok ost w' ∧ RuntimeState.measurementOverlay w'.2 = None ∧
  ∀ k, animated_in w' k = false.
Proof.
  intros (C & W & O & A) w'.
  destruct (commitActions_closed_wf (Step.actions st) w C W) as [C' W'].
  assert (Ov : RuntimeState.measurementOverlay w'.2 = None).
  { unfold w'. rewrite commitActions_overlay.
    destruct (existsb is_TwoPatchMeas _) eqn:E; [done|].
    destruct (RuntimeState.measurementOverlay w.2) eqn:E'; [|done].
    destruct O as (st' & [= <-] & E''); [by eexists|]. congruence. }
  assert (An : ∀ k, animated_in w' k = false).
  { intros k. destruct (animated_in w' k) eqn:E; [|done].
    apply commitActions_animated in E as [E N].
    destruct (A k E) as (st' & [= <-] & E''). congruence. }
  split; [|done]. split; [done|]. split; [done|]. split.
  - rewrite Ov. by intros [? ?].
  - intros k. by rewrite An.
Qed.

Lemma steps_at_in_range (steps : list Step.t) (i : Z) :
  (0 ≤ i < Z.of_nat (length steps))%Z → is_Some (steps_at steps i).
Proof.
  intros [H1 H2]. unfold steps_at.
  rewrite (proj2 (Z.ltb_ge i 0)) by done.
  apply lookup_lt_is_Some. lia.
Qed.

Lemma stepOnce_inv (prog : Program.t) (hc hc' : Heap.t * Component.t) :
  inv prog hc → stepOnce prog hc.1 hc.2 = Some hc' →
  inv prog hc' ∧
  RuntimeState.measurementOverlay (Component.runtime hc'.2) = None ∧
  (∀ k, animated_in (hc'.1, Component.runtime hc'.2) k = false) ∧
  Component.tInStep hc'.2 = 0%float.
Proof.
  destruct hc as [hp c]. intros [S [Cu Ct]]. cbn [fst snd] in *.
  unfold stepOnce.
  destruct (steps_at _ _) as [st|] eqn:Est; [|done].
  cbn [mbind option_bind]. intros [= <-]. cbn [fst snd Component.runtime Component.tInStep].
  pose proof (steps_at_Some _ _ _ Est) as R. fold (steps_length prog) in R.
  assert (Ei : Z.min (Component.stepIdx c) (steps_length prog - 1) = Component.stepIdx c)
    by lia.
  rewrite Ei in *. unfold current_step in S. rewrite Est in S.
  rewrite <- surjective_pairing.
  edestruct (commit_step_ok st) as (S' & Ov & An);
    [apply advance_step_ok, prepareTick_step_ok, clone_step_ok, S|].
  split; [|by eauto]. split; [exact S'|]. split; [simpl; lia|by left].
Qed.

Lemma onTick_inv (prog : Program.t) (dt : float) (hc hc' : Heap.t * Component.t) :
  inv prog hc → onTick prog dt hc.1 hc.2 = Some hc' → inv prog hc'.
Proof.
  destruct hc as [hp c]. intros [S [Cu Ct]]. cbn [fst snd] in *.
  unfold onTick.
  pose proof (clone_step_ok _ _ _ S) as S1.
  pose proof (clone_again_step_ok _ _ _ S) as S2.
  destruct (cloneRuntimeState hp (Component.runtime c)) as [hp1 rt1] eqn:E1.
  cbn [fst] in S2.
  destruct (Component.playing c && (0 <? steps_length prog)%Z) eqn:Epl;
    [|by intros [= <-]].
  apply andb_true_iff in Epl as [_ Len%Z.ltb_lt].
  destruct (steps_at_in_range (Program.steps prog) (Component.stepIdx c)) as [st Est].
  { unfold steps_length in *. lia. }
  unfold current_step in *. rewrite Est in *. cbn [mbind option_bind].
  set (w1 := if (Component.tInStep c =? 0)%float
             then prepareTick (Step.actions st)
                    (cloneRuntimeState hp1 (Component.runtime c))
             else (hp1, rt1)).
  assert (Sw : step_ok (Some st) w1).
  { unfold w1. destruct (Component.tInStep c =? 0)%float; [|done].
    by apply prepareTick_step_ok. }
  replace (if (Component.tInStep c =? 0)%float
           then Some (prepareTick (Step.actions st)
                        (cloneRuntimeState hp1 (Component.runtime c)))
           else Some (hp1, rt1)) with (Some w1)
    by (unfold w1; by destruct (Component.tInStep c =? 0)%float).
  cbn [mbind option_bind].
  destruct (Program.tickMs prog <=? Component.tInStep c + dt)%float eqn:Ecommit;
    intros [= <-].
  - split.
    + cbn [fst snd Component.runtime]. rewrite <- surjective_pairing.
      by apply commit_step_ok, advance_step_ok.
    + split; [simpl; lia|by left].
  - split.
    + unfold current_step. cbn [fst snd Component.runtime Component.stepIdx].
      rewrite Est.
      rewrite <- surjective_pairing. by apply advance_step_ok.
    + split; [done|by right].
Qed.

Lemma reachable_inv (prog : Program.t) (hc : Heap.t * Component.t) :
  reachable prog hc → inv prog hc.
Proof.
  induction 1 as [|hc ev hc' R IH Hev].
  - split; [|split; [simpl; lia|by left]].
    split; [|split; [|split]].
    + split; [apply map_Forall_empty|]. split; [constructor|exact I].
    + split; [constructor|]. split; constructor.
    + by intros [? ?].
    + done.
  - destruct ev; simpl in Hev.
    + by eapply onTick_inv.
    + by eapply stepOnce_inv.
    + injection Hev as <-. exact IH.
    + injection Hev as <-. destruct IH as [(C & _) _].
      split; [|split; [simpl; lia|by left]].
      split; [|split; [|split]].
      * split; [apply C|]. split; [constructor|exact I].
      * split; [constructor|]. split; constructor.
      * by intros [? ?].
      * done.
Qed.
Lemma run_reachable (prog : Program.t) (evs : list Event)
    (r : option (Heap.t * Component.t)) (hc' : Heap.t * Component.t) :
  (∀ hc, r = Some hc → reachable prog hc) →
  fold_left (λ r ev, hc ← r; handle prog ev hc) evs r = Some hc' →
  reachable prog hc'.
Proof.
  revert r. induction evs as [|ev evs IH]; intros r Hr; cbn [fold_left]; [auto|].
  apply IH. intros hc E. destruct r as [hc0|]; [|done]. simpl in E.
  eapply reachable_next; [by apply Hr|exact E].
Defined.

Lemma state_after_reachable (prog : Program.t) (evs : list Event) :
  reachable prog (state_after prog evs).
Proof.
  unfold state_after, run.
  destruct (fold_left _ evs _) as [hc|] eqn:E; simpl; [|apply reachable_initial].
  eapply run_reachable; [|exact E]. intros hc0 [= <-]. apply reachable_initial.
Defined.

(** X2: in every state the component reaches, the step index lies between
    0 and the index of the last step (it is 0 for a program without
    steps), and the time inside the step is 0 or has not reached [tickMs]. *)
Theorem cursor_stays_in_program (prog : Program.t) (hc : Heap.t * Component.t) :
  reachable prog hc →
  (0 ≤ Component.stepIdx hc.2 ≤ Z.max 0 (steps_length prog - 1))%Z ∧
  (Component.tInStep hc.2 = 0%float ∨
   (Program.tickMs prog <=? Component.tInStep hc.2)%float = false).
Proof. intros R. by destruct (reachable_inv _ _ R) as [_ Cu]. Qed.

Lemma cursor_stays_in_program_witness :
  let hc := state_after demoProgram
              [PressStep; PressPlay; Frame 0; Frame 300; Frame 500; Frame 650] in
  (Component.stepIdx hc.2 = 2%Z ∧ Component.tInStep hc.2 = 650%float) ∧
  (0 ≤ Component.stepIdx hc.2 ≤ Z.max 0 (steps_length demoProgram - 1))%Z ∧
  (Component.tInStep hc.2 = 0%float ∨
   (Program.tickMs demoProgram <=? Component.tInStep hc.2)%float = false).
Proof.
  split; [by vm_compute|].
  apply (cursor_stays_in_program demoProgram), state_after_reachable.
Defined.
Lemma steps_length_nil (prog : Program.t) :
  Program.steps prog = [] ↔ steps_length prog = 0%Z.
Proof.
  unfold steps_length. destruct (Program.steps prog); simpl; [done|].
  split; [done|lia].
Qed.

Lemma onTick_is_Some (prog : Program.t) (dt : float) (hp : Heap.t) (c : Component.t) :
  cursor_ok prog c → is_Some (onTick prog dt hp c).
Proof.
  intros [Cu _]. unfold onTick.
  destruct (cloneRuntimeState hp (Component.runtime c)) as [hp1 rt1].
  destruct (Component.playing c && (0 <? steps_length prog)%Z) eqn:Epl; [|by eexists].
  apply andb_true_iff in Epl as [_ Len%Z.ltb_lt].
  destruct (steps_at_in_range (Program.steps prog) (Component.stepIdx c)) as [st Est].
  { unfold steps_length in *. lia. }
  rewrite Est. cbn [mbind option_bind].
  destruct (Component.tInStep c =? 0)%float; cbn [mbind option_bind];
    destruct (Program.tickMs prog <=? Component.tInStep c + dt)%float; by eexists.
Qed.

(** X4: in every state the component reaches, a measurement overlay is
    present only while the cursor is on a step that contains a
    [TwoPatchMeas]. *)
Theorem overlay_only_on_measurement_step (prog : Program.t) (hc : Heap.t * Component.t) :
  reachable prog hc →
  is_Some (RuntimeState.measurementOverlay (Component.runtime hc.2)) →
  ∃ st, current_step prog hc.2 = Some st ∧
        existsb is_TwoPatchMeas (Step.actions st) = true.
Proof. intros R. destruct (reachable_inv _ _ R) as [(_ & _ & O & _) _]. exact O. Qed.

Lemma overlay_only_on_measurement_step_witness :
  let hc := state_after demoProgram [PressStep; PressStep; PressPlay; Frame 100] in
  RuntimeState.measurementOverlay (Component.runtime hc.2) =
    Some (Overlay.mk 6 Right 7 Left (Some Plus1) 0x1.2492492492492p-3) ∧
  ∃ st, current_step demoProgram hc.2 = Some st ∧
        existsb is_TwoPatchMeas (Step.actions st) = true.
Proof.
  split; [by vm_compute|].
  apply (overlay_only_on_measurement_step demoProgram);
    [apply state_after_reachable|vm_compute; by eexists].
Defined.

(** X5: in every state the component reaches, a patch of the map carries
    animation fields only if the step under the cursor has a [DeformTo] or
    a [MoveTo] of that patch. *)
Theorem animation_only_on_animated_patches (prog : Program.t)
    (hc : Heap.t * Component.t) (k : PatchId) :
  reachable prog hc →
  animated_in (hc.1, Component.runtime hc.2) k = true →
  ∃ st, current_step prog hc.2 = Some st ∧
        existsb (animates k) (Step.actions st) = true.
Proof. intros R. destruct (reachable_inv _ _ R) as [(_ & _ & _ & A) _]. apply A. Qed.

Lemma animation_only_on_animated_patches_witness :
  let hc := state_after demoProgram [PressStep; PressPlay; Frame 0; Frame 100] in
  ∃ st, current_step demoProgram hc.2 = Some st ∧
        existsb (animates "q1") (Step.actions st) = true.
Proof.
  apply (animation_only_on_animated_patches demoProgram);
    [apply state_after_reachable|by vm_compute].
Defined.

(** X6: in every state the component reaches, the keys of the patch map
    are distinct, every key holds an object whose [id] is the key, and no
    object sits under two keys. *)
Theorem patches_stored_under_own_id (prog : Program.t) (hc : Heap.t * Component.t) :
  reachable prog hc →
  let m := RuntimeState.patches (Component.runtime hc.2) in
  NoDup m.*1 ∧
  (∀ k l, map_get m k = Some l →
     ∃ p, Heap.objs hc.1 !! l = Some p ∧ RuntimePatch.id p = k) ∧
  (∀ k k' l, map_get m k = Some l → map_get m k' = Some l → k = k').
Proof.
  intros R. destruct (reachable_inv _ _ R) as [(_ & (N1 & N2 & I) & _) _].
  cbn [fst snd] in *. split; [done|]. split.
  - intros k l G%map_get_elem. apply (proj1 (Forall_forall _ _) I) in G.
    cbn [fst snd] in G. destruct (Heap.objs hc.1 !! l) as [p|]; [|done].
    injection G as <-. by exists p.
  - intros k k' l. by apply map_get_inj.
Qed.

Lemma patches_stored_under_own_id_witness :
  let hc := state_after demoProgram [PressStep; PressPlay; Frame 0; Frame 100] in
  let m := RuntimeState.patches (Component.runtime hc.2) in
  m = [("q0", 8); ("q1", 9)] ∧
  NoDup m.*1 ∧
  (∀ k l, map_get m k = Some l →
     ∃ p, Heap.objs hc.1 !! l = Some p ∧ RuntimePatch.id p = k) ∧
  (∀ k k' l, map_get m k = Some l → map_get m k' = Some l → k = k').
Proof.
  split; [by vm_compute|].
  apply (patches_stored_under_own_id demoProgram), state_after_reachable.
Defined.
(** X7: the Step button, pressed in any state the component reaches,
    leaves the state at rest: no overlay, no patch of the map with an
    animation field, time 0 inside the step; the index moves up by one but
    not beyond the last step, and [playing] is kept. *)
Theorem step_once_leaves_state_at_rest (prog : Program.t)
    (hc hc' : Heap.t * Component.t) :
  reachable prog hc → stepOnce prog hc.1 hc.2 = Some hc' →
  RuntimeState.measurementOverlay (Component.runtime hc'.2) = None ∧
  (∀ k, animated_in (hc'.1, Component.runtime hc'.2) k = false) ∧
  Component.tInStep hc'.2 = 0%float ∧
  Component.stepIdx hc'.2 =
    Z.min (Component.stepIdx hc.2 + 1) (steps_length prog - 1) ∧
  Component.playing hc'.2 = Component.playing hc.2.
Proof.
  intros R E. pose proof (reachable_inv _ _ R) as Inv.
  destruct (stepOnce_inv _ _ _ Inv E) as (_ & Ov & An & T).
  split; [done|]. split; [done|]. split; [done|].
  destruct Inv as [_ [Cu _]]. unfold stepOnce in E.
  destruct (steps_at _ _) as [st|] eqn:Est; [|done].
  apply steps_at_Some in Est. fold (steps_length prog) in Est.
  injection E as <-. cbn [snd Component.stepIdx Component.playing].
  split; [|done]. f_equal. lia.
Qed.

Lemma step_once_leaves_state_at_rest_witness :
  let hc := state_after demoProgram [PressStep; PressStep; PressPlay; Frame 100] in
  let hc' := state_after demoProgram
               [PressStep; PressStep; PressPlay; Frame 100; PressStep] in
  is_Some (RuntimeState.measurementOverlay (Component.runtime hc.2)) ∧
  RuntimeState.measurementOverlay (Component.runtime hc'.2) = None ∧
  (∀ k, animated_in (hc'.1, Component.runtime hc'.2) k = false) ∧
  Component.tInStep hc'.2 = 0%float ∧
  Component.stepIdx hc'.2 =
    Z.min (Component.stepIdx hc.2 + 1) (steps_length demoProgram - 1) ∧
  Component.playing hc'.2 = Component.playing hc.2.
Proof.
  split; [vm_compute; by eexists|].
  apply (step_once_leaves_state_at_rest demoProgram);
    [apply state_after_reachable|by vm_compute].
Defined.

Lemma onTick_commit_rest (prog : Program.t) (dt : float) (hc hc' : Heap.t * Component.t) :
  inv prog hc → Component.playing hc.2 = true → Program.steps prog ≠ [] →
  (Program.tickMs prog <=? Component.tInStep hc.2 + dt)%float = true →
  onTick prog dt hc.1 hc.2 = Some hc' →
  RuntimeState.measurementOverlay (Component.runtime hc'.2) = None ∧
  (∀ k, animated_in (hc'.1, Component.runtime hc'.2) k = false) ∧
  Component.tInStep hc'.2 = 0%float ∧
  Component.stepIdx hc'.2 =
    Z.min (steps_length prog - 1) (Component.stepIdx hc.2 + 1) ∧
  Component.playing hc'.2 = true.
Proof.
  destruct hc as [hp c]. intros [S [Cu Ct]] Pl Ne Ecommit. cbn [fst snd] in *.
  unfold onTick.
  pose proof (clone_step_ok _ _ _ S) as S1.
  pose proof (clone_again_step_ok _ _ _ S) as S2.
  destruct (cloneRuntimeState hp (Component.runtime c)) as [hp1 rt1] eqn:E1.
  cbn [fst] in S2.
  assert (Len : (0 < steps_length prog)%Z).
  { unfold steps_length. destruct (Program.steps prog); [done|simpl; lia]. }
  rewrite Pl, (proj2 (Z.ltb_lt _ _) Len). cbn [andb].
  destruct (steps_at_in_range (Program.steps prog) (Component.stepIdx c)) as [st Est].
  { unfold steps_length in *. lia. }
  unfold current_step in *. rewrite Est in *. cbn [mbind option_bind].
  set (w1 := if (Component.tInStep c =? 0)%float
             then prepareTick (Step.actions st)
                    (cloneRuntimeState hp1 (Component.runtime c))
             else (hp1, rt1)).
  assert (Sw : step_ok (Some st) w1).
  { unfold w1. destruct (Component.tInStep c =? 0)%float; [|done].
    by apply prepareTick_step_ok. }
  replace (if (Component.tInStep c =? 0)%float
           then Some (prepareTick (Step.actions st)
                        (cloneRuntimeState hp1 (Component.runtime c)))
           else Some (hp1, rt1)) with (Some w1)
    by (unfold w1; by destruct (Component.tInStep c =? 0)%float).
  cbn [mbind option_bind]. rewrite Ecommit. intros [= <-].
  cbn [fst snd Component.runtime Component.tInStep Component.stepIdx Component.playing].
  rewrite <- surjective_pairing.
  edestruct (commit_step_ok st None) as (_ & Ov & An);
    [apply advance_step_ok, Sw|]. eauto.
Qed.

(** X8: a frame of a playing component whose time reaches [tickMs]
    leaves the state at rest as well: no overlay, no animation field, time
    0, and the index one up but not beyond the last step. *)
Theorem frame_at_tick_end_leaves_state_at_rest (prog : Program.t) (dt : float)
    (hc hc' : Heap.t * Component.t) :
  reachable prog hc → Component.playing hc.2 = true → Program.steps prog ≠ [] →
  (Program.tickMs prog <=? Component.tInStep hc.2 + dt)%float = true →
  onTick prog dt hc.1 hc.2 = Some hc' →
  RuntimeState.measurementOverlay (Component.runtime hc'.2) = None ∧
  (∀ k, animated_in (hc'.1, Component.runtime hc'.2) k = false) ∧
  Component.tInStep hc'.2 = 0%float ∧
  Component.stepIdx hc'.2 =
    Z.min (steps_length prog - 1) (Component.stepIdx hc.2 + 1) ∧
  Component.playing hc'.2 = true.
Proof. intros R. apply onTick_commit_rest. by apply reachable_inv. Qed.

Lemma frame_at_tick_end_leaves_state_at_rest_witness :
  let hc := state_after demoProgram [PressStep; PressPlay; Frame 0; Frame 300] in
  let hc' := state_after demoProgram
               [PressStep; PressPlay; Frame 0; Frame 300; Frame 500] in
  animated_in (hc.1, Component.runtime hc.2) "q0" = true ∧
  RuntimeState.measurementOverlay (Component.runtime hc'.2) = None ∧
  (∀ k, animated_in (hc'.1, Component.runtime hc'.2) k = false) ∧
  Component.tInStep hc'.2 = 0%float ∧
  Component.stepIdx hc'.2 =
    Z.min (steps_length demoProgram - 1) (Component.stepIdx hc.2 + 1) ∧
  Component.playing hc'.2 = true.
Proof.
  split; [by vm_compute|].
  apply (frame_at_tick_end_leaves_state_at_rest demoProgram 500);
    [apply state_after_reachable|by vm_compute|done|by vm_compute|by vm_compute].
Defined.
(* ------------------------------------------------------------------- *)
(** ** Frames of a paused component *)

Lemma deepCopy_num_idem (v : jsnum) :
  deepCopy_num (deepCopy_num v) = deepCopy_num v.
Proof.
  destruct v as [f|]; [|done]. simpl.
  destruct (classify f) eqn:E; try done; simpl; by rewrite ?E.
Qed.

Lemma deepCopy_Rect_idem (r : Rect.t) :
  deepCopy_Rect (deepCopy_Rect r) = deepCopy_Rect r.
Proof. unfold deepCopy_Rect. simpl. by rewrite !deepCopy_num_idem. Qed.

Lemma deepCopy_RuntimePatch_idem (p : RuntimePatch.t) :
  deepCopy_RuntimePatch (deepCopy_RuntimePatch p) = deepCopy_RuntimePatch p.
Proof.
  unfold deepCopy_RuntimePatch. simpl. rewrite deepCopy_Rect_idem.
  by destruct (RuntimePatch._animFrom p), (RuntimePatch._animTo p);
    simpl; rewrite ?deepCopy_Rect_idem.
Qed.

Lemma clone_view_overlay (hp : Heap.t) (s : RuntimeState.t) :
  closed (hp, s) →
  View.measurementOverlay (view (cloneRuntimeState hp s)) =
  View.measurementOverlay (view (hp, s)).
Proof.
  intros (_ & _ & O). cbn [fst snd] in O.
  destruct (clone_map_new_overlay_shared hp s) as (_ & Old & Eo).
  rewrite (surjective_pairing (cloneRuntimeState hp s)).
  cbn [view View.measurementOverlay]. rewrite Eo.
  destruct (RuntimeState.measurementOverlay s) as [o|]; [|done].
  simpl in O. destruct O as [Oa Ob]. simpl. by rewrite !Old.
Qed.

Lemma paused_frame_spec (prog : Program.t) (dt : float) (hc : Heap.t * Component.t) :
  inv prog hc → Component.playing hc.2 = false →
  ∃ hc', onTick prog dt hc.1 hc.2 = Some hc' ∧
    Component.stepIdx hc'.2 = Component.stepIdx hc.2 ∧
    Component.tInStep hc'.2 = Component.tInStep hc.2 ∧
    Component.playing hc'.2 = false ∧
    View.patches (view (hc'.1, Component.runtime hc'.2)) =
      (λ e : PatchId * option RuntimePatch.t, (e.1, deepCopy_RuntimePatch <$> e.2))
        <$> View.patches (view (hc.1, Component.runtime hc.2)) ∧
    View.measurementOverlay (view (hc'.1, Component.runtime hc'.2)) =
      View.measurementOverlay (view (hc.1, Component.runtime hc.2)).
Proof.
  destruct hc as [hp c]. intros [(C & W & _) _] Pl. cbn [fst snd] in *.
  unfold onTick. rewrite Pl. cbn [andb].
  pose proof (clone_view_patches _ _ C W) as Vp.
  pose proof (clone_view_overlay _ _ C) as Vo.
  destruct (cloneRuntimeState hp (Component.runtime c)) as [hp1 rt1].
  eexists. split; [done|]. by cbn [fst snd Component.runtime Component.stepIdx
                                     Component.tInStep Component.playing].
Qed.

(** X9: a frame of a paused component keeps the cursor, shows every
    patch as its JSON copy and the overlay as it was; a second paused
    frame changes nothing that is observed. *)
Theorem paused_frame_copies_patches (prog : Program.t) (dt dt' : float)
    (hc : Heap.t * Component.t) :
  reachable prog hc → Component.playing hc.2 = false →
  ∃ hc1 hc2,
    onTick prog dt hc.1 hc.2 = Some hc1 ∧
    onTick prog dt' hc1.1 hc1.2 = Some hc2 ∧
    Component.stepIdx hc1.2 = Component.stepIdx hc.2 ∧
    Component.tInStep hc1.2 = Component.tInStep hc.2 ∧
    Component.playing hc1.2 = false ∧
    View.patches (view (hc1.1, Component.runtime hc1.2)) =
      (λ e : PatchId * option RuntimePatch.t, (e.1, deepCopy_RuntimePatch <$> e.2))
        <$> View.patches (view (hc.1, Component.runtime hc.2)) ∧
    View.measurementOverlay (view (hc1.1, Component.runtime hc1.2)) =
      View.measurementOverlay (view (hc.1, Component.runtime hc.2)) ∧
    observe hc2 = observe hc1.
Proof.
  intros R Pl.
  destruct (paused_frame_spec prog dt hc (reachable_inv _ _ R) Pl)
    as (hc1 & E1 & I1 & T1 & P1 & Vp1 & Vo1).
  assert (R1 : reachable prog hc1) by (by eapply (reachable_next _ hc (Frame dt))).
  destruct (paused_frame_spec prog dt' hc1 (reachable_inv _ _ R1) P1)
    as (hc2 & E2 & I2 & T2 & P2 & Vp2 & Vo2).
  exists hc1, hc2. repeat (split; [done|]).
  unfold observe. rewrite I2, T2, P2, P1. do 3 f_equal.
  destruct (view (hc2.1, Component.runtime hc2.2)) as [vp2 vo2],
           (view (hc1.1, Component.runtime hc1.2)) as [vp1 vo1].
  cbn [View.patches View.measurementOverlay] in *. subst vo2 vp2. f_equal.
  rewrite Vp1, <- !list_fmap_compose. apply list_fmap_ext. intros _ [k o] _. simpl.
  f_equal. destruct o as [p|]; simpl; [|done]. by rewrite deepCopy_RuntimePatch_idem.
Qed.

Lemma paused_frame_copies_patches_witness :
  let hc := state_after demoProgram [PressStep; PressPlay; Frame 0; Frame 100; PressPlay] in
  ∃ hc1 hc2,
    onTick demoProgram 16 hc.1 hc.2 = Some hc1 ∧
    onTick demoProgram 17 hc1.1 hc1.2 = Some hc2 ∧
    Component.stepIdx hc1.2 = Component.stepIdx hc.2 ∧
    Component.tInStep hc1.2 = Component.tInStep hc.2 ∧
    Component.playing hc1.2 = false ∧
    View.patches (view (hc1.1, Component.runtime hc1.2)) =
      (λ e : PatchId * option RuntimePatch.t, (e.1, deepCopy_RuntimePatch <$> e.2))
        <$> View.patches (view (hc.1, Component.runtime hc.2)) ∧
    View.measurementOverlay (view (hc1.1, Component.runtime hc1.2)) =
      View.measurementOverlay (view (hc.1, Component.runtime hc.2)) ∧
    observe hc2 = observe hc1.
Proof.
  apply (paused_frame_copies_patches demoProgram 16 17);
    [apply state_after_reachable|by vm_compute].
Defined.
(* ------------------------------------------------------------------- *)
(** ** The handlers leave the state they start from alone *)

Lemma update_fresh (n l : loc) f (hp : Heap.t) (s : RuntimeState.t) (id : PatchId) :
  fresh_from n (hp, s) → map_get (RuntimeState.patches s) id = Some l →
  fresh_from n (Heap.update l f hp, s) ∧
  ∀ l', l' < n → Heap.objs (Heap.update l f hp) !! l' = Heap.objs hp !! l'.
Proof.
  intros [Le F] G. cbn [fst snd] in *.
  split; [split; cbn [fst snd]; [by rewrite update_next|done]|].
  intros l' Hl'. apply update_lookup_ne.
  apply map_get_elem in G. apply (proj1 (Forall_forall _ _) F) in G. simpl in G. lia.
Qed.

Lemma commitAction_fresh (n : loc) (act : Action) (w : World) :
  fresh_from n w →
  fresh_from n (commitAction act w) ∧
  ∀ l, l < n → Heap.objs (commitAction act w).1 !! l = Heap.objs w.1 !! l.
Proof.
  destruct w as [hp s]. intros Fr.
  destruct act as [patch|id R|id tx ty|i1 e1 i2 e2 o|id b o|id|id];
    cbn [commitAction]; try done.
  - destruct Fr as [Le F]. cbn [fst snd] in *. split.
    + split; simpl; [lia|]. by apply map_set_Forall.
    + intros l Hl. simpl. apply lookup_insert_ne. lia.
  - destruct (map_get (RuntimeState.patches s) id) eqn:G; [|done].
    by eapply update_fresh.
  - destruct (map_get (RuntimeState.patches s) id) eqn:G; [|done].
    by eapply update_fresh.
  - destruct (map_get (RuntimeState.patches s) id) eqn:G; [|done].
    by eapply update_fresh.
  - destruct Fr as [Le F]. split; [|done]. split; [done|]. cbn [fst snd] in *.
    simpl. apply Forall_forall. intros e [_ I]%list_elem_of_filter.
    by apply (proj1 (Forall_forall _ _) F).
Qed.

Lemma commitActions_fresh (n : loc) (acts : list Action) (w : World) :
  fresh_from n w →
  fresh_from n (commitActions acts w) ∧
  ∀ l, l < n → Heap.objs (commitActions acts w).1 !! l = Heap.objs w.1 !! l.
Proof.
  revert w. induction acts as [|act acts IH]; intros w Fr; [done|].
  unfold commitActions. cbn [fold_left]. fold (commitActions acts).
  destruct (commitAction_fresh n act w Fr) as [Fr' E'].
  destruct (IH _ Fr') as [Fr'' E'']. split; [done|].
  intros l Hl. by rewrite E'', E'.
Qed.

Lemma prepareAction_fresh (n : loc) (act : Action) (w : World) :
  fresh_from n w →
  fresh_from n (prepareAction act w) ∧
  ∀ l, l < n → Heap.objs (prepareAction act w).1 !! l = Heap.objs w.1 !! l.
Proof.
  destruct w as [hp s]. intros Fr.
  destruct act as [patch|id R|id tx ty|i1 e1 i2 e2 o|id b o|id|id];
    cbn [prepareAction]; try done.
  - destruct (map_get (RuntimeState.patches s) id) eqn:G; [|done].
    by eapply update_fresh.
  - destruct (map_get (RuntimeState.patches s) id) eqn:G; [|done].
    by eapply update_fresh.
  - by destruct (map_get (RuntimeState.patches s) i1),
               (map_get (RuntimeState.patches s) i2).
Qed.

Lemma prepareTick_fresh (n : loc) (acts : list Action) (w : World) :
  fresh_from n w →
  fresh_from n (prepareTick acts w) ∧
  ∀ l, l < n → Heap.objs (prepareTick acts w).1 !! l = Heap.objs w.1 !! l.
Proof.
  intros Fr. unfold prepareTick.
  assert (Fr0 : fresh_from n (w.1, RuntimeState.set_overlay None w.2)) by done.
  change (Heap.objs w.1) with (Heap.objs (w.1, RuntimeState.set_overlay None w.2).1).
  revert Fr0. generalize (w.1, RuntimeState.set_overlay None w.2). clear.
  induction acts as [|act acts IH]; intros u Fr; [done|]. cbn [fold_left].
  destruct (prepareAction_fresh n act u Fr) as [Fr' E'].
  destruct (IH _ Fr') as [Fr'' E'']. split; [done|].
  intros l Hl. by rewrite E'', E'.
Qed.

Lemma advance_fresh (n : loc) (t : float) (w : World) :
  fresh_from n w →
  fresh_from n (advanceInterpolations t w) ∧
  ∀ l, l < n → Heap.objs (advanceInterpolations t w).1 !! l = Heap.objs w.1 !! l.
Proof.
  intros [Le F]. split.
  - split; [by rewrite advance_next|by rewrite advance_patches].
  - intros l Hl. destruct w as [hp s]. rewrite advance_lookup.
    case_decide as I; [|done]. cbn [fst snd] in *.
    apply list_elem_of_fmap in I as (e & -> & He).
    apply (proj1 (Forall_forall _ _) F) in He. lia.
Qed.

Lemma clone_fresh (hp : Heap.t) (s : RuntimeState.t) :
  fresh_from (Heap.next hp) (cloneRuntimeState hp s) ∧
  ∀ l, l < Heap.next hp →
    Heap.objs (cloneRuntimeState hp s).1 !! l = Heap.objs hp !! l.
Proof.
  destruct (clone_map_new_overlay_shared hp s) as (F & Old & _).
  destruct (clone_fold_facts (RuntimeState.patches s) (hp, [])) as (Le & _).
  by repeat split.
Qed.

Lemma clone_again_fresh (hp : Heap.t) (s : RuntimeState.t) :
  let hp1 := (cloneRuntimeState hp s).1 in
  fresh_from (Heap.next hp) (cloneRuntimeState hp1 s) ∧
  ∀ l, l < Heap.next hp →
    Heap.objs (cloneRuntimeState hp1 s).1 !! l = Heap.objs hp !! l.
Proof.
  intros hp1. destruct (clone_fresh hp s) as [[Le _] Old].
  destruct (clone_fresh hp1 s) as [[Le1 F1] Old1]. fold hp1 in Le, Old.
  split; [split|].
  - lia.
  - eapply Forall_impl; [exact F1|]. simpl. lia.
  - intros l Hl. rewrite Old1 by lia. by apply Old.
Qed.

(** X10: no handler writes to an object of the state it starts from:
    the store only grows, and every object that existed before the call
    is unchanged after it. *)
Theorem handlers_keep_old_objects (prog : Program.t) (ev : Event)
    (hc hc' : Heap.t * Component.t) :
  handle prog ev hc = Some hc' →
  Heap.next hc.1 ≤ Heap.next hc'.1 ∧
  ∀ l, l < Heap.next hc.1 → Heap.objs hc'.1 !! l = Heap.objs hc.1 !! l.
Proof.
  destruct hc as [hp c]. destruct ev as [dt| | |]; cbn [handle fst snd].
  - unfold onTick.
    pose proof (clone_fresh hp (Component.runtime c)) as F1.
    pose proof (clone_again_fresh hp (Component.runtime c)) as F2.
    destruct (cloneRuntimeState hp (Component.runtime c)) as [hp1 rt1].
    cbn [fst] in F2.
    destruct (Component.playing c && _).
    2:{ intros [= <-]. destruct F1 as [[Le _] Old]. by split. }
    set (w1 := if (Component.tInStep c =? 0)%float
               then st ← steps_at (Program.steps prog) (Component.stepIdx c);
                    Some (prepareTick (Step.actions st)
                            (cloneRuntimeState hp1 (Component.runtime c)))
               else Some (hp1, rt1)).
    assert (Fw : ∀ w, w1 = Some w →
              fresh_from (Heap.next hp) w ∧
              ∀ l, l < Heap.next hp → Heap.objs w.1 !! l = Heap.objs hp !! l).
    { unfold w1. intros w. destruct (Component.tInStep c =? 0)%float.
      - destruct (steps_at _ _) as [st|]; [|done]. intros [= <-].
        destruct F2 as [Fr Old].
        destruct (prepareTick_fresh _ (Step.actions st) _ Fr) as [Fr' E'].
        split; [done|]. intros l Hl. by rewrite E', Old.
      - by intros [= <-]. }
    destruct w1 as [w|]; [|done]. destruct (Fw w eq_refl) as [Fr Old].
    cbn [mbind option_bind].
    destruct (advance_fresh _ (clamp01 ((Component.tInStep c + dt) / Program.tickMs prog))
                _ Fr) as [Fr2 E2].
    destruct (Program.tickMs prog <=? Component.tInStep c + dt)%float.
    + destruct (steps_at _ _) as [st|]; [|done]. intros [= <-]. cbn [fst snd].
      destruct (commitActions_fresh _ (Step.actions st) _ Fr2) as [[Le _] E3].
      split; [done|]. intros l Hl. by rewrite E3, E2, Old.
    + intros [= <-]. cbn [fst snd]. destruct Fr2 as [Le _].
      split; [done|]. intros l Hl. by rewrite E2, Old.
  - unfold stepOnce. destruct (steps_at _ _) as [st|]; [|done].
    cbn [mbind option_bind]. intros [= <-]. cbn [fst snd].
    destruct (clone_fresh hp (Component.runtime c)) as [Fr Old].
    destruct (prepareTick_fresh _ (Step.actions st) _ Fr) as [Fr1 E1].
    destruct (advance_fresh _ 1%float _ Fr1) as [Fr2 E2].
    destruct (commitActions_fresh _ (Step.actions st) _ Fr2) as [[Le _] E3].
    split; [done|]. intros l Hl. by rewrite E3, E2, E1, Old.
  - by intros [= <-].
  - by intros [= <-].
Qed.

Lemma handlers_keep_old_objects_witness :
  let hc := state_after demoProgram [PressStep; PressPlay; Frame 0; Frame 300] in
  let hc' := state_after demoProgram [PressStep; PressPlay; Frame 0; Frame 300; Frame 500] in
  (Heap.next hc.1 = 10 ∧ Heap.next hc'.1 = 12) ∧
  Heap.next hc.1 ≤ Heap.next hc'.1 ∧
  ∀ l, l < Heap.next hc.1 → Heap.objs hc'.1 !! l = Heap.objs hc.1 !! l.
Proof.
  split; [by vm_compute|].
  by apply (handlers_keep_old_objects demoProgram (Frame 500)); vm_compute.
Defined.
(* ------------------------------------------------------------------- *)
(** ** Single actions and the three passes *)

(** X11: committing [InitPatch] binds the patch's id to a new object,
    the JSON copy of the patch without animation fields; the other keys
    and all existing objects are untouched (the object that the id held
    before included), a new id goes last in the map and an old one keeps
    its place, and the overlay is kept. *)
Theorem init_patch_commit (hp : Heap.t) (s : RuntimeState.t) (patch : Patch.t) :
  closed (hp, s) →
  let k := Patch.id patch in
  let m := RuntimeState.patches s in
  let w' := commitAction (InitPatch patch) (hp, s) in
  let m' := RuntimeState.patches w'.2 in
  ∃ l, map_get m' k = Some l ∧
       Heap.objs hp !! l = None ∧
       Heap.objs w'.1 !! l =
         Some (RuntimePatch.mk k (deepCopy_Rect (Patch.rect patch))
                 (Patch.edges patch) (Patch.label patch) None None) ∧
       (∀ k', k' ≠ k → map_get m' k' = map_get m k') ∧
       (∀ l', l' ≠ l → Heap.objs w'.1 !! l' = Heap.objs hp !! l') ∧
       m'.*1 = (if absent m k then m.*1 ++ [k] else m.*1) ∧
       RuntimeState.measurementOverlay w'.2 = RuntimeState.measurementOverlay s.
Proof.
  intros (Hc & _) k m w' m'. cbn [fst snd] in Hc.
  exists (Heap.next hp). unfold m', w', m, k. simpl. repeat split.
  - rewrite map_get_set. by rewrite decide_True.
  - by apply heap_closed_lookup.
  - by rewrite lookup_insert_eq.
  - intros k' N. rewrite map_get_set. by rewrite decide_False.
  - intros l' N. by rewrite lookup_insert_ne.
  - apply map_set_keys.
Qed.

Lemma init_patch_commit_witness :
  let patch := Patch.mk "q0" (Rect.mk (JNum (-0)) (JNum infinity) (JNum 2) (JNum 2))
                 (Edges.mk KX KX KZ KZ) None in
  let w' := commitAction (InitPatch patch) w_init in
  let m' := RuntimeState.patches w'.2 in
  m' = [("q0", 2); ("q1", 1)] ∧
  ∃ l, map_get m' "q0" = Some l ∧
       Heap.objs w_init.1 !! l = None ∧
       Heap.objs w'.1 !! l =
         Some (RuntimePatch.mk "q0" (Rect.mk (JNum 0) JNull (JNum 2) (JNum 2))
                 (Edges.mk KX KX KZ KZ) None None None) ∧
       (∀ k', k' ≠ "q0" → map_get m' k' = map_get (RuntimeState.patches w_init.2) k') ∧
       (∀ l', l' ≠ l → Heap.objs w'.1 !! l' = Heap.objs w_init.1 !! l') ∧
       m'.*1 = ["q0"; "q1"] ∧
       RuntimeState.measurementOverlay w'.2 = None.
Proof.
  split; [by vm_compute|].
  apply (init_patch_commit w_init.1 w_init.2
           (Patch.mk "q0" (Rect.mk (JNum (-0)) (JNum infinity) (JNum 2) (JNum 2))
              (Edges.mk KX KX KZ KZ) None)).
  exact w_init_closed.
Defined.

(** X12: committing [Discard] removes the key and nothing else: the
    other keys keep their objects and their order, no object is changed
    and the overlay is kept, so an overlay can still refer to the
    discarded patch; discarding a patch right after initialising it under
    a new id gives back the map. *)
Theorem discard_commit (w : World) (k : PatchId) :
  let m := RuntimeState.patches w.2 in
  let w' := commitAction (Discard k) w in
  let m' := RuntimeState.patches w'.2 in
  w'.1 = w.1 ∧
  RuntimeState.measurementOverlay w'.2 = RuntimeState.measurementOverlay w.2 ∧
  (∀ k', map_get m' k' = if decide (k = k') then None else map_get m k') ∧
  m'.*1 = filter (λ k', k' ≠ k) m.*1 ∧
  (∀ patch, Patch.id patch = k → absent m k = true →
     RuntimeState.patches
       (commitActions [InitPatch patch; Discard k] w).2 = m).
Proof.
  destruct w as [hp s]. simpl. repeat split.
  - intros k'. apply map_get_delete_ne.
  - unfold map_delete. induction (RuntimeState.patches s) as [|[k1 l1] m IH]; [done|].
    rewrite fmap_cons, !filter_cons. cbn [fst]. case_decide; [|done].
    by rewrite fmap_cons, IH.
  - intros patch <- A%absent_get. apply map_get_None in A.
    rewrite (map_set_absent _ _ _ A). unfold map_delete. rewrite filter_app.
    rewrite filter_cons, decide_False by (simpl; by intros ?). simpl.
    rewrite app_nil_r. clear -A.
    induction (RuntimeState.patches s) as [|[k1 l1] m IH]; [done|].
    rewrite fmap_cons in A. apply not_elem_of_cons in A as [N A].
    rewrite filter_cons, decide_True by (simpl; intros ?; by apply N).
    by rewrite IH.
Qed.

Lemma discard_commit_witness :
  let w' := commitAction (Discard "q0") w_meas in
  RuntimeState.patches w'.2 = [("q1", 1)] ∧
  RuntimeState.measurementOverlay w'.2 =
    Some (Overlay.mk 0 Right 1 Left (Some Plus1) 0) ∧
  RuntimePatch.id <$> Heap.objs w'.1 !! 0 = Some "q0" ∧
  RuntimeState.patches
    (commitActions [InitPatch patch_r; Discard "r"] w_meas).2 =
    RuntimeState.patches w_meas.2.
Proof.
  pose proof (discard_commit w_meas "q0") as (E1 & E2 & _).
  pose proof (discard_commit w_meas "r") as (_ & _ & _ & _ & E3).
  split; [by vm_compute|]. split; [by rewrite E2|]. split; [by rewrite E1|].
  by apply E3.
Defined.

(** X13: a commit never creates an overlay or an animation field: the
    overlay is gone if the batch has a [TwoPatchMeas] and is kept
    otherwise, and a patch that carries animation fields afterwards
    carried them before and is not the target of a [DeformTo] or [MoveTo]
    of the batch. *)
Theorem commit_clears_transient_fields (acts : list Action) (w : World) :
  let w' := commitActions acts w in
  RuntimeState.measurementOverlay w'.2 =
    (if existsb is_TwoPatchMeas acts then None
     else RuntimeState.measurementOverlay w.2) ∧
  ∀ k, animated_in w' k = true →
       animated_in w k = true ∧ existsb (animates k) acts = false.
Proof.
  split; [apply commitActions_overlay|]. intros k. apply commitActions_animated.
Qed.

(** X14: [prepareTick] allocates nothing and changes no key, id,
    rectangle, edge or label: it writes animation fields and the overlay
    only, and an object that no [DeformTo] or [MoveTo] of the batch finds
    is left as it is. *)
Theorem prepare_touches_only_animation (acts : list Action) (w : World) :
  let w' := prepareTick acts w in
  RuntimeState.patches w'.2 = RuntimeState.patches w.2 ∧
  Heap.next w'.1 = Heap.next w.1 ∧
  (∀ l, strip <$> Heap.objs w'.1 !! l = strip <$> Heap.objs w.1 !! l) ∧
  (∀ l, Forall (λ act, writes (RuntimeState.patches w.2) act l = false) acts →
        Heap.objs w'.1 !! l = Heap.objs w.1 !! l).
Proof.
  intros w'. unfold w', prepareTick.
  destruct (prepare_fold_keeps_frame acts (w.1, RuntimeState.set_overlay None w.2))
    as (E1 & E2 & E3).
  split; [done|]. split; [done|]. split; [done|].
  intros l F. by rewrite prepare_fold_unwritten.
Qed.
Lemma commit_clears_transient_fields_witness :
  let w' := commitActions deform_and_measure w_half in
  RuntimeState.measurementOverlay w'.2 = None ∧
  ∀ k, animated_in w' k = true →
       animated_in w_half k = true ∧ existsb (animates k) deform_and_measure = false.
Proof. apply (commit_clears_transient_fields deform_and_measure w_half). Defined.

Lemma prepare_touches_only_animation_witness :
  let w' := prepareTick deform_and_measure w_init in
  RuntimeState.patches w'.2 = RuntimeState.patches w_init.2 ∧
  Heap.next w'.1 = Heap.next w_init.1 ∧
  (∀ l, strip <$> Heap.objs w'.1 !! l = strip <$> Heap.objs w_init.1 !! l) ∧
  (∀ l, Forall (λ act, writes (RuntimeState.patches w_init.2) act l = false)
               deform_and_measure →
        Heap.objs w'.1 !! l = Heap.objs w_init.1 !! l).
Proof. apply (prepare_touches_only_animation deform_and_measure w_init). Defined.

(** X15: [advanceInterpolations] keeps the map and the store's size and
    sets the overlay progress; of a patch it changes the rectangle only,
    and only for a patch of the map that has both animation fields, to
    the interpolation between them. *)
Theorem advance_touches_only_rect (t : float) (w : World) :
  let w' := advanceInterpolations t w in
  RuntimeState.patches w'.2 = RuntimeState.patches w.2 ∧
  Heap.next w'.1 = Heap.next w.1 ∧
  RuntimeState.measurementOverlay w'.2 =
    Overlay.set_progress t <$> RuntimeState.measurementOverlay w.2 ∧
  ∀ l, match Heap.objs w.1 !! l, Heap.objs w'.1 !! l with
       | Some p, Some p' =>
           RuntimePatch.set_rect (RuntimePatch.rect p) p' = p ∧
           (RuntimePatch.rect p' ≠ RuntimePatch.rect p →
            l ∈ (RuntimeState.patches w.2).*2 ∧
            ∃ A B, RuntimePatch._animFrom p = Some A ∧
                   RuntimePatch._animTo p = Some B ∧
                   RuntimePatch.rect p' = lerpRect A B t)
       | None, None => True
       | _, _ => False
       end.
Proof.
  intros w'. unfold w'. split; [apply advance_patches|].
  split; [apply advance_next|]. destruct w as [hp s]. split; [done|].
  intros l. rewrite advance_lookup. cbn [fst snd].
  destruct (Heap.objs hp !! l) as [p|]; [|by case_decide].
  case_decide as I; cbn [fmap option_fmap option_map].
  - unfold advancePatch.
    destruct p as [i r e lb [A|] [B|]]; (split; [done|]); try done.
    intros _. split; [done|]. by exists A, B.
  - split; [by destruct p|done].
Qed.

Lemma advance_touches_only_rect_witness :
  let w' := advanceInterpolations 0.5 w_approach in
  RuntimeState.patches w'.2 = RuntimeState.patches w_approach.2 ∧
  Heap.next w'.1 = Heap.next w_approach.1 ∧
  RuntimeState.measurementOverlay w'.2 =
    Overlay.set_progress 0.5 <$> RuntimeState.measurementOverlay w_approach.2 ∧
  ∀ l, match Heap.objs w_approach.1 !! l, Heap.objs w'.1 !! l with
       | Some p, Some p' =>
           RuntimePatch.set_rect (RuntimePatch.rect p) p' = p ∧
           (RuntimePatch.rect p' ≠ RuntimePatch.rect p →
            l ∈ (RuntimeState.patches w_approach.2).*2 ∧
            ∃ A B, RuntimePatch._animFrom p = Some A ∧
                   RuntimePatch._animTo p = Some B ∧
                   RuntimePatch.rect p' = lerpRect A B 0.5)
       | None, None => True
       | _, _ => False
       end.
Proof. apply (advance_touches_only_rect 0.5 w_approach). Defined.

(** X16: the clone of a closed, well-formed state shows the same keys in
    the same order, each with the JSON copy of its patch, and the same
    overlay; every patch of its map is a new object, and the objects that
    existed are unchanged. *)
Theorem clone_copies_each_patch (hp : Heap.t) (s : RuntimeState.t) :
  closed (hp, s) → well_formed (hp, s) →
  let w := cloneRuntimeState hp s in
  View.patches (view w) =
    (λ e : PatchId * option RuntimePatch.t, (e.1, deepCopy_RuntimePatch <$> e.2))
      <$> View.patches (view (hp, s)) ∧
  View.measurementOverlay (view w) = View.measurementOverlay (view (hp, s)) ∧
  Forall (λ e : PatchId * loc, Heap.objs hp !! e.2 = None)
         (RuntimeState.patches w.2) ∧
  (∀ l, l < Heap.next hp → Heap.objs w.1 !! l = Heap.objs hp !! l) ∧
  closed w ∧ well_formed w.
Proof.
  intros C W w. unfold w.
  split; [by apply clone_view_patches|]. split; [by apply clone_view_overlay|].
  destruct (clone_map_new_overlay_shared hp s) as (F & Old & _).
  split; [|split; [done|split; [by apply clone_closed|by apply clone_well_formed]]].
  eapply Forall_impl; [exact F|]. intros e He. apply heap_closed_lookup; [apply C|done].
Qed.

Lemma w_init_well_formed : well_formed w_init.
Proof.
  split; [|split].
  - apply (bool_decide_unpack _). by vm_compute.
  - apply (bool_decide_unpack _). by vm_compute.
  - repeat constructor.
Defined.

Lemma clone_copies_each_patch_witness :
  let w := cloneRuntimeState w_init.1 w_init.2 in
  RuntimeState.patches w.2 = [("q0", 2); ("q1", 3)] ∧
  View.patches (view w) =
    (λ e : PatchId * option RuntimePatch.t, (e.1, deepCopy_RuntimePatch <$> e.2))
      <$> View.patches (view (w_init.1, w_init.2)) ∧
  View.measurementOverlay (view w) = View.measurementOverlay (view (w_init.1, w_init.2)) ∧
  Forall (λ e : PatchId * loc, Heap.objs w_init.1 !! e.2 = None)
         (RuntimeState.patches w.2) ∧
  (∀ l, l < Heap.next w_init.1 → Heap.objs w.1 !! l = Heap.objs w_init.1 !! l) ∧
  closed w ∧ well_formed w.
Proof.
  split; [by vm_compute|].
  apply (clone_copies_each_patch w_init.1 w_init.2);
    [exact w_init_closed|exact w_init_well_formed].
Defined.

(* ------------------------------------------------------------------- *)
(** ** Comparisons of numbers and [clamp01] *)

Lemma SFcompare_antisym (x y : spec_float) :
  SFcompare y x = CompOpp <$> SFcompare x y.
Proof.
  destruct x as [sx|sx| |sx mx ex], y as [sy|sy| |sy my ey]; simpl; try done;
    try (by destruct sx); try (by destruct sy); try (by destruct sx, sy).
  destruct sx, sy; simpl; try done; f_equal;
    rewrite (Z.compare_antisym ex ey); destruct (ex ?= ey)%Z; simpl; try done;
    by rewrite (Pos.compare_cont_antisym mx my Eq).
Qed.

Lemma SFcompare_None (x y : spec_float) :
  SFcompare x y = None → x = S754_nan ∨ y = S754_nan.
Proof.
  destruct x as [sx|sx| |sx mx ex], y as [sy|sy| |sy my ey]; simpl; auto; done.
Qed.

Lemma SFcompare_Eq_finite (s : bool) (m : positive) (e : Z) (y : spec_float) :
  SFcompare (S754_finite s m e) y = Some Eq → y = S754_finite s m e.
Proof.
  destruct y as [sy|sy| |sy my ey]; simpl; try done;
    try (by destruct s); try (by destruct sy).
  destruct s, sy; try done; destruct (e ?= ey)%Z eqn:E; try done;
    apply Z.compare_eq in E; subst ey; intros [= H];
    [apply (f_equal CompOpp) in H; rewrite CompOpp_involutive in H; simpl in H|];
    apply Pos.compare_eq in H; by subst.
Qed.

Lemma is_nan_spec (x : float) : is_nan x = true ↔ Prim2SF x = S754_nan.
Proof.
  unfold is_nan. rewrite FloatAxioms.eqb_spec. split.
  - intros H. destruct (Prim2SF x) eqn:E; try done;
      by rewrite SFeqb_refl in H.
  - by intros ->.
Qed.

(** The four comparisons of two numbers in terms of one [SFcompare]. *)
Lemma float_compare_cases (x y : float) :
  let c := SFcompare (Prim2SF x) (Prim2SF y) in
  (x <? y)%float = match c with Some Lt => true | _ => false end ∧
  (y <? x)%float = match c with Some Gt => true | _ => false end ∧
  (x <=? y)%float = match c with Some Lt | Some Eq => true | _ => false end ∧
  (y <=? x)%float = match c with Some Gt | Some Eq => true | _ => false end.
Proof.
  rewrite !FloatAxioms.ltb_spec, !FloatAxioms.leb_spec. unfold SFltb, SFleb.
  rewrite (SFcompare_antisym (Prim2SF x) (Prim2SF y)).
  by destruct (SFcompare (Prim2SF x) (Prim2SF y)) as [[]|].
Qed.

Lemma is_nan_false_compare (x y : float) :
  is_nan x = false → is_nan y = false →
  SFcompare (Prim2SF x) (Prim2SF y) ≠ None.
Proof.
  intros Nx Ny [E|E]%SFcompare_None; apply is_nan_spec in E; congruence.
Qed.

Lemma clamp01_eq (x : float) :
  clamp01 x =
    (if is_nan x then nan
     else if (x <=? 0)%float then 0%float
     else if (1 <=? x)%float then 1%float
     else x).
Proof.
  unfold clamp01, Math_max. change (is_nan 0) with false. cbn [orb].
  destruct (is_nan x) eqn:Nx; [done|].
  destruct (float_compare_cases 0 x) as (L1 & L2 & _ & L4). cbv zeta in *.
  pose proof (is_nan_false_compare 0 x eq_refl Nx) as N0.
  rewrite L1, L2, L4.
  destruct (SFcompare (Prim2SF 0) (Prim2SF x)) as [[]|] eqn:C0; try done.
  unfold Math_min. change (is_nan 1) with false. rewrite Nx. cbn [orb].
  destruct (float_compare_cases 1 x) as (M1 & M2 & M3 & _). cbv zeta in *.
  pose proof (is_nan_false_compare 1 x eq_refl Nx) as N1.
  rewrite M1, M2, M3.
  destruct (SFcompare (Prim2SF 1) (Prim2SF x)) as [[]|] eqn:C1; try done.
  change (is_negzero 1) with false. cbv iota.
  change (Prim2SF 1) with (S754_finite false 4503599627370496 (-52)) in C1.
  apply SFcompare_Eq_finite in C1. apply Prim2SF_inj. by rewrite C1.
Qed.

(** X17: [clamp01] of NaN is NaN; otherwise it is [+0] for [x <= 0]
    (for [-0] too), 1 for [x >= 1] and [x] itself in between, so the
    result lies in [[0, 1]], is never [-0], and clamping twice is clamping
    once. *)
Theorem clamp01_cases (x : float) :
  clamp01 x =
    (if is_nan x then nan
     else if (x <=? 0)%float then 0%float
     else if (1 <=? x)%float then 1%float
     else x) ∧
  (is_nan x = false →
   (0 <=? clamp01 x)%float = true ∧ (clamp01 x <=? 1)%float = true ∧
   is_negzero (clamp01 x) = false ∧ clamp01 (clamp01 x) = clamp01 x).
Proof.
  split; [apply clamp01_eq|]. intros Nx.
  pose proof (clamp01_eq x) as E. rewrite Nx in E.
  destruct (x <=? 0)%float eqn:E0.
  { rewrite E. by vm_compute. }
  destruct (1 <=? x)%float eqn:E1.
  { rewrite E. by vm_compute. }
  rewrite E.
  destruct (float_compare_cases 0 x) as (_ & _ & L3 & L4).
  destruct (float_compare_cases 1 x) as (_ & _ & M3 & M4). cbv zeta in *.
  pose proof (is_nan_false_compare 0 x eq_refl Nx) as N0.
  pose proof (is_nan_false_compare 1 x eq_refl Nx) as N1.
  rewrite L4 in E0. rewrite M3 in E1. rewrite L3, M4.
  destruct (SFcompare (Prim2SF 0) (Prim2SF x)) as [[]|] eqn:C0; try done.
  destruct (SFcompare (Prim2SF 1) (Prim2SF x)) as [[]|] eqn:C1; try done.
  repeat split; [|exact E].
  unfold is_negzero. rewrite FloatAxioms.classify_spec.
  change (Prim2SF 0) with (S754_zero false) in C0.
  destruct (Prim2SF x) as [s|s| |s m e]; try done; simpl in *.
  - destruct s; reflexivity.
  - destruct s; [done|].
    by destruct (match digits2_pos m with 53%positive => true | _ => false end).
Qed.
Lemma clamp01_cases_witness :
  clamp01 1.75 = 1%float ∧
  (0 <=? clamp01 1.75)%float = true ∧ (clamp01 1.75 <=? 1)%float = true ∧
  is_negzero (clamp01 1.75) = false ∧ clamp01 (clamp01 1.75) = clamp01 1.75.
Proof.
  destruct (clamp01_cases 1.75) as [E H]. split; [exact E|]. apply H. reflexivity.
Defined.

(* ------------------------------------------------------------------- *)
(** ** Rendering *)

(** The radius of the overlay's circle is not negative. *)
Lemma binary_round_aux_nonneg (m e : Z) (l : location) :
  SFnonneg (binary_round_aux prec emax false m e l).
Proof.
  unfold binary_round_aux.
  destruct (shr_fexp prec emax m e l) as [mrs' e'].
  destruct (shr_fexp prec emax _ e' loc_Exact) as [mrs'' e''].
  destruct (shr_m mrs''); simpl; [done| |done].
  by destruct (_ <=? _)%Z.
Qed.

Lemma SFmul_nonneg (x y : spec_float) :
  SFnonneg x → SFnonneg y → SFnonneg (SFmul prec emax x y).
Proof.
  destruct x as [sx|sx| |sx mx ex], y as [sy|sy| |sy my ey]; simpl; try done;
    try (by destruct sx); try (by destruct sy); try (by destruct sx, sy).
  destruct sx, sy; try done. intros _ _. apply binary_round_aux_nonneg.
Qed.

Lemma SFadd_nonneg (x y : spec_float) :
  SFnonneg x → SFnonneg y → SFnonneg (SFadd prec emax x y).
Proof.
  destruct x as [sx|sx| |sx mx ex], y as [sy|sy| |sy my ey]; simpl; try done;
    try (by destruct sx); try (by destruct sy); try (by destruct sx, sy).
  destruct sx, sy; try done. intros _ _. simpl.
  unfold binary_round.
  destruct (shl_align _ _ _) as [mz ez]. apply binary_round_aux_nonneg.
Qed.

Lemma ltb_zero_nonneg (x : float) :
  (x <? 0)%float = false ↔ SFnonneg (Prim2SF x).
Proof.
  rewrite FloatAxioms.ltb_spec. change (Prim2SF 0) with (S754_zero false).
  unfold SFltb. destruct (Prim2SF x) as [s|s| |s m e]; simpl; try done;
    by destruct s.
Qed.

Lemma radius_nonneg (progress : float) :
  (progress <? 0)%float = false → (6 + 8 * progress <? 0)%float = false.
Proof.
  rewrite !ltb_zero_nonneg, FloatAxioms.add_spec, FloatAxioms.mul_spec. intros H.
  apply SFadd_nonneg; [by vm_compute|]. apply SFmul_nonneg; [by vm_compute|done].
Qed.

Lemma clamp01_nonneg (x : float) : (clamp01 x <? 0)%float = false.
Proof.
  rewrite clamp01_eq. destruct (is_nan x) eqn:Nx; [done|].
  destruct (x <=? 0)%float eqn:E0; [done|].
  destruct (1 <=? x)%float eqn:E1; [done|].
  destruct (float_compare_cases x 0) as (L1 & _ & L3 & _). cbv zeta in *.
  rewrite L3 in E0. rewrite L1.
  by destruct (SFcompare (Prim2SF x) (Prim2SF 0)) as [[]|].
Qed.

Lemma render_app (c1 c2 : list Ctx.cmd) (cv : Canvas.t) :
  render (c1 ++ c2) cv = render c1 cv ≫= render c2.
Proof.
  revert cv. induction c1 as [|c c1 IH]; intros cv; [done|]. simpl.
  destruct (exec c cv) as [cv1|]; [|done]. simpl. apply IH.
Qed.

Lemma neutral_nil : neutral [] [].
Proof. intros cv. exists cv. by rewrite app_nil_r. Qed.

Lemma neutral_app (c1 c2 : list Ctx.cmd) (t1 t2 : list string) :
  neutral c1 t1 → neutral c2 t2 → neutral (c1 ++ c2) (t1 ++ t2).
Proof.
  intros N1 N2 cv. rewrite render_app.
  destruct (N1 cv) as (cv1 & E1 & A1 & B1 & C1).
  destruct (N2 cv1) as (cv2 & E2 & A2 & B2 & C2).
  exists cv2. rewrite E1. simpl. split; [done|].
  rewrite A2, B2, C2, A1, B1, C1. by rewrite app_assoc.
Qed.

Ltac run_canvas :=
  cbn; unfold texts, strokes, patch_stroke_style; rewrite ?omap_app; cbn;
  rewrite <- ?app_assoc; cbn [app]; rewrite ?app_nil_r.

Lemma drawPatch_render (p : RuntimePatch.t) (cv : Canvas.t) :
  let st := Canvas.current cv in
  let r := RuntimePatch.rect p in
  let px := (ToNumber (Rect.x r) * TILE)%float in
  let py := (ToNumber (Rect.y r) * TILE)%float in
  let pw := (ToNumber (Rect.w r) * TILE)%float in
  let ph := (ToNumber (Rect.h r) * TILE)%float in
  let e := RuntimePatch.edges p in
  let d := Canvas.lineDash st in
  ∃ cv', render (drawPatch p) cv = Some cv' ∧
  Canvas.current cv' = st ∧
  Canvas.saved cv' = Canvas.saved cv ∧
  texts (Canvas.painted cv') =
    texts (Canvas.painted cv) ++ [default (RuntimePatch.id p) (RuntimePatch.label p)] ∧
  strokes (Canvas.painted cv') =
    strokes (Canvas.painted cv) ++
    [([Ctx.rect px py pw ph], patch_stroke_style st 2 d);
     ([Ctx.moveTo px py; Ctx.lineTo (px + pw) py],
      patch_stroke_style st 4 (edge_dash d (Edges.top e)));
     ([Ctx.moveTo (px + pw) py; Ctx.lineTo (px + pw) (py + ph)],
      patch_stroke_style st 4 (edge_dash d (Edges.right e)));
     ([Ctx.moveTo px (py + ph); Ctx.lineTo (px + pw) (py + ph)],
      patch_stroke_style st 4 (edge_dash d (Edges.bottom e)));
     ([Ctx.moveTo px py; Ctx.lineTo px (py + ph)],
      patch_stroke_style st 4 (edge_dash d (Edges.left e)))].
Proof.
  destruct cv as [st sv pa pt].
  destruct p as [i r [[] [] [] []] lb f g]; cbn; (eexists; split; [reflexivity|]);
    run_canvas; done.
Qed.

Lemma drawPatch_neutral (p : RuntimePatch.t) :
  neutral (drawPatch p) [default (RuntimePatch.id p) (RuntimePatch.label p)].
Proof.
  intros cv. destruct (drawPatch_render p cv) as (cv' & E & A & B & C & _).
  by exists cv'.
Qed.

Lemma drawTwoPatchMeas_render (a : RuntimePatch.t) (aEdge : EdgeName)
    (b : RuntimePatch.t) (bEdge : EdgeName) (progress : float)
    (outcome : option Outcome) (cv : Canvas.t) :
  (6 + 8 * progress <? 0)%float = false →
  let st := Canvas.current cv in
  let A := edgeMidpoint (RuntimePatch.rect a) aEdge in
  let B := edgeMidpoint (RuntimePatch.rect b) bEdge in
  let ax := (ToNumber A.1 * TILE)%float in
  let ay := (ToNumber A.2 * TILE)%float in
  let bx := (ToNumber B.1 * TILE)%float in
  let by_ := (ToNumber B.2 * TILE)%float in
  let width := lerp 2 10 progress in
  let st' := Canvas.mk_style (outcome_colour outcome) (Canvas.fillStyle st)
               (if finite width && (0 <? width)%float then width
                else Canvas.lineWidth st)
               (Canvas.lineDash st) (Canvas.font st) (Canvas.textAlign st)
               (Canvas.textBaseline st) in
  ∃ cv', render (drawTwoPatchMeas a aEdge b bEdge progress outcome) cv = Some cv' ∧
  Canvas.current cv' = st ∧
  Canvas.saved cv' = Canvas.saved cv ∧
  texts (Canvas.painted cv') = texts (Canvas.painted cv) ∧
  Canvas.painted cv' =
    Canvas.painted cv ++
    [Canvas.Stroked [Ctx.moveTo ax ay; Ctx.lineTo bx by_] st';
     Canvas.Stroked [Ctx.arc ((ax + bx) / 2) ((ay + by_) / 2) (6 + 8 * progress)
                       0 (Math_PI * 2)] st'].
Proof.
  intros Hr. destruct cv as [st sv pa pt]. cbn. rewrite Hr, !andb_false_r.
  destruct (finite (2 + 8 * progress) && (0 <? 2 + 8 * progress)%float);
    destruct outcome as [[]|]; cbn; (eexists; split; [reflexivity|]);
    run_canvas; done.
Qed.

Lemma drawTwoPatchMeas_neutral (a : RuntimePatch.t) (aEdge : EdgeName)
    (b : RuntimePatch.t) (bEdge : EdgeName) (progress : float)
    (outcome : option Outcome) :
  (6 + 8 * progress <? 0)%float = false →
  neutral (drawTwoPatchMeas a aEdge b bEdge progress outcome) [].
Proof.
  intros Hr cv.
  destruct (drawTwoPatchMeas_render a aEdge b bEdge progress outcome cv Hr)
    as (cv' & E & A & B & C & _).
  exists cv'. by rewrite app_nil_r.
Qed.

Lemma drawGrid_columns_neutral (fuel : nat) (c cols rows : float) (cmds : list Ctx.cmd) :
  drawGrid_columns fuel c cols rows = Some cmds → neutral cmds [].
Proof.
  revert c cmds. induction fuel as [|fuel IH]; intros c cmds; simpl.
  - destruct (c <=? cols)%float; [done|]. intros [= <-]. apply neutral_nil.
  - destruct (c <=? cols)%float; [|intros [= <-]; apply neutral_nil].
    destruct (drawGrid_columns fuel (c + 1) cols rows) as [rest|] eqn:E; [|done].
    simpl. intros [= <-].
    apply (neutral_app [_; _; _; _] rest [] []); [|by eapply IH].
    intros [st sv pa pt]. cbn. eexists. split; [reflexivity|]. by run_canvas.
Qed.

Lemma drawGrid_rows_neutral (fuel : nat) (r cols rows : float) (cmds : list Ctx.cmd) :
  drawGrid_rows fuel r cols rows = Some cmds → neutral cmds [].
Proof.
  revert r cmds. induction fuel as [|fuel IH]; intros r cmds; simpl.
  - destruct (r <=? rows)%float; [done|]. intros [= <-]. apply neutral_nil.
  - destruct (r <=? rows)%float; [|intros [= <-]; apply neutral_nil].
    destruct (drawGrid_rows fuel (r + 1) cols rows) as [rest|] eqn:E; [|done].
    simpl. intros [= <-].
    apply (neutral_app [_; _; _; _] rest [] []); [|by eapply IH].
    intros [st sv pa pt]. cbn. eexists. split; [reflexivity|]. by run_canvas.
Qed.

Lemma drawGrid_neutral (fuel : nat) (cols rows : float) (cmds : list Ctx.cmd) :
  drawGrid fuel cols rows = Some cmds → neutral cmds [].
Proof.
  unfold drawGrid.
  destruct (drawGrid_columns fuel 0 cols rows) as [columns|] eqn:Ec; [|done].
  destruct (drawGrid_rows fuel 0 cols rows) as [lines|] eqn:Er; [|done].
  simpl. intros [= <-] cv.
  pose proof (neutral_app _ _ _ _ (drawGrid_columns_neutral _ _ _ _ _ Ec)
                (drawGrid_rows_neutral _ _ _ _ _ Er)) as N.
  change (Ctx.save :: Ctx.strokeStyle "#e7e7e7" :: Ctx.lineWidth 1
            :: columns ++ lines ++ [Ctx.restore])
    with ([Ctx.save; Ctx.strokeStyle "#e7e7e7"; Ctx.lineWidth 1]
            ++ columns ++ lines ++ [Ctx.restore]).
  rewrite render_app, app_assoc. destruct cv as [st sv pa pt]. cbn.
  rewrite render_app.
  match goal with |- context [render (columns ++ lines) ?c] =>
    destruct (N c) as (cv2 & E & A & B & C) end.
  rewrite E. destruct cv2 as [st2 sv2 pa2 pt2]. cbn in A, B, C |- *. subst sv2.
  eexists. split; [reflexivity|]. cbn. by rewrite C.
Qed.

Lemma exec_painted (c : Ctx.cmd) (cv cv' : Canvas.t) :
  exec c cv = Some cv' →
  ∃ rest, Canvas.painted cv' = Canvas.painted cv ++ rest.
Proof.
  destruct cv as [st sv pa pt].
  destruct c; simpl;
    repeat match goal with |- context [if ?b then _ else _] => destruct b end;
    try destruct sv; intros [= <-]; simpl;
    try (by exists []; rewrite app_nil_r); by eexists.
Qed.

Lemma render_painted (cmds : list Ctx.cmd) (cv cv' : Canvas.t) :
  render cmds cv = Some cv' →
  ∃ rest, Canvas.painted cv' = Canvas.painted cv ++ rest.
Proof.
  revert cv. induction cmds as [|c cmds IH]; intros cv; simpl.
  - intros [= <-]. exists []. by rewrite app_nil_r.
  - destruct (exec c cv) as [cv1|] eqn:E; [|done]. simpl. intros R.
    destruct (exec_painted _ _ _ E) as [r1 E1], (IH _ R) as [r2 E2].
    exists (r1 ++ r2). by rewrite E2, E1, app_assoc.
Qed.

Lemma drawOverlay_neutral (hp : Heap.t) (o : Overlay.t) :
  (Overlay.progress o <? 0)%float = false → neutral (drawOverlay hp o) [].
Proof.
  intros H. unfold drawOverlay.
  destruct (Heap.objs hp !! Overlay.a o), (Heap.objs hp !! Overlay.b o);
    try apply neutral_nil. by apply drawTwoPatchMeas_neutral, radius_nonneg.
Qed.

Lemma drawPatches_neutral (hp : Heap.t) (m : PatchMap) :
  neutral
    (concat ((λ e : PatchId * loc, from_option drawPatch [] (Heap.objs hp !! e.2)) <$> m))
    (omap (λ e : PatchId * loc,
             (λ p, default (RuntimePatch.id p) (RuntimePatch.label p))
               <$> Heap.objs hp !! e.2) m).
Proof.
  induction m as [|[k l] m IH]; [apply neutral_nil|].
  rewrite fmap_cons. cbn [concat omap list_omap snd].
  destruct (Heap.objs hp !! l) as [p|]; cbn [from_option fmap option_fmap option_map].
  - apply (neutral_app _ _ [_]); [apply drawPatch_neutral|exact IH].
  - exact IH.
Qed.

Lemma drawRuntime_render (fuel : nat) (w : World) (cols rows : float)
    (cmds : list Ctx.cmd) (cv : Canvas.t) :
  progress_ok w.2 = true →
  drawRuntime fuel w cols rows = Some cmds →
  ∃ cv', render cmds cv = Some cv' ∧
    Canvas.current cv' = Canvas.current cv ∧
    Canvas.saved cv' = Canvas.saved cv ∧
    texts (Canvas.painted cv') = texts (Canvas.painted cv) ++ labels w ∧
    ∃ rest, Canvas.painted cv' =
              Canvas.painted cv ++ Canvas.Cleared 0 0 (cols * TILE) (rows * TILE) :: rest.
Proof.
  destruct w as [hp s]. unfold drawRuntime, progress_ok. cbn [snd]. intros Po.
  destruct (drawGrid fuel cols rows) as [grid|] eqn:Eg; [|done].
  simpl. intros [= <-].
  set (body := grid ++ _).
  assert (N : neutral body ([] ++ labels (hp, s) ++ [])).
  { unfold body. apply neutral_app; [by eapply drawGrid_neutral|].
    apply neutral_app; [apply drawPatches_neutral|].
    destruct (RuntimeState.measurementOverlay s) as [o|]; [|apply neutral_nil].
    apply drawOverlay_neutral. simpl in Po. by apply negb_true_iff in Po. }
  cbn [app] in N. rewrite app_nil_r in N.
  destruct (N (Canvas.add_paint (Canvas.Cleared 0 0 (cols * TILE) (rows * TILE)) cv))
    as (cv' & E & A & B & C).
  destruct (render_painted _ _ _ E) as [rest D].
  exists cv'. split; [done|]. rewrite A, B, C, D. destruct cv as [st sv pa pt]. cbn.
  repeat split.
  - unfold texts. rewrite omap_app. cbn. by rewrite app_nil_r.
  - exists rest. by rewrite <- app_assoc.
Qed.

Lemma advance_progress_ok (t : float) (w : World) :
  (t <? 0)%float = false → progress_ok (advanceInterpolations t w).2 = true.
Proof.
  destruct w as [hp s]. intros H. unfold progress_ok. simpl.
  destruct (RuntimeState.measurementOverlay s); simpl; [|done]. by rewrite H.
Qed.

Lemma commit_progress_ok (acts : list Action) (w : World) :
  progress_ok w.2 = true → progress_ok (commitActions acts w).2 = true.
Proof.
  unfold progress_ok. rewrite commitActions_overlay. by destruct (existsb _ _).
Qed.

Lemma reachable_progress_ok (prog : Program.t) (hc : Heap.t * Component.t) :
  reachable prog hc → progress_ok (Component.runtime hc.2) = true.
Proof.
  induction 1 as [|[hp c] ev hc' R IH Hev]; [done|].
  destruct ev as [dt| | |]; cbn [handle fst snd] in *.
  - unfold onTick in Hev.
    pose proof (proj2 (proj2 (clone_map_new_overlay_shared hp (Component.runtime c))))
      as Eo.
    destruct (cloneRuntimeState hp (Component.runtime c)) as [hp1 rt1].
    destruct (Component.playing c && _).
    2:{ injection Hev as <-. unfold progress_ok in *. simpl in *. by rewrite Eo. }
    destruct (if (Component.tInStep c =? 0)%float then _ else _) as [w1|];
      [|done]. cbn [mbind option_bind] in Hev.
    pose proof (advance_progress_ok
                  (clamp01 ((Component.tInStep c + dt) / Program.tickMs prog)) w1
                  (clamp01_nonneg _)) as P.
    destruct (Program.tickMs prog <=? Component.tInStep c + dt)%float.
    + destruct (steps_at _ _) as [st|]; [|done]. injection Hev as <-.
      by apply commit_progress_ok.
    + by injection Hev as <-.
  - unfold stepOnce in Hev. destruct (steps_at _ _) as [st|]; [|done].
    injection Hev as <-. by apply commit_progress_ok, advance_progress_ok.
  - by injection Hev as <-.
  - by injection Hev as <-.
Qed.

(** X18: drawing a state that the component reaches does not throw and
    leaves the context as it found it (drawing state and stack of saved
    states); it clears the canvas first and writes one text per patch, in
    map order: the label, or the id when there is none. *)
Theorem frame_drawing_restores_context (prog : Program.t) (hc : Heap.t * Component.t)
    (fuel : nat) (cols rows : float) (cmds : list Ctx.cmd) (cv : Canvas.t) :
  reachable prog hc →
  drawRuntime fuel (hc.1, Component.runtime hc.2) cols rows = Some cmds →
  ∃ cv', render cmds cv = Some cv' ∧
    Canvas.current cv' = Canvas.current cv ∧
    Canvas.saved cv' = Canvas.saved cv ∧
    texts (Canvas.painted cv') =
      texts (Canvas.painted cv) ++ labels (hc.1, Component.runtime hc.2) ∧
    ∃ rest, Canvas.painted cv' =
              Canvas.painted cv ++ Canvas.Cleared 0 0 (cols * TILE) (rows * TILE) :: rest.
Proof.
  intros R. by apply drawRuntime_render, reachable_progress_ok with prog.
Qed.

Lemma frame_drawing_restores_context_witness :
  let hc := state_after demoProgram [PressStep; PressStep; PressPlay; Frame 100] in
  let cmds := default [] (drawRuntime 27 (hc.1, Component.runtime hc.2) 26 16) in
  (length cmds = 266 ∧
   Overlay.progress <$> RuntimeState.measurementOverlay (Component.runtime hc.2) =
     Some 0x1.2492492492492p-3%float ∧
   labels (hc.1, Component.runtime hc.2) = ["q0"; "q1"]) ∧
  ∃ cv', render cmds canvas0 = Some cv' ∧
    Canvas.current cv' = Canvas.current canvas0 ∧
    Canvas.saved cv' = Canvas.saved canvas0 ∧
    texts (Canvas.painted cv') =
      texts (Canvas.painted canvas0) ++ labels (hc.1, Component.runtime hc.2) ∧
    ∃ rest, Canvas.painted cv' =
              Canvas.painted canvas0 ++ Canvas.Cleared 0 0 (26 * TILE) (16 * TILE) :: rest.
Proof.
  split; [by vm_compute|].
  apply (frame_drawing_restores_context demoProgram _ 27 26 16);
    [apply state_after_reachable|by vm_compute].
Defined.

Lemma counter_facts (c n : Z) :
  (0 ≤ c ≤ grid_bound + 1)%Z → (0 ≤ n ≤ grid_bound + 1)%Z →
  (tile c <=? tile n)%float = (c <=? n)%Z ∧ (tile c + 1)%float = tile (c + 1).
Proof.
  intros Hc Hn.
  assert (A : forallb (λ c, forallb (counter_ok c) grid_range) grid_range = true)
    by (vm_compute; reflexivity).
  assert (Ic : In c grid_range) by (apply In_zrange_Z; unfold grid_bound in *; lia).
  assert (In_ : In n grid_range) by (apply In_zrange_Z; unfold grid_bound in *; lia).
  pose proof (proj1 (forallb_forall _ _) (proj1 (forallb_forall _ _) A c Ic) n In_) as H.
  unfold counter_ok in H. apply andb_true_iff in H as [H1 H2].
  split.
  - by apply eqb_prop in H1.
  - by apply FloatAxioms.Leibniz.eqb_spec in H2.
Qed.

Lemma drawGrid_columns_counts (n : Z) (rows : float) (k fuel : nat) (c : Z) :
  (0 ≤ n ≤ grid_bound)%Z → (0 ≤ c)%Z → (c + Z.of_nat k = n + 1)%Z → k ≤ fuel →
  drawGrid_columns fuel (tile c) (tile n) rows =
    Some (concat (column_line rows <$> zrange k c)).
Proof.
  intros Hn. revert fuel c. induction k as [|k IH]; intros fuel c Hc E Hf.
  - destruct (counter_facts c n) as [L _]; [lia..|].
    replace (c <=? n)%Z with false in L by (symmetry; apply Z.leb_gt; lia).
    destruct fuel; simpl; by rewrite L.
  - destruct (counter_facts c n) as [L P]; [lia..|].
    replace (c <=? n)%Z with true in L by (symmetry; apply Z.leb_le; lia).
    destruct fuel as [|fuel]; [lia|]. simpl. rewrite L, P.
    rewrite (IH fuel (c + 1)%Z) by lia. done.
Qed.

Lemma drawGrid_rows_counts (m : Z) (cols : float) (k fuel : nat) (r : Z) :
  (0 ≤ m ≤ grid_bound)%Z → (0 ≤ r)%Z → (r + Z.of_nat k = m + 1)%Z → k ≤ fuel →
  drawGrid_rows fuel (tile r) cols (tile m) =
    Some (concat (row_line cols <$> zrange k r)).
Proof.
  intros Hm. revert fuel r. induction k as [|k IH]; intros fuel r Hr E Hf.
  - destruct (counter_facts r m) as [L _]; [lia..|].
    replace (r <=? m)%Z with false in L by (symmetry; apply Z.leb_gt; lia).
    destruct fuel; simpl; by rewrite L.
  - destruct (counter_facts r m) as [L P]; [lia..|].
    replace (r <=? m)%Z with true in L by (symmetry; apply Z.leb_le; lia).
    destruct fuel as [|fuel]; [lia|]. simpl. rewrite L, P.
    rewrite (IH fuel (r + 1)%Z) by lia. done.
Qed.

(** X19: for a grid of [n] by [m] tiles, both whole numbers up to 256,
    [drawGrid] ends and draws [n + 1] vertical lines from x = 0.5 in steps
    of 40 and then [m + 1] horizontal ones, between a [save] and a
    [restore]. *)
Theorem draw_grid_lines (n m : Z) (fuel : nat) :
  (0 ≤ n ≤ grid_bound)%Z → (0 ≤ m ≤ grid_bound)%Z →
  (Z.max n m < Z.of_nat fuel)%Z →
  drawGrid fuel (tile n) (tile m) =
    Some ([Ctx.save; Ctx.strokeStyle "#e7e7e7"; Ctx.lineWidth 1]
            ++ concat (column_line (tile m) <$> zrange (Z.to_nat (n + 1)) 0)
            ++ concat (row_line (tile n) <$> zrange (Z.to_nat (m + 1)) 0)
            ++ [Ctx.restore]).
Proof.
  intros Hn Hm Hf. unfold drawGrid.
  change 0%float with (tile 0).
  rewrite (drawGrid_columns_counts n (tile m) (Z.to_nat (n + 1)) fuel 0) by lia.
  rewrite (drawGrid_rows_counts m (tile n) (Z.to_nat (m + 1)) fuel 0) by lia.
  done.
Qed.

Lemma draw_grid_lines_witness :
  drawGrid 27 (tile 26) (tile 16) =
    Some ([Ctx.save; Ctx.strokeStyle "#e7e7e7"; Ctx.lineWidth 1]
            ++ concat (column_line (tile 16) <$> zrange (Z.to_nat (26 + 1)) 0)
            ++ concat (row_line (tile 26) <$> zrange (Z.to_nat (16 + 1)) 0)
            ++ [Ctx.restore]).
Proof. apply (draw_grid_lines 26 16 27); unfold grid_bound; lia. Defined.

Lemma add_one_not_nan (c : float) :
  is_nanSF (Prim2SF c) = false → is_nanSF (Prim2SF (c + 1)) = false.
Proof.
  intros N. destruct (finite c) eqn:F.
  - by destruct (add_scaled c 1 F eq_refl).
  - rewrite finite_SF in F. rewrite FloatAxioms.add_spec.
    destruct (Prim2SF c) as [s|[]| |s m e]; done.
Qed.

(** The column loop of [drawGrid] does not end when there is no last
    column. *)
Lemma drawGrid_columns_endless (fuel : nat) (rows : float) :
  ∀ c : float, is_nanSF (Prim2SF c) = false →
    drawGrid_columns fuel c infinity rows = None.
Proof.
  induction fuel as [|fuel IH]; intros c N.
  - simpl. rewrite FloatAxioms.leb_spec. change (Prim2SF infinity) with (S754_infinity false).
    by rewrite SFleb_pinf.
  - simpl. rewrite FloatAxioms.leb_spec. change (Prim2SF infinity) with (S754_infinity false).
    rewrite SFleb_pinf by done. by rewrite (IH (c + 1)%float (add_one_not_nan c N)).
Qed.

Lemma drawGrid_ends (n m : Z) (fuel : nat) :
  (0 ≤ n ≤ grid_bound)%Z → (0 ≤ m ≤ grid_bound)%Z →
  (Z.max n m < Z.of_nat fuel)%Z →
  is_Some (drawGrid fuel (tile n) (tile m)).
Proof.
  intros Hn Hm Hf. unfold drawGrid.
  change 0%float with (tile 0).
  rewrite (drawGrid_columns_counts n (tile m) (Z.to_nat (n + 1)) fuel 0) by lia.
  rewrite (drawGrid_rows_counts m (tile n) (Z.to_nat (m + 1)) fuel 0) by lia.
  by eexists.
Qed.

(** X3: in a state the component reaches, the state update of a handler
    throws in one case only, the Step button on a program without steps;
    Play and Reset always return, and Step returns whenever the program
    has a step.  The frame callback, with its drawing, never throws; it
    returns, with the state of its update, when the grid is [n] by [m]
    tiles, both whole numbers up to 256, and it never comes back from
    [drawGrid] when the number of columns is [Infinity]. *)
Theorem handlers_throw_only_without_steps (prog : Program.t)
    (hc : Heap.t * Component.t) :
  reachable prog hc →
  (∀ ev, handle prog ev hc = None ↔ ev = PressStep ∧ Program.steps prog = []) ∧
  (∀ fuel dt cv, frameCallback prog fuel dt hc cv ≠ Throws) ∧
  (∀ n m fuel dt cv,
     (0 ≤ n ≤ grid_bound)%Z → (0 ≤ m ≤ grid_bound)%Z →
     Program.cols prog = tile n → Program.rows prog = tile m →
     (Z.max n m < Z.of_nat fuel)%Z →
     ∃ hc' cv', frameCallback prog fuel dt hc cv = Returns (hc', cv') ∧
                handle prog (Frame dt) hc = Some hc') ∧
  (Program.cols prog = infinity →
   ∀ fuel dt cv, frameCallback prog fuel dt hc cv = Unfinished).
Proof.
  intros R. destruct (reachable_inv _ _ R) as [_ Cu].
  assert (Draw : ∀ fuel dt cv, ∃ hc',
            handle prog (Frame dt) hc = Some hc' ∧
            frameCallback prog fuel dt hc cv =
              match drawRuntime fuel (hc'.1, Component.runtime hc'.2)
                      (Program.cols prog) (Program.rows prog) with
              | None => Unfinished
              | Some cmds => from_option (λ cv', Returns (hc', cv')) Throws (render cmds cv)
              end ∧
            ∀ cmds, drawRuntime fuel (hc'.1, Component.runtime hc'.2)
                      (Program.cols prog) (Program.rows prog) = Some cmds →
                    is_Some (render cmds cv)).
  { intros fuel dt cv. destruct (onTick_is_Some prog dt hc.1 hc.2 Cu) as [hc' E].
    exists hc'. split; [done|]. split.
    - unfold frameCallback. rewrite E. destruct (drawRuntime _ _ _ _); [|done].
      by destruct (render _ _).
    - intros cmds Ed.
      destruct (drawRuntime_render fuel (hc'.1, Component.runtime hc'.2)
                  (Program.cols prog) (Program.rows prog) cmds cv)
        as (cv' & -> & _); [|done|by eexists].
      apply (reachable_progress_ok prog hc'). by apply (reachable_next prog hc (Frame dt)). }
  split; [|split; [|split]].
  - intros ev. destruct hc as [hp c]. destruct ev as [dt| | |]; cbn [handle fst snd].
    + destruct (onTick_is_Some prog dt hp c Cu) as [r ->]. by split; [|intros [? _]].
    + unfold stepOnce. rewrite steps_length_nil. destruct Cu as [Cu _]. split.
      * intros E. split; [done|].
        destruct (Z.eq_dec (steps_length prog) 0%Z) as [|N]; [done|].
        destruct (steps_at_in_range (Program.steps prog)
                    (Z.min (Component.stepIdx c) (steps_length prog - 1))) as [st Est].
        { cbn [snd] in Cu. unfold steps_length in *. lia. }
        by rewrite Est in E.
      * intros [_ E]. rewrite E. unfold steps_at.
        by rewrite (proj2 (Z.ltb_lt _ 0)) by lia.
    + by split; [|intros [? _]].
    + by split; [|intros [? _]].
  - intros fuel dt cv. destruct (Draw fuel dt cv) as (hc' & _ & -> & Re).
    destruct (drawRuntime _ _ _ _) as [cmds|]; [|done].
    by destruct (Re cmds eq_refl) as [cv' ->].
  - intros n m fuel dt cv Hn Hm En Em Hf.
    destruct (Draw fuel dt cv) as (hc' & Eh & Ef & Re). rewrite Ef.
    destruct (drawGrid_ends n m fuel Hn Hm Hf) as [g Eg].
    assert (is_Some (drawRuntime fuel (hc'.1, Component.runtime hc'.2)
                       (Program.cols prog) (Program.rows prog))) as [cmds Ed].
    { unfold drawRuntime. rewrite En, Em, Eg. by eexists. }
    rewrite Ed in Re |- *. destruct (Re cmds eq_refl) as [cv' ->].
    by exists hc', cv'.
  - intros Ec fuel dt cv. destruct (Draw fuel dt cv) as (hc' & _ & -> & _).
    unfold drawRuntime, drawGrid. rewrite Ec.
    by rewrite drawGrid_columns_endless.
Qed.

Lemma handlers_throw_only_without_steps_witness :
  (handle prog_empty PressStep (state_after prog_empty [PressPlay; Frame 16]) = None ↔
   PressStep = PressStep ∧ Program.steps prog_empty = []) ∧
  (∃ hc' cv',
     frameCallback demoProgram 27 16
       (state_after demoProgram [PressStep; PressPlay; Frame 16]) canvas0 =
       Returns (hc', cv') ∧
     handle demoProgram (Frame 16)
       (state_after demoProgram [PressStep; PressPlay; Frame 16]) = Some hc') ∧
  frameCallback prog_endless_grid 27 16
    (state_after prog_endless_grid [PressStep; PressPlay; Frame 16]) canvas0 = Unfinished.
Proof.
  split; [|split].
  - apply (handlers_throw_only_without_steps prog_empty), state_after_reachable.
  - destruct (handlers_throw_only_without_steps demoProgram _
                (state_after_reachable demoProgram [PressStep; PressPlay; Frame 16]))
      as (_ & _ & H & _).
    apply (H 26%Z 16%Z 27 16%float canvas0);
      first [unfold grid_bound; lia | reflexivity].
  - destruct (handlers_throw_only_without_steps prog_endless_grid _
                (state_after_reachable prog_endless_grid [PressStep; PressPlay; Frame 16]))
      as (_ & _ & _ & H).
    by apply H.
Defined.

(** X20: on a context without dash pattern, [drawPatch] strokes the
    outline solid, 2 wide, and then the top, right, bottom and left edge,
    4 wide: dashed [6, 6] where the edge is X, solid where it is Z,
    whatever edge was drawn before; the context ends without dash
    pattern. *)
Theorem patch_edges_dashed_iff_X (p : RuntimePatch.t) (cv : Canvas.t) :
  Canvas.lineDash (Canvas.current cv) = [] →
  let r := RuntimePatch.rect p in
  let px := (ToNumber (Rect.x r) * TILE)%float in
  let py := (ToNumber (Rect.y r) * TILE)%float in
  let pw := (ToNumber (Rect.w r) * TILE)%float in
  let ph := (ToNumber (Rect.h r) * TILE)%float in
  let e := RuntimePatch.edges p in
  let dash kind := match kind with KX => [6; 6]%float | KZ => [] end in
  let shown (s : list Ctx.cmd * Canvas.style) :=
    (s.1, Canvas.lineDash s.2, Canvas.lineWidth s.2, Canvas.strokeStyle s.2) in
  ∃ cv', render (drawPatch p) cv = Some cv' ∧
    shown <$> strokes (Canvas.painted cv') =
      (shown <$> strokes (Canvas.painted cv)) ++
      [([Ctx.rect px py pw ph], [], 2%float, "#222");
       ([Ctx.moveTo px py; Ctx.lineTo (px + pw) py],
        dash (Edges.top e), 4%float, "#222");
       ([Ctx.moveTo (px + pw) py; Ctx.lineTo (px + pw) (py + ph)],
        dash (Edges.right e), 4%float, "#222");
       ([Ctx.moveTo px (py + ph); Ctx.lineTo (px + pw) (py + ph)],
        dash (Edges.bottom e), 4%float, "#222");
       ([Ctx.moveTo px py; Ctx.lineTo px (py + ph)],
        dash (Edges.left e), 4%float, "#222")] ∧
    Canvas.lineDash (Canvas.current cv') = [].
Proof.
  intros D. cbv zeta.
  destruct (drawPatch_render p cv) as (cv' & E & A & _ & _ & S). cbv zeta in A, S.
  exists cv'. split; [done|]. rewrite S, A, fmap_app, D. split; [|done]. by f_equal.
Qed.

Lemma patch_edges_dashed_iff_X_witness :
  let p := RuntimePatch.mk "q0" (tile_rect 6 7 3 3) (Edges.mk KX KZ KZ KX) None None None in
  let shown (s : list Ctx.cmd * Canvas.style) :=
    (s.1, Canvas.lineDash s.2, Canvas.lineWidth s.2, Canvas.strokeStyle s.2) in
  ∃ cv', render (drawPatch p) canvas0 = Some cv' ∧
    shown <$> strokes (Canvas.painted cv') =
      [([Ctx.rect 240 280 120 120], [], 2%float, "#222");
       ([Ctx.moveTo 240 280; Ctx.lineTo 360 280], [6; 6]%float, 4%float, "#222");
       ([Ctx.moveTo 360 280; Ctx.lineTo 360 400], [], 4%float, "#222");
       ([Ctx.moveTo 240 400; Ctx.lineTo 360 400], [], 4%float, "#222");
       ([Ctx.moveTo 240 280; Ctx.lineTo 240 400], [6; 6]%float, 4%float, "#222")] ∧
    Canvas.lineDash (Canvas.current cv') = [].
Proof.
  exact (patch_edges_dashed_iff_X
           (RuntimePatch.mk "q0" (tile_rect 6 7 3 3) (Edges.mk KX KZ KZ KX) None None None)
           canvas0 eq_refl).
Defined.

(** X21: [drawTwoPatchMeas] strokes a line between the midpoints of the
    two edges and a circle of radius [6 + 8 * progress] around its middle,
    in red, green or blue for outcome -1, 1 or none, and restores the
    context.  It throws when the radius is negative and the circle's
    arguments are finite, which no progress that is not negative gives. *)
Theorem overlay_line_joins_edge_midpoints (a : RuntimePatch.t) (aEdge : EdgeName)
    (b : RuntimePatch.t) (bEdge : EdgeName) (progress : float)
    (outcome : option Outcome) (cv : Canvas.t) :
  let st := Canvas.current cv in
  let A := edgeMidpoint (RuntimePatch.rect a) aEdge in
  let B := edgeMidpoint (RuntimePatch.rect b) bEdge in
  let ax := (ToNumber A.1 * TILE)%float in
  let ay := (ToNumber A.2 * TILE)%float in
  let bx := (ToNumber B.1 * TILE)%float in
  let by_ := (ToNumber B.2 * TILE)%float in
  let mx := ((ax + bx) / 2)%float in
  let my := ((ay + by_) / 2)%float in
  let radius := (6 + 8 * progress)%float in
  let width := lerp 2 10 progress in
  let st' := Canvas.mk_style
               match outcome with
               | Some Minus1 => "#c62828"
               | Some Plus1 => "#2e7d32"
               | None => "#1976d2"
               end
               (Canvas.fillStyle st)
               (if finite width && (0 <? width)%float then width
                else Canvas.lineWidth st)
               (Canvas.lineDash st) (Canvas.font st) (Canvas.textAlign st)
               (Canvas.textBaseline st) in
  let throws := finite mx && finite my && finite radius && (radius <? 0)%float in
  let drawn := render (drawTwoPatchMeas a aEdge b bEdge progress outcome) cv in
  (throws = true → drawn = None) ∧
  (throws = false →
   ∃ cv', drawn = Some cv' ∧
     Canvas.current cv' = st ∧
     Canvas.saved cv' = Canvas.saved cv ∧
     Canvas.painted cv' =
       Canvas.painted cv ++
       [Canvas.Stroked [Ctx.moveTo ax ay; Ctx.lineTo bx by_] st';
        Canvas.Stroked [Ctx.arc mx my radius 0 (Math_PI * 2)] st']) ∧
  ((progress <? 0)%float = false → throws = false).
Proof.
  cbv zeta. split; [|split].
  - intros T. destruct cv as [st sv pa pt]. cbn.
    destruct (finite (2 + 8 * progress) && (0 <? 2 + 8 * progress)%float);
      cbn; rewrite !andb_true_r; cbn in T; by rewrite T.
  - intros T. destruct cv as [st sv pa pt]. cbn.
    destruct (finite (2 + 8 * progress) && (0 <? 2 + 8 * progress)%float);
      cbn; rewrite !andb_true_r; cbn in T; rewrite T;
      destruct outcome as [[]|]; cbn; (eexists; split; [reflexivity|]);
      run_canvas; done.
  - intros H. by rewrite (radius_nonneg _ H), andb_false_r.
Qed.

Lemma overlay_line_joins_edge_midpoints_witness :
  let a := deepCopy_Patch patch_q0 in
  let b := deepCopy_Patch patch_q1 in
  render (drawTwoPatchMeas a Right b Left (-1) (Some Plus1)) canvas0 = None ∧
  ∃ cv', render (drawTwoPatchMeas a Right b Left 0.5 (Some Plus1)) canvas0 = Some cv' ∧
    Canvas.current cv' = Canvas.current canvas0 ∧
    Canvas.saved cv' = [] ∧
    Canvas.painted cv' =
      [Canvas.Stroked [Ctx.moveTo 360 340; Ctx.lineTo 640 340]
         (Canvas.mk_style "#2e7d32" "#000000" 6 [] "10px sans-serif" "start" "alphabetic");
       Canvas.Stroked [Ctx.arc 500 340 10 0 (Math_PI * 2)]
         (Canvas.mk_style "#2e7d32" "#000000" 6 [] "10px sans-serif" "start" "alphabetic")].
Proof.
  pose proof (overlay_line_joins_edge_midpoints (deepCopy_Patch patch_q0) Right
                (deepCopy_Patch patch_q1) Left (-1) (Some Plus1) canvas0) as (T & _).
  pose proof (overlay_line_joins_edge_midpoints (deepCopy_Patch patch_q0) Right
                (deepCopy_Patch patch_q1) Left 0.5 (Some Plus1) canvas0) as (_ & S & _).
  split; [apply T; reflexivity|apply S; reflexivity].
Defined.

(* ------------------------------------------------------------------- *)
(** ** The animation clock *)

Lemma sub_self (t : float) : finite t = true → (t - t)%float = 0%float.
Proof.
  unfold finite. rewrite FloatAxioms.classify_spec. intros F.
  apply Prim2SF_inj. rewrite FloatAxioms.sub_spec.
  change (Prim2SF 0) with (S754_zero false). unfold SF64sub.
  destruct (Prim2SF t) as [s|s| |s m e]; simpl in *; try done.
  - by destruct s.
  - by destruct s.
  - rewrite Z.min_id. by rewrite Z.sub_diag.
Qed.

(** X22: the clock hands 0 to the first frame, whatever the (finite)
    time stamp, and to every later frame the difference with the time
    stamp before. *)
Theorem clock_first_frame_has_no_elapsed_time (prog : Program.t) (t t' : float)
    (ts : list float) (hc : Heap.t * Component.t) :
  finite t = true →
  clock_loop true (λ dt hc, onTick prog dt hc.1 hc.2) t None hc =
    (Some t, onTick prog 0 hc.1 hc.2) ∧
  clock_frames prog (t :: t' :: ts) None hc =
    (hc1 ← onTick prog 0 hc.1 hc.2;
     hc2 ← onTick prog (t' - t) hc1.1 hc1.2;
     clock_frames prog ts (Some t') hc2).
Proof.
  intros F. unfold clock_loop. simpl. rewrite (sub_self t F). done.
Qed.

Lemma clock_first_frame_has_no_elapsed_time_witness :
  clock_loop true (λ dt hc, onTick demoProgram dt hc.1 hc.2) 123456.5 None
             (Heap.empty, playing_initial) =
    (Some 123456.5%float, onTick demoProgram 0 Heap.empty playing_initial) ∧
  clock_frames demoProgram [123456.5; 123473.25]%float None
               (Heap.empty, playing_initial) =
    (hc1 ← onTick demoProgram 0 Heap.empty playing_initial;
     hc2 ← onTick demoProgram (123473.25 - 123456.5) hc1.1 hc1.2;
     clock_frames demoProgram [] (Some 123473.25%float) hc2).
Proof.
  apply (clock_first_frame_has_no_elapsed_time demoProgram 123456.5 123473.25 []
           (Heap.empty, playing_initial)).
  reflexivity.
Defined.

(* ------------------------------------------------------------------- *)
(** ** Frames of a playing component inside a step *)

Lemma advance_view_patches (t : float) (w : World) :
  View.patches (view (advanceInterpolations t w)) =
  (λ e : PatchId * option RuntimePatch.t, (e.1, advancePatch t <$> e.2))
    <$> View.patches (view w).
Proof.
  destruct w as [hp s].
  rewrite (surjective_pairing (advanceInterpolations t (hp, s))).
  cbn [view View.patches]. rewrite advance_patches. cbn [snd].
  rewrite <- list_fmap_compose. apply list_fmap_ext. intros i [k l] Hi. simpl.
  rewrite advance_fold_lookup, decide_True; [done|].
  apply list_elem_of_fmap. exists (k, l). split; [done|].
  by eapply list_elem_of_lookup_2.
Qed.

Lemma advance_view_overlay (t : float) (n : loc) (w : World) :
  fresh_from n w →
  from_option (λ o, Overlay.a o < n ∧ Overlay.b o < n) True
              (RuntimeState.measurementOverlay w.2) →
  View.measurementOverlay (view (advanceInterpolations t w)) =
  (λ o, View.mk_overlay (View.a o) (View.aEdge o) (View.b o) (View.bEdge o)
          (View.outcome o) t) <$> View.measurementOverlay (view w).
Proof.
  destruct w as [hp s]. intros Fr O.
  destruct (advance_fresh n t (hp, s) Fr) as [_ Old].
  rewrite (surjective_pairing (advanceInterpolations t (hp, s))).
  cbn [view View.measurementOverlay]. simpl in *.
  destruct (RuntimeState.measurementOverlay s) as [o|]; [|done]. simpl in *.
  destruct O as [Oa Ob]. by rewrite (Old _ Oa), (Old _ Ob).
Qed.

(** X23: a frame of a playing component inside a step, that does not
    reach [tickMs], adds the elapsed time and keeps the index; it shows
    every patch as its JSON copy, interpolated at the new progress where
    it has both animation fields, and the overlay with the new progress
    but with its two patches as the state before the frame had them. *)
Theorem playing_frame_inside_step (prog : Program.t) (dt : float)
    (hc : Heap.t * Component.t) :
  reachable prog hc → Component.playing hc.2 = true → Program.steps prog ≠ [] →
  (Component.tInStep hc.2 =? 0)%float = false →
  let newT := (Component.tInStep hc.2 + dt)%float in
  let t01 := clamp01 (newT / Program.tickMs prog) in
  (Program.tickMs prog <=? newT)%float = false →
  ∃ hc', onTick prog dt hc.1 hc.2 = Some hc' ∧
    Component.stepIdx hc'.2 = Component.stepIdx hc.2 ∧
    Component.tInStep hc'.2 = newT ∧
    View.patches (view (hc'.1, Component.runtime hc'.2)) =
      (λ e : PatchId * option RuntimePatch.t,
         (e.1, advancePatch t01 <$> (deepCopy_RuntimePatch <$> e.2)))
        <$> View.patches (view (hc.1, Component.runtime hc.2)) ∧
    View.measurementOverlay (view (hc'.1, Component.runtime hc'.2)) =
      (λ o, View.mk_overlay (View.a o) (View.aEdge o) (View.b o) (View.bEdge o)
              (View.outcome o) t01)
        <$> View.measurementOverlay (view (hc.1, Component.runtime hc.2)).
Proof.
  destruct hc as [hp c]. intros R Pl Ne T0 newT t01 Ecommit. cbn [fst snd] in *.
  destruct (reachable_inv _ _ R) as [(C & W & _) _]. cbn [fst snd] in *.
  unfold onTick.
  pose proof (clone_view_patches _ _ C W) as Vp.
  pose proof (clone_view_overlay _ _ C) as Vo.
  pose proof (clone_fresh hp (Component.runtime c)) as [Fr _].
  pose proof (proj2 (proj2 (clone_map_new_overlay_shared hp (Component.runtime c)))) as Eo.
  destruct (cloneRuntimeState hp (Component.runtime c)) as [hp1 rt1].
  assert (Len : (0 < steps_length prog)%Z).
  { unfold steps_length. destruct (Program.steps prog); [done|simpl; lia]. }
  rewrite Pl, (proj2 (Z.ltb_lt _ _) Len), T0. cbn [andb mbind option_bind].
  fold newT. fold t01. rewrite Ecommit.
  eexists. split; [done|].
  cbn [fst snd Component.runtime Component.stepIdx Component.tInStep].
  split; [done|]. split; [done|]. rewrite <- surjective_pairing. split.
  - rewrite advance_view_patches, Vp, <- list_fmap_compose. done.
  - rewrite (advance_view_overlay t01 (Heap.next hp) (hp1, rt1) Fr), Vo; [done|].
    cbn [snd] in *. rewrite Eo. apply C.
Qed.

Lemma playing_frame_inside_step_witness :
  let hc := state_after demoProgram [PressStep; PressPlay; Frame 0; Frame 100] in
  ∃ hc', onTick demoProgram 250 hc.1 hc.2 = Some hc' ∧
    Component.stepIdx hc'.2 = 1%Z ∧
    Component.tInStep hc'.2 = 350%float ∧
    View.patches (view (hc'.1, Component.runtime hc'.2)) =
      (λ e : PatchId * option RuntimePatch.t,
         (e.1, advancePatch 0.5 <$> (deepCopy_RuntimePatch <$> e.2)))
        <$> View.patches (view (hc.1, Component.runtime hc.2)) ∧
    View.measurementOverlay (view (hc'.1, Component.runtime hc'.2)) =
      (λ o, View.mk_overlay (View.a o) (View.aEdge o) (View.b o) (View.bEdge o)
              (View.outcome o) 0.5)
        <$> View.measurementOverlay (view (hc.1, Component.runtime hc.2)).
Proof.
  apply (playing_frame_inside_step demoProgram 250);
    [apply state_after_reachable|by vm_compute|done|by vm_compute|by vm_compute].
Defined.

(* ------------------------------------------------------------------- *)
(** ** The JSON copy *)

Lemma deepCopy_num_json_exact (v : jsnum) : json_exact_num (deepCopy_num v) = true.
Proof.
  destruct v as [f|]; [|done]. simpl. by destruct (classify f) eqn:E; simpl; rewrite ?E.
Qed.

Lemma deepCopy_num_value (v : jsnum) :
  finite (ToNumber v) = true → num_eqb (deepCopy_num v) v = true.
Proof.
  destruct v as [f|]; [|done]. unfold num_eqb, finite. simpl.
  rewrite FloatAxioms.classify_spec.
  destruct (SF64classify (Prim2SF f)) eqn:E; try done; intros _; simpl;
    rewrite FloatAxioms.eqb_spec;
    try (apply SFeqb_refl; intros N; by rewrite N in E).
  change (Prim2SF 0) with (S754_zero false).
  destruct (Prim2SF f) as [s|s| |s m e]; try done; simpl in E.
  - by destruct s.
  - destruct s;
      by destruct (match digits2_pos m with 53%positive => true | _ => false end).
Qed.

(** X24: the JSON copy of a rectangle survives any further copy
    unchanged; copying twice is copying once, for rectangles and for
    patches; a rectangle of finite numbers keeps its numeric values (a
    [-0] becomes [0]), and one without [-0] and non-finite numbers is
    copied exactly. *)
Theorem deep_copy_normalises (r : Rect.t) (p : RuntimePatch.t) :
  json_exact (deepCopy_Rect r) = true ∧
  deepCopy_Rect (deepCopy_Rect r) = deepCopy_Rect r ∧
  deepCopy_RuntimePatch (deepCopy_RuntimePatch p) = deepCopy_RuntimePatch p ∧
  (finite (ToNumber (Rect.x r)) && finite (ToNumber (Rect.y r)) &&
   finite (ToNumber (Rect.w r)) && finite (ToNumber (Rect.h r)) = true →
   rect_eqb (deepCopy_Rect r) r = true) ∧
  (json_exact r = true → deepCopy_Rect r = r).
Proof.
  split; [|split; [apply deepCopy_Rect_idem|split; [apply deepCopy_RuntimePatch_idem|split]]].
  - unfold json_exact, deepCopy_Rect. simpl. by rewrite !deepCopy_num_json_exact.
  - intros [[[Fx Fy]%andb_true_iff Fw]%andb_true_iff Fh]%andb_true_iff.
    unfold rect_eqb, deepCopy_Rect. simpl. by rewrite !deepCopy_num_value.
  - apply deepCopy_Rect_exact.
Qed.

Lemma deep_copy_normalises_witness :
  let r := Rect.mk (JNum (-0)) (JNum 0.5) (JNum infinity) JNull in
  deepCopy_Rect r = Rect.mk (JNum 0) (JNum 0.5) JNull JNull ∧
  json_exact (deepCopy_Rect r) = true ∧
  deepCopy_Rect (deepCopy_Rect r) = deepCopy_Rect r ∧
  rect_eqb (deepCopy_Rect (tile_rect (-3) 0 4 5)) (tile_rect (-3) 0 4 5) = true ∧
  deepCopy_Rect (tile_rect (-3) 0 4 5) = tile_rect (-3) 0 4 5.
Proof.
  pose proof (deep_copy_normalises (Rect.mk (JNum (-0)) (JNum 0.5) (JNum infinity) JNull)
                (deepCopy_Patch patch_q0)) as (A & B & _).
  pose proof (deep_copy_normalises (tile_rect (-3) 0 4 5) (deepCopy_Patch patch_q0))
    as (_ & _ & _ & C & D).
  split; [reflexivity|]. split; [exact A|]. split; [exact B|].
  split; [apply C; reflexivity|apply D; reflexivity].
Defined.

(* ------------------------------------------------------------------- *)
(** ** A move keeps the size while it is animated *)

(** Between two numerically equal end points the interpolation stays put. *)
Lemma lerp_same (a b t : float) :
  finite a = true → finite b = true → finite t = true →
  (a =? b)%float = true → (lerp a b t =? a)%float = true.
Proof.
  unfold finite, lerp.
  rewrite !FloatAxioms.classify_spec, !FloatAxioms.eqb_spec, FloatAxioms.add_spec,
    FloatAxioms.mul_spec, FloatAxioms.sub_spec.
  unfold SF64add, SF64mul, SF64sub, SFeqb.
  destruct (Prim2SF a) as [sa|sa| |sa ma ea] eqn:Ea; try done; try (by destruct sa);
    destruct (Prim2SF b) as [sb|sb| |sb mb eb] eqn:Eb; try done; try (by destruct sb);
    destruct (Prim2SF t) as [st|st| |st mt et] eqn:Et; try done; try (by destruct st);
    intros _ _ _ E;
    try (simpl in E; done); try (by destruct sa, sb, st);
    try (simpl in E; by destruct sa); try (simpl in E; by destruct sb).
  all: destruct (SFcompare (S754_finite sa ma ea) (S754_finite sb mb eb))
         as [[]|] eqn:C; try done;
       apply SFcompare_Eq_finite in C; injection C as -> -> ->;
       cbn [SFsub]; rewrite Z.min_id, Z.sub_diag;
       cbn [binary_normalize SFmul SFadd]; by rewrite SFcompare_refl.
Qed.

(** X25: while a [MoveTo] is animated, at any finite progress, the patch
    keeps the width and the height it had when the step was prepared (as
    numbers; they are finite), and its x and y are interpolated between
    the JSON copy of the old position and the target. *)
Theorem move_animation_keeps_size (hp : Heap.t) (s : RuntimeState.t)
    (id : PatchId) (tx ty : jsnum) (l : loc) (p : RuntimePatch.t) (t : float) :
  map_get (RuntimeState.patches s) id = Some l →
  Heap.objs hp !! l = Some p →
  finite (ToNumber (Rect.w (RuntimePatch.rect p))) = true →
  finite (ToNumber (Rect.h (RuntimePatch.rect p))) = true →
  finite t = true →
  let r := RuntimePatch.rect p in
  ∃ p', Heap.objs (advanceInterpolations t
                     (prepareTick [MoveTo id tx ty] (hp, s))).1 !! l = Some p' ∧
    Rect.x (RuntimePatch.rect p') =
      JNum (lerp (ToNumber (deepCopy_num (Rect.x r))) (ToNumber tx) t) ∧
    Rect.y (RuntimePatch.rect p') =
      JNum (lerp (ToNumber (deepCopy_num (Rect.y r))) (ToNumber ty) t) ∧
    num_eqb (Rect.w (RuntimePatch.rect p')) (Rect.w r) = true ∧
    num_eqb (Rect.h (RuntimePatch.rect p')) (Rect.h r) = true.
Proof.
  intros G Hp Fw Fh Ft r.
  unfold prepareTick. cbn [fold_left fst snd].
  rewrite (prepare_move_found hp (RuntimeState.set_overlay None s) id tx ty l G).
  eexists. split.
  { eapply advance_lookup_mapped; [by apply map_get_elem in G|].
    by apply update_lookup_eq. }
  cbn [advancePatch RuntimePatch._animFrom RuntimePatch._animTo RuntimePatch.set_anim
       RuntimePatch.set_rect RuntimePatch.rect lerpRect Rect.x Rect.y Rect.w Rect.h
       deepCopy_Rect lerp_num].
  split; [done|]. split; [done|]. fold r. unfold num_eqb. cbn [ToNumber].
  pose proof (deepCopy_num_value (Rect.w r) Fw) as Vw.
  pose proof (deepCopy_num_value (Rect.h r) Fh) as Vh. unfold num_eqb in Vw, Vh.
  assert (Fin : ∀ v, finite (ToNumber v) = true → finite (ToNumber (deepCopy_num v)) = true).
  { intros [f|]; [|done]. simpl. unfold finite.
    destruct (classify f) eqn:E; simpl; by rewrite ?E. }
  assert (Tr : ∀ x y z : float,
            finite x = true → finite y = true →
            (x =? y)%float = true → (z =? x)%float = true → (z =? y)%float = true).
  { intros x y z. unfold finite.
    rewrite !FloatAxioms.classify_spec, !FloatAxioms.eqb_spec. unfold SFeqb.
    destruct (Prim2SF x) as [sx|sx| |sx mx ex]; try done; try (by destruct sx);
      destruct (Prim2SF y) as [sy|sy| |sy my ey]; try done; try (by destruct sy);
      intros _ _ E; try (simpl in E; done);
      try (simpl in E; by destruct sx); try (simpl in E; by destruct sy).
    destruct (SFcompare (S754_finite sx mx ex) (S754_finite sy my ey))
      as [[]|] eqn:C; try done.
    apply SFcompare_Eq_finite in C. by injection C as -> -> ->. }
  split.
  - apply (Tr (ToNumber (deepCopy_num (Rect.w r)))); [by apply Fin|done|done|].
    apply lerp_same; [by apply Fin|done|done|done].
  - apply (Tr (ToNumber (deepCopy_num (Rect.h r)))); [by apply Fin|done|done|].
    apply lerp_same; [by apply Fin|done|done|done].
Qed.

Lemma move_animation_keeps_size_witness :
  ∃ p', Heap.objs (advanceInterpolations 0x1.3333333333333p-2
                     (prepareTick [MoveTo "q0" (JNum 10) (JNum 2)] w_init)).1 !! 0
          = Some p' ∧
    Rect.x (RuntimePatch.rect p') = JNum (lerp 6 10 0x1.3333333333333p-2) ∧
    Rect.y (RuntimePatch.rect p') = JNum (lerp 7 2 0x1.3333333333333p-2) ∧
    num_eqb (Rect.w (RuntimePatch.rect p')) (JNum 3) = true ∧
    num_eqb (Rect.h (RuntimePatch.rect p')) (JNum 3) = true.
Proof.
  by apply (move_animation_keeps_size w_init.1 w_init.2 "q0" (JNum 10) (JNum 2) 0
              (deepCopy_Patch patch_q0) 0x1.3333333333333p-2).
Defined.

(* ------------------------------------------------------------------- *)
(** * The Step button against a frame of one tick *)

(* ------------------------------------------------------------------- *)
(** ** Binary64 facts about the time inside a step *)

Section TimeFacts.
Local Open Scope Z_scope.

Lemma shr_1_nonneg (mrs : shr_record) : 0 ≤ shr_m mrs → 0 ≤ shr_m (shr_1 mrs).
Proof. destruct mrs as [[|[p|p|]|p] r s]; simpl; lia. Qed.

Lemma iter_shr_nonneg (p : positive) :
  ∀ mrs : shr_record, 0 ≤ shr_m mrs → 0 ≤ shr_m (SpecFloat.iter_pos shr_1 p mrs).
Proof.
  induction p as [p IH|p IH|]; intros mrs H; simpl.
  - by apply IH, IH, shr_1_nonneg.
  - by apply IH, IH.
  - by apply shr_1_nonneg.
Qed.

Lemma shr_fexp_nonneg (m e : Z) (l : location) :
  0 ≤ m → 0 ≤ shr_m (shr_fexp prec emax m e l).1.
Proof.
  intros H. unfold shr_fexp, shr.
  assert (0 ≤ shr_m (shr_record_of_loc m l)) as H0 by by destruct l as [|[]].
  destruct (fexp prec emax (Zdigits2 m + e) - e); simpl; [done| |done].
  by apply iter_shr_nonneg.
Qed.

Lemma binary_round_aux_not_nan (s : bool) (m e : Z) (l : location) :
  0 ≤ m → is_nanSF (binary_round_aux prec emax s m e l) = false.
Proof.
  intros H. unfold binary_round_aux.
  pose proof (shr_fexp_nonneg m e l H) as H1.
  destruct (shr_fexp prec emax m e l) as [mrs1 e1]. simpl in H1.
  assert (0 ≤ round_nearest_even (shr_m mrs1) (loc_of_shr_record mrs1)) as H2.
  { unfold round_nearest_even.
    destruct (loc_of_shr_record mrs1) as [|[]]; try lia.
    destruct (Z.even (shr_m mrs1)); lia. }
  pose proof (shr_fexp_nonneg _ e1 loc_Exact H2) as H3.
  destruct (shr_fexp prec emax _ e1 loc_Exact) as [mrs2 e2]. simpl in H3.
  destruct (shr_m mrs2); [done| |lia]. by destruct (_ <=? _).
Qed.

Lemma SFdiv_not_nan (x : spec_float) (s : bool) (m : positive) (e : Z) :
  is_nanSF x = false → is_nanSF (SFdiv prec emax x (S754_finite s m e)) = false.
Proof.
  destruct x as [sx|sx| |sx mx ex]; try done. intros _. unfold SFdiv.
  unfold SFdiv_core_binary.
  set (m' := match _ - _ with Z.pos _ => _ | _ => _ end).
  assert (0 ≤ m') as Hm'.
  { unfold m'. destruct (_ - _); try lia. apply Z.shiftl_nonneg. lia. }
  assert (0 ≤ m' / Z.pos m) as Hq by (apply Z.div_pos; lia).
  unfold Z.div in Hq. destruct (Z.div_eucl m' (Z.pos m)) as [q r].
  by apply binary_round_aux_not_nan.
Qed.

Lemma is_nan_SF (x : float) : is_nan x = is_nanSF (Prim2SF x).
Proof.
  destruct (is_nan x) eqn:E.
  - apply is_nan_spec in E. by rewrite E.
  - destruct (Prim2SF x) eqn:P; try done.
    apply is_nan_spec in P. congruence.
Qed.

Lemma div_not_nan (x y : float) :
  is_nan x = false → finite y = true → (y =? 0)%float = false →
  is_nan (x / y) = false.
Proof.
  rewrite !is_nan_SF, finite_SF, FloatAxioms.eqb_spec, FloatAxioms.div_spec.
  change (Prim2SF 0) with (S754_zero false). intros Nx Fy Zy.
  destruct (Prim2SF y) as [sy|sy| |sy my ey]; try done.
  by apply SFdiv_not_nan.
Qed.

Lemma clamp01_finite (x : float) : is_nan x = false → finite (clamp01 x) = true.
Proof.
  intros Nx. rewrite clamp01_eq, Nx.
  destruct (x <=? 0)%float eqn:E0; [done|].
  destruct (1 <=? x)%float eqn:E1; [done|].
  rewrite finite_SF. rewrite is_nan_SF in Nx.
  rewrite FloatAxioms.leb_spec in E0, E1.
  change (Prim2SF 0) with (S754_zero false) in E0.
  change (Prim2SF 1) with (S754_finite false 4503599627370496 (-52)) in E1.
  by destruct (Prim2SF x) as [s|[]| |s m e].
Qed.

(** A number other than [-0] is where the interpolation from it to
    itself stays. *)
Lemma lerp_fixed (a t : float) :
  json_exact_num (JNum a) = true → finite t = true → lerp a a t = a.
Proof.
  intros Ha Ft. assert (finite a = true) as Fa.
  { unfold finite. simpl in Ha. by destruct (classify a). }
  unfold lerp. rewrite sub_self by done.
  apply Prim2SF_inj. rewrite FloatAxioms.add_spec, FloatAxioms.mul_spec.
  change (Prim2SF 0) with (S754_zero false).
  simpl in Ha. rewrite FloatAxioms.classify_spec in Ha. rewrite finite_SF in Ft.
  unfold SF64classify in Ha.
  destruct (Prim2SF a) as [[]|[]| |sa ma ea], (Prim2SF t) as [st|st| |st mt et];
    try done; by destruct st.
Qed.

Lemma nan_add (x y : float) : is_nan x = true → is_nan (x + y) = true.
Proof.
  rewrite !is_nan_SF, FloatAxioms.add_spec. by destruct (Prim2SF x).
Qed.

Lemma leb_zero_not_nan (x : float) : (0 <=? x)%float = true → is_nan x = false.
Proof. intros H. rewrite is_nan_SF. by destruct (leb_not_nan 0 x H). Qed.

(** Time that is not negative, added to a tick duration, reaches it. *)
Lemma tick_end (a x : float) :
  finite a = true → (0 <=? x)%float = true → (a <=? x + a)%float = true.
Proof.
  intros Fa H. destruct (leb_not_nan 0 x H) as [_ Nx].
  assert (is_nanSF (Prim2SF a) = false) as Na.
  { apply finiteSF_not_nan. by rewrite <- finite_SF. }
  destruct (finite x) eqn:Fx.
  - destruct (add_scaled x a Fx Fa) as [E1 N1].
    apply (le_leb (-1074)); [lia|done|done|]. rewrite E1.
    rewrite <- (round_scaled_scaled (-1074) a) at 1 by (done || lia).
    apply round_scaled_mono; [lia|]. apply (leb_le (-1074)) in H; [|lia].
    rewrite scaled_zero in H. lia.
  - rewrite finite_SF in Fa, Fx. rewrite FloatAxioms.leb_spec in H |- *.
    rewrite FloatAxioms.add_spec. unfold SF64add.
    change (Prim2SF 0) with (S754_zero false) in H.
    destruct (Prim2SF x) as [sx|[]| |sx mx ex]; try done.
    destruct (Prim2SF a) as [sa|sa| |sa ma ea]; try done.
Qed.

Lemma zero_add (x a : float) :
  (x =? 0)%float = true → finite a = true → (a =? 0)%float = false →
  (x + a)%float = a.
Proof.
  rewrite finite_SF, !FloatAxioms.eqb_spec. change (Prim2SF 0) with (S754_zero false).
  intros Hx Fa Na. apply Prim2SF_inj. rewrite FloatAxioms.add_spec. unfold SF64add.
  destruct (Prim2SF x) as [sx|[]| |[] mx ex]; try done.
  by destruct (Prim2SF a) as [sa|sa| |sa ma ea].
Qed.

Lemma leb_refl (x : float) : is_nan x = false → (x <=? x)%float = true.
Proof.
  rewrite is_nan_SF, FloatAxioms.leb_spec. intros N. unfold SFleb.
  rewrite SFcompare_refl; [done|]. intros E. by rewrite E in N.
Qed.

End TimeFacts.

(* ------------------------------------------------------------------- *)
(** ** A commit overwrites what two states differ in *)

Lemma settled_update (a : Action) (acts : list Action) (k : PatchId)
    (f : RuntimePatch.t → RuntimePatch.t) (p q : RuntimePatch.t) :
  settled (a :: acts) k p q →
  (same_shell p q → settles_rect k a = true → f p = f q) →
  (same_size p q → settles_place k a = true → f p = f q) →
  (same_shell p q → same_shell (f p) (f q)) →
  (same_size p q → same_size (f p) (f q)) →
  settled acts k (f p) (f q).
Proof.
  intros [->|[[Sz E]|[Sh E]]] H1 H2 H3 H4; [by left| |].
  - cbn [existsb] in E. apply orb_true_iff in E as [E|E].
    + left. by apply H2.
    + right. left. split; [by apply H4|done].
  - cbn [existsb] in E. apply orb_true_iff in E as [E|E].
    + left. by apply H1.
    + right. right. split; [by apply H3|done].
Qed.

Lemma settled_skip (a : Action) (acts : list Action) (k : PatchId)
    (p q : RuntimePatch.t) :
  settled (a :: acts) k p q → settles_place k a = false → settled acts k p q.
Proof.
  intros [->|[[Sz E]|[Sh E]]] N; [by left| |].
  - cbn [existsb] in E. rewrite N in E. right. by left.
  - cbn [existsb] in E. unfold settles_place in N.
    apply orb_false_iff in N as [N _]. rewrite N in E. right. by right.
Qed.

Lemma agree_update (a : Action) (acts : list Action) (id : PatchId)
    (f : RuntimePatch.t → RuntimePatch.t) (h1 h2 : Heap.t) (s1 s2 : RuntimeState.t)
    (l0 : loc) :
  agree_upto (a :: acts) (h1, s1) (h2, s2) →
  is_TwoPatchMeas a = false →
  map_get (RuntimeState.patches s1) id = Some l0 →
  (∀ k, k ≠ id → settles_place k a = false) →
  (∀ p, RuntimePatch.id (f p) = RuntimePatch.id p) →
  (∀ p q, same_shell p q → settles_rect id a = true → f p = f q) →
  (∀ p q, same_size p q → settles_place id a = true → f p = f q) →
  (∀ p q, same_shell p q → same_shell (f p) (f q)) →
  (∀ p q, same_size p q → same_size (f p) (f q)) →
  agree_upto acts (Heap.update l0 f h1, s1) (Heap.update l0 f h2, s2).
Proof.
  intros (C & W & Em & En & Ho & Hobj) Na G Hother Hid H1 H2 H3 H4.
  cbn [fst snd] in *. split; [|split; [|split; [|split; [|split]]]]; cbn [fst snd].
  - destruct C as [Ch Cs]. by apply update_closed.
  - by apply update_well_formed.
  - done.
  - by rewrite !update_next.
  - destruct Ho as [Ho|Ho]; [by left|]. cbn [existsb] in Ho. rewrite Na in Ho.
    by right.
  - intros k l Gk. destruct (Hobj k l Gk) as (p & q & E1 & E2 & S).
    rewrite !update_lookup. destruct (decide (l0 = l)) as [->|Nl].
    + assert (id = k) as ->.
      { destruct W as (_ & N2 & _). by apply (map_get_inj _ _ _ l N2). }
      exists (f p), (f q). rewrite E1, E2. split; [done|]. split; [done|].
      apply (settled_update a); auto.
    + exists p, q. split; [done|]. split; [done|].
      apply (settled_skip a); [done|]. apply Hother. intros ->.
      rewrite G in Gk. by injection Gk.
Qed.

Lemma agree_skip (a : Action) (acts : list Action) (w1 w2 : World) :
  agree_upto (a :: acts) w1 w2 →
  is_TwoPatchMeas a = false →
  (∀ k l, map_get (RuntimeState.patches w1.2) k = Some l → settles_place k a = false) →
  agree_upto acts w1 w2.
Proof.
  intros (C & W & Em & En & Ho & Hobj) Na Hs.
  split; [done|]. split; [done|]. split; [done|]. split; [done|]. split.
  - destruct Ho as [Ho|Ho]; [by left|]. cbn [existsb] in Ho. rewrite Na in Ho.
    by right.
  - intros k l Gk. destruct (Hobj k l Gk) as (p & q & E1 & E2 & S).
    exists p, q. split; [done|]. split; [done|].
    apply (settled_skip a); [done|]. by apply (Hs k l).
Qed.

Ltac shell_tac :=
  let p := fresh "p" in
  let q := fresh "q" in
  intros p q; destruct p as [? [] ? ? ? ?], q as [? [] ? ? ? ?];
  unfold same_size, same_shell, RuntimePatch.set_anim, RuntimePatch.set_rect,
    RuntimePatch.set_edges; cbn; intuition congruence.

Lemma agree_step (a : Action) (acts : list Action) (w1 w2 : World) :
  agree_upto (a :: acts) w1 w2 →
  agree_upto acts (commitAction a w1) (commitAction a w2).
Proof.
  destruct w1 as [h1 s1], w2 as [h2 s2]. intros A.
  pose proof A as (C & W & Em & En & Ho & Hobj). cbn [fst snd] in *.
  destruct a as [patch|id R|id tx ty|i1 e1 i2 e2 o|id b o|id|id];
    cbn [commitAction]; rewrite <- ?Em.
  - (* InitPatch *)
    unfold Heap.alloc. rewrite <- En.
    split; [by apply (commitAction_closed (InitPatch patch) (h1, s1))|].
    split; [by apply (commitAction_well_formed (InitPatch patch) (h1, s1))|].
    cbn [fst snd RuntimeState.patches RuntimeState.set_patches Heap.next Heap.objs
         RuntimeState.measurementOverlay].
    split; [done|]. split; [done|]. split.
    { destruct Ho as [Ho|Ho]; [by left|]. by right. }
    intros k l Gk. rewrite map_get_set in Gk.
    destruct (decide (Patch.id patch = k)) as [Ek|Nk].
    + injection Gk as <-. exists (deepCopy_Patch patch), (deepCopy_Patch patch).
      rewrite !lookup_insert_eq. split; [done|]. split; [done|]. by left.
    + destruct (Hobj k l Gk) as (p & q & E1 & E2 & S).
      assert (l < Heap.next h1) as Hl.
      { destruct C as [_ [F _]]. apply map_get_elem in Gk.
        by apply (proj1 (Forall_forall _ _) F) in Gk. }
      exists p, q. rewrite !lookup_insert_ne by lia.
      split; [done|]. split; [done|]. apply (settled_skip (InitPatch patch)); [done|].
      unfold settles_place. cbn. by rewrite bool_decide_eq_false_2.
  - (* DeformTo *)
    destruct (map_get (RuntimeState.patches s1) id) as [l0|] eqn:G.
    + apply (agree_update (DeformTo id R) acts id); try done; try shell_tac.
      * intros k Nk. unfold settles_place. cbn.
        by rewrite bool_decide_eq_false_2 by done.
    + apply (agree_skip (DeformTo id R)); [done..|].
      intros k l Gk. unfold settles_place. cbn. rewrite orb_false_r.
      apply bool_decide_eq_false_2. intros ->. cbn [fst snd] in Gk. congruence.
  - (* MoveTo *)
    destruct (map_get (RuntimeState.patches s1) id) as [l0|] eqn:G.
    + apply (agree_update (MoveTo id tx ty) acts id); try done; try shell_tac.
      * intros k Nk. unfold settles_place. cbn.
        by rewrite bool_decide_eq_false_2 by done.
    + apply (agree_skip (MoveTo id tx ty)); [done..|].
      intros k l Gk. unfold settles_place. cbn.
      apply bool_decide_eq_false_2. intros ->. cbn [fst snd] in Gk. congruence.
  - (* TwoPatchMeas *)
    split; [by apply (commitAction_closed (TwoPatchMeas i1 e1 i2 e2 o) (h1, s1))|].
    split; [done|]. split; [done|]. split; [done|]. split; [by left|].
    intros k l Gk. destruct (Hobj k l Gk) as (p & q & E1 & E2 & S).
    exists p, q. split; [done|]. split; [done|].
    by apply (settled_skip (TwoPatchMeas i1 e1 i2 e2 o)).
  - (* SinglePatchMeas *)
    by apply (agree_skip (SinglePatchMeas id b o)).
  - (* RotateEdges *)
    destruct (map_get (RuntimeState.patches s1) id) as [l0|] eqn:G.
    + apply (agree_update (RotateEdges id) acts id); try done; try shell_tac.
    + by apply (agree_skip (RotateEdges id)).
  - (* Discard *)
    split; [by apply (commitAction_closed (Discard id) (h1, s1))|].
    split; [by apply (commitAction_well_formed (Discard id) (h1, s1))|].
    cbn [fst snd RuntimeState.patches RuntimeState.set_patches
         RuntimeState.measurementOverlay].
    split; [done|]. split; [done|]. split.
    { destruct Ho as [Ho|Ho]; [by left|]. by right. }
    intros k l Gk. rewrite map_get_delete_ne in Gk.
    destruct (decide (id = k)) as [Ek|Nk]; [done|].
    destruct (Hobj k l Gk) as (p & q & E1 & E2 & S).
    exists p, q. split; [done|]. split; [done|].
    apply (settled_skip (Discard id)); [done|].
    unfold settles_place. cbn. by rewrite bool_decide_eq_false_2.
Qed.

Lemma agree_commit (acts : list Action) (w1 w2 : World) :
  agree_upto acts w1 w2 →
  agree_upto [] (commitActions acts w1) (commitActions acts w2).
Proof.
  revert w1 w2. induction acts as [|a acts IH]; intros w1 w2 A; [done|].
  unfold commitActions. cbn [fold_left]. by apply IH, agree_step.
Qed.

Lemma agree_view (w1 w2 : World) : agree_upto [] w1 w2 → view w1 = view w2.
Proof.
  destruct w1 as [h1 s1], w2 as [h2 s2].
  intros (C & W & Em & En & Ho & Hobj). cbn [fst snd] in *. unfold view.
  destruct Ho as [[-> ->]|Ho]; [|done]. rewrite <- Em. f_equal.
  apply list_fmap_ext. intros i [k l] Hi. cbn [fst snd]. f_equal.
  assert (map_get (RuntimeState.patches s1) k = Some l) as G.
  { destruct W as (N1 & _). apply map_get_In; [done|]. by eapply list_elem_of_lookup_2. }
  destruct (Hobj k l G) as (p & q & E1 & E2 & [->|[[_ ?]|[_ ?]]]); [|done..].
  by rewrite E1, E2.
Qed.

Lemma commit_settles (acts : list Action) (w1 w2 : World) :
  agree_upto acts w1 w2 →
  view (commitActions acts w1) = view (commitActions acts w2).
Proof. intros A. by apply agree_view, agree_commit. Qed.

(* ------------------------------------------------------------------- *)
(** ** Patches that a step only moves keep their size *)

Lemma animates_cases (k : PatchId) (acts : list Action) :
  existsb (animates k) acts = true → existsb (deforms k) acts = false →
  existsb (settles_place k) acts = true.
Proof.
  induction acts as [|a acts IH]; [done|]. cbn [existsb].
  intros [A|A]%orb_true_iff [D1 D2]%orb_false_iff; apply orb_true_iff.
  - left. destruct a; try done. unfold settles_place. cbn in *. by rewrite A.
  - right. by apply IH.
Qed.

Lemma deforms_settles (k : PatchId) (acts : list Action) :
  existsb (deforms k) acts = true → existsb (settles_rect k) acts = true.
Proof.
  induction acts as [|a acts IH]; [done|]. cbn [existsb].
  intros [A|A]%orb_true_iff; apply orb_true_iff.
  - left. by destruct a.
  - right. by apply IH.
Qed.

Lemma deforms_animates (k : PatchId) (acts : list Action) :
  existsb (animates k) acts = false → existsb (deforms k) acts = false.
Proof.
  induction acts as [|a acts IH]; [done|]. cbn [existsb].
  intros [A1 A2]%orb_false_iff. apply orb_false_iff. split; [|by apply IH].
  by destruct a.
Qed.

Lemma steady_width (F G r : Rect.t) (t : float) :
  steady F G r → finite t = true →
  Rect.w (lerpRect F G t) = JNum (ToNumber (Rect.w r)) ∧
  Rect.h (lerpRect F G t) = JNum (ToNumber (Rect.h r)).
Proof.
  intros [(W1 & W2 & W3) (H1 & H2 & H3)] Ft. unfold lerpRect, lerp_num.
  cbn [Rect.w Rect.h ToNumber].
  rewrite <- W1, <- H1, W2, H2. by rewrite !lerp_fixed.
Qed.

Lemma steady_advance (F G r : Rect.t) (t : float) :
  steady F G r → finite t = true → steady F G (lerpRect F G t).
Proof.
  intros S Ft. destruct (steady_width F G r t S Ft) as [Ew Eh].
  destruct S as [(W1 & W2 & W3) (H1 & H2 & H3)].
  split; (split; [done|]); (split; [|done]).
  - by rewrite Ew.
  - by rewrite Eh.
Qed.

Lemma deepCopy_ToNumber (v : jsnum) :
  json_exact_num (JNum (ToNumber v)) = true → ToNumber (deepCopy_num v) = ToNumber v.
Proof.
  destruct v as [f|]; [|done]. cbn. by destruct (classify f).
Qed.

Lemma steady_num_copy (a b c : jsnum) :
  steady_num a b c → steady_num (deepCopy_num a) (deepCopy_num b) (deepCopy_num c).
Proof.
  intros (E1 & E2 & E3).
  assert (ToNumber (deepCopy_num a) = ToNumber a) as Ea by by apply deepCopy_ToNumber.
  assert (ToNumber (deepCopy_num b) = ToNumber b) as Eb
    by (apply deepCopy_ToNumber; by rewrite <- E1).
  assert (ToNumber (deepCopy_num c) = ToNumber c) as Ec
    by (apply deepCopy_ToNumber; by rewrite E2).
  unfold steady_num. rewrite Ea, Eb, Ec. done.
Qed.

Lemma steady_copy (F G r : Rect.t) :
  steady F G r → steady (deepCopy_Rect F) (deepCopy_Rect G) (deepCopy_Rect r).
Proof. intros [S1 S2]. split; by apply steady_num_copy. Qed.

Lemma json_exact_ToNumber (v : jsnum) :
  json_exact_num v = true → json_exact_num (JNum (ToNumber v)) = true.
Proof. by destruct v. Qed.

Lemma steady_prepared (r : Rect.t) (x y : jsnum) :
  json_exact r = true →
  steady (deepCopy_Rect r) (Rect.mk x y (Rect.w r) (Rect.h r)) r.
Proof.
  unfold json_exact. rewrite !andb_true_iff. intros [[[_ _] Ew] Eh].
  unfold steady, steady_num, deepCopy_Rect. cbn.
  rewrite !deepCopy_num_exact by done. by repeat split; try apply json_exact_ToNumber.
Qed.

(** *** What prepare leaves in a patch *)

Lemma strip_eq_set_anim (p q : RuntimePatch.t) (f g : option Rect.t) :
  strip p = strip q → RuntimePatch.set_anim f g p = RuntimePatch.set_anim f g q.
Proof.
  destruct p, q. unfold strip, RuntimePatch.set_anim. cbn. by intros [= -> -> -> ->].
Qed.

Lemma prepare_fold_written (acts : list Action) (w : World) (k : PatchId)
    (l : loc) (p : RuntimePatch.t) :
  well_formed w →
  map_get (RuntimeState.patches w.2) k = Some l → Heap.objs w.1 !! l = Some p →
  existsb (animates k) acts = true →
  ∃ F G,
    Heap.objs (fold_left (λ w act, prepareAction act w) acts w).1 !! l =
      Some (RuntimePatch.set_anim (Some F) (Some G) p) ∧
    (existsb (deforms k) acts = false →
     F = deepCopy_Rect (RuntimePatch.rect p) ∧
     ∃ x y, G = Rect.mk x y (Rect.w (RuntimePatch.rect p))
                        (Rect.h (RuntimePatch.rect p))).
Proof.
  intros W Gk Hp. induction acts as [|a acts IH] using rev_ind; [done|].
  rewrite fold_left_app, !existsb_app. cbn [fold_left existsb]. rewrite !orb_false_r.
  set (w' := fold_left (λ w act, prepareAction act w) acts w) in *.
  pose proof (prepare_fold_patches acts w) as Ep. fold w' in Ep.
  pose proof (prepare_fold_keeps_frame acts w) as (_ & _ & Es). fold w' in Es.
  specialize (Es l). rewrite Hp in Es.
  destruct (Heap.objs w'.1 !! l) as [p'|] eqn:Hp'; [|done].
  assert (∀ f g, RuntimePatch.set_anim f g p' = RuntimePatch.set_anim f g p
                 ∧ RuntimePatch.rect p' = RuntimePatch.rect p) as Eq.
  { intros f g. change (Some (strip p') = Some (strip p)) in Es.
    apply (inj Some) in Es. split; [by apply strip_eq_set_anim|].
    destruct p, p'. unfold strip, RuntimePatch.set_anim in Es. cbn in *. congruence. }
  clear Es. intros A. rewrite (surjective_pairing w'), prepareAction_lookup, Ep.
  destruct (animates k a) eqn:Aa.
  - (* the last action writes the patch *)
    destruct a as [|id R|id x y| | | |]; try done; cbn in Aa;
      apply bool_decide_eq_true in Aa; subst id; cbn [writes];
      rewrite bool_decide_eq_true_2 by done; rewrite Hp';
      cbn [fmap option_fmap option_map anim_of].
    + eexists _, _. split; [f_equal; apply Eq|].
      cbn. rewrite bool_decide_eq_true_2 by done. by rewrite orb_true_r.
    + eexists _, _. split; [f_equal; apply Eq|].
      intros _. destruct (Eq None None) as [_ ->]. eauto.
  - rewrite orb_false_r in A. destruct (IH A) as (F & G & E & Hd).
    assert (writes (RuntimeState.patches w.2) a l = false) as ->.
    { destruct a as [|id R|id x y| | | |]; try done; cbn in *;
        apply bool_decide_eq_false_2; intros Gid;
        apply bool_decide_eq_false in Aa; apply Aa;
        destruct W as (_ & N2 & _); by apply (map_get_inj _ _ _ l N2). }
    exists F, G. split; [by rewrite Hp'|]. intros [D _]%orb_false_iff. by apply Hd.
Qed.

Lemma prepare_fold_untouched (acts : list Action) (w : World) (k : PatchId) (l : loc) :
  well_formed w →
  map_get (RuntimeState.patches w.2) k = Some l →
  existsb (animates k) acts = false →
  Heap.objs (fold_left (λ w act, prepareAction act w) acts w).1 !! l =
  Heap.objs w.1 !! l.
Proof.
  intros W Gk A. apply prepare_fold_unwritten. apply Forall_forall.
  intros a Ha. destruct (writes (RuntimeState.patches w.2) a l) eqn:Wr; [|done].
  assert (animates k a = true) as Aa.
  { destruct a as [|id R|id x y| | | |]; try done; cbn in *;
      apply bool_decide_eq_true in Wr; apply bool_decide_eq_true_2;
      destruct W as (_ & N2 & _); by apply (map_get_inj _ _ _ l N2). }
  assert (existsb (animates k) acts = true); [|congruence].
  apply existsb_exists. exists a. split; [by apply list_elem_of_In|done].
Qed.

Lemma prepareTick_lookup (acts : list Action) (w : World) :
  Heap.objs (prepareTick acts w).1 =
  Heap.objs (fold_left (λ w act, prepareAction act w) acts
               (w.1, RuntimeState.set_overlay None w.2)).1.
Proof. done. Qed.

Lemma wf_lookup (w : World) (k : PatchId) (l : loc) :
  well_formed w → map_get (RuntimeState.patches w.2) k = Some l →
  is_Some (Heap.objs w.1 !! l).
Proof.
  intros (_ & _ & I) Gk. apply map_get_elem in Gk.
  apply (proj1 (Forall_forall _ _) I) in Gk. cbn [fst snd] in Gk.
  destruct (Heap.objs w.1 !! l); [by eexists|done].
Qed.

Lemma sized_prepare (acts : list Action) (w : World) :
  well_formed w → exact_rects w → named_only acts w →
  sized acts (prepareTick acts w).
Proof.
  intros W X N k l q F G Gk Hq HF HG D.
  rewrite prepareTick_patches in Gk. unfold prepareTick in Hq.
  assert (W0 : well_formed (w.1, RuntimeState.set_overlay None w.2)) by done.
  destruct (wf_lookup w k l W Gk) as [p Hp].
  destruct (existsb (animates k) acts) eqn:A.
  - destruct (prepare_fold_written acts (w.1, RuntimeState.set_overlay None w.2)
                k l p W0 Gk Hp A) as (F' & G' & E & Hd).
    rewrite E in Hq. injection Hq as <-. cbn in HF, HG.
    injection HF as <-. injection HG as <-.
    destruct (Hd D) as (-> & x & y & ->). cbn.
    apply steady_prepared. by apply (X k l).
  - rewrite (prepare_fold_untouched acts (w.1, RuntimeState.set_overlay None w.2)
               k l W0 Gk A) in Hq.
    cbn in Hq. assert (animated_in w k = true) as An.
    { apply animated_in_Some. exists l, q. split; [done|]. split; [done|].
      unfold animated. by rewrite HF. }
    apply N in An. congruence.
Qed.

Lemma primed_prepare (acts : list Action) (w : World) :
  well_formed w → closed w → primed acts (prepareTick acts w).
Proof.
  intros W C k l q Gk Hq A.
  rewrite prepareTick_patches in Gk. unfold prepareTick in Hq.
  assert (W0 : well_formed (w.1, RuntimeState.set_overlay None w.2)) by done.
  destruct (wf_lookup w k l W Gk) as [p Hp].
  destruct (prepare_fold_written acts (w.1, RuntimeState.set_overlay None w.2)
              k l p W0 Gk Hp A) as (F' & G' & E & _).
  rewrite E in Hq. injection Hq as <-. by split; eexists.
Qed.

(** *** Clones and advances of sized states *)

Lemma sized_clone (acts : list Action) (hp : Heap.t) (s : RuntimeState.t) :
  closed (hp, s) → well_formed (hp, s) →
  sized acts (hp, s) → sized acts (cloneRuntimeState hp s).
Proof.
  intros C W S k l' p' F' G' Gk Hp' HF HG D.
  destruct (clone_map_get hp s k l' C W Gk) as (l & p & G0 & Hp & E).
  rewrite E in Hp'. injection Hp' as <-. cbn in HF, HG.
  destruct (RuntimePatch._animFrom p) as [F|] eqn:EF; [|done].
  destruct (RuntimePatch._animTo p) as [G|] eqn:EG; [|done].
  injection HF as <-. injection HG as <-. cbn.
  apply steady_copy. by apply (S k l p).
Qed.

Lemma primed_clone (acts : list Action) (hp : Heap.t) (s : RuntimeState.t) :
  closed (hp, s) → well_formed (hp, s) →
  primed acts (hp, s) → primed acts (cloneRuntimeState hp s).
Proof.
  intros C W P k l' p' Gk Hp' A.
  destruct (clone_map_get hp s k l' C W Gk) as (l & p & G0 & Hp & E).
  rewrite E in Hp'. injection Hp' as <-. cbn.
  destruct (P k l p G0 Hp A) as [[F ->] [G ->]]. by split; eexists.
Qed.

Lemma json_exact_copy (r : Rect.t) : json_exact (deepCopy_Rect r) = true.
Proof.
  unfold json_exact, deepCopy_Rect. cbn. by rewrite !deepCopy_num_json_exact.
Qed.

Lemma exact_rects_clone (hp : Heap.t) (s : RuntimeState.t) :
  closed (hp, s) → well_formed (hp, s) → exact_rects (cloneRuntimeState hp s).
Proof.
  intros C W k l' p' Gk Hp'.
  destruct (clone_map_get hp s k l' C W Gk) as (l & p & G0 & Hp & E).
  rewrite E in Hp'. injection Hp' as <-. apply json_exact_copy.
Qed.

Lemma step_ok_named (st : Step.t) (w : World) :
  step_ok (Some st) w → named_only (Step.actions st) w.
Proof.
  intros (_ & _ & _ & N) k A. destruct (N k A) as (st' & [= <-] & E). exact E.
Qed.

Lemma advance_map_lookup (t : float) (w : World) (k : PatchId) (l : loc)
    (p' : RuntimePatch.t) :
  map_get (RuntimeState.patches w.2) k = Some l →
  Heap.objs (advanceInterpolations t w).1 !! l = Some p' →
  ∃ p, Heap.objs w.1 !! l = Some p ∧ p' = advancePatch t p.
Proof.
  destruct w as [hp s]. cbn [fst snd]. intros Gk. rewrite advance_lookup.
  rewrite decide_True.
  2:{ apply list_elem_of_fmap. exists (k, l). split; [done|by apply map_get_elem]. }
  destruct (Heap.objs hp !! l) as [p|]; [|done]. intros [= <-]. by exists p.
Qed.

Lemma advancePatch_anim (t : float) (p : RuntimePatch.t) :
  RuntimePatch._animFrom (advancePatch t p) = RuntimePatch._animFrom p ∧
  RuntimePatch._animTo (advancePatch t p) = RuntimePatch._animTo p.
Proof. unfold advancePatch. by destruct p as [i r e lb [f|] [g|]]. Qed.

Lemma advancePatch_rect (t : float) (p : RuntimePatch.t) (F G : Rect.t) :
  RuntimePatch._animFrom p = Some F → RuntimePatch._animTo p = Some G →
  RuntimePatch.rect (advancePatch t p) = lerpRect F G t.
Proof. unfold advancePatch. by intros -> ->. Qed.

Lemma sized_advance (acts : list Action) (t : float) (w : World) :
  sized acts w → finite t = true → sized acts (advanceInterpolations t w).
Proof.
  intros S Ft k l p' F G Gk Hp' HF HG D. rewrite advance_patches in Gk.
  destruct (advance_map_lookup t w k l p' Gk Hp') as (p & Hp & ->).
  destruct (advancePatch_anim t p) as [EF EG]. rewrite EF in HF. rewrite EG in HG.
  rewrite (advancePatch_rect t p F G HF HG).
  apply (steady_advance F G (RuntimePatch.rect p)); [|done]. by apply (S k l p).
Qed.

Lemma primed_advance (acts : list Action) (t : float) (w : World) :
  primed acts w → primed acts (advanceInterpolations t w).
Proof.
  intros P k l p' Gk Hp' A. rewrite advance_patches in Gk.
  destruct (advance_map_lookup t w k l p' Gk Hp') as (p & Hp & ->).
  destruct (advancePatch_anim t p) as [-> ->]. by apply (P k l).
Qed.

Lemma advancePatch_shell (t : float) (p : RuntimePatch.t) :
  same_shell (advancePatch t p) p.
Proof. unfold advancePatch. by destruct p as [i r e lb [f|] [g|]]. Qed.

Lemma same_shell_sym (p q : RuntimePatch.t) : same_shell p q → same_shell q p.
Proof. by intros (E1 & E2 & E3). Qed.

Lemma same_shell_trans (p q r : RuntimePatch.t) :
  same_shell p q → same_shell q r → same_shell p r.
Proof.
  intros (E1 & E2 & E3) (E4 & E5 & E6). unfold same_shell.
  by rewrite E1, E2, E3, E4, E5, E6.
Qed.

Lemma same_size_set_rect (p q : RuntimePatch.t) (r r' : Rect.t) :
  same_shell p q → Rect.w r = Rect.w r' → Rect.h r = Rect.h r' →
  same_size (RuntimePatch.set_rect r p) (RuntimePatch.set_rect r' q).
Proof. by intros (E1 & E2 & E3) Ew Eh. Qed.

Lemma same_shell_refl (p : RuntimePatch.t) : same_shell p p.
Proof. done. Qed.

(** Two advances of one state agree once its step has committed. *)
Lemma agree_advance (acts : list Action) (t t' : float) (w : World) :
  closed w → well_formed w → sized acts w → named_only acts w →
  finite t = true → finite t' = true →
  (RuntimeState.measurementOverlay w.2 = None ∨
   existsb is_TwoPatchMeas acts = true) →
  agree_upto acts (advanceInterpolations t w) (advanceInterpolations t' w).
Proof.
  intros C W S N Ft Ft' Ho.
  split; [by apply advance_closed|]. split; [by apply advance_well_formed|].
  split; [by rewrite !advance_patches|]. split; [by rewrite !advance_next|].
  split.
  { destruct Ho as [Ho|Ho]; [left|by right]. destruct w as [hp s]. cbn in *.
    by rewrite Ho. }
  intros k l Gk. rewrite advance_patches in Gk.
  destruct (wf_lookup w k l W Gk) as [p Hp].
  pose proof (map_get_elem _ _ _ Gk) as I.
  exists (advancePatch t p), (advancePatch t' p).
  destruct w as [hp s]. cbn [fst snd] in *.
  rewrite !(advance_lookup_mapped _ _ _ k l p I Hp). split; [done|]. split; [done|].
  unfold advancePatch.
  destruct (RuntimePatch._animFrom p) as [F|] eqn:EF; [|by left].
  destruct (RuntimePatch._animTo p) as [G|] eqn:EG; [|by left].
  destruct (existsb (deforms k) acts) eqn:D.
  - right. right. split; [|by apply deforms_settles]. by destruct p.
  - right. left. split.
    + destruct (steady_width F G (RuntimePatch.rect p) t) as [E1 E2];
        [by apply (S k l p)|done|].
      destruct (steady_width F G (RuntimePatch.rect p) t') as [E3 E4];
        [by apply (S k l p)|done|].
      apply same_size_set_rect; [done|by rewrite E1, E3|by rewrite E2, E4].
    + apply animates_cases; [|done]. apply N, animated_in_Some.
      exists l, p. split; [done|]. split; [done|]. unfold animated. by rewrite EF.
Qed.

(** Advancing a prepared state, or the state as an earlier frame of the
    step left it, agrees once the step has committed. *)
Lemma agree_prepare (acts : list Action) (t : float) (w : World) :
  closed w → well_formed w → sized acts w → primed acts w → named_only acts w →
  exact_rects w → finite t = true →
  (RuntimeState.measurementOverlay w.2 = None ∨
   existsb is_TwoPatchMeas acts = true) →
  agree_upto acts (advanceInterpolations t w)
    (advanceInterpolations t (prepareTick acts w)).
Proof.
  intros C W S P N X Ft Ho.
  split; [by apply advance_closed|]. split; [by apply advance_well_formed|].
  split; [by rewrite !advance_patches, prepareTick_patches|].
  split.
  { rewrite !advance_next. unfold prepareTick.
    pose proof (prepare_fold_keeps_frame acts (w.1, RuntimeState.set_overlay None w.2))
      as (_ & E & _). done. }
  split.
  { destruct (existsb is_TwoPatchMeas acts) eqn:T; [by right|left].
    destruct Ho as [Ho|Ho]; [|done].
    assert (RuntimeState.measurementOverlay (prepareTick acts w).2 = None) as Hn.
    { destruct (RuntimeState.measurementOverlay (prepareTick acts w).2) eqn:E; [|done].
      assert (existsb is_TwoPatchMeas acts = true); [|congruence].
      apply (prepareTick_overlay_Some acts w). by rewrite E. }
    destruct w as [hp s], (prepareTick acts (hp, s)) as [hp' s']. cbn in *.
    by rewrite Ho, Hn. }
  intros k l Gk. rewrite advance_patches in Gk.
  destruct (wf_lookup w k l W Gk) as [p Hp].
  pose proof (map_get_elem _ _ _ Gk) as I.
  pose proof (prepareTick_well_formed acts w W) as W'.
  assert (Gk' : map_get (RuntimeState.patches (prepareTick acts w).2) k = Some l)
    by by rewrite prepareTick_patches.
  destruct (wf_lookup _ k l W' Gk') as [q Hq].
  pose proof (map_get_elem _ _ _ Gk') as I'.
  exists (advancePatch t p), (advancePatch t q). split.
  { destruct w as [hp s]. by apply (advance_lookup_mapped _ _ _ k). }
  split.
  { destruct (prepareTick acts w) as [hp' s']. by apply (advance_lookup_mapped _ _ _ k). }
  assert (Sh : same_shell p q ∧ RuntimePatch.rect p = RuntimePatch.rect q).
  { pose proof (prepare_fold_keeps_frame acts (w.1, RuntimeState.set_overlay None w.2))
      as (_ & _ & Es).
    specialize (Es l). cbn [fst] in Es. fold (prepareTick acts w) in Es.
    rewrite Hp, Hq in Es. change (Some (strip q) = Some (strip p)) in Es.
    apply (inj Some) in Es. destruct p, q.
    unfold strip, RuntimePatch.set_anim, same_shell in *. cbn in *.
    by injection Es as -> -> -> ->. }
  destruct Sh as [Sh Er].
  destruct (existsb (animates k) acts) eqn:A.
  - destruct (existsb (deforms k) acts) eqn:D.
    + right. right. split; [|by apply deforms_settles].
      eapply same_shell_trans; [apply advancePatch_shell|].
      eapply same_shell_trans; [exact Sh|]. apply same_shell_sym, advancePatch_shell.
    + right. left. split; [|by apply animates_cases].
      destruct (P k l p Gk Hp A) as [[F EF] [G EG]].
      destruct (primed_prepare acts w W C k l q Gk' Hq A) as [[F' EF'] [G' EG']].
      pose proof (S k l p F G Gk Hp EF EG D) as St.
      pose proof (sized_prepare acts w W X N k l q F' G' Gk' Hq EF' EG' D) as St'.
      destruct (steady_width _ _ _ t St Ft) as [E1 E2].
      destruct (steady_width _ _ _ t St' Ft) as [E3 E4].
      unfold advancePatch. rewrite EF, EG, EF', EG'.
      apply same_size_set_rect; [done|by rewrite E1, E3, Er|by rewrite E2, E4, Er].
  - left. f_equal.
    assert (q = p) as ->.
    { unfold prepareTick in Hq.
      rewrite (prepare_fold_untouched acts (w.1, RuntimeState.set_overlay None w.2)
                 k l) in Hq by done.
      cbn in Hq. congruence. }
    done.
Qed.

(* ------------------------------------------------------------------- *)
(** ** What frames keep true inside a step *)

Lemma sized_rest (acts : list Action) (w : World) :
  (∀ k, animated_in w k = false) → sized acts w.
Proof.
  intros N k l p F G Gk Hp HF HG _.
  assert (animated_in w k = true); [|by rewrite N in *].
  apply animated_in_Some. exists l, p. split; [done|]. split; [done|].
  unfold animated. by rewrite HF.
Qed.

Lemma rest_timed (prog : Program.t) (hc : Heap.t * Component.t) :
  (∀ k, animated_in (hc.1, Component.runtime hc.2) k = false) →
  Component.tInStep hc.2 = 0%float → timed prog hc.
Proof. intros N T. right. split; [by apply sized_rest|]. by rewrite T. Qed.

Lemma progress_finite (prog : Program.t) (x : float) :
  finite (Program.tickMs prog) = true → (Program.tickMs prog =? 0)%float = false →
  is_nan x = false → finite (clamp01 (x / Program.tickMs prog)) = true.
Proof. intros F Z N. by apply clamp01_finite, div_not_nan. Qed.

Lemma onTick_timed (prog : Program.t) (dt : float) (hc hc' : Heap.t * Component.t) :
  finite (Program.tickMs prog) = true → (Program.tickMs prog =? 0)%float = false →
  inv prog hc → timed prog hc →
  onTick prog dt hc.1 hc.2 = Some hc' → timed prog hc'.
Proof.
  intros Ft Zt I Tm Hev.
  destruct (decide (Component.playing hc.2 = true ∧ Program.steps prog ≠ [] ∧
                    (Program.tickMs prog <=? Component.tInStep hc.2 + dt)%float = true))
    as [(Hpl & Hne & Hc)|Nc].
  { destruct (onTick_commit_rest prog dt hc hc' I Hpl Hne Hc Hev) as (_ & An & T0 & _).
    by apply rest_timed. }
  destruct hc as [hp c]. destruct I as [S [Cu Ct]]. cbn [fst snd] in *.
  unfold onTick in Hev. unfold timed, current_actions, current_step in *.
  cbn [fst snd] in *.
  pose proof (clone_step_ok _ _ _ S) as S1.
  pose proof (clone_again_step_ok _ _ _ S) as S2.
  pose proof S as (C & W & _).
  pose proof (λ acts, sized_clone acts hp (Component.runtime c) C W) as Sc.
  pose proof (λ acts, primed_clone acts hp (Component.runtime c) C W) as Pc.
  destruct (cloneRuntimeState hp (Component.runtime c)) as [hp1 rt1] eqn:E1.
  cbn [fst] in S2.
  destruct (Component.playing c && (0 <? steps_length prog)%Z) eqn:Epl.
  2:{ injection Hev as <-. cbn [fst snd Component.runtime Component.tInStep].
      destruct Tm as [Tn|[Sz Pr]]; [by left|right].
      cbn [Component.stepIdx Component.tInStep] in *. split; [by apply Sc|].
      intros Z. by apply Pc, Pr. }
  apply andb_true_iff in Epl as [Hpl Len%Z.ltb_lt].
  destruct (steps_at_in_range (Program.steps prog) (Component.stepIdx c)) as [st Est].
  { unfold steps_length in *. lia. }
  unfold current_step in *. rewrite Est in *.
  cbn [mbind option_bind from_option] in *.
  destruct (Program.tickMs prog <=? Component.tInStep c + dt)%float eqn:Ecommit.
  { exfalso. apply Nc. split; [done|]. split; [|done].
    intros E. unfold steps_length in Len. rewrite E in Len. simpl in Len. lia. }
  destruct (is_nan (Component.tInStep c + dt)) eqn:Nn.
  { left. destruct (Component.tInStep c =? 0)%float;
      cbn [mbind option_bind] in Hev; injection Hev as <-; done. }
  pose proof (progress_finite prog _ Ft Zt Nn) as Fp.
  right. destruct (Component.tInStep c =? 0)%float eqn:Z0;
    cbn [mbind option_bind] in Hev; injection Hev as <-;
    cbn [fst snd Component.runtime Component.tInStep Component.stepIdx];
    rewrite Est; cbn [from_option].
  - rewrite <- surjective_pairing.
    assert (S1' : step_ok (Some st) (hp1, Component.runtime c)).
    { pose proof (clone_fresh hp (Component.runtime c)) as [[Hn _] Hold].
      rewrite E1 in Hn, Hold. cbn [fst] in Hn, Hold.
      apply (extend_step_ok _ hp); [done| |done|done]. by destruct S1 as [[? _] _]. }
    destruct S1' as (C1 & W1 & _). pose proof S2 as (C2 & W2 & _).
    split.
    + apply sized_advance; [|done]. apply sized_prepare; [done| |].
      * by apply exact_rects_clone.
      * by apply step_ok_named.
    + intros _. by apply primed_advance, primed_prepare.
  - destruct Tm as [Tn|[Sz Pr]].
    { by rewrite (nan_add _ dt Tn) in Nn. }
    split.
    + apply (sized_advance _ _ (hp1, rt1)); [|done]. by apply Sc.
    + intros _. apply (primed_advance _ _ (hp1, rt1)), Pc, Pr. done.
Qed.

Lemma reachable_timed (prog : Program.t) (hc : Heap.t * Component.t) :
  finite (Program.tickMs prog) = true → (Program.tickMs prog =? 0)%float = false →
  reachable prog hc → timed prog hc.
Proof.
  intros Ft Zt. induction 1 as [|hc ev hc' R IH Hev].
  - by apply rest_timed.
  - pose proof (reachable_inv _ _ R) as I. destruct ev; simpl in Hev.
    + by eapply onTick_timed.
    + destruct (stepOnce_inv prog hc hc' I Hev) as (_ & _ & An & T0).
      by apply rest_timed.
    + injection Hev as <-. exact IH.
    + injection Hev as <-. by apply rest_timed.
Qed.

(** With the same clone prepared, a frame that advances to any progress
    and Step, which advances to 1, commit to the same drawn state. *)
Lemma prepared_commit_view (st : Step.t) (t : float) (w : World) :
  step_ok (Some st) w → exact_rects w → finite t = true →
  view (commitActions (Step.actions st)
          (advanceInterpolations t (prepareTick (Step.actions st) w))) =
  view (commitActions (Step.actions st)
          (advanceInterpolations 1 (prepareTick (Step.actions st) w))).
Proof.
  intros S X Ft. pose proof S as (C & W & _).
  pose proof (prepareTick_step_ok st w S) as S'. pose proof S' as (C' & W' & _).
  apply commit_settles, agree_advance; try done.
  - apply sized_prepare; [done..|]. by apply step_ok_named.
  - by apply step_ok_named.
  - destruct (RuntimeState.measurementOverlay (prepareTick (Step.actions st) w).2)
      eqn:E; [right|by left].
    apply (prepareTick_overlay_Some _ w). by rewrite E.
Qed.

Lemma midtick_commit_view (st : Step.t) (t : float) (w : World) :
  step_ok (Some st) w → exact_rects w →
  sized (Step.actions st) w → primed (Step.actions st) w → finite t = true →
  view (commitActions (Step.actions st) (advanceInterpolations t w)) =
  view (commitActions (Step.actions st)
          (advanceInterpolations 1 (prepareTick (Step.actions st) w))).
Proof.
  intros S X Sz Pr Ft. pose proof S as (C & W & O & _).
  rewrite <- (prepared_commit_view st t w S X Ft).
  apply commit_settles, agree_prepare; try done.
  - by apply step_ok_named.
  - destruct (RuntimeState.measurementOverlay w.2) eqn:E; [right|by left].
    destruct O as (st' & [= <-] & T); [by eexists|done].
Qed.

(* ------------------------------------------------------------------- *)
(** ** Step and a frame of one tick end in the same state *)

(** C7 (as amended): in every state the component reaches while playing,
    with a program that has a step and a tick duration that is a finite
    number other than 0, one press of Step and one frame of exactly the
    tick duration that reaches the end of the tick end in the same drawn
    state (patches in map order and overlay) and the same cursor (step
    index, time 0, play flag), whether the frame comes at the start of
    the tick or in the middle of it.  The frame reaches the end of the
    tick when the test [newT >= program.tickMs] of the callback succeeds,
    as it does whenever the time inside the step is not negative
    ([tick_end]). *)
Theorem step_once_matches_full_tick (prog : Program.t) (hc : Heap.t * Component.t) :
  reachable prog hc →
  Component.playing hc.2 = true →
  Program.steps prog ≠ [] →
  finite (Program.tickMs prog) = true →
  (Program.tickMs prog =? 0)%float = false →
  (Program.tickMs prog <=? Component.tInStep hc.2 + Program.tickMs prog)%float = true →
  ∃ r1 r2,
    stepOnce prog hc.1 hc.2 = Some r1 ∧
    onTick prog (Program.tickMs prog) hc.1 hc.2 = Some r2 ∧
    observe r1 = observe r2.
Proof.
  intros R Hplay Hne Ft Zt Hend.
  pose proof (reachable_inv _ _ R) as [S [Cu _]].
  pose proof (reachable_timed _ _ Ft Zt R) as Tm.
  destruct hc as [hp c]. cbn [fst snd] in *.
  assert (0 < steps_length prog)%Z as Len.
  { unfold steps_length. destruct (Program.steps prog); [done|simpl; lia]. }
  destruct (steps_at_in_range (Program.steps prog) (Component.stepIdx c)) as [st Est].
  { unfold steps_length in *. lia. }
  unfold timed, current_actions, current_step in *. cbn [fst snd] in *.
  rewrite Est in *. cbn [from_option] in *.
  set (acts := Step.actions st) in *.
  set (w0 := cloneRuntimeState hp (Component.runtime c)).
  pose proof S as (C & W & _).
  pose proof (clone_step_ok _ _ _ S) as S0. fold w0 in S0.
  pose proof (exact_rects_clone hp (Component.runtime c) C W) as X0. fold w0 in X0.
  set (t01 := clamp01 ((Component.tInStep c + Program.tickMs prog)
                       / Program.tickMs prog)).
  assert (is_nan (Component.tInStep c) = false) as Tn'.
  { destruct (is_nan (Component.tInStep c)) eqn:E; [|done].
    apply (nan_add _ (Program.tickMs prog)) in E.
    destruct (leb_not_nan _ _ Hend) as [_ Hn]. by rewrite is_nan_SF, Hn in E. }
  assert (finite t01 = true) as Ft01.
  { apply progress_finite; [done..|].
    destruct (leb_not_nan _ _ Hend) as [_ Hn]. by rewrite is_nan_SF. }
  exists ((commitActions acts (advanceInterpolations 1 (prepareTick acts w0))).1,
          Component.mk
            (commitActions acts (advanceInterpolations 1 (prepareTick acts w0))).2
            (Z.min (Component.stepIdx c + 1) (steps_length prog - 1))
            0%float (Component.playing c)).
  destruct (Component.tInStep c =? 0)%float eqn:Z0.
  - (* at the start of the tick the frame prepares a second clone *)
    set (w0' := cloneRuntimeState w0.1 (Component.runtime c)).
    exists ((commitActions acts (advanceInterpolations t01 (prepareTick acts w0'))).1,
            Component.mk
              (commitActions acts (advanceInterpolations t01 (prepareTick acts w0'))).2
              (Z.min (steps_length prog - 1) (Component.stepIdx c + 1))
              0%float (Component.playing c)).
    split; [|split].
    + unfold stepOnce. rewrite (Z.min_l (Component.stepIdx c)) by lia.
      by rewrite Est.
    + unfold onTick. fold w0. rewrite (surjective_pairing w0).
      rewrite Hplay, Z0, Est. rewrite (proj2 (Z.ltb_lt _ _) Len).
      cbn [andb mbind option_bind]. fold acts w0' t01. by rewrite Hend.
    + unfold observe. cbn [fst snd Component.runtime Component.stepIdx
        Component.tInStep Component.playing].
      rewrite <- !surjective_pairing, Z.min_comm. do 3 f_equal.
      destruct C as [Ch Cs].
      pose proof (clone_twice_sim hp (Component.runtime c) Ch Cs) as Sm.
      cbv zeta in Sm. fold w0 w0' in Sm.
      apply (prepareTick_sim _ _ acts), (advance_sim _ _ t01),
        (commitActions_sim _ _ acts), view_sim in Sm.
      rewrite Sm. symmetry. by apply prepared_commit_view.
  - (* in the middle of the tick the frame advances what it finds *)
    exists ((commitActions acts (advanceInterpolations t01 w0)).1,
            Component.mk (commitActions acts (advanceInterpolations t01 w0)).2
              (Z.min (steps_length prog - 1) (Component.stepIdx c + 1))
              0%float (Component.playing c)).
    split; [|split].
    + unfold stepOnce. rewrite (Z.min_l (Component.stepIdx c)) by lia.
      by rewrite Est.
    + unfold onTick. fold w0. rewrite (surjective_pairing w0).
      rewrite Hplay, Z0, Est. rewrite (proj2 (Z.ltb_lt _ _) Len).
      cbn [andb mbind option_bind]. rewrite <- surjective_pairing.
      fold acts t01. by rewrite Hend.
    + unfold observe. cbn [fst snd Component.runtime Component.stepIdx
        Component.tInStep Component.playing].
      rewrite <- !surjective_pairing, Z.min_comm. do 3 f_equal.
      destruct Tm as [Tn|[Sz Pr]].
      { by rewrite Tn' in Tn. }
      symmetry. apply midtick_commit_view; try done.
      * by apply sized_clone.
      * apply primed_clone; [done..|]. by apply Pr.
Qed.

Lemma step_once_matches_full_tick_witness :
  (Component.stepIdx mid_move.2 = 1%Z ∧ Component.tInStep mid_move.2 = 350%float ∧
   Component.playing mid_move.2 = true) ∧
  ∃ r1 r2,
    stepOnce prog_move mid_move.1 mid_move.2 = Some r1 ∧
    onTick prog_move (Program.tickMs prog_move) mid_move.1 mid_move.2 = Some r2 ∧
    observe r1 = observe r2.
Proof.
  split; [by vm_compute|].
  apply (step_once_matches_full_tick prog_move mid_move);
    [apply state_after_reachable|by vm_compute..].
Defined.

(** C7 (as stated) fails for a cursor that is paused, as it is after a
    load or a reset: Step applies the step, the frame callback does
    not.  It fails for a program without steps: Step throws, the frame
    callback returns.  It also fails for a program whose tick duration
    is 0 or [Infinity]: a frame of that duration at the start of a step
    advances to the progress 0 / 0 or [Infinity / Infinity], which is
    NaN, and commits, so the patch that the step moves keeps a width of
    NaN where Step leaves the width 3. *)
Lemma step_once_differs_from_frame :
  observe <$> stepOnce prog_deform_and_measure Heap.empty Component.initial ≠
  observe <$> onTick prog_deform_and_measure 700 Heap.empty Component.initial ∧
  (stepOnce prog_empty Heap.empty playing_initial = None ∧
   onTick prog_empty (Program.tickMs prog_empty) Heap.empty playing_initial =
     Some (Heap.empty, playing_initial)) ∧
  (Component.playing before_move.2 = true ∧
   first_width_nan <$> (observe <$> stepOnce prog_no_time before_move.1 before_move.2) =
     Some false ∧
   first_width_nan <$> (observe <$> onTick prog_no_time (Program.tickMs prog_no_time)
                                      before_move.1 before_move.2) =
     Some true) ∧
  (Component.playing before_long_move.2 = true ∧
   first_width_nan <$> (observe <$> stepOnce prog_infinite_tick
                                      before_long_move.1 before_long_move.2) =
     Some false ∧
   first_width_nan <$> (observe <$> onTick prog_infinite_tick
                                      (Program.tickMs prog_infinite_tick)
                                      before_long_move.1 before_long_move.2) =
     Some true).
Proof.
  split; [|split; [|split]].
  - intros H. apply (f_equal (fmap (M := option) (λ o, o.1.1.2))) in H.
    vm_compute in H. discriminate.
  - by vm_compute.
  - by vm_compute.
  - by vm_compute.
Qed.
